(** * some-utils: the animation scheduler and its tween layer

    A shallow embedding of the animation module of the repository (the
    tick-driven scheduler, the per-instance callback registries, the
    target-exclusivity map, the easing table and the tween step) together
    with the properties stated about it.

    Numbers.  The source computes on IEEE doubles.  Here a finite number is
    an exact rational ([Qc]); the only non-finite number the module itself
    produces, the default [duration = Infinity], is [None] in an
    [option Qc].

    Objects.  Every [AnimationInstance] ever constructed lives in a heap
    (a list indexed by the instance's [id], which the source draws from the
    counter [count]); the three global [Set]s hold ids, in insertion order;
    the four global [CallbackMap]s are finite maps from ids to the
    insertion-ordered list of the callbacks of a [Set].

    Client code.  Callbacks are client functions that may call back into
    the module.  They are represented by scripts: finite sequences of calls
    of the exported factories and of the instance methods, plus writes of
    the two control fields [paused] and [timeScale]. *)

From Stdlib Require Import QArith Qcanon.
From stdpp Require Import numbers gmap strings list.

Close Scope Qc_scope.
Close Scope Q_scope.

(** ** Part 1 - numeric helpers, easing table, tween step *)

Module Easing.
Local Open Scope Qc_scope.

(** [const clamp = (x, min = 0, max = 1) => x < min ? min : x > max ? max : x] *)
Definition clamp (x min max : Qc) : Qc :=
  if bool_decide (x < min) then min
  else if bool_decide (max < x) then max
  else x.

(** [const lerp = (a, b, t) => a + (b - a) * t] *)
Definition lerp (a b t : Qc) : Qc := a + (b - a) * t.

Definition in2 (x : Qc) : Qc := x * x.
Definition in3 (x : Qc) : Qc := x * x * x.
Definition in4 (x : Qc) : Qc := x * x * x * x.
Definition in5 (x : Qc) : Qc := x * x * x * x * x.
Definition in6 (x : Qc) : Qc := x * x * x * x * x * x.
(** [out3: x => 1 - (x = 1 - x) * x * x]: the assignment rebinds [x] before
    the remaining factors are read. *)
Definition out2 (x : Qc) : Qc := let x := 1 - x in 1 - x * x.
Definition out3 (x : Qc) : Qc := let x := 1 - x in 1 - x * x * x.
Definition out4 (x : Qc) : Qc := let x := 1 - x in 1 - x * x * x * x.
Definition out5 (x : Qc) : Qc := let x := 1 - x in 1 - x * x * x * x * x.
Definition out6 (x : Qc) : Qc := let x := 1 - x in 1 - x * x * x * x * x * x.

(** The own properties of the object literal [easing], in source order. *)
Definition easing : list (string * (Qc → Qc)) :=
  [ ("in2", in2); ("in3", in3); ("in4", in4); ("in5", in5); ("in6", in6);
    ("out2", out2); ("out3", out3); ("out4", out4); ("out5", out5);
    ("out6", out6) ]%string.

Fixpoint assoc {A} (key : string) (l : list (string * A)) : option A :=
  match l with
  | [] => None
  | (k, v) :: l' => if String.eqb k key then Some v else assoc key l'
  end.

(** [easing] is a plain object: a property read that misses the own
    properties falls through to [Object.prototype]. *)
Definition object_prototype : list string :=
  [ "constructor"; "__proto__"; "hasOwnProperty"; "isPrototypeOf";
    "propertyIsEnumerable"; "toLocaleString"; "toString"; "valueOf";
    "__defineGetter__"; "__defineSetter__"; "__lookupGetter__";
    "__lookupSetter__" ]%string.

(** What a caller of [safeEase] may pass: a string, a function, or nothing
    (any value that is neither a string nor a function takes the last
    branch of the source as well). *)
Inductive EaseParam :=
| EaseString (name : string)
| EaseFunction (f : Qc → Qc)
| EaseOmitted.

(** What [safeEase] hands back. *)
Inductive EaseResult :=
| Curve (f : Qc → Qc)           (* a numeric function *)
| Inherited (name : string)     (* a member of [Object.prototype] *)
| Undefined.                    (* [undefined] *)

(** The property read [easing[ease]]. *)
Definition easing_get (name : string) : EaseResult :=
  match assoc name easing with
  | Some f => Curve f
  | None => if bool_decide (name ∈ object_prototype) then Inherited name
            else Undefined
  end.

(** [const safeEase = ease => { if (typeof ease === 'string') return easing[ease];
     if (typeof ease === 'function') return ease; return x => x }] *)
Definition safeEase (ease : EaseParam) : EaseResult :=
  match ease with
  | EaseString name => easing_get name
  | EaseFunction f => Curve f
  | EaseOmitted => Curve (λ x, x)
  end.

(** *** Tween targets

    A target is an object whose properties are numbers, objects or anything
    else.  [lerpObject] only looks one level into a property that is an
    object, so the fields of such an object are numbers or "other". *)
Inductive field :=
| FNum (x : Qc)
| FNaN
| FOther (tag : string).

Inductive value :=
| VNum (x : Qc)
| VNaN
| VObj (fields : list (string * field))
| VOther (tag : string).

Definition object := list (string * value).

(** [receiver[key] = v]: overwrite in place, or append a new property. *)
Fixpoint put {A} (key : string) (v : A) (l : list (string * A)) : list (string * A) :=
  match l with
  | [] => [(key, v)]
  | (k, w) :: l' => if String.eqb k key then (k, v) :: l' else (k, w) :: put key v l'
  end.

(** [new Set([...])] on keys: first occurrences, in order. *)
Fixpoint dedup_keys (seen l : list string) : list string :=
  match l with
  | [] => []
  | k :: l' => if bool_decide (k ∈ seen) then dedup_keys seen l'
               else k :: dedup_keys (k :: seen) l'
  end.

(** [cloneValue]: a shallow clone of an object, the value itself otherwise.
    Values are immutable here, so the clone is the value. *)
Definition cloneValue (v : option value) : option value := v.

(** Arithmetic of [lerp] on property values; anything that is not a pair
    of finite numbers leaves the exact model and is recorded as [NaN]. *)
Definition lerp_value (a b : option value) (t : option Qc) : value :=
  match a, b, t with
  | Some (VNum x), Some (VNum y), Some t => VNum (lerp x y t)
  | _, _, _ => VNaN
  end.

Definition lerp_field (va : Qc) (vb : option field) (t : option Qc) : field :=
  match vb, t with
  | Some (FNum y), Some t => FNum (lerp va y t)
  | _, _ => FNaN
  end.

(** [lerpObject(receiver, a, b, t)]: for every key of [a] whose value in
    [a] is a number, [receiver[key] = lerp(a[key], b[key], t)]. *)
Fixpoint lerpObject_keys (receiver : list (string * field))
    (a_rest a b : list (string * field)) (t : option Qc) : list (string * field) :=
  match a_rest with
  | [] => receiver
  | (key, va) :: rest =>
      let receiver :=
        match va with
        | FNum x => put key (lerp_field x (assoc key b) t) receiver
        | FNaN => put key FNaN receiver
        | FOther _ => receiver
        end in
      lerpObject_keys receiver rest a b t
  end.

Definition lerpObject (receiver a b : list (string * field)) (t : option Qc) :=
  lerpObject_keys receiver a a b t.

(** The [??] of [from?.[key] ?? target[key]]. *)
Definition nullish {A} (x y : option A) : option A :=
  match x with Some _ => x | None => y end.

(** What [tween] computes once, at creation. *)
Record TweenBinding := mkTween {
  keys : list string;
  _from : list (string * option value);
  _to : list (string * option value);
  _ease : EaseResult
}.

Definition tween_bind (target : object) (from to : option object)
    (ease : EaseParam) : TweenBinding :=
  let keys := dedup_keys [] ((default [] from).*1 ++ (default [] to).*1) in
  {| keys := keys;
     _from := map (λ key, (key, cloneValue
                 (nullish (from ≫= assoc key) (assoc key target)))) keys;
     _to := map (λ key, (key, cloneValue
                 (nullish (to ≫= assoc key) (assoc key target)))) keys;
     _ease := safeEase ease |}.

(** [const t = _ease(progress)].  [None] stands for a value that is not a
    finite number: [NaN] coming in, or [_ease] not being a numeric curve
    (the call of [undefined] throws in the source). *)
Definition apply_ease (e : EaseResult) (progress : option Qc) : option Qc :=
  match e, progress with
  | Curve f, Some p => Some (f p)
  | _, _ => None
  end.

(** The body of the frame callback of a tween, one key. *)
Definition tween_key (tw : TweenBinding) (t : option Qc) (target : object)
    (key : string) : object :=
  match assoc key target with
  | Some (VNum _) | Some VNaN =>
      put key (lerp_value (mjoin (assoc key (_from tw)))
                          (mjoin (assoc key (_to tw))) t) target
  | Some (VObj fields) =>
      match mjoin (assoc key (_from tw)), mjoin (assoc key (_to tw)) with
      | Some (VObj a), Some (VObj b) =>
          put key (VObj (lerpObject fields a b t)) target
      | Some (VObj a), _ => put key (VObj (lerpObject fields a [] t)) target
      | _, _ => target
      end
  | _ => target
  end.

(** The frame callback of a tween: [({ progress }) => { ... }]. *)
Definition tween_frame (tw : TweenBinding) (progress : option Qc)
    (target : object) : object :=
  foldl (tween_key tw (apply_ease (_ease tw) progress)) target (keys tw).

End Easing.

(** ** Part 2 - the scheduler *)

(** *** Instances *)

Record AnimationInstance := mkInstance {
  id : nat;
  startTime : Qc;
  startFrame : nat;
  timeScale : Qc;
  paused : bool;
  time : Qc;
  timeOld : Qc;
  deltaTime : Qc;
  duration : option Qc;          (* [None] is [Infinity] *)
  destroyed : bool;
  frame : nat
}.

(** [get complete() { return this.time >= this.duration }] *)
Definition complete (a : AnimationInstance) : bool :=
  match duration a with
  | Some d => bool_decide (d ≤ time a)%Qc
  | None => false
  end.

(** [get normalizedTime() { return clamp(this.time, 0, this.duration) }] *)
Definition normalizedTime (a : AnimationInstance) : Qc :=
  match duration a with
  | Some d => Easing.clamp (time a) 0%Qc d
  | None => if bool_decide (time a < 0)%Qc then 0%Qc else time a
  end.

(** [get progress() { return clamp(this.time / this.duration, 0, 1) }].
    A finite time over [Infinity] is 0; a time over a zero duration is an
    infinity of the sign of the time, which [clamp] cuts to 0 or 1, and
    [0 / 0] is [NaN], which [clamp] lets through ([None]). *)
Definition progress (a : AnimationInstance) : option Qc :=
  match duration a with
  | None => Some 0%Qc
  | Some d =>
      if bool_decide (d = 0%Qc) then
        if bool_decide (time a = 0%Qc) then None
        else if bool_decide (time a < 0)%Qc then Some 0%Qc else Some 1%Qc
      else Some (Easing.clamp (time a / d)%Qc 0%Qc 1%Qc)
  end.

(** *** Client code *)

(** The four global callback registries. *)
Inductive kind := KDestroy | KComplete | KFrame | KNextFrame.

(** The two target-exclusivity maps ([loopMap], [duringMap]). *)
Inductive which := LoopMap | DuringMap.

(** How a script names an instance: the argument of the running callback,
    a reference the client kept (by id), or the value of the most recent
    factory call of the script. *)
Inductive ref := Self | Inst (i : nat) | Last.

(** [TimingParam]: an object, an array or a number. *)
Inductive TimingParam :=
| TimingObject (duration : option Qc) (delay : option Qc) (immediate : option bool)
| TimingArray (duration : option Qc) (delay : option Qc) (immediate : option bool)
| TimingNumber (duration : option Qc).

(** A client function, as the calls it makes into the module, in order.
    [n] in a registration is the identity of the function object passed
    (a [Set] keeps one entry per function object). *)
Inductive script :=
| Return (brk : bool)                                  (* [return BREAK] or a plain return *)
| Destroy (r : ref) (k : script)                       (* [r.destroy()] *)
| SetPaused (r : ref) (b : bool) (k : script)          (* [r.paused = b] *)
| SetTimeScale (r : ref) (x : Qc) (k : script)         (* [r.timeScale = x] *)
| OnFrame (r : ref) (n : nat) (cb : script) (k : script)
| OnComplete (r : ref) (n : nat) (cb : script) (k : script)
| OnDestroy (r : ref) (n : nat) (cb : script) (k : script)
| WaitDestroy (r : ref) (k : script)
| WaitCompletion (r : ref) (k : script)
| NextFrame (r : ref) (k : script)
| Loop (n : nat) (cb : script) (k : script)
| LoopWithTarget (target : nat) (n : nat) (cb : script) (k : script)
| LoopCancelTarget (target : nat) (k : script)
| During (tp : TimingParam) (n : nat) (cb : script) (k : script)
| DuringNoCallback (tp : TimingParam) (k : script)
| DuringWithTarget (target : nat) (tp : TimingParam) (n : nat) (cb : script) (k : script)
| DuringWithTargetNoCallback (target : nat) (tp : TimingParam) (k : script)
| DuringCancelTarget (target : nat) (k : script)
| Wait (d : option Qc) (k : script).

(** Identity of a function object: one the client named, or a closure the
    module allocated itself. *)
Inductive cbid := Named (n : nat) | Anon (n : nat).

Global Instance cbid_eq_dec : EqDecision cbid.
Proof. solve_decision. Defined.
Global Instance kind_eq_dec : EqDecision kind.
Proof. solve_decision. Defined.
Global Instance which_eq_dec : EqDecision which.
Proof. solve_decision. Defined.

(** What a stored callback does when it is called. *)
Inductive code :=
| Run (body : script)                            (* client function *)
| Resolve                                        (* the [resolve] of a Promise *)
| MapCleanup (w : which) (target : nat) (animation : nat).
                                                 (* the closure of [AnimationMap.set] *)

Record callback := mkCallback { cb_id : cbid; cb_code : code }.

(** What the scheduler did, newest first. *)
Inductive event :=
| EvUpdate (a : nat)                       (* [updateAnimation(a)] entered *)
| EvFrame (a : nat)                        (* ... and its [time >= 0] branch taken *)
| EvCall (k : kind) (a : nat) (c : cbid)   (* a callback of registry [k] called on [a] *)
| EvImmediate (a : nat) (c : cbid).        (* the [immediate] call made by [during] *)

Global Instance event_eq_dec : EqDecision event.
Proof. solve_decision. Defined.

(** *** Module state *)

Record State := mkState {
  info_time : Qc;                 (* [let time = 0] *)
  info_timeOld : Qc;
  info_deltaTime : Qc;
  info_frame : nat;
  heap : list AnimationInstance;  (* the instance of id [i] is at index [i] *)
  registry : kind → gmap nat (list callback);
                                  (* the four global [CallbackMap]s *)
  animations : list nat;
  newAnimations : list nat;
  destroyedAnimations : list nat;
  updating : bool;
  targets : which → gmap nat nat; (* [loopMap.map] and [duringMap.map] *)
  closures : nat;                 (* closures allocated by the module so far *)
  trace : list event
}.

Abbreviation destroyCallbacks s := (registry s KDestroy).
Abbreviation completeCallbacks s := (registry s KComplete).
Abbreviation frameCallbacks s := (registry s KFrame).
Abbreviation nextFrameCallbacks s := (registry s KNextFrame).
Abbreviation loopMap s := (targets s LoopMap).
Abbreviation duringMap s := (targets s DuringMap).

(** [let count = 0 ... id = count++]: the next id is the number of
    instances constructed so far. *)
Definition count (s : State) : nat := length (heap s).

Definition initial : State :=
  {| info_time := 0%Qc; info_timeOld := 0%Qc; info_deltaTime := 0%Qc; info_frame := 0;
     heap := []; registry := λ _, ∅;
     animations := []; newAnimations := []; destroyedAnimations := [];
     updating := false; targets := λ _, ∅; closures := 0; trace := [] |}.

Definition with_clock (t told dt : Qc) (f : nat) (s : State) : State :=
  mkState t told dt f (heap s)
    (registry s) (animations s) (newAnimations s) (destroyedAnimations s)
    (updating s) (targets s) (closures s) (trace s).

Definition with_heap (h : list AnimationInstance) (s : State) : State :=
  mkState (info_time s) (info_timeOld s) (info_deltaTime s) (info_frame s) h
    (registry s) (animations s) (newAnimations s) (destroyedAnimations s)
    (updating s) (targets s) (closures s) (trace s).

Definition with_registry (k : kind) (m : gmap nat (list callback)) (s : State) : State :=
  mkState (info_time s) (info_timeOld s) (info_deltaTime s) (info_frame s) (heap s)
    (λ k', if decide (k' = k) then m else registry s k') (animations s) (newAnimations s) (destroyedAnimations s)
    (updating s) (targets s) (closures s) (trace s).

Definition with_animations (l : list nat) (s : State) : State :=
  mkState (info_time s) (info_timeOld s) (info_deltaTime s) (info_frame s) (heap s)
    (registry s) l (newAnimations s) (destroyedAnimations s)
    (updating s) (targets s) (closures s) (trace s).

Definition with_newAnimations (l : list nat) (s : State) : State :=
  mkState (info_time s) (info_timeOld s) (info_deltaTime s) (info_frame s) (heap s)
    (registry s) (animations s) l (destroyedAnimations s)
    (updating s) (targets s) (closures s) (trace s).

Definition with_destroyedAnimations (l : list nat) (s : State) : State :=
  mkState (info_time s) (info_timeOld s) (info_deltaTime s) (info_frame s) (heap s)
    (registry s) (animations s) (newAnimations s) l
    (updating s) (targets s) (closures s) (trace s).

Definition with_updating (b : bool) (s : State) : State :=
  mkState (info_time s) (info_timeOld s) (info_deltaTime s) (info_frame s) (heap s)
    (registry s) (animations s) (newAnimations s) (destroyedAnimations s)
    b (targets s) (closures s) (trace s).

Definition with_targets (w : which) (m : gmap nat nat) (s : State) : State :=
  mkState (info_time s) (info_timeOld s) (info_deltaTime s) (info_frame s) (heap s)
    (registry s) (animations s) (newAnimations s) (destroyedAnimations s)
    (updating s) (λ w', if decide (w' = w) then m else targets s w') (closures s) (trace s).

Definition with_closures (n : nat) (s : State) : State :=
  mkState (info_time s) (info_timeOld s) (info_deltaTime s) (info_frame s) (heap s)
    (registry s) (animations s) (newAnimations s) (destroyedAnimations s)
    (updating s) (targets s) n (trace s).

Definition emit (e : event) (s : State) : State :=
  mkState (info_time s) (info_timeOld s) (info_deltaTime s) (info_frame s) (heap s)
    (registry s) (animations s) (newAnimations s) (destroyedAnimations s)
    (updating s) (targets s) (closures s) (e :: trace s).

(** An assignment to fields of the instance of id [a]. *)
Definition modify (a : nat) (f : AnimationInstance → AnimationInstance) (s : State) : State :=
  with_heap (alter f a (heap s)) s.

Definition set_destroyed (b : bool) (i : AnimationInstance) : AnimationInstance :=
  mkInstance (id i) (startTime i) (startFrame i) (timeScale i) (paused i) (time i)
    (timeOld i) (deltaTime i) (duration i) b (frame i).

Definition set_paused (b : bool) (i : AnimationInstance) : AnimationInstance :=
  mkInstance (id i) (startTime i) (startFrame i) (timeScale i) b (time i)
    (timeOld i) (deltaTime i) (duration i) (destroyed i) (frame i).

Definition set_timeScale (x : Qc) (i : AnimationInstance) : AnimationInstance :=
  mkInstance (id i) (startTime i) (startFrame i) x (paused i) (time i)
    (timeOld i) (deltaTime i) (duration i) (destroyed i) (frame i).

Definition set_timing (d : option Qc) (t : Qc) (i : AnimationInstance) : AnimationInstance :=
  mkInstance (id i) (startTime i) (startFrame i) (timeScale i) (paused i) t
    (timeOld i) (deltaTime i) d (destroyed i) (frame i).

(** The first three statements of [updateAnimation]. *)
Definition advance (dt : Qc) (i : AnimationInstance) : AnimationInstance :=
  let deltaTime' := (dt * timeScale i)%Qc in
  mkInstance (id i) (startTime i) (startFrame i) (timeScale i) (paused i)
    (time i + deltaTime')%Qc (time i) deltaTime' (duration i) (destroyed i) (frame i).

(** [animation.frame += 1] *)
Definition incr_frame (i : AnimationInstance) : AnimationInstance :=
  mkInstance (id i) (startTime i) (startFrame i) (timeScale i) (paused i) (time i)
    (timeOld i) (deltaTime i) (duration i) (destroyed i) (S (frame i)).

(** *** [Set] and [CallbackMap] *)

(** [Set.prototype.add] on ids: insertion order, one entry per element. *)
Definition set_add (a : nat) (l : list nat) : list nat :=
  if bool_decide (a ∈ l) then l else l ++ [a].

(** [Set.prototype.delete] on ids. *)
Definition set_delete (a : nat) (l : list nat) : list nat :=
  filter (λ b, b ≠ a) l.

(** [Set.prototype.add] on function objects. *)
Definition cbset_add (cb : callback) (l : list callback) : list callback :=
  if bool_decide (cb_id cb ∈ cb_id <$> l) then l else l ++ [cb].

(** [CallbackMap.add]: [const set = this.get(animation) ?? create(animation); set.add(cb)] *)
Definition CallbackMap_add (a : nat) (cb : callback) (m : gmap nat (list callback))
    : gmap nat (list callback) :=
  <[a := cbset_add cb (default [] (m !! a))]> m.

(** [CallbackMap.getAndDelete]: the set that was stored, and the map without it. *)
Definition CallbackMap_getAndDelete (a : nat) (m : gmap nat (list callback))
    : option (list callback) * gmap nat (list callback) :=
  (m !! a, match m !! a with Some _ => delete a m | None => m end).

(** The callbacks registered for [a] in registry [k] ([?? nothing]). *)
Definition callbacks (k : kind) (a : nat) (s : State) : list callback :=
  default [] (registry s k !! a).

(** *** Instance methods *)

(** The bound [destroy] of the constructor:
    [if (this.destroyed === false) { destroyedAnimations.add(this); this.destroyed = true }] *)
Definition destroy (a : nat) (s : State) : State :=
  match heap s !! a with
  | Some i =>
      if destroyed i then s
      else modify a (set_destroyed true)
             (with_destroyedAnimations (set_add a (destroyedAnimations s)) s)
  | None => s
  end.

(** [onFrame], [onComplete], [onDestroy]:
    [if (this.destroyed === false && cb) { xCallbacks.add(this, cb) }] *)
Definition register (k : kind) (a : nat) (cb : option callback) (s : State) : State :=
  match heap s !! a, cb with
  | Some i, Some cb =>
      if destroyed i then s
      else with_registry k (CallbackMap_add a cb (registry s k)) s
  | _, _ => s
  end.

Definition onFrame := register KFrame.
Definition onComplete := register KComplete.
Definition onDestroy := register KDestroy.

(** [new Promise(resolve => xCallbacks.add(this, resolve))]: the executor
    runs at once; the result is the identity of the fresh [resolve]. *)
Definition promise (k : kind) (a : nat) (s : State) : State * option nat :=
  let c := closures s in
  (with_registry k (CallbackMap_add a (mkCallback (Anon c) Resolve) (registry s k))
     (with_closures (S c) s), Some c).

(** [waitDestroy() { if (this.destroyed) return null; return new Promise(...) }] *)
Definition waitDestroy (a : nat) (s : State) : State * option nat :=
  match heap s !! a with
  | Some i => if destroyed i then (s, None) else promise KDestroy a s
  | None => (s, None)
  end.

(** [waitCompletion() { if (this.destroyed || this.complete) return null; ... }] *)
Definition waitCompletion (a : nat) (s : State) : State * option nat :=
  match heap s !! a with
  | Some i => if destroyed i || complete i then (s, None) else promise KComplete a s
  | None => (s, None)
  end.

(** [nextFrame() { if (this.destroyed) return null; return new Promise(...) }] *)
Definition nextFrame (a : nat) (s : State) : State * option nat :=
  match heap s !! a with
  | Some i => if destroyed i then (s, None) else promise KNextFrame a s
  | None => (s, None)
  end.

(** [(updating ? newAnimations : animations).add(animation)] *)
Definition addAnimation (a : nat) (s : State) : State :=
  if updating s then with_newAnimations (set_add a (newAnimations s)) s
  else with_animations (set_add a (animations s)) s.

(** The constructor: field initialisers, [this.onFrame(cb)],
    [addAnimation(this)]. *)
Definition new_AnimationInstance (cb : option callback) (s : State) : State * nat :=
  let a := count s in
  let i := {| id := a; startTime := info_time s; startFrame := info_frame s;
              timeScale := 1%Qc; paused := false; time := 0%Qc; timeOld := 0%Qc;
              deltaTime := 0%Qc; duration := None; destroyed := false; frame := 0 |} in
  let s := with_heap (heap s ++ [i]) s in
  let s := onFrame a cb s in
  (addAnimation a s, a).

(** *** Factories *)

Record Timing := mkTiming {
  t_duration : option Qc;
  t_delay : option Qc;
  t_immediate : option bool
}.

Definition fromTimingParam (tp : TimingParam) : Timing :=
  match tp with
  | TimingNumber d => mkTiming d (Some 0%Qc) None
  | TimingArray d delay immediate => mkTiming d delay immediate
  | TimingObject d delay immediate => mkTiming d delay immediate
  end.

(** [const { duration, delay = 0, immediate = false } = fromTimingParam(timing)] *)
Definition delay_of (tp : TimingParam) : Qc := default 0%Qc (t_delay (fromTimingParam tp)).
Definition immediate_of (tp : TimingParam) : bool :=
  default false (t_immediate (fromTimingParam tp)).

(** [during], up to its [immediate] call: construct, then
    [animation.duration = duration; animation.time = -delay]. *)
Definition during_setup (tp : TimingParam) (cb : option callback) (s : State) : State * nat :=
  let '(s, a) := new_AnimationInstance cb s in
  (modify a (set_timing (t_duration (fromTimingParam tp)) (- delay_of tp)%Qc) s, a).

(** [const loop = cb => new AnimationInstance(cb)] *)
Definition loop (cb : callback) (s : State) : State * nat :=
  new_AnimationInstance (Some cb) s.

(** [AnimationMap.get] *)
Definition AnimationMap_get (w : which) (target : nat) (s : State) : option nat :=
  targets s w !! target.

(** [AnimationMap.set]:
    [this.map.get(target)?.destroy(); this.map.set(target, animation);
     animation.onDestroy(() => { if (this.map.get(target) === animation) this.map.delete(target) })] *)
Definition AnimationMap_set (w : which) (target : nat) (a : nat) (s : State) : State :=
  let s := match AnimationMap_get w target s with
           | Some old => destroy old s
           | None => s
           end in
  let s := with_targets w (<[target := a]> (targets s w)) s in
  let c := closures s in
  onDestroy a (Some (mkCallback (Anon c) (MapCleanup w target a))) (with_closures (S c) s).

(** [loopCancelTarget], [duringCancelTarget]: [map.get(target)?.destroy()] *)
Definition cancelTarget (w : which) (target : nat) (s : State) : State :=
  match AnimationMap_get w target s with
  | Some a => destroy a s
  | None => s
  end.

Definition loopWithTarget (target : nat) (cb : callback) (s : State) : State * nat :=
  let '(s, a) := loop cb s in (AnimationMap_set LoopMap target a s, a).

(** *** Running client code *)

Definition deref (r : ref) (self last : option nat) : option nat :=
  match r with Self => self | Inst i => Some i | Last => last end.

Definition on (o : option nat) (f : nat → State → State) (s : State) : State :=
  match o with Some a => f a s | None => s end.

Definition client (n : nat) (body : script) : callback := mkCallback (Named n) (Run body).

(** [exec sc self last s]: the client function [sc] called with the
    instance [self] as argument, [last] being the value of its most recent
    factory call.  The result is the state it leaves and whether it
    returned [BREAK]. *)
Fixpoint exec (sc : script) (self last : option nat) (s : State) : State * bool :=
  match sc with
  | Return brk => (s, brk)
  | Destroy r k => exec k self last (on (deref r self last) destroy s)
  | SetPaused r b k =>
      exec k self last (on (deref r self last) (λ a, modify a (set_paused b)) s)
  | SetTimeScale r x k =>
      exec k self last (on (deref r self last) (λ a, modify a (set_timeScale x)) s)
  | OnFrame r n cb k =>
      exec k self last (on (deref r self last) (λ a, onFrame a (Some (client n cb))) s)
  | OnComplete r n cb k =>
      exec k self last (on (deref r self last) (λ a, onComplete a (Some (client n cb))) s)
  | OnDestroy r n cb k =>
      exec k self last (on (deref r self last) (λ a, onDestroy a (Some (client n cb))) s)
  | WaitDestroy r k =>
      exec k self last (on (deref r self last) (λ a s, (waitDestroy a s).1) s)
  | WaitCompletion r k =>
      exec k self last (on (deref r self last) (λ a s, (waitCompletion a s).1) s)
  | NextFrame r k =>
      exec k self last (on (deref r self last) (λ a s, (nextFrame a s).1) s)
  | Loop n cb k =>
      let '(s, a) := loop (client n cb) s in
      exec k self (Some a) s
  | LoopWithTarget target n cb k =>
      let '(s, a) := loopWithTarget target (client n cb) s in
      exec k self (Some a) s
  | LoopCancelTarget target k => exec k self last (cancelTarget LoopMap target s)
  | During tp n cb k =>
      let '(s, a) := during_setup tp (Some (client n cb)) s in
      (* [if (immediate && cb) { cb(animation) }] *)
      let s := if immediate_of tp
               then (exec cb (Some a) None (emit (EvImmediate a (Named n)) s)).1
               else s in
      exec k self (Some a) s
  | DuringNoCallback tp k =>
      let '(s, a) := during_setup tp None s in
      exec k self (Some a) s
  | DuringWithTarget target tp n cb k =>
      let '(s, a) := during_setup tp (Some (client n cb)) s in
      let s := if immediate_of tp
               then (exec cb (Some a) None (emit (EvImmediate a (Named n)) s)).1
               else s in
      exec k self (Some a) (AnimationMap_set DuringMap target a s)
  | DuringWithTargetNoCallback target tp k =>
      (* the default parameter [cb = () => {}] is a fresh closure *)
      let c := closures s in
      let '(s, a) := during_setup tp (Some (mkCallback (Anon c) (Run (Return false))))
                       (with_closures (S c) s) in
      let s := if immediate_of tp then emit (EvImmediate a (Anon c)) s else s in
      exec k self (Some a) (AnimationMap_set DuringMap target a s)
  | DuringCancelTarget target k => exec k self last (cancelTarget DuringMap target s)
  | Wait d k =>
      (* [during(duration).waitDestroy()!] *)
      let '(s, a) := during_setup (TimingNumber d) None s in
      exec k self (Some a) (waitDestroy a s).1
  end.

(** The scheduler calling a stored callback of registry [k] on [a]. *)
Definition invoke (k : kind) (cb : callback) (a : nat) (s : State) : State * bool :=
  let s := emit (EvCall k a (cb_id cb)) s in
  match cb_code cb with
  | Run body => exec body (Some a) None s
  | Resolve => (s, false)
  | MapCleanup w target animation =>
      (if bool_decide (AnimationMap_get w target s = Some animation)
       then with_targets w (delete target (targets s w)) s
       else s, false)
  end.

(** *** Iteration over a [Set] of callbacks

    A [for ... of] over a [Set] also visits the elements added while it
    runs.  [iterate] walks the set stored for [a] by position and reads it
    again at every step; its fuel is an upper bound of the number of
    visits, computed from the size of the scripts in the set (a script can
    only register functions that occur in it; lemma [iterate_adequate]
    below shows that the bound is never what ends the loop). *)

Fixpoint script_size (sc : script) : nat :=
  match sc with
  | Return _ => 1
  | Destroy _ k | SetPaused _ _ k | SetTimeScale _ _ k
  | WaitDestroy _ k | WaitCompletion _ k | NextFrame _ k
  | LoopCancelTarget _ k | DuringNoCallback _ k | DuringWithTargetNoCallback _ _ k
  | DuringCancelTarget _ k | Wait _ k => 3 + script_size k
  | OnFrame _ _ cb k | OnComplete _ _ cb k | OnDestroy _ _ cb k
  | Loop _ cb k | LoopWithTarget _ _ cb k | During _ _ cb k
  | DuringWithTarget _ _ _ cb k => 3 + script_size cb + script_size k
  end.

Definition callback_size (cb : callback) : nat :=
  match cb_code cb with Run body => script_size body | _ => 1 end.

Definition set_size (l : list callback) : nat := sum_list (callback_size <$> l).

Fixpoint iterate (fuel : nat) (k : kind) (a : nat) (i : nat) (done : bool) (s : State)
    : State * bool :=
  match fuel with
  | 0 => (s, done)
  | S fuel =>
      match callbacks k a s !! i with
      | None => (s, done)
      | Some cb =>
          let '(s, r) := invoke k cb a s in
          (* [done = (cb(animation) === BREAK) || done] *)
          iterate fuel k a (S i) (r || done) s
      end
  end.

(** Iteration over a set that was taken out of its map: its elements are
    the ones it had. *)
Fixpoint iterate_detached (k : kind) (l : list callback) (a : nat) (done : bool) (s : State)
    : State * bool :=
  match l with
  | [] => (s, done)
  | cb :: l =>
      let '(s, r) := invoke k cb a s in
      iterate_detached k l a (r || done) s
  end.

Definition is_complete (a : nat) (s : State) : bool :=
  match heap s !! a with Some i => complete i | None => false end.

Definition time_of (a : nat) (s : State) : Qc :=
  match heap s !! a with Some i => time i | None => 0%Qc end.

(** [updateAnimation] *)
Definition updateAnimation (a : nat) (s : State) : State :=
  let s := emit (EvUpdate a) s in
  let s := modify a (advance (info_deltaTime s)) s in
  if bool_decide (0 ≤ time_of a s)%Qc then
    let s := emit (EvFrame a) s in
    let s := modify a incr_frame s in
    let '(s, done) := iterate (set_size (callbacks KFrame a s)) KFrame a 0 false s in
    let '(set, m) := CallbackMap_getAndDelete a (nextFrameCallbacks s) in
    let '(s, done) := iterate_detached KNextFrame (default [] set) a done
                        (with_registry KNextFrame m s) in
    let s := if is_complete a s
             then (iterate (set_size (callbacks KComplete a s)) KComplete a 0 false s).1
             else s in
    if done || is_complete a s then destroy a s else s
  else s.

(** [destroyAnimation] *)
Definition destroyAnimation (a : nat) (s : State) : State :=
  let s := with_animations (set_delete a (animations s)) s in
  let s := with_registry KFrame (delete a (frameCallbacks s)) s in
  let s := with_registry KNextFrame (delete a (nextFrameCallbacks s)) s in
  let '(set, m) := CallbackMap_getAndDelete a (destroyCallbacks s) in
  let s := with_registry KDestroy m s in
  match set with
  | Some l => (iterate_detached KDestroy l a false s).1
  | None => s
  end.

(** One turn of the first loop of [updateAnimations]:
    [if (animation.destroyed === false && animation.paused === false) updateAnimation(animation)] *)
Definition visit (a : nat) (s : State) : State :=
  match heap s !! a with
  | Some i => if negb (destroyed i) && negb (paused i) then updateAnimation a s else s
  | None => s
  end.

(** [for (const animation of animations) ...] over the elements [l] of
    [animations].  While [updating] is set nothing adds to or deletes from
    [animations] (lemma [animations_fixed_while_updating] below), so the
    elements visited are the ones the set has when the loop starts. *)
Fixpoint mainLoop (l : list nat) (s : State) : State :=
  match l with
  | [] => s
  | a :: l => mainLoop l (visit a s)
  end.

Definition live_count (s : State) : nat :=
  length (filter (λ i, destroyed i = false) (heap s)).

Definition registry_size (m : gmap nat (list callback)) : nat :=
  map_fold (λ _ l n, set_size l + n) 0 m.

(** [for (const animation of destroyedAnimations) destroyAnimation(animation)]:
    [destroy()] calls made by "on destroy" callbacks add to the set while
    the loop runs, and the loop reaches them.  The fuel [destroy_fuel]
    bounds the number of turns (lemma [destroyLoop_adequate] below). *)
Fixpoint destroyLoop (fuel : nat) (i : nat) (s : State) : State :=
  match fuel with
  | 0 => s
  | S fuel =>
      match destroyedAnimations s !! i with
      | None => s
      | Some a => destroyLoop fuel (S i) (destroyAnimation a s)
      end
  end.

Definition destroy_fuel (s : State) : nat :=
  length (destroyedAnimations s) + live_count s + registry_size (destroyCallbacks s).

(** [updateAnimations] *)
Definition updateAnimations (s : State) : State :=
  let s := with_updating true s in
  let s := mainLoop (animations s) s in
  let s := destroyLoop (destroy_fuel s) 0 s in
  let s := with_destroyedAnimations [] s in
  let s := with_animations (foldl (λ l a, set_add a l) (animations s) (newAnimations s)) s in
  with_updating false s.

(** [_innerLoop(ms)], without the re-arming of [requestAnimationFrame]. *)
Definition _innerLoop (ms : Qc) (s : State) : State :=
  let t := (ms / Q2Qc 1000)%Qc in
  let s := with_clock t (info_time s) (t - info_time s)%Qc (S (info_frame s)) s in
  updateAnimations s.

(** *** Runs

    Between two animation frames the client may run any code of its own
    (event handlers, continuations of awaited promises). *)
Inductive step :=
| Frame (ms : Qc)          (* the browser calls [_innerLoop(ms)] *)
| Call (sc : script).      (* client code runs outside of any callback *)

Definition do_step (st : step) (s : State) : State :=
  match st with
  | Frame ms => _innerLoop ms s
  | Call sc => (exec sc None None s).1
  end.

Definition run (steps : list step) (s : State) : State := foldl (λ s st, do_step st s) s steps.

Definition reachable (s : State) : Prop := ∃ steps, s = run steps initial.

(** ** Part 3 - atomic steps

    Everything the module does to its state is a sequence of the following
    atomic steps, each with a label that says what it touches.  Client
    code can only cause the steps of the first group. *)

Inductive label :=
| LDestroy (a : nat)
| LControl (a : nat)
| LRegister (k : kind) (a : nat) (c : cbid)
| LClosure
| LCreate (a : nat)
| LTargetSet (w : which) (t : nat)
| LImmediate
| LTargetDelete (w : which) (t : nat)
| LEmit (e : event)
| LAdvance (a : nat)
| LIncrFrame (a : nat)
| LUnregister (k : kind) (a : nat)
| LRemove (a : nat)
| LMerge
| LClear
| LUpdating
| LClock.

(** A closure the module allocates takes the next free identity. *)
Definition allocated (cb : callback) (s : State) : Prop :=
  match cb_id cb with Anon c => c < closures s | Named _ => True end.

Definition event_instance (e : event) : nat :=
  match e with EvUpdate a | EvFrame a | EvCall _ a _ | EvImmediate a _ => a end.

Definition alive (a : nat) (s : State) : Prop :=
  ∃ i, heap s !! a = Some i ∧ destroyed i = false.

Definition is_destroyed (a : nat) (s : State) : Prop :=
  ∃ i, heap s !! a = Some i ∧ destroyed i = true.

Inductive atomic : label → State → State → Prop :=
| at_destroy a s : atomic (LDestroy a) s (destroy a s)
| at_paused a b s : atomic (LControl a) s (modify a (set_paused b) s)
| at_timeScale a x s : atomic (LControl a) s (modify a (set_timeScale x) s)
| at_register k a cb s :
    allocated cb s → atomic (LRegister k a (cb_id cb)) s (register k a (Some cb) s)
| at_closure s : atomic LClosure s (with_closures (S (closures s)) s)
| at_new cb s :
    (∀ c, cb = Some c → allocated c s) →
    atomic (LCreate (count s)) s (new_AnimationInstance cb s).1
| at_during tp cb s :
    (∀ c, cb = Some c → allocated c s) →
    atomic (LCreate (count s)) s (during_setup tp cb s).1
| at_target_set w t a s :
    atomic (LTargetSet w t) s (with_targets w (<[t := a]> (targets s w)) s)
| at_immediate a c s : a < count s → atomic LImmediate s (emit (EvImmediate a c) s)
| at_target_delete w t s :
    atomic (LTargetDelete w t) s (with_targets w (delete t (targets s w)) s)
| at_emit e s : event_instance e < count s → atomic (LEmit e) s (emit e s)
| at_advance a dt s : atomic (LAdvance a) s (modify a (advance dt) s)
| at_incr_frame a s : atomic (LIncrFrame a) s (modify a incr_frame s)
| at_unregister k a s :
    atomic (LUnregister k a) s (with_registry k (delete a (registry s k)) s)
| at_remove a s :
    is_destroyed a s →
    atomic (LRemove a) s (with_animations (set_delete a (animations s)) s)
| at_merge s :
    atomic LMerge s
      (with_animations (foldl (λ l a, set_add a l) (animations s) (newAnimations s)) s)
| at_clear s : atomic LClear s (with_destroyedAnimations [] s)
| at_updating b s : atomic LUpdating s (with_updating b s)
| at_clock t told dt f s : atomic LClock s (with_clock t told dt f s).

(** The steps client code can cause. *)
Definition from_client (l : label) : Prop :=
  match l with
  | LDestroy _ | LControl _ | LRegister _ _ _ | LClosure | LCreate _
  | LTargetSet _ _ | LImmediate => True
  | _ => False
  end.

(** A sequence of atomic steps whose labels all satisfy [L]. *)
Definition steps (L : label → Prop) : relation State :=
  rtc (λ s s', ∃ l, L l ∧ atomic l s s').

(** The steps of [updateAnimation(a)]. *)
Definition in_update (a : nat) (l : label) : Prop :=
  from_client l ∨
  match l with
  | LAdvance b | LIncrFrame b | LUnregister KNextFrame b => b = a
  | LEmit (EvUpdate b) | LEmit (EvFrame b) => b = a
  | LEmit (EvCall k b _) => b = a ∧ k ≠ KDestroy
  | LTargetDelete _ _ => True
  | _ => False
  end.

(** The steps of [destroyAnimation(a)]. *)
Definition in_destroy (a : nat) (l : label) : Prop :=
  from_client l ∨
  match l with
  | LRemove b | LUnregister KFrame b | LUnregister KNextFrame b
  | LUnregister KDestroy b => b = a
  | LEmit (EvCall KDestroy b _) => b = a
  | LTargetDelete _ _ => True
  | _ => False
  end.

(** The steps of the first loop of [updateAnimations]. *)
Definition in_mainLoop (l : label) : Prop := ∃ a, in_update a l.

(** The steps of its second loop. *)
Definition in_destroyLoop (l : label) : Prop := ∃ a, in_destroy a l.

(** The steps of a whole frame. *)
Definition in_frame (l : label) : Prop :=
  in_mainLoop l ∨ in_destroyLoop l ∨
  match l with LMerge | LClear | LUpdating | LClock => True | _ => False end.

Arguments during_setup : simpl never.
Arguments new_AnimationInstance : simpl never.
Arguments loop : simpl never.
Arguments loopWithTarget : simpl never.
Arguments AnimationMap_set : simpl never.
Arguments cancelTarget : simpl never.
Arguments destroy : simpl never.
Arguments register : simpl never.
Arguments waitDestroy : simpl never.
Arguments waitCompletion : simpl never.
Arguments nextFrame : simpl never.
Arguments promise : simpl never.
Arguments addAnimation : simpl never.
Arguments modify : simpl never.

Lemma steps_refl L s : steps L s s.
Proof. apply rtc_refl. Qed.

Lemma steps_trans L s1 s2 s3 : steps L s1 s2 → steps L s2 s3 → steps L s1 s3.
Proof. apply rtc_trans. Qed.

Lemma steps_one (L : label → Prop) l s s' : L l → atomic l s s' → steps L s s'.
Proof. intros HL Hat. apply rtc_once. eauto. Qed.

Lemma steps_mono (L L' : label → Prop) s s' :
  (∀ l, L l → L' l) → steps L s s' → steps L' s s'.
Proof.
  intros HLL. induction 1 as [|s1 s2 s3 (l & Hl & Hat) _ IH]; [apply rtc_refl|].
  eapply rtc_l; [|exact IH]. eauto.
Qed.

Lemma promise_register k a i s :
  heap s !! a = Some i → destroyed i = false →
  (promise k a s).1 =
  register k a (Some (mkCallback (Anon (closures s)) Resolve))
    (with_closures (S (closures s)) s).
Proof. intros Ha Hd. unfold promise, register. simpl. by rewrite Ha, Hd. Qed.

Lemma promise_steps k a i s :
  heap s !! a = Some i → destroyed i = false →
  steps from_client s (promise k a s).1.
Proof.
  intros Ha Hd. rewrite (promise_register _ _ _ _ Ha Hd).
  eapply steps_trans.
  - eapply (steps_one _ LClosure); [done | constructor].
  - eapply (steps_one _ (LRegister k a (cb_id (mkCallback (Anon (closures s)) Resolve))));
      [done|]. constructor. unfold allocated. simpl. lia.
Qed.

Lemma destroy_steps a s : steps from_client s (destroy a s).
Proof. eapply (steps_one _ (LDestroy a)); [done | constructor]. Qed.

Lemma cancelTarget_steps w t s : steps from_client s (cancelTarget w t s).
Proof.
  unfold cancelTarget. destruct (AnimationMap_get w t s); [apply destroy_steps | apply steps_refl].
Qed.

Lemma AnimationMap_set_steps w t a s : steps from_client s (AnimationMap_set w t a s).
Proof.
  unfold AnimationMap_set.
  eapply steps_trans; [|eapply steps_trans; [|eapply steps_trans]].
  - instantiate (1 := match AnimationMap_get w t s with Some old => destroy old s | None => s end).
    destruct (AnimationMap_get w t s); [apply destroy_steps | apply steps_refl].
  - eapply (steps_one _ (LTargetSet w t)); [done | constructor].
  - eapply (steps_one _ LClosure); [done | constructor].
  - eapply (steps_one _ (LRegister KDestroy a (cb_id (mkCallback _ _)))); [done|].
    constructor. unfold allocated. simpl. lia.
Qed.

Lemma on_steps o (f : nat → State → State) s :
  (∀ a s, steps from_client s (f a s)) → steps from_client s (on o f s).
Proof. intros Hf. destruct o; simpl; [apply Hf | apply steps_refl]. Qed.

Lemma register_steps k a n cb s : steps from_client s (register k a (Some (client n cb)) s).
Proof.
  eapply (steps_one _ (LRegister k a (cb_id (client n cb)))); [done|]. by constructor.
Qed.

Lemma wait_steps (f : nat → State → State * option nat) a s :
  f = waitDestroy ∨ f = waitCompletion ∨ f = nextFrame →
  steps from_client s (f a s).1.
Proof.
  intros [-> | [-> | ->]]; unfold waitDestroy, waitCompletion, nextFrame;
    destruct (heap s !! a) as [i|] eqn:Ha; try apply steps_refl;
    destruct (destroyed i) eqn:Hd; simpl; try apply steps_refl;
    try (by eapply promise_steps).
  destruct (complete i); [apply steps_refl | by eapply promise_steps].
Qed.


Lemma count_register k a cb s : count (register k a cb s) = count s.
Proof. unfold register. by repeat case_match. Qed.

Lemma count_addAnimation a s : count (addAnimation a s) = count s.
Proof. unfold addAnimation. by case_match. Qed.

Lemma new_AnimationInstance_snd cb s : (new_AnimationInstance cb s).2 = count s.
Proof. done. Qed.

Lemma count_new_AnimationInstance cb s :
  count (new_AnimationInstance cb s).1 = S (count s).
Proof.
  unfold new_AnimationInstance. simpl. rewrite count_addAnimation.
  unfold onFrame. rewrite count_register. unfold count. simpl.
  rewrite length_app. simpl. lia.
Qed.

Lemma during_setup_snd tp cb s : (during_setup tp cb s).2 = count s.
Proof. done. Qed.

Lemma during_setup_fst tp cb s :
  (during_setup tp cb s).1 =
  modify (count s) (set_timing (t_duration (fromTimingParam tp)) (- delay_of tp)%Qc)
    (new_AnimationInstance cb s).1.
Proof. done. Qed.

Lemma count_modify a f s : count (modify a f s) = count s.
Proof. unfold count, modify. simpl. by rewrite length_alter. Qed.

Lemma count_during_setup tp cb s : count (during_setup tp cb s).1 = S (count s).
Proof. rewrite during_setup_fst, count_modify. apply count_new_AnimationInstance. Qed.

Lemma new_steps cb s :
  (∀ c, cb = Some c → allocated c s) →
  steps from_client s (new_AnimationInstance cb s).1.
Proof. intros. eapply (steps_one _ (LCreate (count s))); [done | by constructor]. Qed.

Lemma during_setup_steps tp cb s :
  (∀ c, cb = Some c → allocated c s) →
  steps from_client s (during_setup tp cb s).1.
Proof. intros. eapply (steps_one _ (LCreate (count s))); [done | by constructor]. Qed.

Lemma immediate_steps a c s : a < count s → steps from_client s (emit (EvImmediate a c) s).
Proof. intros. eapply (steps_one _ LImmediate); [done | by constructor]. Qed.

Lemma allocated_client n cb s c : Some (client n cb) = Some c → allocated c s.
Proof. by intros [= <-]. Qed.

Lemma exec_steps sc : ∀ self last s, steps from_client s (exec sc self last s).1.
Proof.
  induction sc; intros self last s; cbn [exec].
  - apply steps_refl.
  - eapply steps_trans; [|apply IHsc]. apply on_steps. apply destroy_steps.
  - eapply steps_trans; [|apply IHsc]. apply on_steps. intros a s'.
    eapply (steps_one _ (LControl a)); [done | constructor].
  - eapply steps_trans; [|apply IHsc]. apply on_steps. intros a s'.
    eapply (steps_one _ (LControl a)); [done | constructor].
  - eapply steps_trans; [|apply IHsc2]. apply on_steps. intros; apply register_steps.
  - eapply steps_trans; [|apply IHsc2]. apply on_steps. intros; apply register_steps.
  - eapply steps_trans; [|apply IHsc2]. apply on_steps. intros; apply register_steps.
  - eapply steps_trans; [|apply IHsc]. apply on_steps. intros; apply wait_steps; auto.
  - eapply steps_trans; [|apply IHsc]. apply on_steps. intros; apply wait_steps; auto.
  - eapply steps_trans; [|apply IHsc]. apply on_steps. intros; apply wait_steps; auto.
  - (* Loop *)
    unfold loop. destruct (new_AnimationInstance (Some (client n sc1)) s) as [s' a] eqn:E.
    eapply steps_trans; [|apply IHsc2].
    replace s' with (new_AnimationInstance (Some (client n sc1)) s).1 by (by rewrite E).
    apply new_steps, allocated_client.
  - (* LoopWithTarget *)
    unfold loopWithTarget, loop. destruct (new_AnimationInstance (Some (client n sc1)) s) as [s' a] eqn:E.
    eapply steps_trans; [|apply IHsc2].
    eapply steps_trans; [|apply AnimationMap_set_steps].
    replace s' with (new_AnimationInstance (Some (client n sc1)) s).1 by (by rewrite E).
    apply new_steps, allocated_client.
  - eapply steps_trans; [|apply IHsc]. apply cancelTarget_steps.
  - (* During *)
    destruct (during_setup tp (Some (client n sc1)) s) as [s' a] eqn:E.
    assert (Hs' : s' = (during_setup tp (Some (client n sc1)) s).1) by by rewrite E.
    assert (Ha : a = count s) by (by rewrite <- (during_setup_snd tp (Some (client n sc1)) s), E).
    eapply steps_trans; [|apply IHsc2].
    eapply (steps_trans _ _ s'); [rewrite Hs'; apply during_setup_steps, allocated_client|].
    destruct (immediate_of tp); [|apply steps_refl].
    eapply steps_trans; [|apply IHsc1].
    apply immediate_steps. rewrite Hs', count_during_setup. lia.
  - (* DuringNoCallback *)
    destruct (during_setup tp None s) as [s' a] eqn:E.
    eapply steps_trans; [|apply IHsc].
    match type of E with ?t = _ => replace s' with t.1 by (by rewrite E) end.
    by apply during_setup_steps.
  - (* DuringWithTarget *)
    destruct (during_setup tp (Some (client n sc1)) s) as [s' a] eqn:E.
    assert (Hs' : s' = (during_setup tp (Some (client n sc1)) s).1) by by rewrite E.
    assert (Ha : a = count s) by (by rewrite <- (during_setup_snd tp (Some (client n sc1)) s), E).
    eapply steps_trans; [|apply IHsc2].
    eapply steps_trans; [|apply AnimationMap_set_steps].
    eapply (steps_trans _ _ s'); [rewrite Hs'; apply during_setup_steps, allocated_client|].
    destruct (immediate_of tp); [|apply steps_refl].
    eapply steps_trans; [|apply IHsc1].
    apply immediate_steps. rewrite Hs', count_during_setup. lia.
  - (* DuringWithTargetNoCallback *)
    destruct (during_setup tp (Some (mkCallback (Anon (closures s)) (Run (Return false)))) (with_closures (S (closures s)) s)) as [s' a] eqn:E.
    match type of E with during_setup _ ?cb ?s0 = _ =>
      assert (Hs' : s' = (during_setup tp cb s0).1) by (by rewrite E);
      assert (Ha : a = count s0) by (by rewrite <- (during_setup_snd tp cb s0), E)
    end.
    eapply steps_trans; [|apply IHsc].
    eapply steps_trans; [|apply AnimationMap_set_steps].
    eapply steps_trans; [eapply (steps_one _ LClosure); [done | constructor]|].
    eapply (steps_trans _ _ s').
    { rewrite Hs'. apply during_setup_steps. intros c [= <-]. unfold allocated. simpl. lia. }
    destruct (immediate_of tp); [|apply steps_refl].
    apply immediate_steps. rewrite Hs', count_during_setup. lia.
  - eapply steps_trans; [|apply IHsc]. apply cancelTarget_steps.
  - (* Wait *)
    destruct (during_setup (TimingNumber d) None s) as [s' a] eqn:E.
    eapply steps_trans; [|apply IHsc].
    eapply steps_trans; [|apply wait_steps; auto].
    match type of E with ?t = _ => replace s' with t.1 by (by rewrite E) end.
    by apply during_setup_steps.
Qed.

(** *** Sets *)

Lemma elem_of_set_add a b l : a ∈ set_add b l ↔ a ∈ l ∨ a = b.
Proof.
  unfold set_add. case_bool_decide; [|rewrite elem_of_app, list_elem_of_singleton; tauto].
  split; [auto|]. intros [?| ->]; auto.
Qed.

Lemma NoDup_set_add b l : NoDup l → NoDup (set_add b l).
Proof.
  unfold set_add. case_bool_decide as Hb; [done|]. intros Hnd. apply NoDup_app.
  split; [done|]. split; [|apply NoDup_singleton].
  intros x Hx Hx'%list_elem_of_singleton. by subst.
Qed.

Lemma set_add_prefix b l : l `prefix_of` set_add b l.
Proof. unfold set_add. case_bool_decide; [done|]. by apply prefix_app_r. Qed.

Lemma elem_of_set_delete a b l : a ∈ set_delete b l ↔ a ∈ l ∧ a ≠ b.
Proof. unfold set_delete. rewrite list_elem_of_filter. tauto. Qed.

Lemma NoDup_set_delete b l : NoDup l → NoDup (set_delete b l).
Proof. apply NoDup_filter. Qed.

Lemma elem_of_merge a l l' : a ∈ foldl (λ l a, set_add a l) l l' ↔ a ∈ l ∨ a ∈ l'.
Proof.
  revert l. induction l' as [|b l' IH]; intros l; simpl; [rewrite elem_of_nil; tauto|].
  rewrite IH, elem_of_set_add, elem_of_cons. intuition congruence.
Qed.

Lemma NoDup_merge l l' : NoDup l → NoDup (foldl (λ l a, set_add a l) l l').
Proof. revert l. induction l' as [|b l' IH]; intros l; simpl; auto using NoDup_set_add. Qed.

Lemma cbset_add_ids cb l :
  cb_id <$> cbset_add cb l =
  if bool_decide (cb_id cb ∈ cb_id <$> l) then cb_id <$> l else (cb_id <$> l) ++ [cb_id cb].
Proof. unfold cbset_add. case_bool_decide; [done|]. by rewrite fmap_app. Qed.

Lemma NoDup_cbset_add cb l : NoDup (cb_id <$> l) → NoDup (cb_id <$> cbset_add cb l).
Proof.
  rewrite cbset_add_ids. case_bool_decide as Hb; [done|]. intros Hnd.
  apply NoDup_app. split; [done|]. split; [|apply NoDup_singleton].
  intros x Hx Hx'%list_elem_of_singleton. by subst.
Qed.

Lemma elem_of_cbset_add_ids c cb l :
  c ∈ cb_id <$> cbset_add cb l ↔ c ∈ cb_id <$> l ∨ c = cb_id cb.
Proof.
  rewrite cbset_add_ids. case_bool_decide; [|by rewrite elem_of_app, list_elem_of_singleton].
  split; [auto|]. intros [?| ->]; auto.
Qed.

Lemma cbset_add_prefix cb l : l `prefix_of` cbset_add cb l.
Proof. unfold cbset_add. case_bool_decide; [done|]. by apply prefix_app_r. Qed.

(** *** Reading the state after a primitive *)


Lemma alive_dec a s : alive a s ∨ ¬ alive a s.
Proof.
  unfold alive. destruct (heap s !! a) as [i|]; [|right; by intros (? & ? & ?)].
  destruct (destroyed i) eqn:Hd; [right|left].
  - intros (? & [= <-] & ?). congruence.
  - eauto.
Qed.

Lemma alive_lt a s : alive a s → a < count s.
Proof. intros (i & Hi & _). by apply lookup_lt_Some in Hi. Qed.

Lemma is_destroyed_lt a s : is_destroyed a s → a < count s.
Proof. intros (i & Hi & _). by apply lookup_lt_Some in Hi. Qed.

Lemma not_alive_destroyed a s : alive a s → is_destroyed a s → False.
Proof. intros (i & Hi & ?) (j & Hj & ?). congruence. Qed.

Lemma destroy_alive a s :
  alive a s →
  destroy a s = modify a (set_destroyed true)
                  (with_destroyedAnimations (set_add a (destroyedAnimations s)) s).
Proof. intros (i & Hi & Hd). unfold destroy. by rewrite Hi, Hd. Qed.

Lemma destroy_not_alive a s : ¬ alive a s → destroy a s = s.
Proof.
  intros Hn. unfold destroy. destruct (heap s !! a) as [i|] eqn:Hi; [|done].
  destruct (destroyed i) eqn:Hd; [done|]. exfalso. apply Hn. by exists i.
Qed.

Lemma register_alive k a cb s :
  alive a s →
  register k a (Some cb) s = with_registry k (CallbackMap_add a cb (registry s k)) s.
Proof. intros (i & Hi & Hd). unfold register. by rewrite Hi, Hd. Qed.

Lemma register_not_alive k a cb s : ¬ alive a s → register k a cb s = s.
Proof.
  intros Hn. unfold register. destruct (heap s !! a) as [i|] eqn:Hi; [|done].
  destruct cb; [|done].
  destruct (destroyed i) eqn:Hd; [done|]. exfalso. apply Hn. by exists i.
Qed.

Lemma register_None k a s : register k a None s = s.
Proof. unfold register. by repeat case_match. Qed.

Lemma callbacks_with_registry k k' m a s :
  callbacks k a (with_registry k' m s) =
  if decide (k = k') then default [] (m !! a) else callbacks k a s.
Proof. unfold callbacks. simpl. by case_decide. Qed.

Lemma callbacks_add k k' a b cb s :
  callbacks k b (with_registry k' (CallbackMap_add a cb (registry s k')) s) =
  if decide (k = k' ∧ b = a) then cbset_add cb (callbacks k a s) else callbacks k b s.
Proof.
  rewrite callbacks_with_registry. unfold CallbackMap_add, callbacks.
  destruct (decide (k = k')) as [->|]; [|by rewrite decide_False by tauto].
  destruct (decide (b = a)) as [->|].
  - by rewrite decide_True, lookup_insert_eq by done.
  - by rewrite decide_False, lookup_insert_ne by (intuition congruence).
Qed.

Lemma callbacks_unregister k k' a b s :
  callbacks k b (with_registry k' (delete a (registry s k')) s) =
  if decide (k = k' ∧ b = a) then [] else callbacks k b s.
Proof.
  rewrite callbacks_with_registry. unfold callbacks.
  destruct (decide (k = k')) as [->|]; [|by rewrite decide_False by tauto].
  destruct (decide (b = a)) as [->|].
  - by rewrite decide_True, lookup_delete_eq by done.
  - by rewrite decide_False, lookup_delete_ne by (intuition congruence).
Qed.

Lemma heap_modify a f s b :
  heap (modify a f s) !! b = if decide (b = a) then f <$> heap s !! a else heap s !! b.
Proof.
  unfold modify. simpl. rewrite list_lookup_alter.
  repeat case_decide; congruence.
Qed.

(** The instance the constructor builds in state [s]. *)
Definition fresh_instance (s : State) : AnimationInstance :=
  {| id := count s; startTime := info_time s; startFrame := info_frame s;
     timeScale := 1%Qc; paused := false; time := 0%Qc; timeOld := 0%Qc;
     deltaTime := 0%Qc; duration := None; destroyed := false; frame := 0 |}.

Definition allocate (s : State) : State := with_heap (heap s ++ [fresh_instance s]) s.

Lemma alive_allocate s : alive (count s) (allocate s).
Proof.
  exists (fresh_instance s). split; [|done]. unfold allocate. simpl.
  unfold count. by rewrite lookup_app_r, Nat.sub_diag by lia.
Qed.

Lemma new_AnimationInstance_fst cb s :
  (new_AnimationInstance cb s).1 =
  addAnimation (count s)
    (match cb with
     | Some c => with_registry KFrame
                   (CallbackMap_add (count s) c (registry (allocate s) KFrame)) (allocate s)
     | None => allocate s
     end).
Proof.
  unfold new_AnimationInstance. simpl. f_equal. fold (fresh_instance s). fold (allocate s).
  unfold onFrame. destruct cb as [c|]; [|apply register_None].
  by rewrite register_alive by apply alive_allocate.
Qed.

Lemma alive_ext a s s' : heap s' = heap s → alive a s' ↔ alive a s.
Proof. unfold alive. by intros ->. Qed.

Lemma is_destroyed_ext a s s' : heap s' = heap s → is_destroyed a s' ↔ is_destroyed a s.
Proof. unfold is_destroyed. by intros ->. Qed.

Lemma alive_modify a f s b :
  (∀ i, destroyed (f i) = destroyed i) → alive b (modify a f s) ↔ alive b s.
Proof.
  intros Hf. unfold alive. rewrite heap_modify. case_decide as Hb; [subst|done].
  destruct (heap s !! a) as [i|]; simpl; [|tauto].
  split; intros (j & [= <-] & Hd); eexists; split; try done; by rewrite ?Hf in *.
Qed.

Lemma is_destroyed_modify a f s b :
  (∀ i, destroyed (f i) = destroyed i) → is_destroyed b (modify a f s) ↔ is_destroyed b s.
Proof.
  intros Hf. unfold is_destroyed. rewrite heap_modify. case_decide as Hb; [subst|done].
  destruct (heap s !! a) as [i|]; simpl; [|tauto].
  split; intros (j & [= <-] & Hd); eexists; split; try done; by rewrite ?Hf in *.
Qed.

Lemma alive_set_destroyed a s b :
  alive b (modify a (set_destroyed true) s) ↔ alive b s ∧ b ≠ a.
Proof.
  unfold alive. rewrite heap_modify. case_decide as Hb; [subst|tauto].
  destruct (heap s !! a) as [i|]; simpl;
    (split; [intros (j & Hj & Hd); by simplify_eq|by intros [_ ?]]).
Qed.

Lemma is_destroyed_set_destroyed a s b :
  is_destroyed b (modify a (set_destroyed true) s) ↔
  is_destroyed b s ∨ (b = a ∧ a < count s).
Proof.
  unfold is_destroyed. rewrite heap_modify. case_decide as Hb; [subst|tauto].
  destruct (heap s !! a) as [i|] eqn:Hi; simpl.
  - apply lookup_lt_Some in Hi. split; [intros _; right; done|]. intros _. by eexists.
  - apply lookup_ge_None in Hi. unfold count. split; [tauto|]. intros [|[]]; [tauto|lia].
Qed.

Lemma heap_allocate s b :
  heap (allocate s) !! b =
  if decide (b = count s) then Some (fresh_instance s) else heap s !! b.
Proof.
  unfold allocate, count. simpl. case_decide as Hb.
  - subst. by rewrite lookup_app_r, Nat.sub_diag by lia.
  - destruct (decide (b < length (heap s))).
    + by rewrite lookup_app_l.
    + rewrite !lookup_ge_None_2; [done|lia|]. rewrite length_app. simpl. lia.
Qed.

Lemma alive_allocate_iff s b : alive b (allocate s) ↔ alive b s ∨ b = count s.
Proof.
  unfold alive. rewrite heap_allocate. case_decide as Hb; [subst|tauto].
  split; [auto|]. intros _. by eexists.
Qed.

Lemma is_destroyed_allocate s b : is_destroyed b (allocate s) ↔ is_destroyed b s.
Proof.
  unfold is_destroyed. rewrite heap_allocate. case_decide as Hb; [subst|tauto].
  split; [by intros (i & [= <-] & Hd)|].
  intros (i & Hi & _). apply lookup_lt_Some in Hi. unfold count in *. lia.
Qed.

Lemma count_allocate s : count (allocate s) = S (count s).
Proof. unfold count, allocate. simpl. rewrite length_app. simpl. lia. Qed.

(** *** Well-formed states *)

Record WF (s : State) : Prop := mkWF {
  wf_animations : NoDup (animations s);
  wf_newAnimations : NoDup (newAnimations s);
  wf_destroyedAnimations : NoDup (destroyedAnimations s);
  wf_callbacks : ∀ k a, NoDup (cb_id <$> callbacks k a s);
  wf_queued : ∀ a, a ∈ destroyedAnimations s → is_destroyed a s;
  wf_closures : ∀ k a c, Anon c ∈ cb_id <$> callbacks k a s → c < closures s;
  wf_trace : ∀ e, e ∈ trace s → event_instance e < count s;
  wf_registry : ∀ k a, is_Some (registry s k !! a) → a < count s;
  wf_alive : ∀ a, alive a s → a ∈ animations s ∨ a ∈ newAnimations s;
  wf_members : ∀ a, a ∈ animations s ∨ a ∈ newAnimations s → a < count s
}.

Lemma callbacks_initial k a : callbacks k a initial = [].
Proof. unfold callbacks. cbn [registry initial]. by rewrite lookup_empty. Qed.

Lemma WF_initial : WF initial.
Proof.
  split; try apply NoDup_nil_2.
  - intros. rewrite callbacks_initial. apply NoDup_nil_2.
  - intros a Ha. by apply elem_of_nil in Ha.
  - intros k a c. rewrite callbacks_initial. by intros ?%elem_of_nil.
  - intros e He. by apply elem_of_nil in He.
  - intros k a. cbn [registry initial]. rewrite lookup_empty. by intros [? ?].
  - intros a (i & Hi & _). done.
  - intros a [Ha|Ha]; by apply elem_of_nil in Ha.
Qed.

Lemma callbacks_ext k a s s' : registry s' = registry s → callbacks k a s' = callbacks k a s.
Proof. unfold callbacks. by intros ->. Qed.

Lemma count_ext s s' : heap s' = heap s → count s' = count s.
Proof. unfold count. by intros ->. Qed.

(** Steps that leave every component [WF] reads in place. *)
Lemma WF_same s s' :
  animations s' = animations s → newAnimations s' = newAnimations s →
  destroyedAnimations s' = destroyedAnimations s → registry s' = registry s →
  heap s' = heap s → closures s ≤ closures s' → trace s' = trace s →
  WF s → WF s'.
Proof.
  intros Ha Hn Hd Hr Hh Hc Ht Hwf.
  split; rewrite ?Ha, ?Hn, ?Hd, ?Ht, ?Hr, ?(count_ext _ _ Hh); try apply Hwf.
  all: try (intros k a; rewrite (callbacks_ext _ _ _ _ Hr); apply Hwf).
  all: try (intros a ?; rewrite (is_destroyed_ext _ _ _ Hh); by apply Hwf).
  all: try (intros k a c; rewrite (callbacks_ext _ _ _ _ Hr);
            intros ?%(wf_closures s Hwf); lia).
  all: intros a; rewrite (alive_ext _ _ _ Hh); apply Hwf.
Qed.

Lemma WF_modify a f s :
  (∀ i, destroyed (f i) = destroyed i) → WF s → WF (modify a f s).
Proof.
  intros Hf
    [wf_animations wf_newAnimations wf_destroyedAnimations wf_callbacks wf_queued
     wf_closures wf_trace wf_registry wf_alive wf_members]. split; try done.
  - intros b ?. rewrite is_destroyed_modify by done. by apply wf_queued.
  - intros e ?. rewrite count_modify. by apply wf_trace.
  - intros k b ?. rewrite count_modify. by eapply wf_registry.
  - intros b. rewrite alive_modify by done. apply wf_alive.
  - intros b ?. rewrite count_modify. by apply wf_members.
Qed.

Lemma WF_destroy a s : WF s → WF (destroy a s).
Proof.
  intros Hwf. destruct (alive_dec a s) as [Ha|Ha]; [|by rewrite destroy_not_alive].
  rewrite destroy_alive by done.
  destruct Hwf as [wf_animations wf_newAnimations wf_destroyedAnimations wf_callbacks
                   wf_queued wf_closures wf_trace wf_registry wf_alive wf_members].
  split; try done.
  - simpl. by apply NoDup_set_add.
  - intros b. simpl. rewrite elem_of_set_add, is_destroyed_set_destroyed.
    rewrite (is_destroyed_ext b s) by done. intros [?| ->]; [left; auto|right].
    split; [done|]. by apply alive_lt.
  - intros e ?. rewrite count_modify. by apply wf_trace.
  - intros k b ?. rewrite count_modify. by eapply wf_registry.
  - intros b. rewrite alive_set_destroyed. rewrite (alive_ext b s) by done.
    intros [? _]. by apply wf_alive.
  - intros b ?. rewrite count_modify. by apply wf_members.
Qed.

Lemma WF_add k a cb s :
  a < count s → allocated cb s → WF s →
  WF (with_registry k (CallbackMap_add a cb (registry s k)) s).
Proof.
  intros Ha Hcb
    [wf_animations wf_newAnimations wf_destroyedAnimations wf_callbacks wf_queued
     wf_closures wf_trace wf_registry wf_alive wf_members]. split; try done.
  - intros k' b. rewrite callbacks_add. case_decide as Hk; [|done].
    destruct Hk as [-> ->]. by apply NoDup_cbset_add.
  - intros k' b c. rewrite callbacks_add. case_decide as Hk; [|apply wf_closures].
    destruct Hk as [-> ->]. rewrite elem_of_cbset_add_ids. intros [?|Hc]; [by eapply wf_closures|].
    unfold allocated in Hcb. rewrite <- Hc in Hcb. done.
  - intros k' b. simpl. case_decide as Hk; [subst|apply wf_registry].
    unfold CallbackMap_add. destruct (decide (b = a)) as [->|]; [done|].
    rewrite lookup_insert_ne by done. apply wf_registry.
Qed.

Lemma WF_register k a cb s : allocated cb s → WF s → WF (register k a (Some cb) s).
Proof.
  intros Hcb Hwf. destruct (alive_dec a s) as [Ha|Ha]; [|by rewrite register_not_alive].
  rewrite register_alive by done. apply WF_add; auto using alive_lt.
Qed.

Lemma WF_addAnimation a s :
  a < count s → (∀ b, alive b s → b ≠ a → b ∈ animations s ∨ b ∈ newAnimations s) →
  NoDup (animations s) → NoDup (newAnimations s) → NoDup (destroyedAnimations s) →
  (∀ k a, NoDup (cb_id <$> callbacks k a s)) →
  (∀ a, a ∈ destroyedAnimations s → is_destroyed a s) →
  (∀ k a c, Anon c ∈ cb_id <$> callbacks k a s → c < closures s) →
  (∀ e, e ∈ trace s → event_instance e < count s) →
  (∀ k a, is_Some (registry s k !! a) → a < count s) →
  (∀ a, a ∈ animations s ∨ a ∈ newAnimations s → a < count s) →
  WF (addAnimation a s).
Proof.
  intros Ha Hal ???????? Hm. unfold addAnimation.
  destruct (updating s); split; simpl; try done; try (by apply NoDup_set_add);
    try (by intros b; rewrite elem_of_set_add; intros [?|[?| ->]]; auto);
    try (by intros b; rewrite elem_of_set_add; intros [[?| ->]|?]; auto).
  - intros b Hb. rewrite (alive_ext b s) in Hb by done.
    destruct (decide (b = a)) as [->|]; [right; apply elem_of_set_add; auto|].
    rewrite elem_of_set_add. destruct (Hal b); auto.
  - intros b Hb. rewrite (alive_ext b s) in Hb by done.
    destruct (decide (b = a)) as [->|]; [left; apply elem_of_set_add; auto|].
    rewrite elem_of_set_add. destruct (Hal b); auto.
Qed.

Lemma count_with_registry k m s : count (with_registry k m s) = count s.
Proof. done. Qed.

Lemma WF_new cb s :
  (∀ c, cb = Some c → allocated c s) → WF s → WF (new_AnimationInstance cb s).1.
Proof.
  intros Hcb Hwf. rewrite new_AnimationInstance_fst.
  assert (Hal : ∀ s', heap s' = heap (allocate s) → animations s' = animations s →
            newAnimations s' = newAnimations s →
            ∀ b, alive b s' → b ≠ count s → b ∈ animations s' ∨ b ∈ newAnimations s').
  { intros s' Hh -> -> b. rewrite (alive_ext b (allocate s)), alive_allocate_iff by done.
    intros [?|?] ?; [|done]. by apply wf_alive. }
  assert (Hq : ∀ b, b ∈ destroyedAnimations s → is_destroyed b (allocate s)).
  { intros b ?. rewrite is_destroyed_allocate. by apply wf_queued. }
  destruct cb as [c|].
  - apply WF_addAnimation; rewrite ?count_with_registry, ?count_allocate;
      try apply Hwf; try done.
    + lia.
    + by apply Hal.
    + intros k a. rewrite callbacks_add. case_decide as Hk; [|apply Hwf].
      destruct Hk as [-> ->]. apply NoDup_cbset_add, Hwf.
    + intros k a c'. rewrite callbacks_add. case_decide as Hk; [|apply Hwf].
      destruct Hk as [-> ->]. rewrite elem_of_cbset_add_ids.
      intros [?|Hc]; [by eapply (wf_closures s Hwf)|].
      specialize (Hcb c eq_refl). unfold allocated in Hcb. by rewrite <- Hc in Hcb.
    + intros e ?%(wf_trace s Hwf). lia.
    + intros k a. cbn [registry with_registry]. case_decide as Hk; [subst|].
      * unfold CallbackMap_add. destruct (decide (a = count s)) as [->|]; [lia|].
        rewrite lookup_insert_ne by done. intros ?%(wf_registry s Hwf). lia.
      * intros ?%(wf_registry s Hwf). lia.
    + intros a ?%(wf_members s Hwf). lia.
  - apply WF_addAnimation; rewrite ?count_allocate; try apply Hwf; try done.
    + lia.
    + by apply Hal.
    + intros e ?%(wf_trace s Hwf). lia.
    + intros k a ?%(wf_registry s Hwf). lia.
    + intros a ?%(wf_members s Hwf). lia.
Qed.

Lemma WF_emit e s : event_instance e < count s → WF s → WF (emit e s).
Proof.
  intros He
    [wf_animations wf_newAnimations wf_destroyedAnimations wf_callbacks wf_queued
     wf_closures wf_trace wf_registry wf_alive wf_members]. split; try done. intros e'. simpl. rewrite elem_of_cons.
  intros [->|?]; [done|]. by apply wf_trace.
Qed.

Lemma WF_unregister k a s : WF s → WF (with_registry k (delete a (registry s k)) s).
Proof.
  intros
    [wf_animations wf_newAnimations wf_destroyedAnimations wf_callbacks wf_queued
     wf_closures wf_trace wf_registry wf_alive wf_members]. split; try done.
  - intros k' b. rewrite callbacks_unregister. case_decide; [apply NoDup_nil_2|done].
  - intros k' b c. rewrite callbacks_unregister. case_decide; [by intros ?%elem_of_nil|].
    apply wf_closures.
  - intros k' b. simpl. case_decide as Hk; [subst|apply wf_registry].
    destruct (decide (b = a)) as [->|].
    + rewrite lookup_delete_eq. by intros [? ?].
    + rewrite lookup_delete_ne by done. apply wf_registry.
Qed.

Lemma WF_remove a s :
  is_destroyed a s → WF s → WF (with_animations (set_delete a (animations s)) s).
Proof.
  intros Ha
    [wf_animations wf_newAnimations wf_destroyedAnimations wf_callbacks wf_queued
     wf_closures wf_trace wf_registry wf_alive wf_members]. split; try done.
  - simpl. by apply NoDup_set_delete.
  - intros b Hb. simpl. rewrite elem_of_set_delete. rewrite (alive_ext b s) in Hb by done.
    destruct (wf_alive _ Hb); [left|by right]. split; [done|]. intros ->.
    by eapply not_alive_destroyed.
  - intros b. simpl. rewrite elem_of_set_delete. intros [[? _]|?]; apply wf_members; auto.
Qed.

Lemma WF_merge s :
  WF s → WF (with_animations (foldl (λ l a, set_add a l) (animations s) (newAnimations s)) s).
Proof.
  intros
    [wf_animations wf_newAnimations wf_destroyedAnimations wf_callbacks wf_queued
     wf_closures wf_trace wf_registry wf_alive wf_members]. split; try done.
  - simpl. by apply NoDup_merge.
  - intros b Hb. simpl. rewrite elem_of_merge. rewrite (alive_ext b s) in Hb by done.
    destruct (wf_alive _ Hb); auto.
  - intros b. simpl. rewrite elem_of_merge. intros [[?|?]|?]; apply wf_members; auto.
Qed.

Lemma WF_clear s : WF s → WF (with_destroyedAnimations [] s).
Proof.
  intros
    [wf_animations wf_newAnimations wf_destroyedAnimations wf_callbacks wf_queued
     wf_closures wf_trace wf_registry wf_alive wf_members]. split; try done.
  - apply NoDup_nil_2.
  - intros a Ha. by apply elem_of_nil in Ha.
Qed.

Lemma set_timing_destroyed d t i : destroyed (set_timing d t i) = destroyed i.
Proof. done. Qed.

Lemma atomic_WF l s s' : atomic l s s' → WF s → WF s'.
Proof.
  destruct 1; intros Hwf.
  - by apply WF_destroy.
  - by apply WF_modify.
  - by apply WF_modify.
  - by apply WF_register.
  - eapply WF_same; [..|done]; simpl; auto.
  - by apply WF_new.
  - rewrite during_setup_fst. apply WF_modify; [done|]. by apply WF_new.
  - eapply WF_same; [..|done]; simpl; auto.
  - by apply WF_emit.
  - eapply WF_same; [..|done]; simpl; auto.
  - by apply WF_emit.
  - by apply WF_modify.
  - by apply WF_modify.
  - by apply WF_unregister.
  - by apply WF_remove.
  - by apply WF_merge.
  - by apply WF_clear.
  - eapply WF_same; [..|done]; simpl; auto.
  - eapply WF_same; [..|done]; simpl; auto.
Qed.

Lemma steps_WF L s s' : steps L s s' → WF s → WF s'.
Proof.
  induction 1 as [|s1 s2 s3 (l & _ & Hat) _ IH]; [done|].
  intros. eapply IH, atomic_WF; eauto.
Qed.

Lemma atomic_count l s s' : atomic l s s' → count s ≤ count s'.
Proof.
  destruct 1; rewrite ?count_modify, ?count_register, ?count_new_AnimationInstance,
    ?count_during_setup; try done; try lia.
  unfold destroy. repeat case_match; rewrite ?count_modify; done.
Qed.

Lemma steps_count L s s' : steps L s s' → count s ≤ count s'.
Proof.
  induction 1 as [|s1 s2 s3 (l & _ & Hat) _ IH]; [done|].
  apply atomic_count in Hat. lia.
Qed.

Arguments exec : simpl never.
Arguments invoke : simpl never.
Arguments updateAnimation : simpl never.
Arguments destroyAnimation : simpl never.

Lemma getAndDelete_fst a (m : gmap nat (list callback)) :
  (CallbackMap_getAndDelete a m).1 = m !! a.
Proof. done. Qed.

Lemma getAndDelete_snd a (m : gmap nat (list callback)) :
  (CallbackMap_getAndDelete a m).2 = delete a m.
Proof.
  unfold CallbackMap_getAndDelete. simpl. destruct (m !! a) eqn:E; [done|].
  symmetry. by apply delete_id.
Qed.

(** The steps of one call of a stored callback of registry [k] on [a]. *)
Definition in_invoke (k : kind) (a : nat) (l : label) : Prop :=
  from_client l ∨
  match l with
  | LEmit (EvCall k' b _) => k' = k ∧ b = a
  | LTargetDelete _ _ => True
  | _ => False
  end.

Lemma in_invoke_update k a l : k ≠ KDestroy → in_invoke k a l → in_update a l.
Proof.
  intros Hk [?|Hl]; [by left|right]. destruct l as [| | | | | | | |e| | | | | | | |]; try done.
  destruct e; try done. intuition congruence.
Qed.

Lemma in_invoke_destroy a l : in_invoke KDestroy a l → in_destroy a l.
Proof.
  intros [?|Hl]; [by left|right]. destruct l as [| | | | | | | |e| | | | | | | |]; try done.
  destruct e as [| |k b c|]; try done. by destruct Hl as [-> ->].
Qed.

Lemma invoke_steps k cb a s :
  a < count s → steps (in_invoke k a) s (invoke k cb a s).1.
Proof.
  intros Ha. unfold invoke.
  eapply (steps_trans _ _ (emit (EvCall k a (cb_id cb)) s)).
  { eapply (steps_one _ (LEmit _)); [|by constructor]. right. done. }
  destruct (cb_code cb) as [body| |w t b]; simpl.
  - eapply steps_mono; [|apply exec_steps]. by left.
  - apply steps_refl.
  - case_bool_decide; [|apply steps_refl].
    eapply (steps_one _ (LTargetDelete w t)); [by right|].
    apply (at_target_delete w t (emit (EvCall k a (cb_id cb)) s)).
Qed.

Lemma iterate_steps fuel k a : ∀ i done s,
  a < count s → steps (in_invoke k a) s (iterate fuel k a i done s).1.
Proof.
  induction fuel as [|fuel IH]; intros i done s Ha; cbn [iterate]; [apply steps_refl|].
  destruct (callbacks k a s !! i) as [cb|]; [|apply steps_refl].
  pose proof (invoke_steps k cb a s Ha) as Hst.
  destruct (invoke k cb a s) as [s' r]. simpl in Hst.
  eapply steps_trans; [exact Hst|]. apply IH. apply steps_count in Hst. lia.
Qed.

Lemma iterate_detached_steps k l a : ∀ done s,
  a < count s → steps (in_invoke k a) s (iterate_detached k l a done s).1.
Proof.
  induction l as [|cb l IH]; intros done s Ha; cbn [iterate_detached]; [apply steps_refl|].
  pose proof (invoke_steps k cb a s Ha) as Hst.
  destruct (invoke k cb a s) as [s' r]. simpl in Hst.
  eapply steps_trans; [exact Hst|]. apply IH. apply steps_count in Hst. lia.
Qed.

(** [updateAnimation] after its first three statements. *)
Definition finish (a : nat) (s : State) : State :=
  if bool_decide (0 ≤ time_of a s)%Qc then
    let s := emit (EvFrame a) s in
    let s := modify a incr_frame s in
    let '(s, done) := iterate (set_size (callbacks KFrame a s)) KFrame a 0 false s in
    let '(set, m) := CallbackMap_getAndDelete a (nextFrameCallbacks s) in
    let '(s, done) := iterate_detached KNextFrame (default [] set) a done
                        (with_registry KNextFrame m s) in
    let s := if is_complete a s
             then (iterate (set_size (callbacks KComplete a s)) KComplete a 0 false s).1
             else s in
    if done || is_complete a s then destroy a s else s
  else s.

Lemma updateAnimation_finish a s :
  updateAnimation a s =
  finish a (modify a (advance (info_deltaTime s)) (emit (EvUpdate a) s)).
Proof. done. Qed.

(** The steps of [updateAnimation(a)] after the advance of its time. *)
Definition in_finish (a : nat) (l : label) : Prop :=
  from_client l ∨
  match l with
  | LIncrFrame b | LUnregister KNextFrame b => b = a
  | LEmit (EvFrame b) => b = a
  | LEmit (EvCall k b _) => b = a ∧ k ≠ KDestroy
  | LTargetDelete _ _ => True
  | _ => False
  end.

Lemma in_finish_update a l : in_finish a l → in_update a l.
Proof.
  intros [?|Hl]; [by left|right]. destruct l as [| | | | | | | |e| | | | | | | |]; try done.
  destruct e; done.
Qed.

Lemma in_invoke_finish k a l : k ≠ KDestroy → in_invoke k a l → in_finish a l.
Proof.
  intros Hk [?|Hl]; [by left|right]. destruct l as [| | | | | | | |e| | | | | | | |]; try done.
  destruct e; try done. intuition congruence.
Qed.

Lemma finish_steps a s : a < count s → steps (in_finish a) s (finish a s).
Proof.
  intros Ha. unfold finish.
  case_bool_decide; [|apply steps_refl].
  set (s3 := emit (EvFrame a) s).
  assert (H3 : steps (in_finish a) s s3).
  { eapply (steps_one _ (LEmit _)); [|by constructor]. by right. }
  set (s4 := modify a incr_frame s3).
  assert (H4 : steps (in_finish a) s s4).
  { eapply steps_trans; [exact H3|].
    eapply (steps_one _ (LIncrFrame a)); [by right|constructor]. }
  pose proof (iterate_steps (set_size (callbacks KFrame a s4)) KFrame a 0 false s4) as H5.
  destruct (iterate _ KFrame a 0 false s4) as [s5 done5]. simpl in H5.
  assert (H5' : steps (in_finish a) s s5).
  { eapply steps_trans; [exact H4|]. eapply steps_mono; [|apply H5].
    - intros l. by apply in_invoke_finish.
    - apply steps_count in H4. lia. }
  clear H5.
  destruct (CallbackMap_getAndDelete a (nextFrameCallbacks s5)) as [set m] eqn:Egd.
  assert (Hm : m = delete a (nextFrameCallbacks s5)).
  { by rewrite <- (getAndDelete_snd a (nextFrameCallbacks s5)), Egd. }
  set (s6 := with_registry KNextFrame m s5).
  assert (H6 : steps (in_finish a) s s6).
  { eapply steps_trans; [exact H5'|]. unfold s6. rewrite Hm.
    eapply (steps_one _ (LUnregister KNextFrame a)); [by right|constructor]. }
  pose proof (iterate_detached_steps KNextFrame (default [] set) a done5 s6) as H7.
  destruct (iterate_detached KNextFrame _ a done5 s6) as [s7 done7]. simpl in H7.
  assert (H7' : steps (in_finish a) s s7).
  { eapply steps_trans; [exact H6|]. eapply steps_mono; [|apply H7].
    - intros l. by apply in_invoke_finish.
    - apply steps_count in H6. lia. }
  clear H7.
  set (s8 := if is_complete a s7 then _ else s7).
  assert (H8 : steps (in_finish a) s s8).
  { unfold s8. destruct (is_complete a s7); [|done].
    eapply steps_trans; [exact H7'|]. eapply steps_mono; [|apply iterate_steps].
    - intros l. by apply in_invoke_finish.
    - apply steps_count in H7'. lia. }
  destruct (done7 || is_complete a s8); [|done].
  eapply steps_trans; [exact H8|].
  eapply (steps_one _ (LDestroy a)); [by left|constructor].
Qed.

Lemma updateAnimation_steps a s :
  a < count s → steps (in_update a) s (updateAnimation a s).
Proof.
  intros Ha. rewrite updateAnimation_finish.
  eapply steps_trans; [|eapply steps_mono; [apply in_finish_update|apply finish_steps]].
  - eapply steps_trans.
    + eapply (steps_one _ (LEmit (EvUpdate a))); [by right|by constructor].
    + eapply (steps_one _ (LAdvance a)); [by right|constructor].
  - by rewrite count_modify.
Qed.

Lemma destroyAnimation_steps a s :
  is_destroyed a s → steps (in_destroy a) s (destroyAnimation a s).
Proof.
  intros Ha. unfold destroyAnimation.
  set (s1 := with_animations _ s).
  assert (H1 : steps (in_destroy a) s s1).
  { eapply (steps_one _ (LRemove a)); [by right|by constructor]. }
  set (s2 := with_registry KFrame _ s1).
  assert (H2 : steps (in_destroy a) s s2).
  { eapply steps_trans; [exact H1|].
    eapply (steps_one _ (LUnregister KFrame a)); [by right|constructor]. }
  set (s3 := with_registry KNextFrame _ s2).
  assert (H3 : steps (in_destroy a) s s3).
  { eapply steps_trans; [exact H2|].
    eapply (steps_one _ (LUnregister KNextFrame a)); [by right|constructor]. }
  destruct (CallbackMap_getAndDelete a (destroyCallbacks s3)) as [set m] eqn:Egd.
  assert (Hm : m = delete a (destroyCallbacks s3)).
  { by rewrite <- (getAndDelete_snd a (destroyCallbacks s3)), Egd. }
  set (s4 := with_registry KDestroy m s3).
  assert (H4 : steps (in_destroy a) s s4).
  { eapply steps_trans; [exact H3|]. unfold s4. rewrite Hm.
    eapply (steps_one _ (LUnregister KDestroy a)); [by right|constructor]. }
  destruct set as [l|]; [|done].
  eapply steps_trans; [exact H4|]. eapply steps_mono; [|apply iterate_detached_steps].
  - intros l'. apply in_invoke_destroy.
  - apply steps_count in H4. apply is_destroyed_lt in Ha. lia.
Qed.

Lemma visit_steps a s : steps (in_update a) s (visit a s).
Proof.
  unfold visit. destruct (heap s !! a) as [i|] eqn:Hi; [|apply steps_refl].
  destruct (negb (destroyed i) && negb (paused i)); [|apply steps_refl].
  apply updateAnimation_steps. by apply lookup_lt_Some in Hi.
Qed.

(** The first loop only runs [updateAnimation] on the instances it visits. *)
Lemma mainLoop_steps_in l : ∀ s,
  steps (λ l', ∃ a, a ∈ l ∧ in_update a l') s (mainLoop l s).
Proof.
  induction l as [|a l IH]; intros s; simpl; [apply steps_refl|].
  eapply steps_trans.
  - eapply steps_mono; [|apply visit_steps]. intros l' ?. exists a. split; [left|done].
  - eapply steps_mono; [|apply IH]. intros l' (b & ? & ?). exists b. split; [by right|done].
Qed.

Lemma mainLoop_steps l s : steps in_mainLoop s (mainLoop l s).
Proof.
  eapply steps_mono; [|apply mainLoop_steps_in]. intros l' (a & _ & ?). by exists a.
Qed.

Lemma destroyLoop_steps fuel : ∀ i s,
  WF s → steps in_destroyLoop s (destroyLoop fuel i s).
Proof.
  induction fuel as [|fuel IH]; intros i s Hwf; simpl; [apply steps_refl|].
  destruct (destroyedAnimations s !! i) as [a|] eqn:Hi; [|apply steps_refl].
  assert (Ha : is_destroyed a s).
  { apply (wf_queued s Hwf). by eapply list_elem_of_lookup_2. }
  pose proof (destroyAnimation_steps a s Ha) as Hst.
  eapply steps_trans; [eapply steps_mono; [|exact Hst]|].
  - intros l ?. by exists a.
  - apply IH. by eapply steps_WF.
Qed.

Lemma updateAnimations_steps s : WF s → steps in_frame s (updateAnimations s).
Proof.
  intros Hwf. unfold updateAnimations.
  set (s1 := with_updating true s).
  assert (H1 : steps in_frame s s1).
  { eapply (steps_one _ LUpdating); [by right; right|constructor]. }
  set (s2 := mainLoop (animations s1) s1).
  assert (H2 : steps in_frame s s2).
  { eapply steps_trans; [exact H1|]. eapply steps_mono; [|apply mainLoop_steps].
    intros l ?. by left. }
  set (s3 := destroyLoop (destroy_fuel s2) 0 s2).
  assert (H3 : steps in_frame s s3).
  { eapply steps_trans; [exact H2|]. eapply steps_mono; [|apply destroyLoop_steps].
    - intros l ?. by right; left.
    - by eapply steps_WF. }
  eapply steps_trans; [exact H3|].
  eapply steps_trans; [eapply (steps_one _ LClear); [by right; right|constructor]|].
  eapply steps_trans; [eapply (steps_one _ LMerge); [by right; right|constructor]|].
  eapply (steps_one _ LUpdating); [by right; right|constructor].
Qed.

Lemma _innerLoop_steps ms s : WF s → steps in_frame s (_innerLoop ms s).
Proof.
  intros Hwf. unfold _innerLoop.
  eapply steps_trans; [eapply (steps_one _ LClock); [by right; right|constructor]|].
  apply updateAnimations_steps. eapply WF_same; [..|exact Hwf]; done.
Qed.

Lemma do_step_steps st s : WF s → steps in_frame s (do_step st s).
Proof.
  intros Hwf. destruct st as [ms|sc]; simpl.
  - by apply _innerLoop_steps.
  - eapply steps_mono; [|apply exec_steps]. intros l ?. left. exists 0. by left.
Qed.

Lemma run_app steps1 steps2 s : run (steps1 ++ steps2) s = run steps2 (run steps1 s).
Proof. unfold run. apply foldl_app. Qed.

Lemma run_snoc sts st s : run (sts ++ [st]) s = do_step st (run sts s).
Proof. by rewrite run_app. Qed.

Lemma run_WF sts : ∀ s, WF s → WF (run sts s).
Proof.
  induction sts as [|st sts IH]; intros s Hwf; [done|].
  simpl. apply IH. eapply steps_WF; [by apply do_step_steps|done].
Qed.

Lemma reachable_WF s : reachable s → WF s.
Proof. intros [sts ->]. apply run_WF, WF_initial. Qed.

(** *** What an atomic step does to each component of the state *)

Lemma destroy_others a s :
  registry (destroy a s) = registry s ∧ animations (destroy a s) = animations s ∧
  newAnimations (destroy a s) = newAnimations s ∧ updating (destroy a s) = updating s ∧
  trace (destroy a s) = trace s ∧ closures (destroy a s) = closures s ∧
  targets (destroy a s) = targets s ∧ info_deltaTime (destroy a s) = info_deltaTime s.
Proof. unfold destroy. by repeat case_match. Qed.

Lemma register_others k a cb s :
  heap (register k a cb s) = heap s ∧ animations (register k a cb s) = animations s ∧
  newAnimations (register k a cb s) = newAnimations s ∧
  destroyedAnimations (register k a cb s) = destroyedAnimations s ∧
  updating (register k a cb s) = updating s ∧
  trace (register k a cb s) = trace s ∧ closures (register k a cb s) = closures s ∧
  targets (register k a cb s) = targets s ∧
  info_deltaTime (register k a cb s) = info_deltaTime s.
Proof. unfold register. by repeat case_match. Qed.

Lemma addAnimation_others a s :
  heap (addAnimation a s) = heap s ∧ registry (addAnimation a s) = registry s ∧
  destroyedAnimations (addAnimation a s) = destroyedAnimations s ∧
  updating (addAnimation a s) = updating s ∧
  trace (addAnimation a s) = trace s ∧ closures (addAnimation a s) = closures s ∧
  targets (addAnimation a s) = targets s ∧
  info_deltaTime (addAnimation a s) = info_deltaTime s.
Proof. unfold addAnimation. by case_match. Qed.

Lemma new_others cb s :
  let s' := (new_AnimationInstance cb s).1 in
  heap s' = heap (allocate s) ∧
  destroyedAnimations s' = destroyedAnimations s ∧ updating s' = updating s ∧
  trace s' = trace s ∧ closures s' = closures s ∧ targets s' = targets s ∧
  info_deltaTime s' = info_deltaTime s ∧
  animations s' = (if updating s then animations s else set_add (count s) (animations s)) ∧
  newAnimations s' =
    (if updating s then set_add (count s) (newAnimations s) else newAnimations s) ∧
  registry s' = match cb with
                | Some c => λ k, if decide (k = KFrame)
                                 then CallbackMap_add (count s) c (registry s KFrame)
                                 else registry s k
                | None => registry s
                end.
Proof.
  intros s'. unfold s'. rewrite new_AnimationInstance_fst. unfold addAnimation.
  destruct cb, (updating s) eqn:Hu; simpl; rewrite ?Hu; done.
Qed.

Lemma during_others tp cb s :
  let s' := (during_setup tp cb s).1 in
  heap s' = alter (set_timing (t_duration (fromTimingParam tp)) (- delay_of tp)%Qc)
              (count s) (heap (allocate s)) ∧
  destroyedAnimations s' = destroyedAnimations s ∧ updating s' = updating s ∧
  trace s' = trace s ∧ closures s' = closures s ∧ targets s' = targets s ∧
  info_deltaTime s' = info_deltaTime s ∧
  animations s' = (if updating s then animations s else set_add (count s) (animations s)) ∧
  newAnimations s' =
    (if updating s then set_add (count s) (newAnimations s) else newAnimations s) ∧
  registry s' = match cb with
                | Some c => λ k, if decide (k = KFrame)
                                 then CallbackMap_add (count s) c (registry s KFrame)
                                 else registry s k
                | None => registry s
                end.
Proof.
  intros s'. unfold s'. rewrite during_setup_fst.
  destruct (new_others cb s) as (Hh & ? & ? & ? & ? & ? & ? & ? & ? & ?).
  unfold modify. cbn [heap destroyedAnimations updating trace closures targets
    info_deltaTime animations newAnimations registry with_heap]. by rewrite Hh.
Qed.

(** How an atomic step can change the record of an instance. *)
Inductive effect (l : label) (a : nat) (i : AnimationInstance) : AnimationInstance → Prop :=
| eff_same : effect l a i i
| eff_destroy : l = LDestroy a → destroyed i = false → effect l a i (set_destroyed true i)
| eff_paused b : l = LControl a → effect l a i (set_paused b i)
| eff_timeScale x : l = LControl a → effect l a i (set_timeScale x i)
| eff_advance dt : l = LAdvance a → effect l a i (advance dt i)
| eff_incr_frame : l = LIncrFrame a → effect l a i (incr_frame i).

Lemma modify_effect l b f s a i :
  heap s !! a = Some i → (b = a → effect l a i (f i)) →
  ∃ i', heap (modify b f s) !! a = Some i' ∧ effect l a i i'.
Proof.
  intros Hi Hf. rewrite heap_modify. case_decide as Hab.
  - subst. rewrite Hi. simpl. eauto.
  - exists i. split; [done|constructor].
Qed.

Lemma atomic_heap l s s' a i :
  atomic l s s' → heap s !! a = Some i →
  ∃ i', heap s' !! a = Some i' ∧ effect l a i i'.
Proof.
  intros Hat Hi. assert (Ha : a ≠ count s).
  { apply lookup_lt_Some in Hi. unfold count. lia. }
  destruct Hat; try (by exists i; split; [done|constructor]).
  - unfold destroy. destruct (heap s !! a0) as [j|] eqn:Hj;
      [|by exists i; split; [done|constructor]].
    destruct (destroyed j) eqn:Hd; [by exists i; split; [done|constructor]|].
    apply modify_effect; [done|]. intros ->. rewrite Hi in Hj. injection Hj as ->.
    by constructor.
  - apply modify_effect; [done|]. intros ->. by constructor.
  - apply modify_effect; [done|]. intros ->. by constructor.
  - exists i. destruct (register_others k a0 (Some cb) s) as (-> & _). split; [done|constructor].
  - exists i. destruct (new_others cb s) as (-> & _). rewrite heap_allocate.
    rewrite decide_False by done. split; [done|constructor].
  - exists i. destruct (during_others tp cb s) as (-> & _).
    rewrite list_lookup_alter_ne by done. rewrite heap_allocate.
    rewrite decide_False by done. split; [done|constructor].
  - apply modify_effect; [done|]. intros ->. by constructor.
  - apply modify_effect; [done|]. intros ->. by constructor.
Qed.

Lemma atomic_trace l s s' :
  atomic l s s' →
  trace s' = trace s ∨
  ∃ e, trace s' = e :: trace s ∧ (l = LEmit e ∨ (l = LImmediate ∧ ∃ a c, e = EvImmediate a c)).
Proof.
  destruct 1; try (by left); try (by right; eauto 10).
  - left. apply destroy_others.
  - left. apply register_others.
  - left. apply new_others.
  - left. apply during_others.
Qed.

Lemma atomic_clock l s s' :
  atomic l s s' → l ≠ LClock → info_deltaTime s' = info_deltaTime s.
Proof.
  destruct 1; try done; intros _.
  - apply destroy_others.
  - apply register_others.
  - apply new_others.
  - apply during_others.
Qed.

Lemma atomic_updating l s s' : atomic l s s' → l ≠ LUpdating → updating s' = updating s.
Proof.
  destruct 1; try done; intros _.
  - apply destroy_others.
  - apply register_others.
  - apply new_others.
  - apply during_others.
Qed.

Lemma atomic_closures l s s' : atomic l s s' → closures s ≤ closures s'.
Proof.
  destruct 1; try (simpl; lia).
  - destruct (destroy_others a s) as (_ & _ & _ & _ & _ & -> & _). lia.
  - destruct (register_others k a (Some cb) s) as (_ & _ & _ & _ & _ & _ & -> & _). lia.
  - destruct (new_others cb s) as (_ & _ & _ & _ & -> & _). lia.
  - destruct (during_others tp cb s) as (_ & _ & _ & _ & -> & _). lia.
Qed.

(** The queue of instances to destroy only grows, by [destroy] on a live
    instance, until the frame empties it. *)
Lemma atomic_destroyedAnimations l s s' :
  atomic l s s' →
  destroyedAnimations s' = destroyedAnimations s ∨
  (∃ a, l = LDestroy a ∧ alive a s ∧
        destroyedAnimations s' = set_add a (destroyedAnimations s)) ∨
  (l = LClear ∧ destroyedAnimations s' = []).
Proof.
  destruct 1; try (by left).
  - destruct (alive_dec a s) as [Ha|Ha].
    + right; left. exists a. rewrite destroy_alive by done. done.
    + left. by rewrite destroy_not_alive.
  - left. apply register_others.
  - left. apply new_others.
  - left. apply during_others.
  - by right; right.
Qed.

Lemma atomic_animations l s s' :
  atomic l s s' →
  animations s' = animations s ∨
  (l = LCreate (count s) ∧ updating s = false ∧
   animations s' = set_add (count s) (animations s)) ∨
  (∃ a, l = LRemove a ∧ animations s' = set_delete a (animations s)) ∨
  (l = LMerge ∧
   animations s' = foldl (λ l a, set_add a l) (animations s) (newAnimations s)).
Proof.
  destruct 1; try (by left); try (by right; right; eauto).
  - left. apply destroy_others.
  - left. apply register_others.
  - destruct (new_others cb s) as (_ & _ & _ & _ & _ & _ & _ & -> & _).
    destruct (updating s); [by left|by right; left].
  - destruct (during_others tp cb s) as (_ & _ & _ & _ & _ & _ & _ & -> & _).
    destruct (updating s); [by left|by right; left].
Qed.

Lemma atomic_newAnimations l s s' :
  atomic l s s' →
  newAnimations s' = newAnimations s ∨
  (l = LCreate (count s) ∧ updating s = true ∧
   newAnimations s' = set_add (count s) (newAnimations s)).
Proof.
  destruct 1; try (by left).
  - left. apply destroy_others.
  - left. apply register_others.
  - destruct (new_others cb s) as (_ & _ & _ & _ & _ & _ & _ & _ & -> & _).
    destruct (updating s); [by right|by left].
  - destruct (during_others tp cb s) as (_ & _ & _ & _ & _ & _ & _ & _ & -> & _).
    destruct (updating s); [by right|by left].
Qed.

(** A registry entry changes by a registration on a live instance, by the
    constructor registering on the instance it builds, or by a deletion. *)
Lemma atomic_registry l s s' k a :
  atomic l s s' →
  registry s' k !! a = registry s k !! a ∨
  (l = LUnregister k a ∧ registry s' k !! a = None) ∨
  (∃ cb, allocated cb s ∧
     ((l = LRegister k a (cb_id cb) ∧ alive a s) ∨
      (l = LCreate a ∧ a = count s ∧ k = KFrame)) ∧
     registry s' k !! a = Some (cbset_add cb (callbacks k a s))).
Proof.
  assert (Hadd : ∀ k' b cb s0, registry s0 = registry s →
    (λ k0, if decide (k0 = k') then CallbackMap_add b cb (registry s k') else registry s k0) k !! a
    = if decide (k = k' ∧ a = b) then Some (cbset_add cb (callbacks k a s))
      else registry s k !! a).
  { intros k' b cb s0 _. simpl. unfold CallbackMap_add, callbacks.
    destruct (decide (k = k')) as [->|]; [|by rewrite decide_False by tauto].
    destruct (decide (a = b)) as [->|].
    - by rewrite decide_True, lookup_insert_eq by done.
    - by rewrite decide_False, lookup_insert_ne by (intuition congruence). }
  destruct 1; try (by left).
  - left. by destruct (destroy_others a0 s) as (-> & _).
  - destruct (alive_dec a0 s) as [Ha|Ha]; [|left; by rewrite register_not_alive].
    rewrite register_alive by done. cbn [registry with_registry].
    rewrite (Hadd k0 a0 cb s eq_refl). case_decide as Hk; [|by left].
    destruct Hk as [-> ->]. right; right. exists cb. auto.
  - destruct (new_others cb s) as (_ & _ & _ & _ & _ & _ & _ & _ & _ & ->).
    destruct cb as [c|]; [|by left].
    rewrite (Hadd KFrame (count s) c s eq_refl). case_decide as Hk; [|by left].
    destruct Hk as [-> ->]. right; right. exists c. split; [auto|]. split; [|done]. by right.
  - destruct (during_others tp cb s) as (_ & _ & _ & _ & _ & _ & _ & _ & _ & ->).
    destruct cb as [c|]; [|by left].
    rewrite (Hadd KFrame (count s) c s eq_refl). case_decide as Hk; [|by left].
    destruct Hk as [-> ->]. right; right. exists c. split; [auto|]. split; [|done]. by right.
  - cbn [registry with_registry]. destruct (decide (k = k0)) as [->|]; [|by left].
    destruct (decide (a = a0)) as [->|].
    + right; left. by rewrite lookup_delete_eq.
    + left. by rewrite lookup_delete_ne.
Qed.

Lemma atomic_callbacks l s s' k a :
  atomic l s s' →
  callbacks k a s' = callbacks k a s ∨
  (l = LUnregister k a ∧ callbacks k a s' = []) ∨
  (∃ cb, allocated cb s ∧
     ((l = LRegister k a (cb_id cb) ∧ alive a s) ∨
      (l = LCreate a ∧ a = count s ∧ k = KFrame)) ∧
     callbacks k a s' = cbset_add cb (callbacks k a s)).
Proof.
  intros Hat. unfold callbacks at 1 3 4.
  destruct (atomic_registry l s s' k a Hat) as [->|[[? ->]|(cb & ? & ? & ->)]]; eauto 10.
Qed.

(** *** Lifting the effect of one step to sequences of steps *)

Lemma steps_invariant L (P : State → Prop) s s' :
  (∀ l s s', L l → atomic l s s' → WF s → P s → P s') →
  steps L s s' → WF s → P s → P s'.
Proof.
  intros HP. induction 1 as [|s1 s2 s3 (l & Hl & Hat) _ IH]; [done|].
  intros Hwf HP1. apply IH; [by eapply atomic_WF|by eapply HP].
Qed.

Lemma steps_instance L (R : relation AnimationInstance) a s s' i :
  (∀ i, R i i) → (∀ i j k, R i j → R j k → R i k) →
  (∀ l i i', L l → effect l a i i' → R i i') →
  steps L s s' → heap s !! a = Some i →
  ∃ i', heap s' !! a = Some i' ∧ R i i'.
Proof.
  intros Hrefl Htrans HR Hst. revert i.
  induction Hst as [|s1 s2 s3 (l & Hl & Hat) _ IH]; intros i Hi; [eauto|].
  destruct (atomic_heap _ _ _ _ _ Hat Hi) as (i' & Hi' & Heff).
  destruct (IH _ Hi') as (i'' & Hi'' & HR'). exists i''. split; [done|]. eauto.
Qed.

(** The timing fields, which only the scheduler's advance writes. *)
Definition same_time (i i' : AnimationInstance) : Prop :=
  time i' = time i ∧ timeOld i' = timeOld i ∧ deltaTime i' = deltaTime i ∧
  duration i' = duration i.

(** The control fields, which only client code writes. *)
Definition same_control (i i' : AnimationInstance) : Prop :=
  paused i' = paused i ∧ timeScale i' = timeScale i.

Lemma steps_same_time L a s s' i :
  (∀ l, L l → l ≠ LAdvance a) →
  steps L s s' → heap s !! a = Some i →
  ∃ i', heap s' !! a = Some i' ∧ same_time i i'.
Proof.
  intros HL. apply steps_instance.
  - done.
  - intros ??? (?&?&?&?) (?&?&?&?). unfold same_time. repeat split; congruence.
  - intros l j j' Hl Heff. destruct Heff; try done. by destruct (HL _ Hl).
Qed.

Lemma steps_same_frame L a s s' i :
  (∀ l, L l → l ≠ LIncrFrame a) →
  steps L s s' → heap s !! a = Some i →
  ∃ i', heap s' !! a = Some i' ∧ frame i' = frame i.
Proof.
  intros HL. apply (steps_instance L (λ i i', frame i' = frame i)).
  - done.
  - intros ??? ? ?. congruence.
  - intros l j j' Hl Heff. destruct Heff; try done. by destruct (HL _ Hl).
Qed.

Lemma steps_same_control L a s s' i :
  (∀ l, L l → l ≠ LControl a) →
  steps L s s' → heap s !! a = Some i →
  ∃ i', heap s' !! a = Some i' ∧ same_control i i'.
Proof.
  intros HL. apply steps_instance.
  - done.
  - intros ??? (?&?) (?&?). unfold same_control. split; congruence.
  - intros l j j' Hl Heff. destruct Heff; try done; by destruct (HL _ Hl).
Qed.

Lemma steps_same_duration L a s s' i :
  steps L s s' → heap s !! a = Some i →
  ∃ i', heap s' !! a = Some i' ∧ duration i' = duration i.
Proof.
  apply (steps_instance L (λ i i', duration i' = duration i)).
  - done.
  - intros ??? ? ?. congruence.
  - intros l j j' Hl Heff. by destruct Heff.
Qed.

(** [destroyed] never goes back to [false]. *)
Lemma steps_is_destroyed L a s s' : steps L s s' → is_destroyed a s → is_destroyed a s'.
Proof.
  intros Hst (i & Hi & Hd).
  destruct (steps_instance L (λ i i', destroyed i = true → destroyed i' = true) a s s' i)
    as (i' & Hi' & Hd'); [done|by auto| |done|done|].
  - intros l j j' _ Heff. by destruct Heff.
  - exists i'. auto.
Qed.

Lemma steps_alive L a s s' :
  (∀ l, L l → l ≠ LDestroy a) → steps L s s' → alive a s → alive a s'.
Proof.
  intros HL Hst (i & Hi & Hd).
  destruct (steps_instance L (λ i i', destroyed i' = destroyed i) a s s' i)
    as (i' & Hi' & Hd'); [done| | |done|done|].
  - intros ??? ? ?. congruence.
  - intros l j j' Hl Heff. destruct Heff; try done. by destruct (HL _ Hl).
  - exists i'. split; [done|congruence].
Qed.

Lemma steps_alive_before L a s s' : steps L s s' → a < count s → alive a s' → alive a s.
Proof.
  intros Hst Ha Hal. destruct (lookup_lt_is_Some_2 (heap s) a Ha) as [i Hi].
  destruct (destroyed i) eqn:Hd; [|by exists i].
  exfalso. eapply not_alive_destroyed; [exact Hal|].
  eapply steps_is_destroyed; [exact Hst|]. by exists i.
Qed.

Lemma steps_clock L s s' :
  (∀ l, L l → l ≠ LClock) → steps L s s' → info_deltaTime s' = info_deltaTime s.
Proof.
  intros HL. induction 1 as [|s1 s2 s3 (l & Hl & Hat) _ IH]; [done|].
  rewrite IH. eapply atomic_clock; eauto.
Qed.

Lemma steps_updating L s s' :
  (∀ l, L l → l ≠ LUpdating) → steps L s s' → updating s' = updating s.
Proof.
  intros HL. induction 1 as [|s1 s2 s3 (l & Hl & Hat) _ IH]; [done|].
  rewrite IH. eapply atomic_updating; eauto.
Qed.

(** The events a sequence of steps adds to the trace. *)
Lemma steps_trace L s s' :
  steps L s s' →
  ∃ new, trace s' = new ++ trace s ∧
         ∀ e, e ∈ new → L (LEmit e) ∨ ∃ a c, e = EvImmediate a c.
Proof.
  induction 1 as [s|s1 s2 s3 (l & Hl & Hat) _ (new & Hnew & IH)].
  - exists []. split; [done|]. by intros e ?%elem_of_nil.
  - destruct (atomic_trace _ _ _ Hat) as [Heq|(e & Heq & He)].
    + exists new. by rewrite Hnew, Heq.
    + exists (new ++ [e]). rewrite Hnew, Heq, <- app_assoc. split; [done|].
      intros e' [?|He']%elem_of_app; [auto|].
      apply list_elem_of_singleton in He' as ->.
      destruct He as [->|[_ ?]]; auto.
Qed.

(** While [updating] is set, client code and [updateAnimation] leave the
    set [animations] alone: the first loop of [updateAnimations] iterates
    over a set nobody modifies. *)
Lemma animations_fixed_while_updating l (s : State) :
  updating s = true →
  animations (mainLoop l s) = animations s ∧ updating (mainLoop l s) = true.
Proof.
  intros Hu. pose proof (mainLoop_steps l s) as Hst.
  induction Hst as [|s1 s2 s3 (l' & (a & Hl) & Hat) _ IH]; [done|].
  assert (Hu2 : updating s2 = true).
  { rewrite (atomic_updating _ _ _ Hat); [done|]. intros ->. by destruct Hl. }
  destruct (IH Hu2) as [-> ->]. split; [|done].
  destruct (atomic_animations _ _ _ Hat) as [?|[(_ & ? & _)|[(b & -> & _)|[-> _]]]];
    [done|congruence|by destruct Hl|by destruct Hl].
Qed.

(** The clock update of [_innerLoop]. *)
Definition clock (ms : Qc) (s : State) : State :=
  let t := (ms / Q2Qc 1000)%Qc in
  with_clock t (info_time s) (t - info_time s)%Qc (S (info_frame s)) s.

Lemma _innerLoop_clock ms s : _innerLoop ms s = updateAnimations (clock ms s).
Proof. done. Qed.

(** The elements of a set that come before [a]. *)
Fixpoint before (a : nat) (l : list nat) : list nat :=
  match l with
  | [] => []
  | b :: l => if decide (b = a) then [] else b :: before a l
  end.

(** The state in which the first loop of the frame at [ms] reaches [a]. *)
Definition turn (a : nat) (ms : Qc) (s : State) : State :=
  mainLoop (before a (animations s)) (with_updating true (clock ms s)).

(** What is left of [updateAnimations] after its first loop. *)
Definition after_loop (s : State) : State :=
  let s := destroyLoop (destroy_fuel s) 0 s in
  let s := with_destroyedAnimations [] s in
  let s := with_animations (foldl (λ l a, set_add a l) (animations s) (newAnimations s)) s in
  with_updating false s.

Lemma updateAnimations_after_loop s :
  updateAnimations s = after_loop (mainLoop (animations s) (with_updating true s)).
Proof. done. Qed.

Definition in_after_loop (l : label) : Prop :=
  in_destroyLoop l ∨ match l with LClear | LMerge | LUpdating => True | _ => False end.

Lemma after_loop_steps s : WF s → steps in_after_loop s (after_loop s).
Proof.
  intros Hwf. unfold after_loop.
  eapply steps_trans.
  { eapply steps_mono; [|by apply destroyLoop_steps]. intros l ?. by left. }
  eapply steps_trans; [eapply (steps_one _ LClear); [by right|constructor]|].
  eapply steps_trans; [eapply (steps_one _ LMerge); [by right|constructor]|].
  eapply (steps_one _ LUpdating); [by right|constructor].
Qed.

Lemma before_not_in a l : a ∉ before a l.
Proof.
  induction l as [|b l IH]; simpl; [by intros ?%elem_of_nil|].
  case_decide; [by intros ?%elem_of_nil|]. rewrite elem_of_cons. intuition congruence.
Qed.

Lemma before_split a l : a ∈ l → ∃ post, l = before a l ++ a :: post.
Proof.
  induction l as [|b l IH]; [by intros ?%elem_of_nil|]. simpl.
  case_decide as Hb; [subst; eauto|].
  rewrite elem_of_cons. intros [?|Ha]; [congruence|].
  destruct (IH Ha) as [post Hpost]. exists post. simpl. by rewrite <- Hpost.
Qed.

Lemma before_all a l : a ∉ l → before a l = l.
Proof.
  induction l as [|b l IH]; [done|]. rewrite not_elem_of_cons. intros [? ?]. simpl.
  rewrite decide_False by done. by rewrite IH.
Qed.

Lemma mainLoop_app l1 l2 s : mainLoop (l1 ++ l2) s = mainLoop l2 (mainLoop l1 s).
Proof. revert s. induction l1 as [|a l1 IH]; intros s; simpl; [done|]. apply IH. Qed.

(** A frame, seen from the instance [a] of the set [animations]. *)
Lemma frame_split a ms s :
  NoDup (animations s) → a ∈ animations s →
  ∃ post, (a ∉ post) ∧ animations s = before a (animations s) ++ a :: post ∧
    _innerLoop ms s = after_loop (mainLoop post (visit a (turn a ms s))).
Proof.
  intros Hnd Ha. destruct (before_split _ _ Ha) as [post Hpost]. exists post.
  split; [|split; [done|]].
  - rewrite Hpost in Hnd. apply NoDup_app in Hnd as (_ & _ & Hnd).
    by apply NoDup_cons in Hnd as [? _].
  - rewrite _innerLoop_clock, updateAnimations_after_loop. f_equal.
    change (animations (clock ms s)) with (animations s).
    rewrite Hpost at 1. by rewrite mainLoop_app.
Qed.

Lemma not_LAdvance_update a b l : b ≠ a → in_update b l → l ≠ LAdvance a.
Proof. intros Hb [Hl|Hl] ->; simpl in *; done. Qed.

Lemma not_LAdvance_finish a b l : in_finish b l → l ≠ LAdvance a.
Proof. intros [Hl|Hl] ->; simpl in *; done. Qed.

Lemma not_LAdvance_after a l : in_after_loop l → l ≠ LAdvance a.
Proof. intros [(b & [Hl|Hl])|Hl] ->; simpl in *; done. Qed.

Lemma not_LAdvance_client a l : from_client l → l ≠ LAdvance a.
Proof. by intros Hl ->. Qed.

Lemma mainLoop_steps_others a l s :
  a ∉ l → steps (λ l', ∃ b, b ≠ a ∧ in_update b l') s (mainLoop l s).
Proof.
  intros Ha. eapply steps_mono; [|apply mainLoop_steps_in].
  intros l' (b & Hb & ?). exists b. split; [|done]. by intros ->.
Qed.

Definition runs (i : AnimationInstance) : bool := negb (destroyed i) && negb (paused i).

Lemma time_of_heap a s i : heap s !! a = Some i → time_of a s = time i.
Proof. unfold time_of. by intros ->. Qed.



(** *** Between two frames *)

(** Outside of [updateAnimations] the flag [updating] is down and every
    instance that was added during a frame has been merged into
    [animations]. *)
Definition Boundary (s : State) : Prop :=
  updating s = false ∧ ∀ a, a ∈ newAnimations s → a ∈ animations s.

Lemma Boundary_initial : Boundary initial.
Proof. split; [done|]. by intros a ?%elem_of_nil. Qed.

Lemma Boundary_client l s s' : from_client l → atomic l s s' → Boundary s → Boundary s'.
Proof.
  intros Hl Hat [Hu Hn]. split.
  - rewrite (atomic_updating _ _ _ Hat); [done|]. by intros ->.
  - intros a. destruct (atomic_newAnimations _ _ _ Hat) as [->|(_ & ? & _)]; [|congruence].
    intros Ha%Hn.
    destruct (atomic_animations _ _ _ Hat) as [->|[(_ & _ & ->)|[(b & -> & _)|[-> _]]]];
      [done|rewrite elem_of_set_add; auto|done..].
Qed.

Lemma Boundary_frame ms s : Boundary (_innerLoop ms s).
Proof.
  rewrite _innerLoop_clock, updateAnimations_after_loop. unfold after_loop.
  split; [done|]. intros a Ha. simpl in *. apply elem_of_merge. by right.
Qed.

Lemma Boundary_do_step st s : WF s → Boundary s → Boundary (do_step st s).
Proof.
  intros Hwf Hb. destruct st as [ms|sc]; [apply Boundary_frame|]. simpl.
  eapply (steps_invariant from_client Boundary); [|apply exec_steps|done|done].
  intros l s1 s2 Hl Hat _. by apply (Boundary_client l).
Qed.

Lemma run_Boundary sts : ∀ s, WF s → Boundary s → Boundary (run sts s).
Proof.
  induction sts as [|st sts IH]; intros s Hwf Hb; [done|]. simpl.
  apply IH; [|by apply Boundary_do_step]. eapply steps_WF; [by apply do_step_steps|done].
Qed.

Lemma reachable_Boundary s : reachable s → Boundary s.
Proof. intros [sts ->]. apply run_Boundary; [apply WF_initial|apply Boundary_initial]. Qed.

Lemma reachable_run sts s : reachable s → reachable (run sts s).
Proof. intros [pre ->]. exists (pre ++ sts). by rewrite run_app. Qed.

(** Between frames a live instance is a member of [animations]. *)
Lemma alive_in_animations a s : WF s → Boundary s → alive a s → a ∈ animations s.
Proof. intros Hwf [_ Hn] Ha. destruct (wf_alive s Hwf a Ha); auto. Qed.

(** *** The time of an instance over a run *)



(** The steps of a frame before the scheduler reaches [a]. *)
Definition in_turn (a : nat) (l : label) : Prop :=
  l = LClock ∨ l = LUpdating ∨ ∃ b, b ≠ a ∧ in_update b l.

Lemma turn_steps a ms s : steps (in_turn a) s (turn a ms s).
Proof.
  unfold turn. eapply steps_trans.
  { eapply (steps_one _ LClock); [by left|apply at_clock]. }
  eapply steps_trans.
  { eapply (steps_one _ LUpdating); [by right; left|apply (at_updating true)]. }
  eapply steps_mono; [|apply mainLoop_steps_others, before_not_in]. intros l ?. by right; right.
Qed.

Lemma not_LAdvance_turn a l : in_turn a l → l ≠ LAdvance a.
Proof.
  intros [->|[->|(b & Hb & Hl)]]; [done|done|]. by eapply not_LAdvance_update.
Qed.


Lemma run_cons st sts s : run (st :: sts) s = run sts (do_step st s).
Proof. done. Qed.


(** *** Instances created during a frame *)

(** An instance that was never advanced. *)
Definition untouched (i : AnimationInstance) : Prop :=
  frame i = 0 ∧ timeOld i = 0%Qc ∧ deltaTime i = 0%Qc.

Lemma atomic_count_cases l s s' :
  atomic l s s' →
  count s' = count s ∨ (l = LCreate (count s) ∧ count s' = S (count s)).
Proof.
  destruct 1; rewrite ?count_modify, ?count_register; try (by left).
  - left. unfold destroy. repeat case_match; rewrite ?count_modify; done.
  - right. by rewrite count_new_AnimationInstance.
  - right. by rewrite count_during_setup.
Qed.

Lemma atomic_created l s s' a i' :
  atomic l s s' → heap s !! a = None → heap s' !! a = Some i' →
  l = LCreate a ∧ a = count s ∧ untouched i' ∧ destroyed i' = false.
Proof.
  intros Hat Hn Hi'. assert (Hge : count s ≤ a) by (by apply lookup_ge_None in Hn).
  destruct (atomic_count_cases _ _ _ Hat) as [Hc|[-> Hc]].
  - apply lookup_lt_Some in Hi'. unfold count in *. lia.
  - assert (a = count s) as ->.
    { apply lookup_lt_Some in Hi'. unfold count in *. lia. }
    split; [done|]. split; [done|].
    inversion Hat as [| | | | |cb s0 Hcb Hl Hs0 Hs'|tp cb s0 Hcb Hl Hs0 Hs'| | | | | | | | | | | |];
      subst.
    + destruct (new_others cb s) as (Hh & _). rewrite Hh, heap_allocate in Hi'.
      rewrite decide_True in Hi' by done. by injection Hi' as <-.
    + destruct (during_others tp cb s) as (Hh & _). rewrite Hh in Hi'.
      rewrite list_lookup_alter, decide_True, heap_allocate, decide_True in Hi' by done.
      by injection Hi' as <-.
Qed.





(** The two loops of [updateAnimations], after the clock update. *)
Definition loops (ms : Qc) (s : State) : State :=
  let s := mainLoop (animations s) (with_updating true (clock ms s)) in
  destroyLoop (destroy_fuel s) 0 s.

Lemma _innerLoop_loops ms s :
  _innerLoop ms s =
  with_updating false
    (with_animations
       (foldl (λ l a, set_add a l) (animations (loops ms s)) (newAnimations (loops ms s)))
       (with_destroyedAnimations [] (loops ms s))).
Proof. done. Qed.

(** The steps of the two loops of a frame that starts in state [s]. *)
Definition in_loops (s : State) (l : label) : Prop :=
  (∃ a, a ∈ animations s ∧ in_update a l) ∨ in_destroyLoop l.

Lemma WF_start ms s : WF s → WF (with_updating true (clock ms s)).
Proof. intros Hwf. eapply WF_same; [..|exact Hwf]; done. Qed.

Lemma loops_steps ms s :
  WF s → steps (in_loops s) (with_updating true (clock ms s)) (loops ms s).
Proof.
  intros Hwf. unfold loops.
  eapply (steps_trans _ _ (mainLoop (animations s) (with_updating true (clock ms s)))).
  - eapply steps_mono; [|apply mainLoop_steps_in]. intros l ?. by left.
  - eapply steps_mono; [|apply destroyLoop_steps].
    + intros l ?. by right.
    + eapply steps_WF; [apply mainLoop_steps|]. by apply WF_start.
Qed.


Lemma in_loops_not_advance s b l :
  b ∉ animations s → in_loops s l → l ≠ LAdvance b ∧ l ≠ LIncrFrame b.
Proof.
  intros Hb Hl. split; intros Heq; subst l;
    destruct Hl as [(a & Ha & [Hl|Hl])|(a & [Hl|Hl])]; simpl in Hl; try done; by subst.
Qed.






Lemma calls_steps calls : ∀ s, steps from_client s (run (Call <$> calls) s).
Proof.
  induction calls as [|sc calls IH]; intros s; [apply steps_refl|].
  rewrite fmap_cons, run_cons. eapply steps_trans; [apply exec_steps|apply IH].
Qed.



(** *** Counting calls *)

Definition occurrences {A} `{EqDecision A} (x : A) (l : list A) : nat :=
  length (filter (λ y, y = x) l).

(** How many times the scheduler has called the callback [c] of registry
    [k] on the instance [a]. *)
Definition calls (k : kind) (a : nat) (c : cbid) (s : State) : nat :=
  occurrences (EvCall k a c) (trace s).

Lemma occurrences_nil {A} `{EqDecision A} (x : A) : occurrences x [] = 0.
Proof. done. Qed.

Lemma occurrences_cons {A} `{EqDecision A} (x y : A) l :
  occurrences x (y :: l) = (if decide (y = x) then 1 else 0) + occurrences x l.
Proof. unfold occurrences. rewrite filter_cons. by case_decide. Qed.

Lemma occurrences_app {A} `{EqDecision A} (x : A) l1 l2 :
  occurrences x (l1 ++ l2) = occurrences x l1 + occurrences x l2.
Proof. unfold occurrences. by rewrite filter_app, length_app. Qed.

Lemma occurrences_0 {A} `{EqDecision A} (x : A) l : x ∉ l → occurrences x l = 0.
Proof.
  induction l as [|y l IH]; [done|]. rewrite not_elem_of_cons, occurrences_cons.
  intros [? ?]. rewrite decide_False by done. by rewrite IH.
Qed.

Lemma occurrences_pos {A} `{EqDecision A} (x : A) l : x ∈ l → 0 < occurrences x l.
Proof.
  induction l as [|y l IH]; [by intros ?%elem_of_nil|].
  rewrite elem_of_cons, occurrences_cons. intros [->|?].
  - rewrite decide_True by done. lia.
  - pose proof (IH ltac:(done)). lia.
Qed.

Lemma occurrences_NoDup {A} `{EqDecision A} (x : A) l : NoDup l → occurrences x l ≤ 1.
Proof.
  induction 1 as [|y l Hy _ IH]; [rewrite occurrences_nil; lia|]. rewrite occurrences_cons.
  case_decide; [subst|lia]. rewrite occurrences_0 by done. lia.
Qed.

Lemma occurrences_NoDup_in {A} `{EqDecision A} (x : A) l :
  NoDup l → x ∈ l → occurrences x l = 1.
Proof.
  intros Hnd Hin. pose proof (occurrences_NoDup x l Hnd).
  pose proof (occurrences_pos x l Hin). lia.
Qed.

Lemma calls_emit k a c e s :
  calls k a c (emit e s) = (if decide (e = EvCall k a c) then 1 else 0) + calls k a c s.
Proof. unfold calls. simpl. apply occurrences_cons. Qed.

Lemma atomic_calls l s s' k a c :
  atomic l s s' → l ≠ LEmit (EvCall k a c) → calls k a c s' = calls k a c s.
Proof.
  intros Hat Hl. unfold calls.
  destruct (atomic_trace _ _ _ Hat) as [->|(e & -> & [->|(_ & b & c' & ->)])]; [done|..];
    (rewrite occurrences_cons, decide_False; [done|congruence]).
Qed.

Lemma steps_calls L s s' k a c :
  (∀ l, L l → l ≠ LEmit (EvCall k a c)) → steps L s s' → calls k a c s' = calls k a c s.
Proof.
  intros HL. induction 1 as [|s1 s2 s3 (l & Hl & Hat) _ IH]; [done|].
  rewrite IH. eapply atomic_calls; eauto.
Qed.

(** Calls are only made by the scheduler: client code makes none. *)
Lemma client_no_call l e : from_client l → l ≠ LEmit e.
Proof. by intros Hl ->. Qed.

Lemma exec_calls sc self last s k a c :
  calls k a c (exec sc self last s).1 = calls k a c s.
Proof.
  apply (steps_calls from_client); [|apply exec_steps]. intros l. apply client_no_call.
Qed.

Lemma invoke_calls k' cb a' s k a c :
  calls k a c (invoke k' cb a' s).1 =
  (if decide (EvCall k' a' (cb_id cb) = EvCall k a c) then 1 else 0) + calls k a c s.
Proof.
  unfold invoke. destruct (cb_code cb) as [body| |w t b]; simpl.
  - by rewrite exec_calls, calls_emit.
  - by rewrite calls_emit.
  - case_bool_decide; by rewrite <- calls_emit.
Qed.

Lemma iterate_detached_calls k' l a' : ∀ done s k a c,
  calls k a c (iterate_detached k' l a' done s).1 =
  (if decide (k' = k ∧ a' = a) then occurrences c (cb_id <$> l) else 0) + calls k a c s.
Proof.
  induction l as [|cb l IH]; intros done s k a c; cbn [iterate_detached].
  - simpl. by case_decide.
  - pose proof (invoke_calls k' cb a' s k a c) as Hinv.
    destruct (invoke k' cb a' s) as [s1 r]. rewrite IH. simpl in Hinv. rewrite Hinv.
    rewrite fmap_cons, occurrences_cons.
    destruct (decide (k' = k ∧ a' = a)) as [[-> ->]|Hne].
    + destruct (decide (cb_id cb = c)) as [->|].
      * rewrite decide_True by done. lia.
      * rewrite decide_False by congruence. lia.
    + rewrite decide_False; [lia|]. intros [= -> -> _]. by apply Hne.
Qed.

(** *** Registered callbacks stay registered *)

Lemma atomic_callbacks_prefix l s s' k a :
  atomic l s s' → l ≠ LUnregister k a →
  callbacks k a s `prefix_of` callbacks k a s'.
Proof.
  intros Hat Hl.
  destruct (atomic_callbacks _ _ _ k a Hat) as [->|[[? _]|(cb & _ & _ & ->)]];
    [done|done|apply cbset_add_prefix].
Qed.

Lemma steps_callbacks_prefix L s s' k a :
  (∀ l, L l → l ≠ LUnregister k a) → steps L s s' →
  callbacks k a s `prefix_of` callbacks k a s'.
Proof.
  intros HL. induction 1 as [|s1 s2 s3 (l & Hl & Hat) _ IH]; [done|].
  etrans; [|exact IH]. eapply atomic_callbacks_prefix; eauto.
Qed.

Lemma in_invoke_not_unregister k a k' a' l : in_invoke k a l → l ≠ LUnregister k' a'.
Proof. intros [Hl|Hl] ->; done. Qed.

Lemma in_invoke_emit k a e :
  in_invoke k a (LEmit e) → ∃ c, e = EvCall k a c.
Proof.
  intros [[]|Hl]. destruct e as [| |k' b c|]; try done. destruct Hl as [-> ->]. eauto.
Qed.

Lemma invoke_callbacks_prefix k cb a s k' a' :
  a < count s → callbacks k' a' s `prefix_of` callbacks k' a' (invoke k cb a s).1.
Proof.
  intros Ha. eapply steps_callbacks_prefix; [|by apply invoke_steps].
  intros l. apply in_invoke_not_unregister.
Qed.

(** The calls made by an iteration over the set registered for [a]:
    it visits positions [i] to [j] of the set, once each. *)
Lemma iterate_calls fuel k a : ∀ i done s,
  a < count s →
  let s' := (iterate fuel k a i done s).1 in
  callbacks k a s `prefix_of` callbacks k a s' ∧
  ∃ j, i ≤ j ∧ ∀ c,
    calls k a c s' + occurrences c (cb_id <$> take i (callbacks k a s')) =
    calls k a c s + occurrences c (cb_id <$> take j (callbacks k a s')).
Proof.
  induction fuel as [|fuel IH]; intros i done s Ha; cbn [iterate].
  { split; [done|]. exists i. split; [done|]. intros c. simpl. lia. }
  destruct (callbacks k a s !! i) as [cb|] eqn:Hi.
  2:{ split; [done|]. exists i. split; [done|]. intros c. simpl. lia. }
  pose proof (invoke_steps k cb a s Ha) as Hst.
  pose proof (invoke_callbacks_prefix k cb a s k a Ha) as Hpre.
  pose proof (invoke_calls k cb a s k a) as Hinv.
  destruct (invoke k cb a s) as [s1 r]. simpl in Hst, Hpre, Hinv.
  assert (Ha1 : a < count s1) by (apply steps_count in Hst; lia).
  destruct (IH (S i) (r || done) s1 Ha1) as (Hpre' & j & Hj & Hcalls).
  set (s' := (iterate fuel k a (S i) (r || done) s1).1) in *. simpl.
  split; [by etrans|]. exists j. split; [lia|]. intros c.
  specialize (Hcalls c). rewrite Hinv in Hcalls.
  assert (Hi' : callbacks k a s' !! i = Some cb).
  { eapply (prefix_lookup_Some (callbacks k a s)); [done|by etrans]. }
  rewrite (take_S_r _ _ _ Hi'), fmap_app, occurrences_app in Hcalls.
  simpl in Hcalls. rewrite occurrences_cons, occurrences_nil in Hcalls.
  destruct (decide (cb_id cb = c)) as [->|Hne].
  - rewrite decide_True in Hcalls by done. lia.
  - rewrite decide_False in Hcalls by congruence. lia.
Qed.

Lemma iterate_calls_le fuel k a i done s c :
  WF s → a < count s →
  calls k a c (iterate fuel k a i done s).1 ≤ calls k a c s + 1.
Proof.
  intros Hwf Ha. destruct (iterate_calls fuel k a i done s Ha) as (_ & j & _ & Hc).
  specialize (Hc c).
  assert (Hwf' : WF (iterate fuel k a i done s).1).
  { eapply steps_WF; [by apply iterate_steps|done]. }
  pose proof (occurrences_NoDup c (cb_id <$> take j (callbacks k a (iterate fuel k a i done s).1))) as Hle.
  rewrite fmap_take in Hle.
  specialize (Hle (sublist_NoDup _ _ (wf_callbacks _ Hwf' k a) (sublist_take _ _))).
  rewrite !fmap_take in Hc. lia.
Qed.

Lemma iterate_calls_other fuel k a i done s k' a' c :
  a < count s → (k', a') ≠ (k, a) →
  calls k' a' c (iterate fuel k a i done s).1 = calls k' a' c s.
Proof.
  intros Ha Hne. apply (steps_calls (in_invoke k a)); [|by apply iterate_steps].
  intros l Hl ->. apply in_invoke_emit in Hl as (c' & [= -> ->]). done.
Qed.

(** *** The phases of [updateAnimation] *)

(** [animation.frame += 1] and the loop over the frame callbacks. *)
Definition frame_phase (a : nat) (s : State) : State * bool :=
  let s := modify a incr_frame (emit (EvFrame a) s) in
  iterate (set_size (callbacks KFrame a s)) KFrame a 0 false s.

(** The loop over [nextFrameCallbacks.getAndDelete(animation)]. *)
Definition nextFrame_phase (a : nat) (p : State * bool) : State * bool :=
  let '(set, m) := CallbackMap_getAndDelete a (nextFrameCallbacks p.1) in
  iterate_detached KNextFrame (default [] set) a p.2 (with_registry KNextFrame m p.1).

(** [if (animation.complete) { for (const cb of completeCallbacks.get(animation) ...) }] *)
Definition complete_phase (a : nat) (s : State) : State :=
  if is_complete a s
  then (iterate (set_size (callbacks KComplete a s)) KComplete a 0 false s).1
  else s.

(** [if (done || animation.complete) { animation.destroy() }] *)
Definition destroy_phase (a : nat) (done : bool) (s : State) : State :=
  if done || is_complete a s then destroy a s else s.

Lemma finish_phases a s :
  finish a s =
  if bool_decide (0 ≤ time_of a s)%Qc
  then let p := nextFrame_phase a (frame_phase a s) in
       destroy_phase a p.2 (complete_phase a p.1)
  else s.
Proof.
  unfold finish, frame_phase, nextFrame_phase, complete_phase, destroy_phase.
  case_bool_decide; [|done]. cbn zeta.
  destruct (iterate _ KFrame a 0 false _) as [s5 d5]. cbn [fst snd].
  destruct (CallbackMap_getAndDelete a (nextFrameCallbacks s5)) as [set m].
  by destruct (iterate_detached KNextFrame _ a d5 _) as [s7 d7].
Qed.

Definition in_frame_phase (a : nat) (l : label) : Prop :=
  in_invoke KFrame a l ∨ l = LEmit (EvFrame a) ∨ l = LIncrFrame a.

Definition in_nextFrame_phase (a : nat) (l : label) : Prop :=
  in_invoke KNextFrame a l ∨ l = LUnregister KNextFrame a.

Lemma frame_phase_steps a s :
  a < count s → steps (in_frame_phase a) s (frame_phase a s).1.
Proof.
  intros Ha. unfold frame_phase.
  eapply steps_trans; [eapply (steps_one _ (LEmit (EvFrame a))); [by right; left|by constructor]|].
  eapply steps_trans; [eapply (steps_one _ (LIncrFrame a)); [by right; right|constructor]|].
  eapply steps_mono; [|apply iterate_steps; by rewrite count_modify]. intros l ?. by left.
Qed.

Lemma nextFrame_phase_steps a p :
  a < count p.1 → steps (in_nextFrame_phase a) p.1 (nextFrame_phase a p).1.
Proof.
  intros Ha. unfold nextFrame_phase.
  destruct (CallbackMap_getAndDelete a (nextFrameCallbacks p.1)) as [set m] eqn:Egd.
  assert (Hm : m = delete a (nextFrameCallbacks p.1)).
  { by rewrite <- (getAndDelete_snd a (nextFrameCallbacks p.1)), Egd. }
  subst m.
  eapply steps_trans;
    [eapply (steps_one _ (LUnregister KNextFrame a)); [by right|constructor]|].
  eapply steps_mono; [|by apply iterate_detached_steps]. intros l ?. by left.
Qed.

Lemma complete_phase_steps a s :
  a < count s → steps (in_invoke KComplete a) s (complete_phase a s).
Proof.
  intros Ha. unfold complete_phase. destruct (is_complete a s); [|apply steps_refl].
  by apply iterate_steps.
Qed.

Lemma destroy_phase_steps a done s : steps (eq (LDestroy a)) s (destroy_phase a done s).
Proof.
  unfold destroy_phase. destruct (done || is_complete a s); [|apply steps_refl].
  eapply (steps_one _ (LDestroy a)); [done|constructor].
Qed.

(** *** Completion callbacks *)

Lemma is_complete_heap a s i : heap s !! a = Some i → is_complete a s = complete i.
Proof. unfold is_complete. by intros ->. Qed.

Lemma same_time_complete i i' : same_time i i' → complete i' = complete i.
Proof. intros (Ht & _ & _ & Hd). unfold complete. by rewrite Ht, Hd. Qed.

Lemma is_destroyed_destroy a s : a < count s → is_destroyed a (destroy a s).
Proof.
  intros Ha. destruct (alive_dec a s) as [Hal|Hal].
  - rewrite destroy_alive by done. apply is_destroyed_set_destroyed. right. split; [done|].
    done.
  - rewrite destroy_not_alive by done.
    destruct (lookup_lt_is_Some_2 (heap s) a Ha) as [i Hi]. exists i. split; [done|].
    destruct (destroyed i) eqn:Hd; [done|]. exfalso. apply Hal. by exists i.
Qed.

Lemma not_LAdvance_invoke k a b l : in_invoke k a l → l ≠ LAdvance b.
Proof. intros [Hl|Hl] ->; done. Qed.

Lemma not_LAdvance_frame_phase a b l : in_frame_phase a l → l ≠ LAdvance b.
Proof. intros [[Hl|Hl]|[Hl|Hl]] ->; done. Qed.

Lemma not_LAdvance_nextFrame_phase a b l : in_nextFrame_phase a l → l ≠ LAdvance b.
Proof. intros [[Hl|Hl]|Hl] ->; done. Qed.

Lemma not_complete_call_frame_phase a a' c l :
  in_frame_phase a l → l ≠ LEmit (EvCall KComplete a' c).
Proof. intros [[Hl|Hl]|[Hl|Hl]] ->; try done. by destruct Hl. Qed.

Lemma not_complete_call_nextFrame_phase a a' c l :
  in_nextFrame_phase a l → l ≠ LEmit (EvCall KComplete a' c).
Proof. intros [[Hl|Hl]|Hl] ->; try done. by destruct Hl. Qed.

(** What [updateAnimation(a)] does about completion, after the advance of
    the time: completion callbacks are called only if the new time is
    both [>= 0] and [>= duration], at most once each, and then the
    instance is destroyed. *)
Lemma finish_complete a s i :
  WF s → heap s !! a = Some i →
  let s' := finish a s in
  (∀ a' c, a' ≠ a → calls KComplete a' c s' = calls KComplete a' c s) ∧
  (∀ c, calls KComplete a c s' ≤ calls KComplete a c s + 1) ∧
  ((0 ≤ time i)%Qc → complete i = true → is_destroyed a s') ∧
  (∀ c, calls KComplete a c s' ≠ calls KComplete a c s →
        (0 ≤ time i)%Qc ∧ complete i = true).
Proof.
  intros Hwf Hi s'. unfold s'. rewrite finish_phases, (time_of_heap _ _ _ Hi).
  assert (Ha : a < count s) by (by apply lookup_lt_Some in Hi).
  case_bool_decide as Ht; [|by repeat split; intros; try lia].
  pose proof (frame_phase_steps a s Ha) as H1.
  destruct (frame_phase a s) as [s5 d5]. cbn [fst snd] in H1.
  assert (Ha5 : a < count s5) by (apply steps_count in H1; lia).
  pose proof (nextFrame_phase_steps a (s5, d5) Ha5) as H2.
  destruct (nextFrame_phase a (s5, d5)) as [s7 d7]. cbn [fst snd] in H2 |- *.
  assert (Ha7 : a < count s7) by (apply steps_count in H2; lia).
  assert (Hwf7 : WF s7) by (eapply steps_WF; [exact H2|]; by eapply steps_WF).
  destruct (steps_same_time _ a s s5 i (not_LAdvance_frame_phase a a) H1 Hi)
    as (i5 & Hi5 & Hst5).
  destruct (steps_same_time _ a s5 s7 i5 (not_LAdvance_nextFrame_phase a a) H2 Hi5)
    as (i7 & Hi7 & Hst7).
  assert (Hc7 : is_complete a s7 = complete i).
  { rewrite (is_complete_heap _ _ _ Hi7).
    by rewrite (same_time_complete _ _ Hst7), (same_time_complete _ _ Hst5). }
  assert (Hcalls7 : ∀ a' c, calls KComplete a' c s7 = calls KComplete a' c s).
  { intros a' c.
    rewrite (steps_calls _ s5 s7 _ _ _ (not_complete_call_nextFrame_phase a a' c) H2).
    apply (steps_calls _ s s5 _ _ _ (not_complete_call_frame_phase a a' c) H1). }
  pose proof (complete_phase_steps a s7 Ha7) as H3.
  set (s8 := complete_phase a s7) in *.
  destruct (steps_same_time _ a s7 s8 i7 (not_LAdvance_invoke KComplete a a) H3 Hi7)
    as (i8 & Hi8 & Hst8).
  assert (Hc8 : is_complete a s8 = complete i).
  { by rewrite (is_complete_heap _ _ _ Hi8), (same_time_complete _ _ Hst8),
      <- (is_complete_heap _ _ _ Hi7). }
  assert (Hcalls9 : ∀ a' c, calls KComplete a' c (destroy_phase a d7 s8)
                            = calls KComplete a' c s8).
  { intros a' c. apply (steps_calls (eq (LDestroy a))); [|apply destroy_phase_steps].
    by intros l <-. }
  split; [|split; [|split]].
  - intros a' c Hne. rewrite Hcalls9, <- Hcalls7. unfold s8, complete_phase.
    destruct (is_complete a s7); [|done].
    apply iterate_calls_other; [done|]. intros [= ?]. done.
  - intros c. rewrite Hcalls9, <- Hcalls7. unfold s8, complete_phase.
    destruct (is_complete a s7); [|lia]. by apply iterate_calls_le.
  - intros _ Hc. unfold destroy_phase. rewrite Hc8, Hc, orb_true_r.
    apply is_destroyed_destroy. apply steps_count in H3. lia.
  - intros c Hne. split; [done|]. rewrite Hcalls9, <- Hcalls7 in Hne.
    rewrite <- Hc7. unfold s8, complete_phase in Hne. by destruct (is_complete a s7).
Qed.

Lemma visit_complete a s :
  WF s →
  let s' := visit a s in
  (∀ a' c, a' ≠ a → calls KComplete a' c s' = calls KComplete a' c s) ∧
  (∀ c, calls KComplete a c s' ≤ calls KComplete a c s + 1) ∧
  (∀ c, calls KComplete a c s' ≠ calls KComplete a c s →
        (∃ i, heap s !! a = Some i ∧ runs i = true) ∧ is_destroyed a s' ∧
        ∃ i', heap s' !! a = Some i' ∧ (0 ≤ time i')%Qc ∧ complete i' = true).
Proof.
  intros Hwf s'. unfold s', visit.
  destruct (heap s !! a) as [i|] eqn:Hi; [|by repeat split; intros; try lia].
  fold (runs i). destruct (runs i) eqn:Hr; [|by repeat split; intros; try lia].
  rewrite updateAnimation_finish.
  set (s1 := modify a (advance (info_deltaTime s)) (emit (EvUpdate a) s)).
  assert (Hst1 : steps (in_update a) s s1).
  { eapply steps_trans.
    - eapply (steps_one _ (LEmit (EvUpdate a))); [by right|constructor].
      by apply lookup_lt_Some in Hi.
    - eapply (steps_one _ (LAdvance a)); [by right|constructor]. }
  assert (Hwf1 : WF s1) by (by eapply steps_WF).
  assert (Hi1 : heap s1 !! a = Some (advance (info_deltaTime s) i)).
  { unfold s1. rewrite heap_modify, decide_True by done. simpl. by rewrite Hi. }
  assert (Hc1 : ∀ a' c, calls KComplete a' c s1 = calls KComplete a' c s).
  { intros a' c. unfold s1, calls. simpl. rewrite occurrences_cons. by rewrite decide_False. }
  destruct (finish_complete a s1 _ Hwf1 Hi1) as (H1 & H2 & H3 & H4).
  split; [|split].
  - intros a' c Hne. by rewrite H1, Hc1.
  - intros c. rewrite <- Hc1. apply H2.
  - intros c Hne. rewrite <- Hc1 in Hne. destruct (H4 c Hne) as [Ht Hc].
    split; [eauto|]. split; [by apply H3|].
    assert (Hlt : a < count s1) by (by apply lookup_lt_Some in Hi1).
    destruct (steps_same_time (in_finish a) a s1 (finish a s1) _ (not_LAdvance_finish a a)
                (finish_steps a s1 Hlt) Hi1) as (i' & Hi' & Hst).
    exists i'. split; [done|]. rewrite (same_time_complete _ _ Hst).
    destruct Hst as (-> & _). done.
Qed.

(** A completion callback that has been called has been called once, on
    an instance that is destroyed. *)
Definition Completed (s : State) : Prop :=
  ∀ a c, calls KComplete a c s = 0 ∨ (calls KComplete a c s = 1 ∧ is_destroyed a s).

Lemma Completed_initial : Completed initial.
Proof. intros a c. by left. Qed.

Lemma steps_Completed L s s' :
  (∀ l a c, L l → l ≠ LEmit (EvCall KComplete a c)) →
  steps L s s' → Completed s → Completed s'.
Proof.
  intros HL Hst Hc a c.
  rewrite (steps_calls L s s' KComplete a c (λ l Hl, HL l a c Hl) Hst).
  destruct (Hc a c) as [?|[? ?]]; [by left|right]. split; [done|].
  by eapply steps_is_destroyed.
Qed.

Lemma visit_Completed a s : WF s → Completed s → Completed (visit a s).
Proof.
  intros Hwf Hc a' c. destruct (visit_complete a s Hwf) as (H1 & H2 & H3).
  assert (Hmono : ∀ b, is_destroyed b s → is_destroyed b (visit a s)).
  { intros b. apply (steps_is_destroyed _ _ _ _ (visit_steps a s)). }
  destruct (decide (a' = a)) as [->|Hne].
  - destruct (decide (calls KComplete a c (visit a s) = calls KComplete a c s)) as [->|Hch].
    + destruct (Hc a c) as [?|[? ?]]; auto.
    + destruct (H3 c Hch) as ((i & Hi & Hr) & Hd & _).
      destruct (Hc a c) as [H0|[_ Hd0]].
      * right. split; [|done]. specialize (H2 c). lia.
      * exfalso. destruct Hd0 as (j & Hj & Hdj). unfold runs in Hr. 
        assert (j = i) as -> by congruence. by rewrite Hdj in Hr.
  - rewrite (H1 a' c Hne). destruct (Hc a' c) as [?|[? ?]]; auto.
Qed.

Lemma mainLoop_Completed l : ∀ s, WF s → Completed s → Completed (mainLoop l s).
Proof.
  induction l as [|a l IH]; intros s Hwf Hc; [done|]. simpl. apply IH.
  - eapply steps_WF; [apply visit_steps|done].
  - by apply visit_Completed.
Qed.

Lemma not_complete_call_after a c l : in_after_loop l → l ≠ LEmit (EvCall KComplete a c).
Proof. intros [(b & [Hl|Hl])|Hl] ->; done. Qed.

Lemma not_complete_call_client a c l : from_client l → l ≠ LEmit (EvCall KComplete a c).
Proof. by intros Hl ->. Qed.

Lemma frame_Completed ms s : WF s → Completed s → Completed (_innerLoop ms s).
Proof.
  intros Hwf Hc. rewrite _innerLoop_clock, updateAnimations_after_loop.
  assert (Hc1 : Completed (mainLoop (animations (clock ms s)) (with_updating true (clock ms s)))).
  { apply mainLoop_Completed; [by apply WF_start|]. exact Hc. }
  eapply steps_Completed; [|apply after_loop_steps|exact Hc1].
  - intros l a c. apply not_complete_call_after.
  - eapply steps_WF; [apply mainLoop_steps|by apply WF_start].
Qed.

Lemma do_step_Completed st s : WF s → Completed s → Completed (do_step st s).
Proof.
  intros Hwf Hc. destruct st as [ms|sc]; [by apply frame_Completed|]. simpl.
  eapply steps_Completed; [|apply exec_steps|done].
  intros l a c. apply not_complete_call_client.
Qed.

Lemma run_Completed sts : ∀ s, WF s → Completed s → Completed (run sts s).
Proof.
  induction sts as [|st sts IH]; intros s Hwf Hc; [done|]. rewrite run_cons.
  apply IH; [|by apply do_step_Completed]. eapply steps_WF; [by apply do_step_steps|done].
Qed.

Lemma reachable_Completed s : reachable s → Completed s.
Proof. intros [sts ->]. apply run_Completed; [apply WF_initial|apply Completed_initial]. Qed.

(** The steps of a frame that do not belong to the turn of [a]: they call
    none of its frame, next-frame or completion callbacks. *)
Lemma turn_no_call a k c l : k ≠ KDestroy → in_turn a l → l ≠ LEmit (EvCall k a c).
Proof.
  intros Hk [->|[->|(b & Hb & [Hl|Hl])]] Heq; try done; subst l; [done|].
  simpl in Hl. by destruct Hl.
Qed.

Lemma others_no_call a k c l :
  k ≠ KDestroy → (∃ b, b ≠ a ∧ in_update b l) → l ≠ LEmit (EvCall k a c).
Proof.
  intros Hk (b & Hb & [Hl|Hl]) Heq; subst l; [done|]. simpl in Hl. by destruct Hl.
Qed.

Lemma after_no_call a k c l : k ≠ KDestroy → in_after_loop l → l ≠ LEmit (EvCall k a c).
Proof.
  intros Hk [(b & [Hl|Hl])|Hl] Heq; subst l; try done. simpl in Hl. by destruct k.
Qed.

Lemma loops_no_call s a k c l :
  k ≠ KDestroy → a ∉ animations s → in_loops s l → l ≠ LEmit (EvCall k a c).
Proof.
  intros Hk Ha [(b & Hb & [Hl|Hl])|(b & [Hl|Hl])] Heq; subst l; try done.
  - simpl in Hl. destruct Hl as [-> _]. done.
  - simpl in Hl. by destruct k.
Qed.

(** Outside of the turn of [a], a frame makes no call on [a] other than
    of its "on destroy" callbacks. *)
Lemma frame_calls_not_member ms s a k c :
  WF s → k ≠ KDestroy → a ∉ animations s →
  calls k a c (_innerLoop ms s) = calls k a c s.
Proof.
  intros Hwf Hk Ha. rewrite _innerLoop_loops.
  change (calls k a c (with_updating false _)) with (calls k a c (loops ms s)).
  rewrite (steps_calls _ _ _ k a c (λ l, loops_no_call s a k c l Hk Ha) (loops_steps ms s Hwf)).
  done.
Qed.

Lemma frame_calls_member ms s a k c post :
  WF s → k ≠ KDestroy → a ∉ post →
  _innerLoop ms s = after_loop (mainLoop post (visit a (turn a ms s))) →
  calls k a c (turn a ms s) = calls k a c s ∧
  calls k a c (_innerLoop ms s) = calls k a c (visit a (turn a ms s)).
Proof.
  intros Hwf Hk Hpost ->. split.
  - apply (steps_calls _ _ _ k a c (λ l, turn_no_call a k c l Hk) (turn_steps a ms s)).
  - assert (Hwf1 : WF (turn a ms s)).
    { eapply steps_WF; [apply turn_steps|done]. }
    assert (Hwf2 : WF (mainLoop post (visit a (turn a ms s)))).
    { eapply steps_WF; [apply mainLoop_steps|]. eapply steps_WF; [apply visit_steps|done]. }
    rewrite (steps_calls _ _ _ k a c (λ l, after_no_call a k c l Hk) (after_loop_steps _ Hwf2)).
    apply (steps_calls _ _ _ k a c (λ l, others_no_call a k c l Hk)
             (mainLoop_steps_others a post _ Hpost)).
Qed.

(** The frame in which a completion callback is called. *)
Lemma frame_complete ms s a c :
  WF s → Completed s →
  calls KComplete a c (_innerLoop ms s) ≠ calls KComplete a c s →
  alive a s ∧ calls KComplete a c s = 0 ∧ calls KComplete a c (_innerLoop ms s) = 1 ∧
  (∃ i, heap (turn a ms s) !! a = Some i ∧ runs i = true) ∧
  is_destroyed a (_innerLoop ms s) ∧
  ∃ i', heap (_innerLoop ms s) !! a = Some i' ∧ (0 ≤ time i')%Qc ∧ complete i' = true.
Proof.
  intros Hwf Hc Hne.
  destruct (decide (a ∈ animations s)) as [Ha|Ha].
  2:{ by rewrite frame_calls_not_member in Hne. }
  destruct (frame_split a ms s (wf_animations s Hwf) Ha) as (post & Hpost & _ & Heq).
  destruct (frame_calls_member ms s a KComplete c post Hwf ltac:(done) Hpost Heq)
    as [Hc1 Hc2].
  assert (Hwf1 : WF (turn a ms s)) by (eapply steps_WF; [apply turn_steps|done]).
  destruct (visit_complete a (turn a ms s) Hwf1) as (_ & Hle & Hfire).
  rewrite Hc2, <- Hc1 in Hne.
  destruct (Hfire c Hne) as ((i & Hi & Hr) & Hd & i' & Hi' & Ht' & Hc').
  assert (Hal : alive a s).
  { eapply (steps_alive_before _ a s (turn a ms s)); [apply turn_steps|..].
    - by apply (wf_members s Hwf); left.
    - exists i. split; [done|]. unfold runs in Hr. by destruct (destroyed i). }
  assert (H0 : calls KComplete a c s = 0).
  { destruct (Hc a c) as [?|[_ Hd0]]; [done|]. by destruct (not_alive_destroyed a s). }
  assert (Hwf2 : WF (mainLoop post (visit a (turn a ms s)))).
  { eapply steps_WF; [apply mainLoop_steps|]. eapply steps_WF; [apply visit_steps|done]. }
  assert (Hrest : steps (λ l, (∃ b, b ≠ a ∧ in_update b l) ∨ in_after_loop l)
                    (visit a (turn a ms s)) (_innerLoop ms s)).
  { rewrite Heq. eapply steps_trans.
    - eapply steps_mono; [|apply (mainLoop_steps_others a post _ Hpost)]. by left.
    - eapply steps_mono; [|apply (after_loop_steps _ Hwf2)]. by right. }
  split; [done|]. split; [done|]. split.
  { specialize (Hle c). rewrite Hc2. rewrite <- Hc1 in H0. lia. }
  split; [eauto|]. split; [by eapply steps_is_destroyed|].
  destruct (steps_same_time _ a _ _ i' (λ l Hl, match Hl with
              | or_introl (ex_intro _ b (conj Hb Hu)) => not_LAdvance_update a b l Hb Hu
              | or_intror Hal => not_LAdvance_after a l Hal end) Hrest Hi')
    as (i'' & Hi'' & Hst).
  exists i''. split; [done|]. rewrite (same_time_complete _ _ Hst).
  destruct Hst as (-> & _). done.
Qed.

(** *** Instances that are not complete yet *)

Definition nonnegative (d : option Qc) : Prop :=
  match d with Some d => (0 ≤ d)%Qc | None => True end.

Lemma complete_negative i :
  nonnegative (duration i) → complete i = true → (0 ≤ time i)%Qc.
Proof.
  unfold complete, nonnegative. destruct (duration i) as [d|]; [|done].
  intros Hd Hc. apply bool_decide_eq_true in Hc. by etrans.
Qed.

(** An instance with a non-negative duration that is live and not
    complete before a frame is, after the frame, either not complete or
    destroyed. *)
Lemma frame_pending ms s a i :
  WF s → Boundary s → heap s !! a = Some i → nonnegative (duration i) →
  (alive a s → complete i = false) →
  ∃ i', heap (_innerLoop ms s) !! a = Some i' ∧ duration i' = duration i ∧
        (alive a (_innerLoop ms s) → complete i' = false).
Proof.
  intros Hwf Hb Hi Hnn Hpend.
  assert (Hlt : a < count s) by (by apply lookup_lt_Some in Hi).
  destruct (steps_same_duration in_frame a s (_innerLoop ms s) i
              (_innerLoop_steps ms s Hwf) Hi) as (i' & Hi' & Hd').
  exists i'. split; [done|]. split; [done|]. intros Hal'.
  assert (Hal : alive a s).
  { eapply steps_alive_before; [by apply _innerLoop_steps|done|done]. }
  specialize (Hpend Hal).
  assert (Ha : a ∈ animations s) by (by apply alive_in_animations).
  destruct (frame_split a ms s (wf_animations s Hwf) Ha) as (post & Hpost & _ & Heq).
  destruct (steps_same_time (in_turn a) a s (turn a ms s) i (not_LAdvance_turn a)
              (turn_steps a ms s) Hi) as (it & Hit & Hst).
  assert (Hwf1 : WF (turn a ms s)) by (eapply steps_WF; [apply turn_steps|done]).
  assert (Hwf2 : WF (mainLoop post (visit a (turn a ms s)))).
  { eapply steps_WF; [apply mainLoop_steps|]. eapply steps_WF; [apply visit_steps|done]. }
  assert (Hrest : steps (λ l, (∃ b, b ≠ a ∧ in_update b l) ∨ in_after_loop l)
                    (visit a (turn a ms s)) (_innerLoop ms s)).
  { rewrite Heq. eapply steps_trans.
    - eapply steps_mono; [|apply (mainLoop_steps_others a post _ Hpost)]. by left.
    - eapply steps_mono; [|apply (after_loop_steps _ Hwf2)]. by right. }
  assert (Hnadv : ∀ l, (∃ b, b ≠ a ∧ in_update b l) ∨ in_after_loop l → l ≠ LAdvance a).
  { intros l [(b & Hne & Hu)|Hl]; [by eapply not_LAdvance_update|by apply not_LAdvance_after]. }
  assert (Hfinal : ∀ iv, heap (visit a (turn a ms s)) !! a = Some iv →
                         complete i' = complete iv).
  { intros iv Hiv. destruct (steps_same_time _ a _ _ iv Hnadv Hrest Hiv) as (j & Hj & Hstj).
    assert (j = i') as -> by congruence. by apply same_time_complete. }
  unfold visit in Hfinal, Hrest. rewrite Hit in Hfinal, Hrest. fold (runs it) in Hfinal, Hrest.
  destruct (runs it) eqn:Hr.
  2:{ rewrite (Hfinal it Hit). by rewrite (same_time_complete _ _ Hst). }
  rewrite updateAnimation_finish in Hfinal, Hrest.
  set (s1 := modify a (advance (info_deltaTime (turn a ms s))) (emit (EvUpdate a) (turn a ms s)))
    in *.
  assert (Hst1 : steps (in_update a) (turn a ms s) s1).
  { eapply steps_trans.
    - eapply (steps_one _ (LEmit (EvUpdate a))); [by right|constructor].
      by apply lookup_lt_Some in Hit.
    - eapply (steps_one _ (LAdvance a)); [by right|constructor]. }
  assert (Hwf1' : WF s1) by (by eapply steps_WF).
  set (i1 := advance (info_deltaTime (turn a ms s)) it).
  assert (Hi1 : heap s1 !! a = Some i1).
  { unfold s1. rewrite heap_modify, decide_True by done. simpl. by rewrite Hit. }
  destruct (finish_complete a s1 i1 Hwf1' Hi1) as (_ & _ & Hdestroy & _).
  assert (Hlt1 : a < count s1) by (by apply lookup_lt_Some in Hi1).
  destruct (steps_same_time (in_finish a) a s1 (finish a s1) _ (not_LAdvance_finish a a)
              (finish_steps a s1 Hlt1) Hi1) as (iv & Hiv & Hstv).
  rewrite (Hfinal iv Hiv), (same_time_complete _ _ Hstv).
  destruct (complete i1) eqn:Hc1; [|done]. exfalso.
  eapply not_alive_destroyed; [exact Hal'|].
  eapply steps_is_destroyed; [exact Hrest|]. apply Hdestroy; [|done].
  apply complete_negative; [|done].
  unfold i1. simpl. destruct Hst as (_ & _ & _ & ->). done.
Qed.

Lemma call_pending sc s a i :
  heap s !! a = Some i → (alive a s → complete i = false) →
  ∃ i', heap (do_step (Call sc) s) !! a = Some i' ∧ duration i' = duration i ∧
        (alive a (do_step (Call sc) s) → complete i' = false).
Proof.
  intros Hi Hpend. simpl.
  destruct (steps_same_time from_client a s (exec sc None None s).1 i
              (not_LAdvance_client a) (exec_steps _ _ _ _) Hi) as (i' & Hi' & Hst).
  exists i'. split; [done|]. split; [by destruct Hst as (_ & _ & _ & ->)|].
  intros Hal'. rewrite (same_time_complete _ _ Hst). apply Hpend.
  eapply steps_alive_before; [apply exec_steps| |done]. by apply lookup_lt_Some in Hi.
Qed.

Lemma run_pending sts : ∀ s a i,
  WF s → Boundary s → heap s !! a = Some i → nonnegative (duration i) →
  (alive a s → complete i = false) →
  alive a (run sts s) → is_complete a (run sts s) = false.
Proof.
  induction sts as [|st sts IH]; intros s a i Hwf Hb Hi Hnn Hpend.
  - change (run [] s) with s. intros Hal. rewrite (is_complete_heap _ _ _ Hi). auto.
  - rewrite run_cons.
    assert (∃ i', heap (do_step st s) !! a = Some i' ∧ duration i' = duration i ∧
                  (alive a (do_step st s) → complete i' = false)) as (i' & Hi' & Hd' & Hp').
    { destruct st; [by apply frame_pending|by apply call_pending]. }
    apply (IH _ _ i'); [|by apply Boundary_do_step|done|by rewrite Hd'|done].
    eapply steps_WF; [by apply do_step_steps|done].
Qed.

(** *** The queue of instances to destroy

    [Queue p s]: the first [p] elements of [destroyedAnimations] have
    been through [destroyAnimation], the others are waiting for it.  No
    "on destroy" callback of a live or waiting instance has been called;
    an instance that is destroyed and not waiting has no entry left in the
    registries that [destroyAnimation] clears. *)
Record Queue (p : nat) (s : State) : Prop := mkQueue {
  q_bound : p ≤ length (destroyedAnimations s);
  q_alive : ∀ a c, alive a s → calls KDestroy a c s = 0;
  q_waiting : ∀ a c, a ∈ drop p (destroyedAnimations s) → calls KDestroy a c s = 0;
  q_done : ∀ a k, is_destroyed a s → a ∉ drop p (destroyedAnimations s) →
                  k ≠ KComplete → registry s k !! a = None
}.

Lemma Queue_initial : Queue 0 initial.
Proof.
  split; try done; intros a k (i & Hi & _); done.
Qed.

Lemma calls_lt k a c s : WF s → 0 < calls k a c s → a < count s.
Proof.
  intros Hwf Hc. apply (wf_trace s Hwf (EvCall k a c)).
  destruct (decide (EvCall k a c ∈ trace s)) as [?|Hn]; [done|].
  unfold calls in Hc. rewrite occurrences_0 in Hc by done. lia.
Qed.

Lemma drop_set_add p b l : p ≤ length l → ∀ a, a ∈ drop p (set_add b l) → a ∈ drop p l ∨ (a = b ∧ b ∉ l).
Proof.
  intros Hp a. unfold set_add. case_bool_decide as Hb; [auto|].
  rewrite drop_app_le by done. rewrite elem_of_app, list_elem_of_singleton. tauto.
Qed.

Lemma elem_of_drop_lookup {A} (x : A) p l : x ∈ drop p l ↔ ∃ i, l !! (p + i) = Some x.
Proof. rewrite list_elem_of_lookup. by setoid_rewrite lookup_drop. Qed.

Lemma drop_set_add_mono p b l a : a ∈ drop p l → a ∈ drop p (set_add b l).
Proof.
  unfold set_add. case_bool_decide; [done|]. rewrite !elem_of_drop_lookup.
  intros (i & Hi). exists i. by apply lookup_app_l_Some.
Qed.

Lemma alive_atomic_before l s s' a :
  atomic l s s' → alive a s' → alive a s ∨ (l = LCreate a ∧ a = count s).
Proof.
  intros Hat (i' & Hi' & Hd'). destruct (heap s !! a) as [i|] eqn:Hi.
  - left. destruct (atomic_heap _ _ _ _ _ Hat Hi) as (j & Hj & Heff).
    assert (j = i') as -> by congruence. exists i. split; [done|].
    destruct Heff; simpl in *; done.
  - right. by destruct (atomic_created _ _ _ _ _ Hat Hi Hi') as (? & ? & _).
Qed.

Lemma is_destroyed_atomic_before l s s' a :
  atomic l s s' → is_destroyed a s' →
  is_destroyed a s ∨ (l = LDestroy a ∧ alive a s).
Proof.
  intros Hat (i' & Hi' & Hd'). destruct (heap s !! a) as [i|] eqn:Hi.
  - destruct (atomic_heap _ _ _ _ _ Hat Hi) as (j & Hj & Heff).
    assert (j = i') as -> by congruence.
    destruct Heff; simpl in *; try (by left; exists i); try done.
    right. split; [done|]. by exists i.
  - destruct (atomic_created _ _ _ _ _ Hat Hi Hi') as (_ & _ & _ & ?). congruence.
Qed.

(** Every step keeps the queue in order, except the emptying of the queue
    and the call of an "on destroy" callback of an instance that is live
    or waiting. *)
Lemma atomic_Queue p l s s' :
  atomic l s s' → WF s → Queue p s → l ≠ LClear →
  (∀ a c, l = LEmit (EvCall KDestroy a c) →
          is_destroyed a s ∧ a ∉ drop p (destroyedAnimations s)) →
  Queue p s'.
Proof.
  intros Hat Hwf [Hb Hal Hw Hd] Hclear Hemit.
  assert (Hcalls : ∀ a c, (alive a s ∨ a ∈ drop p (destroyedAnimations s) ∨ count s ≤ a) →
                          calls KDestroy a c s' = 0).
  { intros a c Ha.
    assert (H0 : calls KDestroy a c s = 0).
    { destruct Ha as [?|[?|?]]; [by apply Hal|by apply Hw|].
      destruct (calls KDestroy a c s) eqn:E; [done|].
      pose proof (calls_lt KDestroy a c s Hwf ltac:(lia)). lia. }
    rewrite (atomic_calls _ _ _ _ _ _ Hat); [done|]. intros ->.
    destruct (Hemit a c eq_refl) as [Hda Hna].
    destruct Ha as [?|[?|?]]; [by eapply not_alive_destroyed|done|].
    apply is_destroyed_lt in Hda. lia. }
  assert (HdA : ∀ a, a ∈ drop p (destroyedAnimations s') →
                     a ∈ drop p (destroyedAnimations s) ∨ alive a s).
  { intros a. destruct (atomic_destroyedAnimations _ _ _ Hat) as [->|[(b & _ & ? & ->)|[? _]]];
      [auto| |done].
    intros [?|[-> _]]%drop_set_add; auto. }
  assert (HdA' : ∀ a, a ∈ drop p (destroyedAnimations s) →
                      a ∈ drop p (destroyedAnimations s')).
  { intros a. destruct (atomic_destroyedAnimations _ _ _ Hat) as [->|[(b & _ & ? & ->)|[? _]]];
      [auto| |done].
    apply drop_set_add_mono. }
  split.
  - destruct (atomic_destroyedAnimations _ _ _ Hat) as [->|[(b & _ & _ & ->)|[? _]]];
      [done| |done].
    etrans; [exact Hb|]. apply prefix_length, set_add_prefix.
  - intros a c Ha. apply Hcalls.
    destruct (alive_atomic_before _ _ _ _ Hat Ha) as [?|[_ ->]]; auto.
  - intros a c Ha. apply Hcalls. destruct (HdA a Ha); auto.
  - intros a k Ha Hna Hk.
    destruct (is_destroyed_atomic_before _ _ _ _ Hat Ha) as [Ha0|[-> Hal0]].
    + assert (Hr : registry s k !! a = None).
      { apply Hd; [done| |done]. intros ?. by apply Hna, HdA'. }
      destruct (atomic_registry _ _ _ k a Hat) as [->|[[_ ->]|(cb & _ & [[_ ?]|(_ & -> & _)] & _)]];
        [done|done|by destruct (not_alive_destroyed a s)|].
      apply is_destroyed_lt in Ha0. lia.
    + exfalso. apply Hna.
      assert (Hnin : a ∉ destroyedAnimations s).
      { intros Hin%(wf_queued s Hwf). by eapply not_alive_destroyed. }
      inversion Hat; subst. rewrite destroy_alive by done. simpl.
      unfold set_add. rewrite bool_decide_eq_false_2 by done.
      rewrite drop_app_le by done. apply elem_of_app. right. by apply list_elem_of_singleton.
Qed.

(** *** The second loop of [updateAnimations] reaches the end of the queue

    [destroy_fuel] bounds the number of turns of the loop: a turn takes an
    instance out of the queue; an "on destroy" callback can only put an
    instance that is still live into the queue, and can only construct
    instances and register callbacks that its own text contains. *)

Lemma set_size_cons cb l : set_size (cb :: l) = callback_size cb + set_size l.
Proof. done. Qed.

Lemma set_size_app l1 l2 : set_size (l1 ++ l2) = set_size l1 + set_size l2.
Proof.
  induction l1 as [|cb l1 IH]; [done|].
  rewrite <- app_comm_cons, !set_size_cons, IH. lia.
Qed.

Lemma set_size_cbset_add cb l : set_size (cbset_add cb l) ≤ set_size l + callback_size cb.
Proof.
  unfold cbset_add. case_bool_decide; [lia|]. rewrite set_size_app, set_size_cons.
  change (set_size []) with 0. lia.
Qed.

Lemma script_size_pos sc : 0 < script_size sc.
Proof. destruct sc; simpl; lia. Qed.

Lemma callback_size_pos cb : 0 < callback_size cb.
Proof. unfold callback_size. destruct (cb_code cb); [apply script_size_pos|lia..]. Qed.

Lemma set_size_length l : length l ≤ set_size l.
Proof.
  induction l as [|cb l IH]; [done|]. rewrite set_size_cons. simpl.
  pose proof (callback_size_pos cb). lia.
Qed.

Lemma registry_size_comm (j1 j2 : nat) (z1 z2 : list callback) (y : nat) :
  set_size z1 + (set_size z2 + y) = set_size z2 + (set_size z1 + y).
Proof. lia. Qed.

Lemma registry_size_lookup m a l :
  m !! a = Some l → registry_size m = set_size l + registry_size (delete a m).
Proof.
  intros Hl. unfold registry_size.
  apply (map_fold_delete_L (λ _ l n, set_size l + n)); [|done].
  intros. apply registry_size_comm; done.
Qed.

Lemma registry_size_delete m a :
  registry_size (delete a m) + set_size (default [] (m !! a)) = registry_size m.
Proof.
  destruct (m !! a) as [l|] eqn:Hl; simpl.
  - rewrite (registry_size_lookup m a l Hl). lia.
  - rewrite delete_id by done. unfold set_size. simpl. lia.
Qed.

Lemma registry_size_insert m a l :
  registry_size (<[a := l]> m) + set_size (default [] (m !! a)) = registry_size m + set_size l.
Proof.
  rewrite (registry_size_lookup (<[a := l]> m) a l) by apply lookup_insert_eq.
  rewrite delete_insert_eq. pose proof (registry_size_delete m a). lia.
Qed.

Lemma registry_size_add m a cb :
  registry_size (CallbackMap_add a cb m) ≤ registry_size m + callback_size cb.
Proof.
  unfold CallbackMap_add.
  pose proof (registry_size_insert m a (cbset_add cb (default [] (m !! a)))).
  pose proof (set_size_cbset_add cb (default [] (m !! a))). lia.
Qed.

Definition live (l : list AnimationInstance) : nat :=
  length (filter (λ i, destroyed i = false) l).

Lemma live_cons i l : live (i :: l) = (if destroyed i then 0 else 1) + live l.
Proof.
  unfold live. destruct (destroyed i) eqn:Hd.
  - rewrite filter_cons_False; [done|]. by rewrite Hd.
  - by rewrite filter_cons_True.
Qed.

Lemma live_alter_same f a l :
  (∀ i, destroyed (f i) = destroyed i) → live (alter f a l) = live l.
Proof.
  intros Hf. revert a. induction l as [|i l IH]; intros [|a]; simpl; try done.
  - by rewrite !live_cons, Hf.
  - rewrite !live_cons. f_equal. apply IH.
Qed.

Lemma live_alter_destroy a l i :
  l !! a = Some i → destroyed i = false →
  S (live (alter (set_destroyed true) a l)) = live l.
Proof.
  revert a. induction l as [|j l IH]; intros [|a] Hi Hd; simpl in *; try done.
  - injection Hi as ->. rewrite !live_cons. simpl. by rewrite Hd.
  - rewrite !live_cons. pose proof (IH a Hi Hd) as IH'.
    change (alter (set_destroyed true) a l) with (list_alter (set_destroyed true) a l) in IH'. lia.
Qed.

Lemma live_app l1 l2 : live (l1 ++ l2) = live l1 + live l2.
Proof. unfold live. by rewrite filter_app, length_app. Qed.

(** The potential that [destroy_fuel] computes. *)
Definition pot (s : State) : nat :=
  length (destroyedAnimations s) + live (heap s) + registry_size (destroyCallbacks s).

Lemma destroy_fuel_pot s : destroy_fuel s = pot s.
Proof. done. Qed.

Lemma pot_same s s' :
  destroyedAnimations s' = destroyedAnimations s → heap s' = heap s →
  destroyCallbacks s' = destroyCallbacks s → pot s' = pot s.
Proof. unfold pot. by intros -> -> ->. Qed.

Lemma length_set_add a l : length (set_add a l) ≤ S (length l).
Proof. unfold set_add. case_bool_decide; [lia|]. rewrite length_app. simpl. lia. Qed.

Lemma pot_destroy a s : pot (destroy a s) ≤ pot s.
Proof.
  unfold destroy. destruct (heap s !! a) as [i|] eqn:Hi; [|done].
  destruct (destroyed i) eqn:Hd; [done|]. unfold pot, modify. simpl.
  pose proof (live_alter_destroy a (heap s) i Hi Hd).
  pose proof (length_set_add a (destroyedAnimations s)). lia.
Qed.

Lemma pot_modify a f s :
  (∀ i, destroyed (f i) = destroyed i) → pot (modify a f s) = pot s.
Proof. intros Hf. unfold pot, modify. simpl. by rewrite live_alter_same. Qed.

Lemma pot_register k a cb s :
  pot (register k a (Some cb) s) ≤ pot s + callback_size cb.
Proof.
  unfold register. destruct (heap s !! a) as [i|]; [|lia].
  destruct (destroyed i); [lia|]. unfold pot. simpl.
  destruct k; simpl; try lia.
  pose proof (registry_size_add (destroyCallbacks s) a cb). lia.
Qed.

Lemma pot_promise k a s : pot (promise k a s).1 ≤ pot s + 1.
Proof.
  unfold promise, pot. simpl. destruct k; simpl; try lia.
  pose proof (registry_size_add (destroyCallbacks s) a (mkCallback (Anon (closures s)) Resolve)).
  unfold callback_size in *. simpl in *. lia.
Qed.

Lemma pot_wait (f : nat → State → State * option nat) a s :
  f = waitDestroy ∨ f = waitCompletion ∨ f = nextFrame → pot (f a s).1 ≤ pot s + 1.
Proof.
  intros [-> | [-> | ->]]; unfold waitDestroy, waitCompletion, nextFrame;
    destruct (heap s !! a) as [i|]; simpl; try lia;
    destruct (destroyed i); simpl; try lia; try apply pot_promise.
  destruct (complete i); simpl; [lia|apply pot_promise].
Qed.

Lemma pot_new cb s : pot (new_AnimationInstance cb s).1 = S (pot s).
Proof.
  destruct (new_others cb s) as (Hh & Hd & _ & _ & _ & _ & _ & _ & _ & Hr).
  unfold pot. rewrite Hh, Hd, Hr. unfold allocate. simpl. rewrite live_app.
  rewrite live_cons. simpl. change (live []) with 0. destruct cb; simpl; lia.
Qed.

Lemma pot_during_setup tp cb s : pot (during_setup tp cb s).1 = S (pot s).
Proof. rewrite during_setup_fst, pot_modify by done. apply pot_new. Qed.

Lemma pot_AnimationMap_set w t a s : pot (AnimationMap_set w t a s) ≤ pot s + 1.
Proof.
  unfold AnimationMap_set.
  set (s1 := match AnimationMap_get w t s with Some old => destroy old s | None => s end).
  assert (H1 : pot s1 ≤ pot s).
  { unfold s1. destruct (AnimationMap_get w t s); [apply pot_destroy|done]. }
  etrans; [apply pot_register|]. unfold callback_size. simpl.
  change (pot (with_closures _ (with_targets w _ s1))) with (pot s1). lia.
Qed.

Lemma pot_cancelTarget w t s : pot (cancelTarget w t s) ≤ pot s.
Proof. unfold cancelTarget. destruct (AnimationMap_get w t s); [apply pot_destroy|done]. Qed.

Lemma pot_on o (f : nat → State → State) s n :
  (∀ a s, pot (f a s) ≤ pot s + n) → pot (on o f s) ≤ pot s + n.
Proof. intros Hf. destruct o; simpl; [apply Hf|lia]. Qed.

(** Client code pays for what it adds to the potential with its size. *)
Lemma exec_pot sc : ∀ self last s, pot (exec sc self last s).1 + 1 ≤ pot s + script_size sc.
Proof.
  induction sc; intros self last s; cbn [script_size]; unfold exec; fold exec.
  - simpl. lia.
  - etrans; [apply IHsc|].
    pose proof (pot_on (deref r self last) destroy s 0) as H.
    specialize (H ltac:(intros a0 s0; pose proof (pot_destroy a0 s0); lia)). lia.
  - etrans; [apply IHsc|].
    pose proof (pot_on (deref r self last) (λ a, modify a (set_paused b)) s 0) as H.
    specialize (H ltac:(intros; cbn beta; rewrite pot_modify by done; lia)). lia.
  - etrans; [apply IHsc|].
    pose proof (pot_on (deref r self last) (λ a, modify a (set_timeScale x)) s 0) as H.
    specialize (H ltac:(intros; cbn beta; rewrite pot_modify by done; lia)). lia.
  - etrans; [apply IHsc2|].
    pose proof (pot_on (deref r self last) (λ a, onFrame a (Some (client n sc1))) s
                  (script_size sc1) (λ a s, pot_register KFrame a _ s)). lia.
  - etrans; [apply IHsc2|].
    pose proof (pot_on (deref r self last) (λ a, onComplete a (Some (client n sc1))) s
                  (script_size sc1) (λ a s, pot_register KComplete a _ s)). lia.
  - etrans; [apply IHsc2|].
    pose proof (pot_on (deref r self last) (λ a, onDestroy a (Some (client n sc1))) s
                  (script_size sc1) (λ a s, pot_register KDestroy a _ s)). lia.
  - etrans; [apply IHsc|].
    pose proof (pot_on (deref r self last) (λ a s, (waitDestroy a s).1) s 1
                  (λ a s, pot_wait waitDestroy a s ltac:(auto))). lia.
  - etrans; [apply IHsc|].
    pose proof (pot_on (deref r self last) (λ a s, (waitCompletion a s).1) s 1
                  (λ a s, pot_wait waitCompletion a s ltac:(auto))). lia.
  - etrans; [apply IHsc|].
    pose proof (pot_on (deref r self last) (λ a s, (nextFrame a s).1) s 1
                  (λ a s, pot_wait nextFrame a s ltac:(auto))). lia.
  - unfold loop. pose proof (pot_new (Some (client n sc1)) s) as Hn.
    destruct (new_AnimationInstance (Some (client n sc1)) s) as [s' a]. simpl in Hn.
    etrans; [apply IHsc2|]. lia.
  - unfold loopWithTarget, loop. pose proof (pot_new (Some (client n sc1)) s) as Hn.
    destruct (new_AnimationInstance (Some (client n sc1)) s) as [s' a]. simpl in Hn.
    etrans; [apply IHsc2|]. pose proof (pot_AnimationMap_set LoopMap target a s'). lia.
  - etrans; [apply IHsc|]. pose proof (pot_cancelTarget LoopMap target s). lia.
  - pose proof (pot_during_setup tp (Some (client n sc1)) s) as Hn.
    destruct (during_setup tp (Some (client n sc1)) s) as [s' a]. simpl in Hn.
    etrans; [apply IHsc2|].
    destruct (immediate_of tp); [|lia].
    pose proof (IHsc1 (Some a) None (emit (EvImmediate a (Named n)) s')) as H1.
    change (pot (emit _ s')) with (pot s') in H1. lia.
  - pose proof (pot_during_setup tp None s) as Hn.
    destruct (during_setup tp None s) as [s' a]. simpl in Hn.
    etrans; [apply IHsc|]. lia.
  - pose proof (pot_during_setup tp (Some (client n sc1)) s) as Hn.
    destruct (during_setup tp (Some (client n sc1)) s) as [s' a]. simpl in Hn.
    etrans; [apply IHsc2|].
    etrans; [apply Nat.add_le_mono_r, pot_AnimationMap_set|].
    destruct (immediate_of tp); [|lia].
    pose proof (IHsc1 (Some a) None (emit (EvImmediate a (Named n)) s')) as H1.
    change (pot (emit _ s')) with (pot s') in H1. lia.
  - pose proof (pot_during_setup tp (Some (mkCallback (Anon (closures s)) (Run (Return false))))
                  (with_closures (S (closures s)) s)) as Hn.
    destruct (during_setup tp _ (with_closures (S (closures s)) s)) as [s' a]. simpl in Hn.
    change (pot (with_closures _ s)) with (pot s) in Hn.
    etrans; [apply IHsc|].
    etrans; [apply Nat.add_le_mono_r, pot_AnimationMap_set|].
    destruct (immediate_of tp); [change (pot (emit _ s')) with (pot s')|]; lia.
  - etrans; [apply IHsc|]. pose proof (pot_cancelTarget DuringMap target s). lia.
  - pose proof (pot_during_setup (TimingNumber d) None s) as Hn.
    destruct (during_setup (TimingNumber d) None s) as [s' a]. simpl in Hn.
    etrans; [apply IHsc|]. pose proof (pot_wait waitDestroy a s' ltac:(auto)). lia.
Qed.

(** [destroyAnimation] up to its loop: the four deletions. *)
Definition cleared (a : nat) (s : State) : State :=
  let s := with_animations (set_delete a (animations s)) s in
  let s := with_registry KFrame (delete a (frameCallbacks s)) s in
  let s := with_registry KNextFrame (delete a (nextFrameCallbacks s)) s in
  with_registry KDestroy (delete a (destroyCallbacks s)) s.

Lemma destroyAnimation_cleared a s :
  destroyAnimation a s =
  (iterate_detached KDestroy (callbacks KDestroy a s) a false (cleared a s)).1.
Proof.
  unfold destroyAnimation, cleared. cbn zeta.
  set (s3 := with_registry KNextFrame _ _).
  pose proof (getAndDelete_snd a (destroyCallbacks s3)) as Hm.
  pose proof (getAndDelete_fst a (destroyCallbacks s3)) as Hset.
  destruct (CallbackMap_getAndDelete a (destroyCallbacks s3)) as [set m].
  simpl in Hm, Hset. subst m set.
  change (destroyCallbacks s3) with (destroyCallbacks s). unfold callbacks.
  by destruct (destroyCallbacks s !! a).
Qed.

Lemma cleared_registry a s k b :
  registry (cleared a s) k !! b =
  if decide (b = a ∧ k ≠ KComplete) then None else registry s k !! b.
Proof.
  unfold cleared. destruct k; simpl;
    (destruct (decide (b = a)) as [->|Hne];
     [rewrite ?lookup_delete_eq; by (rewrite decide_True by done) || (rewrite decide_False by tauto)
     |rewrite ?lookup_delete_ne by done; by rewrite decide_False by tauto]).
Qed.

Lemma cleared_steps a s : is_destroyed a s → steps (in_destroy a) s (cleared a s).
Proof.
  intros Ha. unfold cleared.
  eapply steps_trans; [eapply (steps_one _ (LRemove a)); [by right|by constructor]|].
  eapply steps_trans; [eapply (steps_one _ (LUnregister KFrame a)); [by right|constructor]|].
  eapply steps_trans; [eapply (steps_one _ (LUnregister KNextFrame a)); [by right|constructor]|].
  eapply (steps_one _ (LUnregister KDestroy a)); [by right|constructor].
Qed.

Lemma pot_cleared a s : pot (cleared a s) + set_size (callbacks KDestroy a s) = pot s.
Proof.
  unfold pot, cleared, callbacks. simpl.
  pose proof (registry_size_delete (destroyCallbacks s) a). lia.
Qed.

Lemma invoke_pot k cb a s : pot (invoke k cb a s).1 + 1 ≤ pot s + callback_size cb.
Proof.
  unfold invoke, callback_size. destruct (cb_code cb) as [body| |w t b]; simpl.
  - pose proof (exec_pot body (Some a) None (emit (EvCall k a (cb_id cb)) s)) as H.
    change (pot (emit _ s)) with (pot s) in H. done.
  - change (pot (emit _ s)) with (pot s). lia.
  - case_bool_decide; [change (pot (with_targets _ _ (emit _ s))) with (pot s)
                      |change (pot (emit _ s)) with (pot s)]; lia.
Qed.

Lemma iterate_detached_pot k l a : ∀ done s,
  pot (iterate_detached k l a done s).1 + length l ≤ pot s + set_size l.
Proof.
  induction l as [|cb l IH]; intros done s; cbn [iterate_detached].
  - simpl. change (set_size []) with 0. lia.
  - pose proof (invoke_pot k cb a s) as Hinv.
    destruct (invoke k cb a s) as [s1 r]. simpl in Hinv.
    specialize (IH (r || done) s1). rewrite set_size_cons. simpl. lia.
Qed.

Lemma pot_destroyAnimation a s : pot (destroyAnimation a s) ≤ pot s.
Proof.
  rewrite destroyAnimation_cleared.
  pose proof (iterate_detached_pot KDestroy (callbacks KDestroy a s) a false (cleared a s)).
  pose proof (pot_cleared a s). lia.
Qed.

Lemma steps_queue_prefix L s s' :
  (∀ l, L l → l ≠ LClear) → steps L s s' →
  destroyedAnimations s `prefix_of` destroyedAnimations s'.
Proof.
  intros HL. induction 1 as [|s1 s2 s3 (l & Hl & Hat) _ IH]; [done|].
  etrans; [|exact IH].
  destruct (atomic_destroyedAnimations _ _ _ Hat) as [->|[(b & _ & _ & ->)|[? _]]];
    [done|apply set_add_prefix|by destruct (HL _ Hl)].
Qed.

Lemma in_destroy_not_LClear a l : in_destroy a l → l ≠ LClear.
Proof. intros [Hl|Hl] ->; done. Qed.

(** The loop rule of the second loop of [updateAnimations]: an invariant
    of its turns holds when the loop has gone through the whole queue,
    including what was added to it on the way. *)
Lemma destroyLoop_rule (P : nat → State → Prop) :
  (∀ p s a, WF s → P p s → destroyedAnimations s !! p = Some a →
            P (S p) (destroyAnimation a s)) →
  ∀ fuel p s,
    WF s → P p s → pot s ≤ fuel + p → p ≤ length (destroyedAnimations s) →
    P (length (destroyedAnimations (destroyLoop fuel p s))) (destroyLoop fuel p s).
Proof.
  intros Hstep. induction fuel as [|fuel IH]; intros p s Hwf HP Hpot Hp; simpl.
  - assert (p = length (destroyedAnimations s)) as <-; [|done].
    unfold pot in Hpot. lia.
  - destruct (destroyedAnimations s !! p) as [a|] eqn:Ha.
    + assert (Hd : is_destroyed a s).
      { apply (wf_queued s Hwf). by eapply list_elem_of_lookup_2. }
      pose proof (destroyAnimation_steps a s Hd) as Hst.
      apply IH.
      * by eapply steps_WF.
      * by eapply Hstep.
      * pose proof (pot_destroyAnimation a s). lia.
      * apply lookup_lt_Some in Ha.
        pose proof (prefix_length _ _ (steps_queue_prefix _ _ _ (in_destroy_not_LClear a) Hst)).
        lia.
    + apply lookup_ge_None in Ha. assert (p = length (destroyedAnimations s)) as <- by lia.
      done.
Qed.

(** The fuel of the second loop suffices: the loop ends at the end of the
    queue, and more fuel changes nothing. *)
Lemma destroyLoop_adequate fuel : ∀ p s more,
  WF s → pot s ≤ fuel + p → p ≤ length (destroyedAnimations s) →
  destroyLoop (fuel + more) p s = destroyLoop fuel p s.
Proof.
  induction fuel as [|fuel IH]; intros p s more Hwf Hpot Hp.
  - assert (Hnone : destroyedAnimations s !! p = None).
    { apply lookup_ge_None. unfold pot in Hpot. lia. }
    destruct more as [|more]; [done|]. cbn [Nat.add destroyLoop]. by rewrite Hnone.
  - cbn [Nat.add destroyLoop]. destruct (destroyedAnimations s !! p) as [a|] eqn:Ha; [|done].
    assert (Hd : is_destroyed a s).
    { apply (wf_queued s Hwf). by eapply list_elem_of_lookup_2. }
    pose proof (destroyAnimation_steps a s Hd) as Hst.
    apply IH.
    + by eapply steps_WF.
    + pose proof (pot_destroyAnimation a s). lia.
    + apply lookup_lt_Some in Ha.
      pose proof (prefix_length _ _ (steps_queue_prefix _ _ _ (in_destroy_not_LClear a) Hst)).
      lia.
Qed.

(** *** One turn of the second loop *)

Lemma NoDup_not_in_drop {A} (l : list A) p x :
  NoDup l → l !! p = Some x → x ∉ drop (S p) l.
Proof.
  intros Hnd Hp Hin. apply elem_of_drop_lookup in Hin as (i & Hi).
  pose proof (NoDup_lookup _ _ _ _ Hnd Hp Hi). lia.
Qed.

Lemma drop_lookup_cases {A} (l : list A) p x y :
  l !! p = Some x → y ∈ drop p l → y = x ∨ y ∈ drop (S p) l.
Proof.
  intros Hp. rewrite (drop_S _ _ _ Hp), elem_of_cons. tauto.
Qed.

Lemma cleared_Queue p a s :
  WF s → Queue p s → destroyedAnimations s !! p = Some a → Queue (S p) (cleared a s).
Proof.
  intros Hwf [Hb Hal Hw Hd] Ha. split.
  - apply lookup_lt_Some in Ha. done.
  - intros b c Hb'. by apply Hal.
  - intros b c Hb'. apply Hw. change (destroyedAnimations (cleared a s))
      with (destroyedAnimations s) in Hb'. rewrite (drop_S _ _ _ Ha). apply elem_of_cons. auto.
  - intros b k Hb' Hnin Hk. rewrite cleared_registry.
    case_decide as Hbk; [done|]. apply Hd; [done| |done].
    intros Hin. destruct (drop_lookup_cases _ _ _ _ Ha Hin) as [->|?]; [|done].
    apply Hbk. done.
Qed.

(** The invariant of the loop of [destroyAnimation(a)]. *)
Definition Turn (p a : nat) (s : State) : Prop :=
  Queue (S p) s ∧ destroyedAnimations s !! p = Some a ∧ is_destroyed a s.

Lemma atomic_Turn p a l s s' :
  atomic l s s' → in_invoke KDestroy a l → WF s → Turn p a s → Turn p a s'.
Proof.
  intros Hat Hl Hwf (HQ & Ha & Hd).
  assert (Hnc : l ≠ LClear) by (intros ->; by destruct Hl).
  split; [|split].
  - apply (atomic_Queue _ _ _ _ Hat Hwf HQ Hnc). intros b c ->.
    apply in_invoke_emit in Hl as (c' & [= ->]). split; [done|].
    by apply NoDup_not_in_drop; [apply Hwf|].
  - destruct (atomic_destroyedAnimations _ _ _ Hat) as [->|[(b & _ & _ & ->)|[? _]]];
      [done| |done].
    eapply prefix_lookup_Some; [exact Ha|apply set_add_prefix].
  - eapply steps_is_destroyed; [|exact Hd]. eapply (steps_one (λ _, True)); [done|exact Hat].
Qed.

Lemma destroyAnimation_Queue p a s :
  WF s → Queue p s → destroyedAnimations s !! p = Some a →
  Queue (S p) (destroyAnimation a s).
Proof.
  intros Hwf HQ Ha.
  assert (Hd : is_destroyed a s).
  { apply (wf_queued s Hwf). by eapply list_elem_of_lookup_2. }
  rewrite destroyAnimation_cleared.
  assert (Hwf' : WF (cleared a s)) by (eapply steps_WF; [by apply cleared_steps|done]).
  assert (HT : Turn p a (cleared a s)).
  { split; [by apply cleared_Queue|]. split; [done|].
    by eapply steps_is_destroyed; [apply cleared_steps|]. }
  assert (Hlt : a < count (cleared a s)) by (by apply is_destroyed_lt in Hd).
  pose proof (iterate_detached_steps KDestroy (callbacks KDestroy a s) a false _ Hlt) as Hst.
  eapply (steps_invariant _ (Turn p a) _ _ (λ l s1 s2 Hl Hat Hwf1, atomic_Turn p a l s1 s2 Hat Hl Hwf1)
            Hst Hwf' HT).
Qed.

(** *** The fuel of [iterate] suffices

    The size of the set a loop of [updateAnimation] walks bounds the number
    of its turns: a callback can only add to the set functions that occur
    in its own text, and their sizes add up to less than its own. *)

Definition load (k : kind) (a : nat) (s : State) : nat := set_size (callbacks k a s).

Lemma load_same k a s s' : registry s' = registry s → load k a s' = load k a s.
Proof. intros Hr. unfold load. by rewrite (callbacks_ext k a s s' Hr). Qed.

Lemma load_add k a k' b cb s :
  load k a (with_registry k' (CallbackMap_add b cb (registry s k')) s)
  ≤ load k a s + callback_size cb.
Proof.
  unfold load. rewrite callbacks_add. case_decide as Hk; [|lia].
  destruct Hk as [-> ->]. apply set_size_cbset_add.
Qed.

Lemma load_register k a k' b cb s :
  load k a (register k' b (Some cb) s) ≤ load k a s + callback_size cb.
Proof.
  destruct (alive_dec b s) as [Hal|Hal].
  - rewrite register_alive by done. apply load_add.
  - rewrite register_not_alive by done. lia.
Qed.

Lemma load_destroy k a b s : load k a (destroy b s) = load k a s.
Proof. apply load_same. by destruct (destroy_others b s) as (-> & _). Qed.

Lemma load_promise k a k' b s : load k a (promise k' b s).1 ≤ load k a s + 1.
Proof.
  unfold promise. cbn [fst].
  apply (load_add k a k' b (mkCallback (Anon (closures s)) Resolve)
           (with_closures (S (closures s)) s)).
Qed.

Lemma load_wait k a (f : nat → State → State * option nat) b s :
  f = waitDestroy ∨ f = waitCompletion ∨ f = nextFrame → load k a (f b s).1 ≤ load k a s + 1.
Proof.
  intros [-> | [-> | ->]]; unfold waitDestroy, waitCompletion, nextFrame;
    destruct (heap s !! b) as [i|]; cbn [fst]; try lia;
    repeat case_match; cbn [fst]; try lia; apply load_promise.
Qed.

Lemma load_new k a cb s :
  a < count s → load k a (new_AnimationInstance cb s).1 = load k a s.
Proof.
  intros Ha. rewrite new_AnimationInstance_fst.
  rewrite (load_same k a _ (addAnimation (count s) _))
    by (by destruct (addAnimation_others (count s)
                       (match cb with
                        | Some c => with_registry KFrame
                                      (CallbackMap_add (count s) c (registry (allocate s) KFrame))
                                      (allocate s)
                        | None => allocate s
                        end)) as (_ & -> & _)).
  destruct cb as [c|]; [|by rewrite (load_same k a s (allocate s))].
  unfold load. rewrite callbacks_add, decide_False by lia. done.
Qed.

Lemma load_during_setup k a tp cb s :
  a < count s → load k a (during_setup tp cb s).1 = load k a s.
Proof. rewrite during_setup_fst. apply load_new. Qed.

Lemma load_AnimationMap_set k a w t b s : load k a (AnimationMap_set w t b s) ≤ load k a s + 1.
Proof.
  unfold AnimationMap_set, onDestroy.
  set (s1 := match AnimationMap_get w t s with Some old => destroy old s | None => s end).
  assert (H1 : load k a s1 = load k a s).
  { unfold s1. destruct (AnimationMap_get w t s); [apply load_destroy|done]. }
  etrans; [apply load_register|]. rewrite <- H1. done.
Qed.

Lemma load_cancelTarget k a w t s : load k a (cancelTarget w t s) = load k a s.
Proof. unfold cancelTarget. destruct (AnimationMap_get w t s); [apply load_destroy|done]. Qed.

(** What a step of client code may do to the set of [a]: the heap does
    not shrink, and the set grows by at most [n]. *)
Definition grows (k : kind) (a n : nat) (s s' : State) : Prop :=
  count s ≤ count s' ∧ load k a s' ≤ load k a s + n.

Lemma grows_on k a n o (f : nat → State → State) s :
  (∀ b s, grows k a n s (f b s)) → grows k a n s (on o f s).
Proof. intros Hf. destruct o; simpl; [apply Hf|]. split; lia. Qed.

Lemma grows_destroy k a b s : grows k a 0 s (destroy b s).
Proof.
  split; [apply (steps_count _ _ _ (destroy_steps b s))|]. rewrite load_destroy. lia.
Qed.

Lemma grows_modify k a b f s : grows k a 0 s (modify b f s).
Proof. split; [by rewrite count_modify|]. change (load k a (modify b f s)) with (load k a s). lia. Qed.

Lemma grows_register k a k' b cb s :
  grows k a (callback_size cb) s (register k' b (Some cb) s).
Proof. split; [by rewrite count_register|apply load_register]. Qed.

Lemma grows_wait k a (f : nat → State → State * option nat) b s :
  f = waitDestroy ∨ f = waitCompletion ∨ f = nextFrame → grows k a 1 s (f b s).1.
Proof.
  intros Hf. split; [apply (steps_count _ _ _ (wait_steps f b s Hf))|by apply load_wait].
Qed.

Lemma grows_AnimationMap_set k a w t b s : grows k a 1 s (AnimationMap_set w t b s).
Proof.
  split; [apply (steps_count _ _ _ (AnimationMap_set_steps w t b s))|].
  apply load_AnimationMap_set.
Qed.

Lemma grows_cancelTarget k a w t s : grows k a 0 s (cancelTarget w t s).
Proof.
  split; [apply (steps_count _ _ _ (cancelTarget_steps w t s))|].
  rewrite load_cancelTarget. lia.
Qed.

(** Client code pays for what it registers with its size. *)
Lemma exec_load k a sc : ∀ self last s,
  a < count s →
  count s ≤ count (exec sc self last s).1 ∧
  load k a (exec sc self last s).1 + 1 ≤ load k a s + script_size sc.
Proof.
  induction sc as [brk|r sc IH|r b sc IH|r x sc IH|r n body IHb sc IH|r n body IHb sc IH
                  |r n body IHb sc IH|r sc IH|r sc IH|r sc IH|n body IHb sc IH
                  |target n body IHb sc IH|target sc IH|tp n body IHb sc IH|tp sc IH
                  |target tp n body IHb sc IH|target tp sc IH|target sc IH|d sc IH];
    intros self last s Ha; cbn [script_size]; unfold exec; fold exec.
  - simpl. lia.
  - destruct (grows_on k a 0 (deref r self last) destroy s
                (λ b0 s0, grows_destroy k a b0 s0)) as [Hc Hl].
    destruct (IH self last (on (deref r self last) destroy s) ltac:(lia)). lia.
  - destruct (grows_on k a 0 (deref r self last) (λ a0, modify a0 (set_paused b)) s
                (λ b0 s0, grows_modify k a b0 _ s0)) as [Hc Hl].
    destruct (IH self last (on (deref r self last) (λ a0, modify a0 (set_paused b)) s)
                ltac:(lia)). lia.
  - destruct (grows_on k a 0 (deref r self last) (λ a0, modify a0 (set_timeScale x)) s
                (λ b0 s0, grows_modify k a b0 _ s0)) as [Hc Hl].
    destruct (IH self last (on (deref r self last) (λ a0, modify a0 (set_timeScale x)) s)
                ltac:(lia)). lia.
  - destruct (grows_on k a (script_size body) (deref r self last)
                (λ a0, onFrame a0 (Some (client n body))) s
                (λ b0 s0, grows_register k a KFrame b0 (client n body) s0)) as [Hc Hl].
    destruct (IH self last (on (deref r self last) (λ a0, onFrame a0 (Some (client n body))) s)
                ltac:(lia)). lia.
  - destruct (grows_on k a (script_size body) (deref r self last)
                (λ a0, onComplete a0 (Some (client n body))) s
                (λ b0 s0, grows_register k a KComplete b0 (client n body) s0)) as [Hc Hl].
    destruct (IH self last
                (on (deref r self last) (λ a0, onComplete a0 (Some (client n body))) s)
                ltac:(lia)). lia.
  - destruct (grows_on k a (script_size body) (deref r self last)
                (λ a0, onDestroy a0 (Some (client n body))) s
                (λ b0 s0, grows_register k a KDestroy b0 (client n body) s0)) as [Hc Hl].
    destruct (IH self last
                (on (deref r self last) (λ a0, onDestroy a0 (Some (client n body))) s)
                ltac:(lia)). lia.
  - destruct (grows_on k a 1 (deref r self last) (λ a0 s0, (waitDestroy a0 s0).1) s
                (λ b0 s0, grows_wait k a waitDestroy b0 s0 ltac:(auto))) as [Hc Hl].
    destruct (IH self last (on (deref r self last) (λ a0 s0, (waitDestroy a0 s0).1) s)
                ltac:(lia)). lia.
  - destruct (grows_on k a 1 (deref r self last) (λ a0 s0, (waitCompletion a0 s0).1) s
                (λ b0 s0, grows_wait k a waitCompletion b0 s0 ltac:(auto))) as [Hc Hl].
    destruct (IH self last (on (deref r self last) (λ a0 s0, (waitCompletion a0 s0).1) s)
                ltac:(lia)). lia.
  - destruct (grows_on k a 1 (deref r self last) (λ a0 s0, (nextFrame a0 s0).1) s
                (λ b0 s0, grows_wait k a nextFrame b0 s0 ltac:(auto))) as [Hc Hl].
    destruct (IH self last (on (deref r self last) (λ a0 s0, (nextFrame a0 s0).1) s)
                ltac:(lia)). lia.
  - unfold loop. pose proof (load_new k a (Some (client n body)) s Ha) as Hn.
    pose proof (count_new_AnimationInstance (Some (client n body)) s) as Hc.
    destruct (new_AnimationInstance (Some (client n body)) s) as [s' a'].
    cbn [fst] in Hn, Hc. destruct (IH self (Some a') s' ltac:(lia)). lia.
  - unfold loopWithTarget, loop.
    pose proof (load_new k a (Some (client n body)) s Ha) as Hn.
    pose proof (count_new_AnimationInstance (Some (client n body)) s) as Hc.
    destruct (new_AnimationInstance (Some (client n body)) s) as [s' a'].
    cbn [fst] in Hn, Hc. destruct (grows_AnimationMap_set k a LoopMap target a' s').
    destruct (IH self (Some a') (AnimationMap_set LoopMap target a' s') ltac:(lia)). lia.
  - destruct (grows_cancelTarget k a LoopMap target s).
    destruct (IH self last (cancelTarget LoopMap target s) ltac:(lia)). lia.
  - pose proof (load_during_setup k a tp (Some (client n body)) s Ha) as Hn.
    pose proof (count_during_setup tp (Some (client n body)) s) as Hc.
    destruct (during_setup tp (Some (client n body)) s) as [s' a']. cbn [fst] in Hn, Hc.
    destruct (immediate_of tp).
    + destruct (IHb (Some a') None (emit (EvImmediate a' (Named n)) s')) as [Hc1 Hl1].
      { change (count (emit _ s')) with (count s'). lia. }
      change (load k a (emit _ s')) with (load k a s') in Hl1.
      change (count (emit _ s')) with (count s') in Hc1.
      destruct (IH self (Some a') (exec body (Some a') None
                                     (emit (EvImmediate a' (Named n)) s')).1 ltac:(lia)).
      lia.
    + destruct (IH self (Some a') s' ltac:(lia)). lia.
  - pose proof (load_during_setup k a tp None s Ha) as Hn.
    pose proof (count_during_setup tp None s) as Hc.
    destruct (during_setup tp None s) as [s' a']. cbn [fst] in Hn, Hc.
    destruct (IH self (Some a') s' ltac:(lia)). lia.
  - pose proof (load_during_setup k a tp (Some (client n body)) s Ha) as Hn.
    pose proof (count_during_setup tp (Some (client n body)) s) as Hc.
    destruct (during_setup tp (Some (client n body)) s) as [s' a']. cbn [fst] in Hn, Hc.
    destruct (immediate_of tp).
    + destruct (IHb (Some a') None (emit (EvImmediate a' (Named n)) s')) as [Hc1 Hl1].
      { change (count (emit _ s')) with (count s'). lia. }
      change (load k a (emit _ s')) with (load k a s') in Hl1.
      change (count (emit _ s')) with (count s') in Hc1.
      set (s1 := (exec body (Some a') None (emit (EvImmediate a' (Named n)) s')).1) in *.
      destruct (grows_AnimationMap_set k a DuringMap target a' s1).
      destruct (IH self (Some a') (AnimationMap_set DuringMap target a' s1) ltac:(lia)). lia.
    + destruct (grows_AnimationMap_set k a DuringMap target a' s').
      destruct (IH self (Some a') (AnimationMap_set DuringMap target a' s') ltac:(lia)). lia.
  - pose proof (load_during_setup k a tp
                  (Some (mkCallback (Anon (closures s)) (Run (Return false))))
                  (with_closures (S (closures s)) s) Ha) as Hn.
    pose proof (count_during_setup tp
                  (Some (mkCallback (Anon (closures s)) (Run (Return false))))
                  (with_closures (S (closures s)) s)) as Hc.
    destruct (during_setup tp _ (with_closures (S (closures s)) s)) as [s' a'].
    cbn [fst] in Hn, Hc.
    change (load k a (with_closures _ s)) with (load k a s) in Hn.
    change (count (with_closures _ s)) with (count s) in Hc.
    set (s1 := if immediate_of tp then emit (EvImmediate a' (Anon (closures s))) s' else s').
    assert (H1 : count s1 = count s' ∧ load k a s1 = load k a s').
    { unfold s1. by destruct (immediate_of tp). }
    destruct H1 as [Hc1 Hl1].
    destruct (grows_AnimationMap_set k a DuringMap target a' s1).
    destruct (IH self (Some a') (AnimationMap_set DuringMap target a' s1) ltac:(lia)). lia.
  - destruct (grows_cancelTarget k a DuringMap target s).
    destruct (IH self last (cancelTarget DuringMap target s) ltac:(lia)). lia.
  - pose proof (load_during_setup k a (TimingNumber d) None s Ha) as Hn.
    pose proof (count_during_setup (TimingNumber d) None s) as Hc.
    destruct (during_setup (TimingNumber d) None s) as [s' a']. cbn [fst] in Hn, Hc.
    destruct (grows_wait k a waitDestroy a' s' ltac:(auto)).
    destruct (IH self (Some a') (waitDestroy a' s').1 ltac:(lia)). lia.
Qed.

Lemma invoke_load k a k' cb a' s :
  a < count s →
  load k a (invoke k' cb a' s).1 + 1 ≤ load k a s + callback_size cb.
Proof.
  intros Ha. unfold invoke, callback_size. destruct (cb_code cb) as [body| |w t b]; cbn [fst].
  - destruct (exec_load k a body (Some a') None (emit (EvCall k' a' (cb_id cb)) s) Ha)
      as [_ H].
    change (load k a (emit _ s)) with (load k a s) in H. done.
  - change (load k a (emit _ s)) with (load k a s). lia.
  - case_bool_decide; [change (load k a (with_targets _ _ (emit _ s))) with (load k a s)
                      |change (load k a (emit _ s)) with (load k a s)]; lia.
Qed.

Lemma set_size_drop_lookup l i cb :
  l !! i = Some cb → set_size (drop i l) = callback_size cb + set_size (drop (S i) l).
Proof. intros Hi. by rewrite (drop_S l cb i Hi), set_size_cons. Qed.

Lemma set_size_0 l : set_size l = 0 → l = [].
Proof.
  destruct l as [|cb l]; [done|]. rewrite set_size_cons.
  pose proof (callback_size_pos cb). lia.
Qed.

(** With fuel for what is left of the set, the loop ends at the end of
    the set: more fuel changes nothing. *)
Lemma iterate_enough fuel k a : ∀ i brk s more,
  a < count s → set_size (drop i (callbacks k a s)) ≤ fuel →
  iterate (fuel + more) k a i brk s = iterate fuel k a i brk s.
Proof.
  induction fuel as [|fuel IH]; intros i brk s more Ha Hsz.
  - assert (Hnil : drop i (callbacks k a s) = []) by (apply set_size_0; lia).
    assert (Hi : callbacks k a s !! i = None).
    { apply lookup_ge_None. apply (f_equal length) in Hnil.
      rewrite length_drop in Hnil. simpl in Hnil. lia. }
    destruct more as [|more]; [done|]. cbn [Nat.add iterate]. by rewrite Hi.
  - cbn [Nat.add iterate]. destruct (callbacks k a s !! i) as [cb|] eqn:Hi; [|done].
    pose proof (invoke_load k a k cb a s Ha) as Hload.
    pose proof (invoke_callbacks_prefix k cb a s k a Ha) as [added Hadd].
    pose proof (invoke_steps k cb a s Ha) as Hst.
    destruct (invoke k cb a s) as [s1 r]. cbn [fst] in Hload, Hadd, Hst.
    apply IH; [apply steps_count in Hst; lia|].
    unfold load in Hload. rewrite Hadd, set_size_app in Hload.
    rewrite Hadd, drop_app_le by (apply lookup_lt_Some in Hi; lia).
    rewrite set_size_app. rewrite (set_size_drop_lookup _ _ _ Hi) in Hsz. lia.
Qed.

(** The loops of [updateAnimation] over the frame and the completion
    callbacks reach every callback of the set, also those that were added
    while the loop ran: the result is the one of a loop with any larger
    bound. *)
Lemma iterate_adequate k a s bound :
  a < count s → set_size (callbacks k a s) ≤ bound →
  iterate bound k a 0 false s = iterate (set_size (callbacks k a s)) k a 0 false s.
Proof.
  intros Ha Hb.
  replace bound with (set_size (callbacks k a s) + (bound - set_size (callbacks k a s)))
    by lia.
  by apply iterate_enough.
Qed.

(** *** "On destroy" callbacks are called exactly once *)

(** No "on destroy" callback has been called twice. *)
Definition Fired (s : State) : Prop := ∀ a c, calls KDestroy a c s ≤ 1.

(** The "on destroy" callback [c] of [a] is still registered, or it has
    been called once. *)
Definition Tracked (a : nat) (c : cbid) (s : State) : Prop :=
  c ∈ cb_id <$> callbacks KDestroy a s ∨ calls KDestroy a c s = 1.

Lemma destroyAnimation_calls a s a' c :
  calls KDestroy a' c (destroyAnimation a s) =
  (if decide (a = a') then occurrences c (cb_id <$> callbacks KDestroy a s) else 0)
  + calls KDestroy a' c s.
Proof.
  rewrite destroyAnimation_cleared, iterate_detached_calls.
  change (calls KDestroy a' c (cleared a s)) with (calls KDestroy a' c s).
  destruct (decide (a = a')) as [->|Hne].
  - by rewrite decide_True.
  - by rewrite decide_False by tauto.
Qed.

Lemma destroyAnimation_Fired p a s :
  WF s → Queue p s → destroyedAnimations s !! p = Some a →
  Fired s → Fired (destroyAnimation a s).
Proof.
  intros Hwf HQ Ha HF a' c. rewrite destroyAnimation_calls.
  case_decide as Heq; [subst a'|apply HF].
  assert (Hin0 : a ∈ drop p (destroyedAnimations s)).
  { eapply list_elem_of_lookup_2. rewrite lookup_drop, Nat.add_0_r. exact Ha. }
  rewrite (q_waiting p s HQ a c Hin0).
  pose proof (occurrences_NoDup c _ (wf_callbacks s Hwf KDestroy a)). lia.
Qed.

Lemma destroyAnimation_Tracked p a0 s a c :
  WF s → Queue p s → destroyedAnimations s !! p = Some a0 →
  Tracked a c s → Tracked a c (destroyAnimation a0 s).
Proof.
  intros Hwf HQ Ha0 HT. unfold Tracked. rewrite destroyAnimation_calls.
  assert (Hin0 : a0 ∈ drop p (destroyedAnimations s)).
  { eapply list_elem_of_lookup_2. rewrite lookup_drop, Nat.add_0_r. exact Ha0. }
  destruct (decide (a0 = a)) as [->|Hne].
  - right. rewrite (q_waiting p s HQ a c Hin0).
    destruct HT as [Hc|Hc]; [|rewrite (q_waiting p s HQ a c Hin0) in Hc; done].
    rewrite (occurrences_NoDup_in c _ (wf_callbacks s Hwf KDestroy a) Hc). done.
  - destruct HT as [Hc|Hc]; [left|right; by rewrite Hc].
    rewrite destroyAnimation_cleared.
    assert (Hd : is_destroyed a0 s).
    { apply (wf_queued s Hwf). by eapply list_elem_of_lookup_2. }
    assert (Hlt : a0 < count (cleared a0 s)) by (by apply is_destroyed_lt in Hd).
    pose proof (steps_callbacks_prefix _ _ _ KDestroy a
                  (λ l, in_invoke_not_unregister KDestroy a0 KDestroy a l)
                  (iterate_detached_steps KDestroy (callbacks KDestroy a0 s) a0 false _ Hlt))
      as Hpre.
    assert (Heq : callbacks KDestroy a (cleared a0 s) = callbacks KDestroy a s).
    { unfold callbacks. rewrite cleared_registry.
      rewrite decide_False; [done|intros [? _]; congruence]. }
    rewrite Heq in Hpre. destruct Hpre as [k ->]. rewrite fmap_app. apply elem_of_app. auto.
Qed.

Lemma steps_Fired L s s' :
  (∀ l a c, L l → l ≠ LEmit (EvCall KDestroy a c)) → steps L s s' → Fired s → Fired s'.
Proof.
  intros HL Hst HF a c.
  rewrite (steps_calls L s s' KDestroy a c (λ l Hl, HL l a c Hl) Hst). apply HF.
Qed.

Lemma steps_Tracked L s s' a c :
  (∀ l, L l → l ≠ LEmit (EvCall KDestroy a c) ∧ l ≠ LUnregister KDestroy a) →
  steps L s s' → Tracked a c s → Tracked a c s'.
Proof.
  intros HL Hst [Hc|Hc].
  - left. destruct (steps_callbacks_prefix L s s' KDestroy a (λ l Hl, proj2 (HL l Hl)) Hst)
      as [k ->]. rewrite fmap_app. apply elem_of_app. auto.
  - right. by rewrite (steps_calls L s s' KDestroy a c (λ l Hl, proj1 (HL l Hl)) Hst).
Qed.

Lemma steps_Queue L p s s' :
  (∀ l, L l → l ≠ LClear ∧ ∀ a c, l ≠ LEmit (EvCall KDestroy a c)) →
  steps L s s' → WF s → Queue p s → Queue p s'.
Proof.
  intros HL. apply steps_invariant. intros l s1 s2 Hl Hat Hwf HQ.
  destruct (HL l Hl) as [Hc He].
  apply (atomic_Queue p l s1 s2 Hat Hwf HQ Hc). intros a c ->. by destruct (He a c).
Qed.

(** The labels of the steps that neither call an "on destroy" callback
    nor touch the queue in another way than by adding to it. *)
Definition quiet (l : label) : Prop :=
  l ≠ LClear ∧ (∀ a c, l ≠ LEmit (EvCall KDestroy a c)) ∧ ∀ a, l ≠ LUnregister KDestroy a.

Lemma quiet_client l : from_client l → quiet l.
Proof. intros Hl. repeat split; intros; intros ->; done. Qed.

Lemma quiet_update a l : in_update a l → quiet l.
Proof.
  intros [Hl|Hl]; [by apply quiet_client|].
  repeat split; intros; intros ->; simpl in Hl; try done. by destruct Hl.
Qed.

Lemma quiet_mainLoop l : in_mainLoop l → quiet l.
Proof. intros (a & Hl). by eapply quiet_update. Qed.

(** The state of the module between two frames. *)
Record Settled (s : State) : Prop := mkSettled {
  st_WF : WF s;
  st_Boundary : Boundary s;
  st_Queue : Queue 0 s;
  st_Fired : Fired s
}.

Lemma Settled_initial : Settled initial.
Proof.
  split; [apply WF_initial|apply Boundary_initial|apply Queue_initial|].
  intros a c. unfold calls. cbn [trace initial]. rewrite occurrences_nil. lia.
Qed.

Lemma quiet_Settled L s s' :
  (∀ l, L l → quiet l) → (Boundary s → Boundary s') →
  steps L s s' → Settled s → Settled s'.
Proof.
  intros HL Hb Hst [Hwf HB HQ HF]. split.
  - by eapply steps_WF.
  - auto.
  - eapply steps_Queue; [|exact Hst|done|done]. intros l Hl. destruct (HL l Hl) as (? & ? & ?). auto.
  - eapply steps_Fired; [|exact Hst|done]. intros l a c Hl. by destruct (HL l Hl) as (? & ? & ?).
Qed.

Lemma client_Settled s s' : steps from_client s s' → Settled s → Settled s'.
Proof.
  intros Hst HS. eapply quiet_Settled; [apply quiet_client| |exact Hst|exact HS].
  intros HB. eapply (steps_invariant from_client Boundary); [|exact Hst|apply HS|done].
  intros l s1 s2 Hl Hat _. by apply (Boundary_client l).
Qed.

Lemma Queue_clear s l b :
  Queue (length (destroyedAnimations s)) s →
  Queue 0 (with_updating b (with_animations l (with_destroyedAnimations [] s))).
Proof.
  intros [Hb Hal Hw Hd]. split; simpl.
  - done.
  - intros a c Ha. by apply Hal.
  - intros a c Ha. by apply elem_of_nil in Ha.
  - intros a k Ha _ Hk. apply Hd; [done| |done]. rewrite drop_all. by intros ?%elem_of_nil.
Qed.

(** The invariant of the second loop. *)
Definition Destroying (P : State → Prop) (p : nat) (s : State) : Prop :=
  Queue p s ∧ Fired s ∧ P s.

Lemma loops_Destroying (P : State → Prop) ms s :
  (∀ L s s', (∀ l, L l → quiet l) → steps L s s' → P s → P s') →
  (∀ p s a, WF s → Queue p s → destroyedAnimations s !! p = Some a →
            P s → P (destroyAnimation a s)) →
  Settled s → P s →
  WF (loops ms s) ∧
  Destroying P (length (destroyedAnimations (loops ms s))) (loops ms s).
Proof.
  intros Hquiet Hturn [Hwf HB HQ HF] HP. unfold loops.
  set (s1 := with_updating true (clock ms s)).
  assert (Hst1 : steps (λ l, l = LClock ∨ l = LUpdating) s s1).
  { eapply steps_trans.
    - eapply (steps_one _ LClock); [by left|apply at_clock].
    - eapply (steps_one _ LUpdating); [by right|apply (at_updating true)]. }
  assert (Hq1 : ∀ l, l = LClock ∨ l = LUpdating → quiet l).
  { intros l [->| ->]; repeat split; intros; done. }
  set (s2 := mainLoop (animations s) s1).
  assert (Hst2 : steps in_mainLoop s1 s2) by apply mainLoop_steps.
  assert (Hwf1 : WF s1) by (by eapply steps_WF).
  assert (Hwf2 : WF s2) by (by eapply steps_WF).
  assert (HS2 : Destroying P 0 s2).
  { split; [|split].
    - eapply steps_Queue; [|exact Hst2|done|].
      + intros l Hl. destruct (quiet_mainLoop l Hl) as (? & ? & ?). auto.
      + eapply steps_Queue; [|exact Hst1|done|done].
        intros l Hl. destruct (Hq1 l Hl) as (? & ? & ?). auto.
    - eapply steps_Fired; [|exact Hst2|].
      + intros l a c Hl. by destruct (quiet_mainLoop l Hl) as (? & ? & ?).
      + eapply steps_Fired; [|exact Hst1|done].
        intros l a c Hl. by destruct (Hq1 l Hl) as (? & ? & ?).
    - eapply Hquiet; [apply quiet_mainLoop|exact Hst2|].
      eapply Hquiet; [apply Hq1|exact Hst1|done]. }
  split.
  - eapply steps_WF; [by apply destroyLoop_steps|done].
  - apply (destroyLoop_rule (Destroying P)); [|done|done|fold s1 s2; rewrite (destroy_fuel_pot s2); lia|lia].
    intros p s0 a Hwf0 (HQ0 & HF0 & HP0) Ha. split; [|split].
    + by apply destroyAnimation_Queue.
    + by eapply destroyAnimation_Fired.
    + by eapply Hturn.
Qed.

Lemma frame_Settled ms s : Settled s → Settled (_innerLoop ms s).
Proof.
  intros HS.
  destruct (loops_Destroying (λ _, True) ms s) as (Hwf & HQ & HF & _); [done..|].
  split.
  - eapply steps_WF; [apply _innerLoop_steps|]; apply HS.
  - apply Boundary_frame.
  - rewrite _innerLoop_loops. by apply Queue_clear.
  - rewrite _innerLoop_loops. exact HF.
Qed.

Lemma do_step_Settled st s : Settled s → Settled (do_step st s).
Proof.
  destruct st as [ms|sc]; [apply frame_Settled|]. apply client_Settled, exec_steps.
Qed.

Lemma run_Settled sts : ∀ s, Settled s → Settled (run sts s).
Proof.
  induction sts as [|st sts IH]; intros s HS; [done|]. rewrite run_cons.
  by apply IH, do_step_Settled.
Qed.

Lemma reachable_Settled s : reachable s → Settled s.
Proof. intros [sts ->]. apply run_Settled, Settled_initial. Qed.

Lemma quiet_Tracked a c L s s' :
  (∀ l, L l → quiet l) → steps L s s' → Tracked a c s → Tracked a c s'.
Proof.
  intros HL. apply steps_Tracked. intros l Hl. destruct (HL l Hl) as (_ & ? & ?). auto.
Qed.

Lemma frame_Tracked ms s a c : Settled s → Tracked a c s → Tracked a c (_innerLoop ms s).
Proof.
  intros HS HT.
  destruct (loops_Destroying (Tracked a c) ms s) as (_ & _ & _ & HT'); [..|done|done|].
  - intros L s1 s2. apply quiet_Tracked.
  - intros p s0 a0 Hwf0 HQ0 Ha0. by eapply destroyAnimation_Tracked.
  - rewrite _innerLoop_loops. exact HT'.
Qed.

Lemma do_step_Tracked st s a c : Settled s → Tracked a c s → Tracked a c (do_step st s).
Proof.
  destruct st as [ms|sc]; [apply frame_Tracked|]. intros _.
  apply (quiet_Tracked a c from_client); [apply quiet_client|apply exec_steps].
Qed.

Lemma run_Tracked sts : ∀ s a c, Settled s → Tracked a c s → Tracked a c (run sts s).
Proof.
  induction sts as [|st sts IH]; intros s a c HS HT; [done|]. rewrite run_cons.
  apply IH; [by apply do_step_Settled|by apply do_step_Tracked].
Qed.

(** Between two frames, an instance that is destroyed and out of the
    queue has no "on destroy" callback left. *)
Lemma applied_no_callbacks s a k :
  Settled s → is_destroyed a s → a ∉ destroyedAnimations s → k ≠ KComplete →
  callbacks k a s = [].
Proof.
  intros HS Hd Hq Hk. unfold callbacks.
  by rewrite (q_done 0 s (st_Queue s HS) a k Hd Hq Hk).
Qed.

(** From the moment an "on destroy" callback is registered: it is never
    called twice, and once the instance is destroyed and a frame has
    emptied the queue it has been called exactly once. *)
Lemma destroy_callback_once sts s a cb :
  Settled s → cb ∈ callbacks KDestroy a s →
  calls KDestroy a (cb_id cb) (run sts s) ≤ 1 ∧
  (is_destroyed a (run sts s) → a ∉ destroyedAnimations (run sts s) →
   calls KDestroy a (cb_id cb) (run sts s) = 1).
Proof.
  intros HS Hcb. pose proof (run_Settled sts s HS) as HS'.
  split; [apply (st_Fired _ HS')|]. intros Hd Hq.
  assert (HT : Tracked a (cb_id cb) s) by (left; by apply list_elem_of_fmap_2).
  destruct (run_Tracked sts s a (cb_id cb) HS HT) as [Hin|?]; [|done].
  rewrite (applied_no_callbacks _ a KDestroy HS' Hd Hq) in Hin by done.
  by apply elem_of_nil in Hin.
Qed.

Lemma frame_empties_queue ms s : destroyedAnimations (_innerLoop ms s) = [].
Proof. done. Qed.

(** *** Runs as sequences of atomic steps *)

Lemma run_steps sts : ∀ s, WF s → steps in_frame s (run sts s).
Proof.
  induction sts as [|st sts IH]; intros s Hwf; [apply steps_refl|]. rewrite run_cons.
  eapply steps_trans; [by apply do_step_steps|]. apply IH.
  eapply steps_WF; [by apply do_step_steps|done].
Qed.

Lemma steps_calls_mono L s s' k a c : steps L s s' → calls k a c s ≤ calls k a c s'.
Proof.
  intros Hst. destruct (steps_trace _ _ _ Hst) as (new & Hnew & _).
  unfold calls. rewrite Hnew, occurrences_app. lia.
Qed.

Lemma registered_allocated k a cb s : WF s → cb ∈ callbacks k a s → a < count s.
Proof.
  intros Hwf Hcb. apply (wf_registry s Hwf k). unfold callbacks in Hcb.
  destruct (registry s k !! a); [done|]. by apply elem_of_nil in Hcb.
Qed.

Lemma Tracked_allocated a c s : WF s → Tracked a c s → a < count s.
Proof.
  intros Hwf [Hc|Hc].
  - apply list_elem_of_fmap in Hc as (cb & _ & Hcb). by eapply registered_allocated.
  - assert (He : EvCall KDestroy a c ∈ trace s).
    { destruct (decide (EvCall KDestroy a c ∈ trace s)) as [?|Hn]; [done|].
      unfold calls in Hc. rewrite occurrences_0 in Hc by done. done. }
    apply (wf_trace s Hwf) in He. exact He.
Qed.

(** Once an instance is destroyed, a tracked "on destroy" callback has
    been called exactly once from the end of the next frame on; at no
    moment has it been called twice. *)
Lemma tracked_once s a c :
  Settled s → Tracked a c s →
  (∀ post, calls KDestroy a c (run post s) ≤ 1) ∧
  (is_destroyed a s →
   ∀ post ms more, calls KDestroy a c (run (post ++ Frame ms :: more) s) = 1).
Proof.
  intros HS HT. split.
  { intros post. apply (st_Fired _ (run_Settled post s HS)). }
  intros Hd post ms more.
  rewrite run_app, run_cons. cbn [do_step].
  set (s1 := run post s).
  assert (HS1 : Settled s1) by (by apply run_Settled).
  assert (HT1 : Tracked a c s1) by (by apply run_Tracked).
  assert (Hd1 : is_destroyed a s1).
  { eapply steps_is_destroyed; [apply run_steps, HS|done]. }
  set (s2 := _innerLoop ms s1).
  assert (HS2 : Settled s2) by (by apply frame_Settled).
  assert (Hd2 : is_destroyed a s2).
  { eapply steps_is_destroyed; [apply _innerLoop_steps, HS1|done]. }
  assert (Hc2 : calls KDestroy a c s2 = 1).
  { destruct (frame_Tracked ms s1 a c HS1 HT1) as [Hin|?]; [|done].
    fold s2 in Hin.
    rewrite (applied_no_callbacks s2 a KDestroy HS2 Hd2) in Hin; [|by intros ?%elem_of_nil|done].
    by apply elem_of_nil in Hin. }
  pose proof (steps_calls_mono _ _ _ KDestroy a c (run_steps more s2 (st_WF _ HS2))).
  pose proof (st_Fired _ (run_Settled more s2 HS2) a c). lia.
Qed.

(** ** [destroy()] is idempotent *)

Lemma destroy_destroy a s : destroy a (destroy a s) = destroy a s.
Proof.
  destruct (alive_dec a s) as [Hal|Hal].
  - apply destroy_not_alive. intros Hal'.
    eapply not_alive_destroyed; [exact Hal'|]. apply is_destroyed_destroy. by eapply alive_lt.
  - by rewrite !(destroy_not_alive a s Hal).
Qed.

(** C8.  Calling [destroy()] twice (or more) on an instance, wherever the
    calls stand in the run, calls each of its "on destroy" callbacks
    exactly once: the second call leaves the state as the first one made
    it, the callback has been called once when the frame that follows
    ends, its count stays at one whatever happens next, and in no run at
    all is it ever called twice. *)
Theorem destroy_twice_fires_once (pre mid post more : list step) (ms : Qc)
    (a : nat) (cb : callback) :
  let s := run pre initial in
  let again := Call (Destroy (Inst a) (Return false)) in
  let s' := run (again :: mid ++ again :: post ++ [Frame ms]) s in
  cb ∈ callbacks KDestroy a s →
  destroy a (destroy a s) = destroy a s ∧
  calls KDestroy a (cb_id cb) s' = 1 ∧
  calls KDestroy a (cb_id cb) (run more s') = 1 ∧
  ∀ sts, calls KDestroy a (cb_id cb) (run sts s) ≤ 1.
Proof.
  intros s again s' Hcb.
  assert (HS : Settled s) by (apply reachable_Settled; by exists pre).
  assert (HT : Tracked a (cb_id cb) s) by (left; by apply list_elem_of_fmap_2).
  assert (Ha : a < count s) by (eapply registered_allocated; [apply HS|done]).
  split; [apply destroy_destroy|].
  set (s1 := do_step again s).
  assert (Hs1 : s1 = destroy a s) by done.
  assert (HS1 : Settled s1) by (by apply do_step_Settled).
  assert (HT1 : Tracked a (cb_id cb) s1) by (by apply do_step_Tracked).
  assert (Hd1 : is_destroyed a s1) by (rewrite Hs1; by apply is_destroyed_destroy).
  destruct (tracked_once s1 a (cb_id cb) HS1 HT1) as [_ Honce].
  specialize (Honce Hd1).
  split; [|split].
  - subst s'. rewrite run_cons. fold s1.
    replace (mid ++ again :: post ++ [Frame ms]) with ((mid ++ again :: post) ++ Frame ms :: [])
      by (rewrite <- (assoc_L (++)); reflexivity). apply Honce.
  - subst s'. rewrite run_cons. fold s1. rewrite <- run_app.
    replace ((mid ++ again :: post ++ [Frame ms]) ++ more)
      with ((mid ++ again :: post) ++ Frame ms :: more)
      by (rewrite <- !(assoc_L (++)); simpl; rewrite <- ?(assoc_L (++)); reflexivity). apply Honce.
  - intros sts. by apply (tracked_once s a (cb_id cb) HS HT).
Qed.

Lemma destroy_twice_fires_once_witness :
  let pre := [Call (Loop 0 (Return false) (OnDestroy Last 7 (Return false) (Return false)))] in
  let cb := client 7 (Return false) in
  let again := Call (Destroy (Inst 0) (Return false)) in
  let s := run pre initial in
  let s' := run (again :: [Call (Return false)] ++ again :: [] ++ [Frame (Q2Qc 16)]) s in
  cb ∈ callbacks KDestroy 0 s ∧
  (destroy 0 (destroy 0 s) = destroy 0 s ∧
   calls KDestroy 0 (cb_id cb) s' = 1 ∧
   calls KDestroy 0 (cb_id cb) (run [Frame (Q2Qc 32)] s') = 1 ∧
   ∀ sts, calls KDestroy 0 (cb_id cb) (run sts s) ≤ 1).
Proof.
  intros pre cb again s s'.
  assert (Hcb : cb ∈ callbacks KDestroy 0 s) by (vm_compute; constructor).
  split; [exact Hcb|].
  exact (destroy_twice_fires_once pre [Call (Return false)] [] [Frame (Q2Qc 32)] (Q2Qc 16)
           0 cb Hcb).
Defined.

(** ** Replacing the animation of a target *)

(** *** The entry of a target

    What [AnimationMap.set] relies on: a cleanup closure is only ever
    registered as an "on destroy" callback of the animation it captures,
    so that it runs when that animation is destroyed and at no other
    moment; and an entry of a map is only replaced after its animation has
    been destroyed. *)

(** The callback [cb] may be registered in registry [k] for instance [a]. *)
Definition fits (k : kind) (a : nat) (cb : callback) : Prop :=
  ∀ w t x, cb_code cb = MapCleanup w t x → k = KDestroy ∧ x = a.

Definition Clean (s : State) : Prop :=
  ∀ k a cb, cb ∈ callbacks k a s → fits k a cb.

(** The entry [T ↦ B] of the map [w] is in place, or [B] is destroyed. *)
Definition Occupied (w : which) (T B : nat) (s : State) : Prop :=
  B < count s ∧ (targets s w !! T = Some B ∨ is_destroyed B s).

(** [Kept None]: the registries are clean.  [Kept (Some (w, T, B))]: and
    the entry [T ↦ B] is in place as long as [B] is live. *)
Definition Kept (o : option (which * nat * nat)) (s : State) : Prop :=
  Clean s ∧ match o with Some (w, T, B) => Occupied w T B s | None => True end.

Lemma Kept_initial : Kept None initial.
Proof. split; [|done]. intros k a cb. rewrite callbacks_initial. by intros ?%elem_of_nil. Qed.

Lemma elem_of_cbset_add cb' cb l : cb' ∈ cbset_add cb l → cb' ∈ l ∨ cb' = cb.
Proof.
  unfold cbset_add. case_bool_decide; [auto|].
  rewrite elem_of_app, list_elem_of_singleton. auto.
Qed.

(** A step that adds nothing but fitting callbacks, keeps the maps of
    targets, and revives no instance. *)
Lemma Kept_ext o s s' :
  targets s' = targets s → count s ≤ count s' →
  (∀ b, is_destroyed b s → is_destroyed b s') →
  (∀ k a cb, cb ∈ callbacks k a s' → cb ∈ callbacks k a s ∨ fits k a cb) →
  Kept o s → Kept o s'.
Proof.
  intros Ht Hc Hd Hcb [HC HO]. split.
  - intros k a cb Hin. destruct (Hcb k a cb Hin) as [Hold|Hfit]; [by apply HC|done].
  - destruct o as [[[w T] B]|]; [|done]. destruct HO as [Hlt [Hin|Hdes]].
    + split; [lia|]. left. by rewrite Ht.
    + split; [lia|]. right. auto.
Qed.

Lemma Kept_same o s s' :
  targets s' = targets s → heap s' = heap s → registry s' = registry s →
  Kept o s → Kept o s'.
Proof.
  intros Ht Hh Hr. apply Kept_ext; [done|by rewrite (count_ext _ _ Hh)| |].
  - intros b. by rewrite (is_destroyed_ext b s s' Hh).
  - intros k a cb. rewrite (callbacks_ext k a s s' Hr). auto.
Qed.

Lemma Kept_destroy o a s : Kept o s → Kept o (destroy a s).
Proof.
  destruct (destroy_others a s) as (Hr & _ & _ & _ & _ & _ & Ht & _).
  apply Kept_ext; [done|apply (steps_count _ _ _ (destroy_steps a s))| |].
  - intros b. apply (steps_is_destroyed _ _ _ _ (destroy_steps a s)).
  - intros k b cb. rewrite (callbacks_ext k b s (destroy a s) Hr). auto.
Qed.

Lemma Kept_modify o a f s :
  (∀ i, destroyed (f i) = destroyed i) → Kept o s → Kept o (modify a f s).
Proof.
  intros Hf. apply Kept_ext; [done|by rewrite count_modify| |auto].
  intros b. by rewrite is_destroyed_modify.
Qed.

Lemma Kept_add o k a cb s :
  fits k a cb → Kept o s → Kept o (with_registry k (CallbackMap_add a cb (registry s k)) s).
Proof.
  intros Hfit. apply Kept_ext; [done|done|done|].
  intros k' b cb'. rewrite callbacks_add. case_decide as Hk; [|auto].
  destruct Hk as [-> ->]. intros [?| ->]%elem_of_cbset_add; auto.
Qed.

Lemma Kept_register o k a cb s : fits k a cb → Kept o s → Kept o (register k a (Some cb) s).
Proof.
  intros Hfit HK. destruct (alive_dec a s) as [Hal|Hal].
  - rewrite register_alive by done. by apply Kept_add.
  - by rewrite register_not_alive.
Qed.

Lemma fits_client k a n body : fits k a (client n body).
Proof. intros w t x. done. Qed.

Lemma fits_run k a c body : fits k a (mkCallback c (Run body)).
Proof. intros w t x. done. Qed.

Lemma fits_resolve k a c : fits k a (mkCallback c Resolve).
Proof. intros w t x. done. Qed.

Lemma Kept_promise o k a s : Kept o s → Kept o (promise k a s).1.
Proof.
  intros HK. unfold promise. cbn [fst].
  apply (Kept_add o k a _ (with_closures (S (closures s)) s) (fits_resolve k a _)).
  by apply (Kept_same o s).
Qed.

Lemma Kept_wait o (f : nat → State → State * option nat) a s :
  f = waitDestroy ∨ f = waitCompletion ∨ f = nextFrame → Kept o s → Kept o (f a s).1.
Proof.
  intros [-> | [-> | ->]] HK; unfold waitDestroy, waitCompletion, nextFrame;
    destruct (heap s !! a) as [i|]; try done;
    repeat case_match; try done; by apply Kept_promise.
Qed.

Lemma Kept_allocate o s : Kept o s → Kept o (allocate s).
Proof.
  apply Kept_ext; [done|rewrite count_allocate; lia| |auto].
  intros b. by rewrite is_destroyed_allocate.
Qed.

Lemma Kept_addAnimation o a s : Kept o s → Kept o (addAnimation a s).
Proof.
  destruct (addAnimation_others a s) as (Hh & Hr & _ & _ & _ & _ & Ht & _).
  by apply Kept_same.
Qed.

Lemma Kept_new o cb s :
  (∀ c, cb = Some c → fits KFrame (count s) c) →
  Kept o s → Kept o (new_AnimationInstance cb s).1.
Proof.
  intros Hfit HK. rewrite new_AnimationInstance_fst. apply Kept_addAnimation.
  destruct cb as [c|]; [|by apply Kept_allocate].
  apply Kept_add; [by apply Hfit|by apply Kept_allocate].
Qed.

Lemma Kept_during_setup o tp cb s :
  (∀ c, cb = Some c → fits KFrame (count s) c) →
  Kept o s → Kept o (during_setup tp cb s).1.
Proof.
  intros Hfit HK. rewrite during_setup_fst. apply Kept_modify; [done|]. by apply Kept_new.
Qed.

Lemma Kept_emit o e s : Kept o s → Kept o (emit e s).
Proof. by apply Kept_same. Qed.

Lemma Kept_closure o s : Kept o s → Kept o (with_closures (S (closures s)) s).
Proof. by apply Kept_same. Qed.

Lemma Kept_cancelTarget o w t s : Kept o s → Kept o (cancelTarget w t s).
Proof.
  intros HK. unfold cancelTarget. destruct (AnimationMap_get w t s); [|done].
  by apply Kept_destroy.
Qed.

Lemma Kept_on o r (f : nat → State → State) s :
  (∀ a s, Kept o s → Kept o (f a s)) → Kept o s → Kept o (on r f s).
Proof. intros Hf HK. destruct r; simpl; [by apply Hf|done]. Qed.

Lemma fits_cleanup w t a c : fits KDestroy a (mkCallback c (MapCleanup w t a)).
Proof. intros w' t' x [= _ _ <-]. done. Qed.

Lemma targets_set w t a s w' t' :
  targets (with_targets w (<[t := a]> (targets s w)) s) w' !! t' =
  if decide (w' = w ∧ t' = t) then Some a else targets s w' !! t'.
Proof.
  cbn [targets with_targets]. destruct (decide (w' = w)) as [->|Hw].
  - destruct (decide (t' = t)) as [->|Ht].
    + by rewrite decide_True, lookup_insert_eq.
    + rewrite decide_False by tauto. by rewrite lookup_insert_ne.
  - by rewrite decide_False by tauto.
Qed.

Lemma targets_delete w t s w' t' :
  targets (with_targets w (delete t (targets s w)) s) w' !! t' =
  if decide (w' = w ∧ t' = t) then None else targets s w' !! t'.
Proof.
  cbn [targets with_targets]. destruct (decide (w' = w)) as [->|Hw].
  - destruct (decide (t' = t)) as [->|Ht].
    + by rewrite decide_True, lookup_delete_eq.
    + rewrite decide_False by tauto. by rewrite lookup_delete_ne.
  - by rewrite decide_False by tauto.
Qed.

(** [AnimationMap.set] destroys the animation it replaces. *)
Lemma Kept_AnimationMap_set o w t a s : Kept o s → Kept o (AnimationMap_set w t a s).
Proof.
  intros HK. unfold AnimationMap_set, onDestroy.
  set (s1 := match AnimationMap_get w t s with Some old => destroy old s | None => s end).
  assert (HK1 : Kept o s1).
  { unfold s1. destruct (AnimationMap_get w t s); [by apply Kept_destroy|done]. }
  assert (Ht1 : targets s1 = targets s).
  { unfold s1. destruct (AnimationMap_get w t s) as [old|]; [|done].
    by destruct (destroy_others old s) as (_ & _ & _ & _ & _ & _ & Ht & _). }
  apply Kept_register; [apply fits_cleanup|]. apply Kept_closure.
  destruct HK1 as [HC1 HO1]. split; [exact HC1|].
  destruct o as [[[w0 T] B]|]; [|done]. destruct HO1 as [Hlt HO1].
  split; [exact Hlt|]. rewrite targets_set.
  case_decide as Hk; [|exact HO1]. destruct Hk as [Hw HT]. subst w0 T.
  destruct HO1 as [Hin|Hdes]; [|by right].
  right. rewrite Ht1 in Hin.
  change (is_destroyed B s1). revert Hlt. unfold s1, AnimationMap_get. rewrite Hin.
  intros Hlt. apply is_destroyed_destroy.
  unfold destroy in Hlt. revert Hlt. repeat case_match; rewrite ?count_modify; done.
Qed.

(** Client code keeps the registries clean and the entries in place. *)
Lemma exec_Kept o sc : ∀ self last s, Kept o s → Kept o (exec sc self last s).1.
Proof.
  induction sc as [brk|r sc IH|r b sc IH|r x sc IH|r n body IHb sc IH|r n body IHb sc IH
                  |r n body IHb sc IH|r sc IH|r sc IH|r sc IH|n body IHb sc IH
                  |target n body IHb sc IH|target sc IH|tp n body IHb sc IH|tp sc IH
                  |target tp n body IHb sc IH|target tp sc IH|target sc IH|d sc IH];
    intros self last s HK; unfold exec; fold exec.
  - done.
  - apply IH, Kept_on; [|done]. intros a s0. apply Kept_destroy.
  - apply IH, Kept_on; [|done]. intros a s0. by apply Kept_modify.
  - apply IH, Kept_on; [|done]. intros a s0. by apply Kept_modify.
  - apply IH, Kept_on; [|done]. intros a s0. apply Kept_register, fits_client.
  - apply IH, Kept_on; [|done]. intros a s0. apply Kept_register, fits_client.
  - apply IH, Kept_on; [|done]. intros a s0. apply Kept_register, fits_client.
  - apply IH, Kept_on; [|done]. intros a s0. apply Kept_wait. auto.
  - apply IH, Kept_on; [|done]. intros a s0. apply Kept_wait. auto.
  - apply IH, Kept_on; [|done]. intros a s0. apply Kept_wait. auto.
  - unfold loop.
    pose proof (Kept_new o (Some (client n body)) s
                  (λ c Hc, eq_ind _ (fits KFrame (count s)) (fits_client _ _ n body) c
                             (Some_inj _ _ Hc)) HK) as HK'.
    destruct (new_AnimationInstance (Some (client n body)) s) as [s' a]. by apply IH.
  - unfold loopWithTarget, loop.
    pose proof (Kept_new o (Some (client n body)) s
                  (λ c Hc, eq_ind _ (fits KFrame (count s)) (fits_client _ _ n body) c
                             (Some_inj _ _ Hc)) HK) as HK'.
    destruct (new_AnimationInstance (Some (client n body)) s) as [s' a].
    by apply IH, Kept_AnimationMap_set.
  - by apply IH, Kept_cancelTarget.
  - pose proof (Kept_during_setup o tp (Some (client n body)) s
                  (λ c Hc, eq_ind _ (fits KFrame (count s)) (fits_client _ _ n body) c
                             (Some_inj _ _ Hc)) HK) as HK'.
    destruct (during_setup tp (Some (client n body)) s) as [s' a]. apply IH.
    destruct (immediate_of tp); [|done]. by apply IHb, Kept_emit.
  - pose proof (Kept_during_setup o tp None s ltac:(done) HK) as HK'.
    destruct (during_setup tp None s) as [s' a]. by apply IH.
  - pose proof (Kept_during_setup o tp (Some (client n body)) s
                  (λ c Hc, eq_ind _ (fits KFrame (count s)) (fits_client _ _ n body) c
                             (Some_inj _ _ Hc)) HK) as HK'.
    destruct (during_setup tp (Some (client n body)) s) as [s' a].
    apply IH, Kept_AnimationMap_set.
    destruct (immediate_of tp); [|done]. by apply IHb, Kept_emit.
  - pose proof (Kept_during_setup o tp
                  (Some (mkCallback (Anon (closures s)) (Run (Return false))))
                  (with_closures (S (closures s)) s)
                  (λ c Hc, eq_ind _ (fits KFrame (count s)) (fits_run _ _ _ _) c
                             (Some_inj _ _ Hc)) (Kept_closure o s HK)) as HK'.
    destruct (during_setup tp _ (with_closures (S (closures s)) s)) as [s' a].
    apply IH, Kept_AnimationMap_set.
    destruct (immediate_of tp); [by apply Kept_emit|done].
  - by apply IH, Kept_cancelTarget.
  - pose proof (Kept_during_setup o (TimingNumber d) None s ltac:(done) HK) as HK'.
    destruct (during_setup (TimingNumber d) None s) as [s' a].
    apply IH, Kept_wait; auto.
Qed.

(** The scheduler calling a stored callback: a cleanup closure deletes
    the entry of its target only if the animation it captured is still
    the one of the entry. *)
Lemma invoke_Kept o k cb a s :
  (∀ w t x, cb_code cb = MapCleanup w t x → is_destroyed x s) →
  Kept o s → Kept o (invoke k cb a s).1.
Proof.
  intros Hdes HK. unfold invoke.
  destruct (cb_code cb) as [body| |w t x] eqn:Hcode; cbn [fst].
  - by apply exec_Kept, Kept_emit.
  - by apply Kept_emit.
  - case_bool_decide as Hget; [|by apply Kept_emit].
    apply (Kept_emit o (EvCall k a (cb_id cb))) in HK. destruct HK as [HC HO].
    split; [exact HC|]. destruct o as [[[w0 T] B]|]; [|done].
    destruct HO as [Hlt HO]. split; [exact Hlt|]. rewrite targets_delete.
    case_decide as Hk; [|exact HO]. destruct Hk as [Hw HT]. subst w0 T.
    destruct HO as [Hin|?]; [|by right]. right.
    unfold AnimationMap_get in Hget. rewrite Hin in Hget. injection Hget as <-.
    by apply (Hdes w t B).
Qed.

Lemma Clean_no_cleanup s k a cb w t x :
  Clean s → k ≠ KDestroy → cb ∈ callbacks k a s → cb_code cb ≠ MapCleanup w t x.
Proof. intros HC Hk Hcb Hcode. by destruct (HC k a cb Hcb w t x Hcode). Qed.

Lemma iterate_Kept o fuel k a : ∀ i brk s,
  k ≠ KDestroy → Kept o s → Kept o (iterate fuel k a i brk s).1.
Proof.
  induction fuel as [|fuel IH]; intros i brk s Hk HK; cbn [iterate]; [done|].
  destruct (callbacks k a s !! i) as [cb|] eqn:Hcb; [|done].
  assert (HK' : Kept o (invoke k cb a s).1).
  { apply invoke_Kept; [|done]. intros w t x Hcode.
    destruct (Clean_no_cleanup s k a cb w t x (proj1 HK) Hk); [|done].
    by eapply list_elem_of_lookup_2. }
  destruct (invoke k cb a s) as [s' r]. by apply IH.
Qed.

Lemma iterate_detached_Kept o k l a : ∀ brk s,
  a < count s →
  (∀ cb w t x, cb ∈ l → cb_code cb = MapCleanup w t x → is_destroyed x s) →
  Kept o s → Kept o (iterate_detached k l a brk s).1.
Proof.
  induction l as [|cb l IH]; intros brk s Ha Hl HK; cbn [iterate_detached]; [done|].
  assert (HK' : Kept o (invoke k cb a s).1).
  { apply invoke_Kept; [|done]. intros w t x. apply Hl. by left. }
  pose proof (invoke_steps k cb a s Ha) as Hst.
  destruct (invoke k cb a s) as [s' r]. cbn [fst] in HK', Hst.
  apply IH; [apply steps_count in Hst; lia| |done].
  intros cb' w t x Hin Hcode. eapply steps_is_destroyed; [exact Hst|].
  apply (Hl cb' w t x); [by right|done].
Qed.

Lemma Kept_unregister o k a s :
  Kept o s → Kept o (with_registry k (delete a (registry s k)) s).
Proof.
  apply Kept_ext; [done|done|done|].
  intros k' b cb. rewrite callbacks_unregister. case_decide; [by intros ?%elem_of_nil|auto].
Qed.

Lemma finish_Kept o a s : a < count s → Kept o s → Kept o (finish a s).
Proof.
  intros Ha HK. rewrite finish_phases. case_bool_decide; [|done]. cbn zeta.
  pose proof (frame_phase_steps a s Ha) as Hst1.
  assert (HK1 : Kept o (frame_phase a s).1).
  { unfold frame_phase. apply iterate_Kept; [done|].
    apply Kept_modify; [done|]. by apply Kept_emit. }
  set (p1 := frame_phase a s) in *.
  assert (Ha1 : a < count p1.1) by (apply steps_count in Hst1; lia).
  pose proof (nextFrame_phase_steps a p1 Ha1) as Hst2.
  assert (HK2 : Kept o (nextFrame_phase a p1).1).
  { unfold nextFrame_phase.
    pose proof (getAndDelete_fst a (nextFrameCallbacks p1.1)) as Hf.
    pose proof (getAndDelete_snd a (nextFrameCallbacks p1.1)) as Hs.
    destruct (CallbackMap_getAndDelete a (nextFrameCallbacks p1.1)) as [set m].
    cbn [fst snd] in Hf, Hs. subst set m.
    apply iterate_detached_Kept; [done| |by apply Kept_unregister].
    intros cb w t x Hin Hcode.
    destruct (Clean_no_cleanup p1.1 KNextFrame a cb w t x (proj1 HK1)); done. }
  set (p2 := nextFrame_phase a p1) in *.
  unfold destroy_phase, complete_phase.
  assert (HK3 : Kept o (if is_complete a p2.1
                        then (iterate (set_size (callbacks KComplete a p2.1))
                                KComplete a 0 false p2.1).1
                        else p2.1)).
  { destruct (is_complete a p2.1); [by apply iterate_Kept|done]. }
  destruct (p2.2 || _); [by apply Kept_destroy|done].
Qed.

Lemma visit_Kept o a s : Kept o s → Kept o (visit a s).
Proof.
  intros HK. unfold visit. destruct (heap s !! a) as [i|] eqn:Hi; [|done].
  destruct (negb (destroyed i) && negb (paused i)); [|done].
  rewrite updateAnimation_finish. apply finish_Kept.
  - rewrite count_modify. by apply lookup_lt_Some in Hi.
  - apply Kept_modify; [done|]. by apply Kept_emit.
Qed.

Lemma mainLoop_Kept o l : ∀ s, Kept o s → Kept o (mainLoop l s).
Proof.
  induction l as [|a l IH]; intros s HK; cbn [mainLoop]; [done|]. by apply IH, visit_Kept.
Qed.

Lemma destroyAnimation_Kept o a s :
  is_destroyed a s → Kept o s → Kept o (destroyAnimation a s).
Proof.
  intros Hd HK. rewrite destroyAnimation_cleared.
  assert (HKc : Kept o (cleared a s)).
  { unfold cleared. apply Kept_unregister. cbn zeta.
    apply (Kept_unregister o KNextFrame). apply (Kept_unregister o KFrame).
    by apply (Kept_same o s). }
  apply iterate_detached_Kept; [by apply is_destroyed_lt in Hd| |done].
  intros cb w t x Hin Hcode. destruct (proj1 HK KDestroy a cb Hin w t x Hcode) as [_ ->].
  done.
Qed.

Lemma frame_Kept o ms s : WF s → Kept o s → Kept o (_innerLoop ms s).
Proof.
  intros Hwf HK. rewrite _innerLoop_loops.
  assert (HKl : Kept o (loops ms s)).
  { unfold loops. cbn zeta.
    set (s1 := with_updating true (clock ms s)).
    assert (HK1 : Kept o s1) by (by apply (Kept_same o s)).
    assert (Hwf1 : WF s1) by (by apply WF_start).
    set (s2 := mainLoop (animations s) s1).
    assert (HK2 : Kept o s2) by (by apply mainLoop_Kept).
    assert (Hwf2 : WF s2) by (eapply steps_WF; [apply mainLoop_steps|done]).
    apply (destroyLoop_rule (λ _, Kept o));
      [|done|done|rewrite (destroy_fuel_pot s2); lia|lia].
    intros p s0 a Hwf0 HK0 Ha. apply destroyAnimation_Kept; [|done].
    apply (wf_queued s0 Hwf0). by eapply list_elem_of_lookup_2. }
  by apply (Kept_same o (loops ms s)).
Qed.

Lemma do_step_Kept o st s : WF s → Kept o s → Kept o (do_step st s).
Proof.
  intros Hwf HK. destruct st as [ms|sc]; cbn [do_step]; [by apply frame_Kept|].
  by apply exec_Kept.
Qed.

Lemma run_Kept o sts : ∀ s, WF s → Kept o s → Kept o (run sts s).
Proof.
  induction sts as [|st sts IH]; intros s Hwf HK; [done|]. rewrite run_cons.
  apply IH; [|by apply do_step_Kept]. eapply steps_WF; [by apply do_step_steps|done].
Qed.

Lemma reachable_Clean s : reachable s → Clean s.
Proof. intros [sts ->]. apply (run_Kept None sts initial WF_initial Kept_initial). Qed.


Lemma AnimationMap_set_occupied w T A B s :
  targets s w !! T = Some A →
  AnimationMap_set w T B s = AnimationMap_set w T B (destroy A s) ∧
  steps from_client (destroy A s) (AnimationMap_set w T B s).
Proof.
  intros HA.
  assert (Heq : AnimationMap_set w T B s = AnimationMap_set w T B (destroy A s)).
  { unfold AnimationMap_set, AnimationMap_get.
    destruct (destroy_others A s) as (_ & _ & _ & _ & _ & _ & Ht & _).
    rewrite Ht, HA. by rewrite destroy_destroy. }
  split; [done|]. rewrite Heq. apply AnimationMap_set_steps.
Qed.

Lemma AnimationMap_set_entry w T B s : targets (AnimationMap_set w T B s) w !! T = Some B.
Proof.
  unfold AnimationMap_set, onDestroy.
  match goal with |- targets (register ?k ?a ?cb ?s0) w !! T = _ =>
    destruct (register_others k a cb s0) as (_ & _ & _ & _ & _ & _ & _ & -> & _) end.
  cbn [targets with_closures with_targets]. rewrite decide_True by done.
  apply lookup_insert_eq.
Qed.

(** C6.  When [A] is the animation of the target [T] and
    [AnimationMap.set(T, B)] is called, the map then holds [B] for [T] (a
    map has one entry per key) and [A] is destroyed.  From then on [B]
    stays the animation of [T] for as long as it is live: the cleanup
    that [A] registered runs when [A] is removed and leaves the entry
    alone.  Every "on destroy" callback that was registered on [A] is
    called exactly once: never twice in any continuation, and once from
    the end of the next frame on.  This holds whether [A] was live,
    already marked destroyed, or already removed when the replacement
    happened. *)
Theorem replacement_destroys_once (pre1 pre2 : list step) (w : which) (T A B : nat)
    (cb : callback) :
  let s0 := run pre1 initial in
  let s := run pre2 s0 in
  let s' := AnimationMap_set w T B s in
  cb ∈ callbacks KDestroy A s0 →
  targets s w !! T = Some A →
  B < count s →
  targets s' w !! T = Some B ∧
  is_destroyed A s' ∧
  (∀ post, targets (run post s') w !! T = Some B ∨ is_destroyed B (run post s')) ∧
  (∀ post, calls KDestroy A (cb_id cb) (run post s') ≤ 1) ∧
  (∀ post ms more, calls KDestroy A (cb_id cb) (run (post ++ Frame ms :: more) s') = 1).
Proof.
  intros s0 s s' Hcb HA HB.
  assert (HS0 : Settled s0) by (apply reachable_Settled; by exists pre1).
  assert (HT0 : Tracked A (cb_id cb) s0) by (left; by apply list_elem_of_fmap_2).
  assert (HS : Settled s) by (by apply run_Settled).
  assert (HT : Tracked A (cb_id cb) s) by (by apply run_Tracked).
  assert (Ha : A < count s) by (eapply Tracked_allocated; [apply HS|done]).
  assert (Hst : steps from_client s s') by apply AnimationMap_set_steps.
  assert (HS' : Settled s') by (by eapply client_Settled).
  assert (HT' : Tracked A (cb_id cb) s').
  { eapply quiet_Tracked; [apply quiet_client|exact Hst|done]. }
  assert (Hd : is_destroyed A s').
  { destruct (AnimationMap_set_occupied w T A B s HA) as [_ Hst'].
    eapply steps_is_destroyed; [exact Hst'|]. by apply is_destroyed_destroy. }
  assert (HK : Kept (Some (w, T, B)) s').
  { split.
    - apply (Kept_AnimationMap_set None w T B s). split; [|done].
      apply reachable_Clean, reachable_run. by exists pre1.
    - split; [apply steps_count in Hst; lia|]. left. apply AnimationMap_set_entry. }
  split; [apply AnimationMap_set_entry|]. split; [done|]. split.
  { intros post. apply (run_Kept (Some (w, T, B)) post s' (st_WF _ HS') HK). }
  destruct (tracked_once s' A (cb_id cb) HS' HT') as [Hle Honce]. auto.
Qed.

Lemma replacement_destroys_once_witness :
  let pre1 := [Call (LoopWithTarget 5 0 (Return false)
                       (OnDestroy Last 7 (Return false) (Return false)))] in
  let pre2 := [Frame (Q2Qc 16); Call (Loop 1 (Return false) (Return false))] in
  let cb := client 7 (Return false) in
  let s0 := run pre1 initial in
  let s := run pre2 s0 in
  let s' := AnimationMap_set LoopMap 5 1 s in
  (cb ∈ callbacks KDestroy 0 s0 ∧ targets s LoopMap !! 5 = Some 0 ∧ 1 < count s) ∧
  (targets s' LoopMap !! 5 = Some 1 ∧
   is_destroyed 0 s' ∧
   (∀ post, targets (run post s') LoopMap !! 5 = Some 1 ∨ is_destroyed 1 (run post s')) ∧
   (∀ post, calls KDestroy 0 (cb_id cb) (run post s') ≤ 1) ∧
   (∀ post ms more, calls KDestroy 0 (cb_id cb) (run (post ++ Frame ms :: more) s') = 1)).
Proof.
  intros pre1 pre2 cb s0 s s'.
  assert (Hcb : cb ∈ callbacks KDestroy 0 s0) by (vm_compute; right; left).
  assert (HA : targets s LoopMap !! 5 = Some 0) by (vm_compute; reflexivity).
  assert (HB : 1 < count s) by (vm_compute; lia).
  split; [exact (conj Hcb (conj HA HB))|].
  exact (replacement_destroys_once pre1 pre2 LoopMap 5 0 1 cb Hcb HA HB).
Defined.

(** ** Next-frame callbacks *)

(** The scheduler advances the instance [i] it reaches, and the new time
    is not negative: the callbacks of the instance run. *)
Definition advances (dt : Qc) (i : AnimationInstance) : bool :=
  runs i && bool_decide (0 ≤ time i + dt * timeScale i)%Qc.

Lemma not_nextFrame_call_frame_phase a a' c l :
  in_frame_phase a l → l ≠ LEmit (EvCall KNextFrame a' c).
Proof. intros [[Hl|Hl]|[Hl|Hl]] ->; try done. by destruct Hl. Qed.

Lemma not_unregister_frame_phase a k a' l : in_frame_phase a l → l ≠ LUnregister k a'.
Proof. intros [[Hl|Hl]|[Hl|Hl]] ->; done. Qed.

Lemma not_nextFrame_call_complete a a' c l :
  in_invoke KComplete a l → l ≠ LEmit (EvCall KNextFrame a' c).
Proof. intros [Hl|Hl] ->; try done. by destruct Hl. Qed.

(** With a time that is not negative, [updateAnimation] calls every
    next-frame callback that is registered when it starts. *)
Lemma finish_nextFrame a s cb :
  WF s → a < count s → (0 ≤ time_of a s)%Qc → cb ∈ callbacks KNextFrame a s →
  calls KNextFrame a (cb_id cb) (finish a s) = calls KNextFrame a (cb_id cb) s + 1.
Proof.
  intros Hwf Ha Ht Hcb. rewrite finish_phases, bool_decide_eq_true_2 by done. cbn zeta.
  pose proof (frame_phase_steps a s Ha) as Hst1.
  set (p1 := frame_phase a s) in *.
  assert (Hwf1 : WF p1.1) by (by eapply steps_WF).
  assert (Ha1 : a < count p1.1) by (apply steps_count in Hst1; lia).
  assert (Hc1 : calls KNextFrame a (cb_id cb) p1.1 = calls KNextFrame a (cb_id cb) s).
  { apply (steps_calls _ _ _ _ _ _ (not_nextFrame_call_frame_phase a a (cb_id cb)) Hst1). }
  assert (Hcb1 : cb ∈ callbacks KNextFrame a p1.1).
  { destruct (steps_callbacks_prefix _ _ _ KNextFrame a
                (not_unregister_frame_phase a KNextFrame a) Hst1) as [k ->].
    apply elem_of_app. auto. }
  set (p2 := nextFrame_phase a p1).
  assert (Hc2 : calls KNextFrame a (cb_id cb) p2.1 = calls KNextFrame a (cb_id cb) p1.1 + 1).
  { unfold p2, nextFrame_phase.
    pose proof (getAndDelete_fst a (nextFrameCallbacks p1.1)) as Hf.
    destruct (CallbackMap_getAndDelete a (nextFrameCallbacks p1.1)) as [set m].
    simpl in Hf. subst set. rewrite iterate_detached_calls, decide_True by done.
    change (default [] (nextFrameCallbacks p1.1 !! a)) with (callbacks KNextFrame a p1.1).
    rewrite (occurrences_NoDup_in _ _ (wf_callbacks _ Hwf1 KNextFrame a))
      by (by apply list_elem_of_fmap_2).
    unfold calls. simpl. lia. }
  assert (Ha2 : a < count p2.1).
  { pose proof (nextFrame_phase_steps a p1 Ha1) as Hst. apply steps_count in Hst.
    fold p2 in Hst. lia. }
  assert (Hd : ∀ l, LDestroy a = l → l ≠ LEmit (EvCall KNextFrame a (cb_id cb))).
  { by intros l <-. }
  rewrite (steps_calls _ _ _ _ _ _ Hd (destroy_phase_steps a p2.2 (complete_phase a p2.1))).
  rewrite (steps_calls _ _ _ _ _ _ (not_nextFrame_call_complete a a (cb_id cb))
             (complete_phase_steps a p2.1 Ha2)). lia.
Qed.

(** One turn of the first loop, for the next-frame callbacks of the
    instance it reaches. *)
Lemma visit_nextFrame a s i :
  WF s → heap s !! a = Some i →
  (advances (info_deltaTime s) i = true →
   ∀ cb, cb ∈ callbacks KNextFrame a s →
     calls KNextFrame a (cb_id cb) (visit a s) = calls KNextFrame a (cb_id cb) s + 1) ∧
  (advances (info_deltaTime s) i = false →
   (∀ c, calls KNextFrame a c (visit a s) = calls KNextFrame a c s) ∧
   callbacks KNextFrame a (visit a s) = callbacks KNextFrame a s).
Proof.
  intros Hwf Hi. unfold advances, visit. rewrite Hi. fold (runs i).
  assert (Ha : a < count s) by (by apply lookup_lt_Some in Hi).
  destruct (runs i); cbn [andb]; [|split; [done|by intros _]].
  rewrite updateAnimation_finish.
  set (s1 := modify a _ _).
  assert (H1 : heap s1 !! a = Some (advance (info_deltaTime s) i)).
  { unfold s1. rewrite heap_modify, decide_True by done. simpl. by rewrite Hi. }
  assert (Ht1 : time_of a s1 = (time i + info_deltaTime s * timeScale i)%Qc).
  { by rewrite (time_of_heap _ _ _ H1). }
  assert (Hwf1 : WF s1).
  { eapply steps_WF; [|exact Hwf]. eapply steps_trans.
    - eapply (steps_one (λ _, True) (LEmit (EvUpdate a))); [done|by constructor].
    - eapply (steps_one (λ _, True) (LAdvance a)); [done|constructor]. }
  split.
  - intros Hadv%bool_decide_eq_true cb Hcb.
    rewrite (finish_nextFrame a s1 cb Hwf1); [done|by apply lookup_lt_Some in H1|by rewrite Ht1|done].
  - intros Hadv%bool_decide_eq_false.
    unfold finish. rewrite bool_decide_eq_false_2 by (by rewrite Ht1). done.
Qed.

Lemma allocated_cases a s : a < count s → alive a s ∨ is_destroyed a s.
Proof.
  intros Ha. destruct (lookup_lt_is_Some_2 (heap s) a Ha) as [i Hi].
  destruct (destroyed i) eqn:Hd; [right|left]; by exists i.
Qed.

(** A next-frame callback of [a] stays registered as long as [a] is not
    destroyed and nothing takes the set of [a] out of the map. *)
Definition Pending (a : nat) (cb : callback) (s : State) : Prop :=
  is_destroyed a s ∨ cb ∈ callbacks KNextFrame a s.

Lemma steps_Pending L a cb s s' :
  (∀ l, L l → l ≠ LUnregister KNextFrame a) → steps L s s' →
  Pending a cb s → Pending a cb s'.
Proof.
  intros HL Hst [Hd|Hcb]; [left; by eapply steps_is_destroyed|right].
  destruct (steps_callbacks_prefix _ _ _ KNextFrame a HL Hst) as [k ->].
  apply elem_of_app. auto.
Qed.

Lemma others_keep a l : (∃ b, b ≠ a ∧ in_update b l) → l ≠ LUnregister KNextFrame a.
Proof. intros (b & Hb & [Hl|Hl]) ->; [done|]. simpl in Hl. congruence. Qed.

Lemma turn_keep a l : in_turn a l → l ≠ LUnregister KNextFrame a.
Proof. intros [->|[->|Hl]]; [done|done|]. by apply others_keep. Qed.

Lemma destroyAnimation_Pending a cb b s :
  WF s → is_destroyed b s → Pending a cb s → Pending a cb (destroyAnimation b s).
Proof.
  intros Hwf Hb HP. pose proof (destroyAnimation_steps b s Hb) as Hst.
  destruct (decide (b = a)) as [->|Hne].
  - left. by eapply steps_is_destroyed.
  - eapply steps_Pending; [|exact Hst|done].
    intros l [Hl|Hl] ->; [done|]. simpl in Hl. congruence.
Qed.

Lemma after_loop_Pending a cb s : WF s → Pending a cb s → Pending a cb (after_loop s).
Proof.
  intros Hwf HP. unfold after_loop.
  assert (HP' : Pending a cb (destroyLoop (destroy_fuel s) 0 s)).
  { apply (destroyLoop_rule (λ _, Pending a cb)); [|done|done|rewrite (destroy_fuel_pot s); lia|lia].
    intros p s0 b Hwf0 HP0 Hb. apply destroyAnimation_Pending; [done| |done].
    apply (wf_queued s0 Hwf0). by eapply list_elem_of_lookup_2. }
  exact HP'.
Qed.

(** A frame, for a next-frame callback that is registered when the frame
    starts. *)
Lemma frame_nextFrame ms s a cb i :
  Settled s → cb ∈ callbacks KNextFrame a s → heap (turn a ms s) !! a = Some i →
  let s' := _innerLoop ms s in
  (if advances (info_deltaTime (clock ms s)) i
   then calls KNextFrame a (cb_id cb) s' = calls KNextFrame a (cb_id cb) s + 1
   else calls KNextFrame a (cb_id cb) s' = calls KNextFrame a (cb_id cb) s ∧
        (alive a s' → cb ∈ callbacks KNextFrame a s')) ∧
  (is_destroyed a s' → callbacks KNextFrame a s' = []).
Proof.
  intros HS Hcb Hi s'. pose proof (st_WF _ HS) as Hwf.
  assert (Ha : a < count s) by (by eapply registered_allocated).
  split.
  2:{ intros Hd. apply applied_no_callbacks; [by apply frame_Settled|done| |done].
      unfold s'. rewrite frame_empties_queue. by intros ?%elem_of_nil. }
  assert (Hwf1 : WF (turn a ms s)) by (eapply steps_WF; [apply turn_steps|done]).
  destruct (decide (a ∈ animations s)) as [Hin|Hin].
  - destruct (frame_split a ms s (wf_animations s Hwf) Hin) as (post & Hpost & _ & Heq).
    destruct (frame_calls_member ms s a KNextFrame (cb_id cb) post Hwf ltac:(done) Hpost Heq)
      as [Hc1 Hc2].
    assert (Hdt : info_deltaTime (turn a ms s) = info_deltaTime (clock ms s)).
    { unfold turn.
      rewrite (steps_clock in_mainLoop _ _) with (2 := mainLoop_steps _ _); [done|].
      intros l (b & [?|?]) ->; done. }
    assert (Hcb1 : cb ∈ callbacks KNextFrame a (turn a ms s)).
    { destruct (steps_callbacks_prefix _ _ _ KNextFrame a (turn_keep a) (turn_steps a ms s))
        as [k ->]. apply elem_of_app. auto. }
    destruct (visit_nextFrame a (turn a ms s) i Hwf1 Hi) as [Hyes Hno].
    rewrite Hdt in Hyes, Hno.
    destruct (advances (info_deltaTime (clock ms s)) i).
    + unfold s'. rewrite Hc2, (Hyes eq_refl cb Hcb1), Hc1. done.
    + destruct (Hno eq_refl) as [Hsame Hkeep]. split.
      * unfold s'. by rewrite Hc2, Hsame, Hc1.
      * intros Hal.
        assert (HP : Pending a cb s').
        { unfold s'. rewrite Heq. apply after_loop_Pending.
          - eapply steps_WF; [apply mainLoop_steps|]. eapply steps_WF; [apply visit_steps|done].
          - eapply steps_Pending; [apply others_keep|apply (mainLoop_steps_others a post _ Hpost)|].
            right. by rewrite Hkeep. }
        destruct HP as [Hd|?]; [|done]. by destruct (not_alive_destroyed a s').
  - assert (Hd : is_destroyed a s).
    { destruct (allocated_cases a s Ha) as [Hal|?]; [|done].
      destruct Hin. apply alive_in_animations; [done|apply HS|done]. }
    assert (Hd1 : is_destroyed a (turn a ms s)).
    { eapply steps_is_destroyed; [apply turn_steps|done]. }
    destruct Hd1 as (i1 & Hi1 & Hdi). rewrite Hi in Hi1. injection Hi1 as <-.
    unfold advances, runs. rewrite Hdi. cbn [negb andb]. split.
    + by apply frame_calls_not_member.
    + intros Hal. destruct (not_alive_destroyed a s' Hal).
      eapply steps_is_destroyed; [by apply _innerLoop_steps|done].
Qed.

(** *** A destroyed instance is left alone *)

Lemma visit_destroyed a s : is_destroyed a s → visit a s = s.
Proof. intros (i & Hi & Hd). unfold visit. by rewrite Hi, Hd. Qed.

Lemma frame_calls_destroyed ms s a k c :
  WF s → is_destroyed a s → k ≠ KDestroy →
  calls k a c (_innerLoop ms s) = calls k a c s.
Proof.
  intros Hwf Hd Hk.
  destruct (decide (a ∈ animations s)) as [Hin|Hin]; [|by apply frame_calls_not_member].
  destruct (frame_split a ms s (wf_animations s Hwf) Hin) as (post & Hpost & _ & Heq).
  destruct (frame_calls_member ms s a k c post Hwf Hk Hpost Heq) as [Hc1 Hc2].
  rewrite Hc2, visit_destroyed; [done|].
  eapply steps_is_destroyed; [apply turn_steps|done].
Qed.

Lemma run_calls_destroyed sts a k c : ∀ s,
  WF s → is_destroyed a s → k ≠ KDestroy → calls k a c (run sts s) = calls k a c s.
Proof.
  induction sts as [|st sts IH]; intros s Hwf Hd Hk; [done|]. rewrite run_cons.
  pose proof (do_step_steps st s Hwf) as Hst.
  rewrite IH; [|by eapply steps_WF|by eapply steps_is_destroyed|done].
  destruct st as [ms|sc]; cbn [do_step]; [by apply frame_calls_destroyed|apply exec_calls].
Qed.

Lemma nextFrame_destroyed a s : is_destroyed a s → nextFrame a s = (s, None).
Proof. intros (i & Hi & Hd). unfold nextFrame. by rewrite Hi, Hd. Qed.

Lemma nextFrame_alive a s :
  alive a s →
  (nextFrame a s).2 = Some (closures s) ∧
  Anon (closures s) ∈ cb_id <$> callbacks KNextFrame a (nextFrame a s).1.
Proof.
  intros (i & Hi & Hd). unfold nextFrame. rewrite Hi, Hd. split; [done|].
  unfold promise. cbn [fst].
  rewrite (callbacks_add KNextFrame KNextFrame a a _ (with_closures (S (closures s)) s)).
  rewrite decide_True by done.
  apply elem_of_cbset_add_ids. by right.
Qed.

(** C3, as the code has it.  [nextFrame()] on a destroyed instance
    returns [null] and registers nothing; on a live instance it registers
    a fresh resolver.  A resolver that is registered when a frame starts
    is called in that frame, once, when the scheduler advances the
    instance to a time that is not negative.  In a frame without such an
    advance it is not called: it stays registered if the instance is
    still live after the frame, and when the instance is destroyed it has
    been thrown away with the whole set, and is never called later. *)
Theorem nextFrame_resolves (pre : list step) (a : nat) (cb : callback) (ms : Qc)
    (i : AnimationInstance) :
  let s := run pre initial in
  let s' := _innerLoop ms s in
  cb ∈ callbacks KNextFrame a s →
  heap (turn a ms s) !! a = Some i →
  (if advances (info_deltaTime (clock ms s)) i
   then calls KNextFrame a (cb_id cb) s' = calls KNextFrame a (cb_id cb) s + 1
   else calls KNextFrame a (cb_id cb) s' = calls KNextFrame a (cb_id cb) s ∧
        (alive a s' → cb ∈ callbacks KNextFrame a s')) ∧
  (is_destroyed a s' →
   callbacks KNextFrame a s' = [] ∧
   ∀ more, calls KNextFrame a (cb_id cb) (run more s') = calls KNextFrame a (cb_id cb) s') ∧
  (∀ t, is_destroyed a t → nextFrame a t = (t, None)) ∧
  (∀ t, alive a t →
        (nextFrame a t).2 = Some (closures t) ∧
        Anon (closures t) ∈ cb_id <$> callbacks KNextFrame a (nextFrame a t).1).
Proof.
  intros s s' Hcb Hi.
  assert (HS : Settled s) by (apply reachable_Settled; by exists pre).
  destruct (frame_nextFrame ms s a cb i HS Hcb Hi) as [Hframe Hdiscard].
  split; [exact Hframe|]. split; [|split; [apply nextFrame_destroyed|apply nextFrame_alive]].
  intros Hd. split; [by apply Hdiscard|]. intros more.
  apply run_calls_destroyed; [|done|done]. apply (frame_Settled ms s HS).
Qed.

Lemma nextFrame_resolves_witness :
  let pre := [Call (Loop 0 (Return false) (NextFrame Last (Return false)))] in
  let cb := mkCallback (Anon 0) Resolve in
  let ms := Q2Qc 16 in
  let s := run pre initial in
  let s' := _innerLoop ms s in
  let i := default (advance 0%Qc (set_destroyed true (advance 0%Qc (set_paused true
             (mkInstance 0 0%Qc 0 0%Qc true 0%Qc 0%Qc 0%Qc None true 0)))))
             (heap (turn 0 ms s) !! 0) in
  (cb ∈ callbacks KNextFrame 0 s ∧ heap (turn 0 ms s) !! 0 = Some i) ∧
  ((if advances (info_deltaTime (clock ms s)) i
    then calls KNextFrame 0 (cb_id cb) s' = calls KNextFrame 0 (cb_id cb) s + 1
    else calls KNextFrame 0 (cb_id cb) s' = calls KNextFrame 0 (cb_id cb) s ∧
         (alive 0 s' → cb ∈ callbacks KNextFrame 0 s')) ∧
   (is_destroyed 0 s' →
    callbacks KNextFrame 0 s' = [] ∧
    ∀ more, calls KNextFrame 0 (cb_id cb) (run more s') = calls KNextFrame 0 (cb_id cb) s') ∧
   (∀ t, is_destroyed 0 t → nextFrame 0 t = (t, None)) ∧
   (∀ t, alive 0 t →
         (nextFrame 0 t).2 = Some (closures t) ∧
         Anon (closures t) ∈ cb_id <$> callbacks KNextFrame 0 (nextFrame 0 t).1)).
Proof.
  intros pre cb ms s s' i.
  assert (Hcb : cb ∈ callbacks KNextFrame 0 s) by (vm_compute; left).
  assert (Hi : heap (turn 0 ms s) !! 0 = Some i) by (vm_compute; reflexivity).
  split; [exact (conj Hcb Hi)|].
  exact (nextFrame_resolves pre 0 cb ms i Hcb Hi).
Defined.

(** C3, as the specification has it, fails: a resolver registered by
    [nextFrame()] on a live instance that is destroyed before its next
    advance is thrown away by [destroyAnimation] and is never called. *)
Lemma nextFrame_discarded :
  let s := run [Call (Loop 0 (Return false) (NextFrame Last (Return false)))] initial in
  let s' := run [Call (Destroy (Inst 0) (Return false)); Frame (Q2Qc 16)] s in
  alive 0 s ∧
  mkCallback (Anon 0) Resolve ∈ callbacks KNextFrame 0 s ∧
  callbacks KNextFrame 0 s' = [] ∧
  ∀ more, calls KNextFrame 0 (Anon 0) (run more s') = 0.
Proof.
  intros s s'. split; [|split; [|split]].
  - eexists. split; [vm_compute; reflexivity|reflexivity].
  - vm_compute. left.
  - vm_compute. reflexivity.
  - intros more. rewrite run_calls_destroyed; [by vm_compute| | |done].
    + apply reachable_WF, reachable_run. eexists. reflexivity.
    + eexists. split; [vm_compute; reflexivity|reflexivity].
Qed.

(** ** Completion callbacks *)

(** C2, as the code has it.  An "on complete" callback is called at most
    once in a run.  A frame that calls it found the instance live, takes
    the count from zero to one, leaves the instance destroyed, and leaves
    it with a time that is neither negative nor below its duration.  For
    an instance whose duration is not negative, and which was not complete
    at some earlier moment of the run, it is not complete when this frame
    starts: the frame is the one in which [complete] becomes true.  Code
    that runs between frames calls no such callback. *)
Theorem complete_fires_once (pre : list step) (ms : Qc) (a : nat) (c : cbid) :
  let s := run pre initial in
  let s' := _innerLoop ms s in
  calls KComplete a c s' ≠ calls KComplete a c s →
  (alive a s ∧ calls KComplete a c s = 0 ∧ calls KComplete a c s' = 1) ∧
  is_destroyed a s' ∧
  (∃ i', heap s' !! a = Some i' ∧ (0 ≤ time i')%Qc ∧ complete i' = true) ∧
  (∀ pre0 post0 i0,
     pre = pre0 ++ post0 → heap (run pre0 initial) !! a = Some i0 →
     nonnegative (duration i0) → complete i0 = false → is_complete a s = false) ∧
  (∀ sts, calls KComplete a c (run sts initial) ≤ 1) ∧
  (∀ sts sc, calls KComplete a c (run (sts ++ [Call sc]) initial) =
             calls KComplete a c (run sts initial)).
Proof.
  intros s s' Hne.
  assert (Hr : reachable s) by (by exists pre).
  destruct (frame_complete ms s a c (reachable_WF s Hr) (reachable_Completed s Hr) Hne)
    as (Hal & H0 & H1 & _ & Hd & Hi').
  split; [done|]. split; [done|]. split; [done|]. split; [|split].
  - intros pre0 post0 i0 -> Hi0 Hnn Hc0.
    assert (Hr0 : reachable (run pre0 initial)) by (by exists pre0).
    unfold s in Hal |- *. rewrite run_app in Hal |- *.
    by apply (run_pending post0 (run pre0 initial) a i0
                (reachable_WF _ Hr0) (reachable_Boundary _ Hr0) Hi0 Hnn (λ _, Hc0)).
  - intros sts.
    destruct (reachable_Completed (run sts initial) ltac:(by exists sts) a c) as [->|[-> _]]; lia.
  - intros sts sc. rewrite run_snoc. apply exec_calls.
Qed.

Lemma complete_fires_once_witness :
  let pre := [Call (During (TimingNumber (Some (Q2Qc 1))) 0 (Return false)
                      (OnComplete Last 5 (Return false) (Return false)))] in
  let ms := Q2Qc 2000 in
  let s := run pre initial in
  let s' := _innerLoop ms s in
  calls KComplete 0 (Named 5) s' ≠ calls KComplete 0 (Named 5) s ∧
  ((alive 0 s ∧ calls KComplete 0 (Named 5) s = 0 ∧ calls KComplete 0 (Named 5) s' = 1) ∧
   is_destroyed 0 s' ∧
   (∃ i', heap s' !! 0 = Some i' ∧ (0 ≤ time i')%Qc ∧ complete i' = true) ∧
   (∀ pre0 post0 i0,
      pre = pre0 ++ post0 → heap (run pre0 initial) !! 0 = Some i0 →
      nonnegative (duration i0) → complete i0 = false → is_complete 0 s = false) ∧
   (∀ sts, calls KComplete 0 (Named 5) (run sts initial) ≤ 1) ∧
   (∀ sts sc, calls KComplete 0 (Named 5) (run (sts ++ [Call sc]) initial) =
              calls KComplete 0 (Named 5) (run sts initial))).
Proof.
  intros pre ms s s'.
  assert (Hne : calls KComplete 0 (Named 5) s' ≠ calls KComplete 0 (Named 5) s)
    by (vm_compute; lia).
  split; [exact Hne|].
  exact (complete_fires_once pre ms 0 (Named 5) Hne).
Defined.

(** C2, as the specification has it, fails for a negative duration with a
    delay: [complete] becomes true in the second frame below, while the
    time is still negative, so that no callback is called and the
    instance stays live; the callback is called two frames later. *)
Lemma complete_before_callbacks :
  let s0 := run [Call (During (TimingObject (Some (Q2Qc (-1))) (Some (Q2Qc 2)) None) 0
                         (Return false)
                         (OnComplete Last 5 (Return false) (Return false)))] initial in
  let s1 := _innerLoop (Q2Qc 500) s0 in
  let s2 := _innerLoop (Q2Qc 1000) s1 in
  let s3 := _innerLoop (Q2Qc 1500) s2 in
  let s4 := _innerLoop (Q2Qc 2000) s3 in
  is_complete 0 s0 = false ∧ is_complete 0 s1 = false ∧
  (is_complete 0 s2 = true ∧ alive 0 s2 ∧ calls KComplete 0 (Named 5) s2 = 0) ∧
  calls KComplete 0 (Named 5) s3 = 0 ∧
  calls KComplete 0 (Named 5) s4 = 1.
Proof.
  intros s0 s1 s2 s3 s4. repeat split; try (vm_compute; reflexivity).
  eexists. split; [vm_compute; reflexivity|reflexivity].
Qed.

(** ** The time of an instance *)



(** ** Instances created during a frame *)



(** ** Destroyed instances and the set [animations] *)

(** The events the scheduler records when it advances an instance or
    calls one of its frame, next-frame or completion callbacks. *)
Definition advance_event (a : nat) (e : event) : Prop :=
  e = EvUpdate a ∨ e = EvFrame a ∨ ∃ k c, k ≠ KDestroy ∧ e = EvCall k a c.

Lemma advance_event_not_immediate a e b c : advance_event a e → e ≠ EvImmediate b c.
Proof. intros [->|[->|(k & c' & _ & ->)]]; done. Qed.

Lemma atomic_occurrences l s s' a e :
  atomic l s s' → advance_event a e → l ≠ LEmit e →
  occurrences e (trace s') = occurrences e (trace s).
Proof.
  intros Hat He Hl.
  destruct (atomic_trace _ _ _ Hat) as [->|(e' & -> & [->|(_ & b & c & ->)])]; [done|..];
    rewrite occurrences_cons, decide_False; try done.
  - congruence.
  - intros Heq. by destruct (advance_event_not_immediate a e b c He).
Qed.

Lemma steps_occurrences L s s' a e :
  advance_event a e → (∀ l, L l → l ≠ LEmit e) → steps L s s' →
  occurrences e (trace s') = occurrences e (trace s).
Proof.
  intros He HL. induction 1 as [|s1 s2 s3 (l & Hl & Hat) _ IH]; [done|].
  rewrite IH. eapply atomic_occurrences; eauto.
Qed.

Lemma others_no_event a e :
  advance_event a e → ∀ l, (∃ b, b ≠ a ∧ in_update b l) → l ≠ LEmit e.
Proof.
  intros He l (b & Hb & [Hl|Hl]) ->; [done|].
  destruct He as [->|[->|(k & c & Hk & ->)]]; simpl in Hl; [done|done|]. by destruct Hl.
Qed.

Lemma turn_no_event a e : advance_event a e → ∀ l, in_turn a l → l ≠ LEmit e.
Proof.
  intros He l [->|[->|Hl]]; [done|done|]. by apply (others_no_event a).
Qed.

Lemma after_no_event a e : advance_event a e → ∀ l, in_after_loop l → l ≠ LEmit e.
Proof.
  intros He l [(b & [Hl|Hl])|Hl] ->; [done| |done].
  destruct He as [->|[->|(k & c & Hk & ->)]]; simpl in Hl; [done|done|]. by destruct k.
Qed.

Lemma loops_no_event s a e :
  advance_event a e → a ∉ animations s → ∀ l, in_loops s l → l ≠ LEmit e.
Proof.
  intros He Ha l [(b & Hb & Hl)|(b & [Hl|Hl])] ->.
  - apply (others_no_event a e He (LEmit e)); [|done]. exists b. split; [|done].
    by intros ->.
  - done.
  - destruct He as [->|[->|(k & c & Hk & ->)]]; simpl in Hl; [done|done|]. by destruct k.
Qed.

(** A frame records no advance of an instance that is destroyed when the
    frame starts, and no call of a callback of it other than "on
    destroy". *)
Lemma frame_events_destroyed ms s a e :
  WF s → is_destroyed a s → advance_event a e →
  occurrences e (trace (_innerLoop ms s)) = occurrences e (trace s).
Proof.
  intros Hwf Hd He.
  destruct (decide (a ∈ animations s)) as [Hin|Hin].
  - destruct (frame_split a ms s (wf_animations s Hwf) Hin) as (post & Hpost & _ & ->).
    assert (Hd1 : is_destroyed a (turn a ms s)).
    { eapply steps_is_destroyed; [apply turn_steps|done]. }
    rewrite (visit_destroyed a _ Hd1).
    assert (Hwf1 : WF (turn a ms s)) by (eapply steps_WF; [apply turn_steps|done]).
    assert (Hwf2 : WF (mainLoop post (turn a ms s))).
    { eapply steps_WF; [apply mainLoop_steps|done]. }
    rewrite (steps_occurrences _ _ _ a e He (after_no_event a e He) (after_loop_steps _ Hwf2)).
    rewrite (steps_occurrences _ _ _ a e He (others_no_event a e He)
               (mainLoop_steps_others a post _ Hpost)).
    apply (steps_occurrences _ _ _ a e He (turn_no_event a e He) (turn_steps a ms s)).
  - rewrite _innerLoop_loops.
    change (trace (with_updating false _)) with (trace (loops ms s)).
    apply (steps_occurrences _ _ _ a e He (loops_no_event s a e He Hin) (loops_steps ms s Hwf)).
Qed.

Lemma run_events_destroyed sts a e : ∀ s,
  WF s → is_destroyed a s → advance_event a e →
  occurrences e (trace (run sts s)) = occurrences e (trace s).
Proof.
  induction sts as [|st sts IH]; intros s Hwf Hd He; [done|]. rewrite run_cons.
  pose proof (do_step_steps st s Hwf) as Hst.
  rewrite IH; [|by eapply steps_WF|by eapply steps_is_destroyed|done].
  destruct st as [ms|sc]; cbn [do_step]; [by apply (frame_events_destroyed ms s a e)|].
  apply (steps_occurrences from_client _ _ a e He); [|apply exec_steps].
  intros l Hl. by apply client_no_call.
Qed.

Lemma same_time_trans i1 i2 i3 : same_time i1 i2 → same_time i2 i3 → same_time i1 i3.
Proof. intros (?&?&?&?) (?&?&?&?). unfold same_time. repeat split; congruence. Qed.

Lemma frame_time_destroyed ms s a i :
  WF s → heap s !! a = Some i → destroyed i = true →
  ∃ i', heap (_innerLoop ms s) !! a = Some i' ∧ same_time i i'.
Proof.
  intros Hwf Hi Hdi.
  assert (Hd : is_destroyed a s) by (by exists i).
  destruct (decide (a ∈ animations s)) as [Hin|Hin].
  - destruct (frame_split a ms s (wf_animations s Hwf) Hin) as (post & Hpost & _ & ->).
    assert (Hd1 : is_destroyed a (turn a ms s)).
    { eapply steps_is_destroyed; [apply turn_steps|done]. }
    rewrite (visit_destroyed a _ Hd1).
    assert (Hwf1 : WF (turn a ms s)) by (eapply steps_WF; [apply turn_steps|done]).
    assert (Hwf2 : WF (mainLoop post (turn a ms s))).
    { eapply steps_WF; [apply mainLoop_steps|done]. }
    destruct (steps_same_time _ a _ _ i (not_LAdvance_turn a) (turn_steps a ms s) Hi)
      as (i1 & Hi1 & Ht1).
    destruct (steps_same_time _ a _ _ i1
                (λ l (Hl : ∃ b, b ≠ a ∧ in_update b l),
                   match Hl with ex_intro _ b (conj Hb Hu) => not_LAdvance_update a b l Hb Hu end)
                (mainLoop_steps_others a post _ Hpost) Hi1) as (i2 & Hi2 & Ht2).
    destruct (steps_same_time _ a _ _ i2 (not_LAdvance_after a) (after_loop_steps _ Hwf2) Hi2)
      as (i3 & Hi3 & Ht3).
    exists i3. split; [done|]. eauto using same_time_trans.
  - rewrite _innerLoop_loops.
    change (heap (with_updating false _)) with (heap (loops ms s)).
    apply (steps_same_time (in_loops s) a (with_updating true (clock ms s)));
      [|by apply loops_steps|done].
    intros l Hl. by apply (in_loops_not_advance s a l).
Qed.

Lemma run_time_destroyed sts a : ∀ s i,
  WF s → heap s !! a = Some i → destroyed i = true →
  ∃ i', heap (run sts s) !! a = Some i' ∧ same_time i i' ∧ destroyed i' = true.
Proof.
  induction sts as [|st sts IH]; intros s i Hwf Hi Hdi; [exists i; by repeat split|].
  rewrite run_cons. pose proof (do_step_steps st s Hwf) as Hst.
  assert (H1 : ∃ i1, heap (do_step st s) !! a = Some i1 ∧ same_time i i1).
  { destruct st as [ms|sc]; cbn [do_step]; [by apply frame_time_destroyed|].
    apply (steps_same_time from_client a s); [apply not_LAdvance_client|apply exec_steps|done]. }
  destruct H1 as (i1 & Hi1 & Ht1).
  assert (Hd1 : destroyed i1 = true).
  { destruct (steps_is_destroyed _ a _ _ Hst) as (j & Hj & Hdj); [by exists i|]. congruence. }
  destruct (IH (do_step st s) i1) as (i2 & Hi2 & Ht2 & Hd2); [by eapply steps_WF|done|done|].
  exists i2. split; [done|]. split; [|done]. by eapply same_time_trans.
Qed.

(** Once an instance is destroyed no frame advances it: its time, old
    time and delta stay as they are, and the trace gets no new advance of
    it and no new call of its frame, next-frame or completion callbacks. *)
Theorem destroyed_never_advanced (pre sts : list step) (a : nat) (i : AnimationInstance) :
  let s := run pre initial in
  heap s !! a = Some i →
  destroyed i = true →
  (∀ e, advance_event a e →
        occurrences e (trace (run sts s)) = occurrences e (trace s)) ∧
  ∃ i', heap (run sts s) !! a = Some i' ∧ same_time i i' ∧ destroyed i' = true.
Proof.
  intros s Hi Hd.
  assert (Hwf : WF s) by (apply reachable_WF; by exists pre).
  assert (Hdes : is_destroyed a s) by (by exists i).
  split.
  - intros e He. by apply (run_events_destroyed sts a e s).
  - by apply run_time_destroyed.
Qed.

Lemma destroyed_never_advanced_witness :
  let pre := [Call (Loop 0 (Return false) (Destroy Last (Return false)))] in
  let sts := [Frame (Q2Qc 16); Frame (Q2Qc 32)] in
  let s := run pre initial in
  let i := set_destroyed true (mkInstance 0 0%Qc 0 1%Qc false 0%Qc 0%Qc 0%Qc None false 0) in
  (heap s !! 0 = Some i ∧ destroyed i = true) ∧
  ((∀ e, advance_event 0 e →
         occurrences e (trace (run sts s)) = occurrences e (trace s)) ∧
   ∃ i', heap (run sts s) !! 0 = Some i' ∧ same_time i i' ∧ destroyed i' = true).
Proof.
  intros pre sts s i.
  assert (Hi : heap s !! 0 = Some i) by (vm_compute; reflexivity).
  split; [exact (conj Hi eq_refl)|].
  exact (destroyed_never_advanced pre sts 0 i Hi eq_refl).
Defined.

Lemma complete_entry_kept L s s' a cb :
  (∀ l, L l → l ≠ LUnregister KComplete a) → steps L s s' →
  cb ∈ callbacks KComplete a s → cb ∈ callbacks KComplete a s'.
Proof.
  intros HL Hst Hcb. destruct (steps_callbacks_prefix _ _ _ KComplete a HL Hst) as [k ->].
  apply elem_of_app. auto.
Qed.

Lemma in_frame_keeps_complete a l : in_frame l → l ≠ LUnregister KComplete a.
Proof.
  intros Hl ->. destruct Hl as [(b & [Hl|Hl])|[(b & [Hl|Hl])|Hl]]; simpl in Hl; done.
Qed.

(** No step of the module takes an entry out of [completeCallbacks]. *)
Lemma run_keeps_complete sts s a cb :
  WF s → cb ∈ callbacks KComplete a s → cb ∈ callbacks KComplete a (run sts s).
Proof.
  intros Hwf. apply (complete_entry_kept in_frame); [apply in_frame_keeps_complete|].
  by apply run_steps.
Qed.

(** C1: the second half of the invariant fails in the code.  The parent
    below creates a child in its frame callback, so that the child goes
    through [newAnimations], a set that [updateAnimations] reads at the
    end of every frame and never empties.  The child is then destroyed:
    the next frame skips it (it is not advanced) and [destroyAnimation]
    removes it from [animations], and the end of the same frame puts it
    back, destroyed, into [animations]. *)
Theorem destroyed_instance_reenters :
  let parent := Loop 0 (Loop 1 (Return false) (Return true)) (Return false) in
  let s := run [Call parent; Frame (Q2Qc 16); Call (Destroy (Inst 1) (Return false))] initial in
  let ms := Q2Qc 32 in
  is_destroyed 1 s ∧
  animations s = [1] ∧
  (EvUpdate 1 ∉ trace (_innerLoop ms s)) ∧
  animations (loops ms s) = [] ∧
  newAnimations (loops ms s) = [1] ∧
  animations (_innerLoop ms s) = [1] ∧
  is_destroyed 1 (_innerLoop ms s).
Proof.
  intros parent s ms.
  assert (Hd : ∀ t, heap t !! 1 = Some (default (mkInstance 0 0%Qc 0 0%Qc true 0%Qc 0%Qc 0%Qc None true 0) (heap t !! 1)) →
               destroyed (default (mkInstance 0 0%Qc 0 0%Qc true 0%Qc 0%Qc 0%Qc None true 0) (heap t !! 1)) = true →
               is_destroyed 1 t).
  { intros t H1 H2. eexists. split; [exact H1|exact H2]. }
  split; [apply Hd; vm_compute; reflexivity|].
  split; [vm_compute; reflexivity|].
  split.
  { apply (bool_decide_unpack _). vm_compute. exact I. }
  split; [vm_compute; reflexivity|].
  split; [vm_compute; reflexivity|].
  split; [vm_compute; reflexivity|].
  apply Hd; vm_compute; reflexivity.
Qed.

(** ** What the destroy phase leaves behind *)

(** C7: the code does not clear the completion registry.  The instance
    below completes in its first frame: it is marked destroyed, and the
    destroy phase of that frame removes it from [animations] and deletes
    its entries in [frameCallbacks], [nextFrameCallbacks] and
    [destroyCallbacks].  Its entry in [completeCallbacks] is still there,
    and stays there in every continuation of the run. *)
Theorem completeCallbacks_entry_retained :
  let cb := client 5 (Return false) in
  let s := run [Call (During (TimingNumber (Some (Q2Qc 1))) 0 (Return false)
                        (OnComplete Last 5 (Return false)
                           (OnDestroy Last 6 (Return false) (Return false))));
                Frame (Q2Qc 2000)] initial in
  is_destroyed 0 s ∧
  animations s = [] ∧ destroyedAnimations s = [] ∧
  calls KDestroy 0 (Named 6) s = 1 ∧
  frameCallbacks s !! 0 = None ∧
  nextFrameCallbacks s !! 0 = None ∧
  destroyCallbacks s !! 0 = None ∧
  completeCallbacks s !! 0 = Some [cb] ∧
  ∀ more, cb ∈ callbacks KComplete 0 (run more s).
Proof.
  intros cb s.
  split; [eexists; split; [vm_compute; reflexivity|reflexivity]|].
  repeat (split; [vm_compute; reflexivity|]).
  intros more. apply run_keeps_complete.
  - apply reachable_WF. eexists. reflexivity.
  - vm_compute. left.
Qed.

(** ** Easing *)

Import Easing.

Lemma easing_names name f :
  assoc name easing = Some f →
  name ∈ ["in2"; "in3"; "in4"; "in5"; "in6"; "out2"; "out3"; "out4"; "out5"; "out6"]%string.
Proof.
  unfold easing. cbn [assoc]. intros Hf.
  repeat (destruct (String.eqb _ name) eqn:E in Hf;
          [apply String.eqb_eq in E; subst name;
           apply (bool_decide_unpack _); vm_compute; exact I|clear E]).
  done.
Qed.

(** C9, as the specification has it, fails: for a string that is not the
    name of a curve, [safeEase] hands back what the property read
    [easing[name]] gives, which is [undefined] and not the identity. *)
Lemma safeEase_invalid_name :
  safeEase (EaseString "linear") = Undefined ∧
  safeEase (EaseString "toString") = Inherited "toString" ∧
  ∀ f, safeEase (EaseString "linear") ≠ Curve f.
Proof. split; [done|]. split; [done|]. intros f. discriminate. Qed.

(** C9, as the code has it.  For a string, [safeEase] is the property
    read [easing[name]]: the curve of that name for the ten names of the
    table ([in2] to [in6] are the powers [x^n], [out2] to [out6] are
    [1 - (1 - x)^n]), and no curve at all for any other string.  A
    function is handed back as it is, and the identity is the result when
    the argument is omitted. *)
Theorem safeEase_resolves (ease : EaseParam) :
  match ease with
  | EaseString name =>
      match assoc name easing with
      | Some f => safeEase ease = Curve f
      | None => ∀ f, safeEase ease ≠ Curve f
      end
  | EaseFunction f => safeEase ease = Curve f
  | EaseOmitted => ∃ f, safeEase ease = Curve f ∧ ∀ x, f x = x
  end ∧
  (∀ name f, assoc name easing = Some f →
     name ∈ ["in2"; "in3"; "in4"; "in5"; "in6";
             "out2"; "out3"; "out4"; "out5"; "out6"]%string) ∧
  (∀ x : Qc,
     safeEase (EaseString "in2") = Curve in2 ∧ in2 x = (x ^ 2)%Qc ∧
     safeEase (EaseString "in3") = Curve in3 ∧ in3 x = (x ^ 3)%Qc ∧
     safeEase (EaseString "in4") = Curve in4 ∧ in4 x = (x ^ 4)%Qc ∧
     safeEase (EaseString "in5") = Curve in5 ∧ in5 x = (x ^ 5)%Qc ∧
     safeEase (EaseString "in6") = Curve in6 ∧ in6 x = (x ^ 6)%Qc ∧
     safeEase (EaseString "out2") = Curve out2 ∧ out2 x = (1 - (1 - x) ^ 2)%Qc ∧
     safeEase (EaseString "out3") = Curve out3 ∧ out3 x = (1 - (1 - x) ^ 3)%Qc ∧
     safeEase (EaseString "out4") = Curve out4 ∧ out4 x = (1 - (1 - x) ^ 4)%Qc ∧
     safeEase (EaseString "out5") = Curve out5 ∧ out5 x = (1 - (1 - x) ^ 5)%Qc ∧
     safeEase (EaseString "out6") = Curve out6 ∧ out6 x = (1 - (1 - x) ^ 6)%Qc).
Proof.
  split; [|split; [apply easing_names|]].
  - destruct ease as [name|f|]; [|done|by exists (λ x, x)].
    unfold safeEase, easing_get. destruct (assoc name easing); [done|].
    intros f. by case_bool_decide.
  - intros x. unfold in2, in3, in4, in5, in6, out2, out3, out4, out5, out6.
    repeat split; simpl; ring.
Qed.

(** ** The tween step *)

(** C10.  For [tween(obj, { duration: 1 }, { to: { value: 10 }, ease:
    'out3' })] with [obj.value] equal to 0 at creation: in a frame in
    which the progress of the instance is 1/2, the frame callback of the
    tween sets [obj.value] to [out3(1/2) * 10], which is 35/4, whatever
    number [obj.value] holds at that moment. *)
Theorem tween_out3_halfway (i : AnimationInstance) (v : Qc) :
  let obj := [("value"%string, VNum 0%Qc)] in
  let tw := tween_bind obj None (Some [("value"%string, VNum (Q2Qc 10))])
              (EaseString "out3") in
  progress i = Some (Q2Qc (1 # 2)) →
  tween_frame tw (progress i) [("value"%string, VNum v)] =
    [("value"%string, VNum (out3 (Q2Qc (1 # 2)) * Q2Qc 10)%Qc)] ∧
  (out3 (Q2Qc (1 # 2)) * Q2Qc 10)%Qc = Q2Qc (35 # 4) ∧
  ∀ x, out3 x = (1 - (1 - x) ^ 3)%Qc.
Proof.
  intros obj tw ->. split; [|split].
  - assert (Hstep : tween_frame tw (Some (Q2Qc (1 # 2))) [("value"%string, VNum v)] =
                    [("value"%string,
                      VNum (lerp 0%Qc (Q2Qc 10) (out3 (Q2Qc (1 # 2)))))]) by reflexivity.
    rewrite Hstep. unfold lerp. do 3 f_equal. ring.
  - apply Qc_is_canon. vm_compute. reflexivity.
  - intros x. unfold out3. simpl. ring.
Qed.

Lemma tween_out3_halfway_witness :
  let i := mkInstance 0 0%Qc 0 1%Qc false (Q2Qc (1 # 2)) 0%Qc (Q2Qc (1 # 2)) (Some 1%Qc)
             false 1 in
  let obj := [("value"%string, VNum 0%Qc)] in
  let tw := tween_bind obj None (Some [("value"%string, VNum (Q2Qc 10))])
              (EaseString "out3") in
  progress i = Some (Q2Qc (1 # 2)) ∧
  (tween_frame tw (progress i) [("value"%string, VNum (Q2Qc 3))] =
     [("value"%string, VNum (out3 (Q2Qc (1 # 2)) * Q2Qc 10)%Qc)] ∧
   (out3 (Q2Qc (1 # 2)) * Q2Qc 10)%Qc = Q2Qc (35 # 4) ∧
   ∀ x, out3 x = (1 - (1 - x) ^ 3)%Qc).
Proof.
  intros i obj tw.
  assert (Hp : progress i = Some (Q2Qc (1 # 2))).
  { unfold progress, i. cbn [duration time].
    rewrite bool_decide_eq_false_2 by discriminate. reflexivity. }
  split; [exact Hp|].
  exact (tween_out3_halfway i (Q2Qc 3) Hp).
Defined.

(** * Part 5 - further properties of the module *)

(** ** [clamp] *)

Lemma clamp_cases x lo hi :
  (x < lo ∧ clamp x lo hi = lo)%Qc ∨
  (lo ≤ x ∧ hi < x ∧ clamp x lo hi = hi)%Qc ∨
  (lo ≤ x ∧ x ≤ hi ∧ clamp x lo hi = x)%Qc.
Proof.
  unfold clamp. case_bool_decide as H1; [by left|right].
  apply Qcnot_lt_le in H1. case_bool_decide as H2; [by left|right].
  apply Qcnot_lt_le in H2. done.
Qed.

Lemma clamp_bounds x lo hi :
  (lo ≤ hi)%Qc →
  (lo ≤ clamp x lo hi ∧ clamp x lo hi ≤ hi)%Qc ∧
  (clamp x lo hi = x ↔ (lo ≤ x ∧ x ≤ hi)%Qc).
Proof.
  intros Hb.
  assert (Hin : (lo ≤ clamp x lo hi ∧ clamp x lo hi ≤ hi)%Qc).
  { destruct (clamp_cases x lo hi) as [[_ ->]|[(_ & _ & ->)|(? & ? & ->)]];
      split; try done; apply Qcle_refl. }
  split; [exact Hin|]. split.
  - intros <-. exact Hin.
  - intros [H1 H2].
    destruct (clamp_cases x lo hi) as [[Hlt _]|[(_ & Hgt & _)|(_ & _ & ->)]]; [| |done].
    + by destruct (Qclt_not_le _ _ Hlt).
    + by destruct (Qclt_not_le _ _ Hgt).
Qed.

(** With bounds in order, [clamp] lands between them, moves nothing that
    is already there, and is idempotent. *)
Theorem clamp_within (x lo hi : Qc) :
  (lo ≤ hi)%Qc →
  (lo ≤ clamp x lo hi ∧ clamp x lo hi ≤ hi)%Qc ∧
  (clamp x lo hi = x ↔ (lo ≤ x ∧ x ≤ hi)%Qc) ∧
  clamp (clamp x lo hi) lo hi = clamp x lo hi.
Proof.
  intros Hb. destruct (clamp_bounds x lo hi Hb) as [Hin Hid].
  split; [exact Hin|]. split; [exact Hid|].
  by apply (clamp_bounds (clamp x lo hi) lo hi Hb).
Qed.

Lemma clamp_within_witness :
  (Q2Qc 0 ≤ Q2Qc 1)%Qc ∧
  ((Q2Qc 0 ≤ clamp (Q2Qc 3) (Q2Qc 0) (Q2Qc 1) ∧ clamp (Q2Qc 3) (Q2Qc 0) (Q2Qc 1) ≤ Q2Qc 1)%Qc ∧
   (clamp (Q2Qc 3) (Q2Qc 0) (Q2Qc 1) = Q2Qc 3 ↔ (Q2Qc 0 ≤ Q2Qc 3 ∧ Q2Qc 3 ≤ Q2Qc 1)%Qc) ∧
   clamp (clamp (Q2Qc 3) (Q2Qc 0) (Q2Qc 1)) (Q2Qc 0) (Q2Qc 1)
   = clamp (Q2Qc 3) (Q2Qc 0) (Q2Qc 1)).
Proof.
  assert (H : (Q2Qc 0 ≤ Q2Qc 1)%Qc) by (by vm_compute).
  split; [exact H|]. exact (clamp_within (Q2Qc 3) (Q2Qc 0) (Q2Qc 1) H).
Defined.

(** ** The easing curves *)

Local Open Scope Qc_scope.

Lemma Qc_unit_mult a b : 0 ≤ a → a ≤ 1 → 0 ≤ b → b ≤ 1 → 0 ≤ a * b ∧ a * b ≤ 1.
Proof.
  intros Ha0 Ha1 Hb0 Hb1. split; [by apply Qcmult_nonneg_nonneg|].
  apply (Qcle_trans _ (1 * b)); [by apply Qcmult_le_compat_r|].
  by rewrite Qcmult_1_l.
Qed.

Lemma Qc_mult_mono a b c d : 0 ≤ a → a ≤ b → 0 ≤ c → c ≤ d → a * c ≤ b * d.
Proof.
  intros Ha Hab Hc Hcd. apply (Qcle_trans _ (b * c)).
  - by apply Qcmult_le_compat_r.
  - apply Qcmult_le_mono_nonneg_l; [by apply (Qcle_trans _ a)|done].
Qed.

Lemma Qc_power_unit x n : 0 ≤ x → x ≤ 1 → 0 ≤ x ^ n ∧ x ^ n ≤ 1.
Proof.
  intros H0 H1. induction n as [|n [IH0 IH1]]; [done|].
  change (x ^ S n) with (x * x ^ n). by apply Qc_unit_mult.
Qed.

Lemma Qc_power_mono x y n : 0 ≤ x → x ≤ y → x ^ n ≤ y ^ n.
Proof.
  intros H0 Hxy. induction n as [|n IH]; [apply Qcle_refl|].
  change (x ^ S n ≤ y ^ S n) with (x * x ^ n ≤ y * y ^ n).
  apply Qc_mult_mono; [done|done|by apply Qcpower_pos|done].
Qed.

Lemma Qc_complement x : 0 ≤ x → x ≤ 1 → 0 ≤ 1 - x ∧ 1 - x ≤ 1.
Proof.
  intros H0 H1. split.
  - apply (Qcplus_le_mono_r _ _ x). ring_simplify. done.
  - apply (Qcplus_le_mono_r _ _ x). ring_simplify.
    apply (Qcplus_le_mono_l _ _ (-(1))). ring_simplify. done.
Qed.

Lemma Qc_complement_mono x y : x ≤ y → 1 - y ≤ 1 - x.
Proof.
  intros Hxy. apply (Qcplus_le_mono_r _ _ (x + y - 1)). ring_simplify. done.
Qed.

(** What the ten curves of the table are: a power, or the complement of
    the power of the complement. *)
Inductive curve_shape (f : Qc → Qc) : Prop :=
| shape_in n : (∀ x, f x = x ^ S n) → curve_shape f
| shape_out n : (∀ x, f x = 1 - (1 - x) ^ S n) → curve_shape f.

Lemma easing_shape name f : assoc name easing = Some f → curve_shape f.
Proof.
  unfold easing. cbn [assoc]. intros Hf.
  repeat (destruct (String.eqb _ name) in Hf;
          [injection Hf as <-;
           first [ apply (shape_in _ 1); intros x; unfold in2; simpl; ring
                 | apply (shape_in _ 2); intros x; unfold in3; simpl; ring
                 | apply (shape_in _ 3); intros x; unfold in4; simpl; ring
                 | apply (shape_in _ 4); intros x; unfold in5; simpl; ring
                 | apply (shape_in _ 5); intros x; unfold in6; simpl; ring
                 | apply (shape_out _ 1); intros x; unfold out2; simpl; ring
                 | apply (shape_out _ 2); intros x; unfold out3; simpl; ring
                 | apply (shape_out _ 3); intros x; unfold out4; simpl; ring
                 | apply (shape_out _ 4); intros x; unfold out5; simpl; ring
                 | apply (shape_out _ 5); intros x; unfold out6; simpl; ring ]|]).
  done.
Qed.

Lemma curve_shape_unit f x : curve_shape f → 0 ≤ x → x ≤ 1 → 0 ≤ f x ∧ f x ≤ 1.
Proof.
  intros [n Hf|n Hf] H0 H1; rewrite Hf.
  - by apply Qc_power_unit.
  - destruct (Qc_complement x H0 H1) as [Hc0 Hc1].
    destruct (Qc_power_unit (1 - x) (S n) Hc0 Hc1) as [Hp0 Hp1].
    by apply Qc_complement.
Qed.

Lemma curve_shape_mono f x y : curve_shape f → 0 ≤ x → x ≤ y → y ≤ 1 → f x ≤ f y.
Proof.
  intros [n Hf|n Hf] H0 Hxy H1; rewrite !Hf.
  - by apply Qc_power_mono.
  - apply Qc_complement_mono, Qc_power_mono; [|by apply Qc_complement_mono].
    apply (Qc_complement y); [by apply (Qcle_trans _ x)|done].
Qed.

Lemma curve_shape_ends f : curve_shape f → f 0 = 0 ∧ f 1 = 1.
Proof.
  intros [n Hf|n Hf]; rewrite (Hf 0), (Hf 1).
  - split; [by apply Qcpower_0|apply Qcpower_1].
  - replace (1 - 0) with 1 by ring. replace (1 - 1) with 0 by ring.
    rewrite Qcpower_1, Qcpower_0 by done. split; ring.
Qed.

(** Every curve of the table starts at 0 and ends at 1, stays within
    [0, 1] on [0, 1], and does not decrease there. *)
Theorem easing_curves_monotone (name : string) (f : Qc → Qc) (x y : Qc) :
  assoc name easing = Some f →
  0 ≤ x → x ≤ y → y ≤ 1 →
  f 0 = 0 ∧ f 1 = 1 ∧ (0 ≤ f x ∧ f x ≤ f y ∧ f y ≤ 1).
Proof.
  intros Hf H0 Hxy H1. apply easing_shape in Hf.
  destruct (curve_shape_ends f Hf) as [He0 He1].
  split; [done|]. split; [done|].
  split; [|split].
  - apply (curve_shape_unit f x Hf H0). by apply (Qcle_trans _ y).
  - by apply curve_shape_mono.
  - apply (curve_shape_unit f y Hf); [by apply (Qcle_trans _ x)|done].
Qed.

Lemma easing_curves_monotone_witness :
  (assoc "out3" easing = Some out3 ∧
   0 ≤ Q2Qc (1 # 4) ∧ Q2Qc (1 # 4) ≤ Q2Qc (1 # 2) ∧ Q2Qc (1 # 2) ≤ 1) ∧
  (out3 0 = 0 ∧ out3 1 = 1 ∧
   (0 ≤ out3 (Q2Qc (1 # 4)) ∧ out3 (Q2Qc (1 # 4)) ≤ out3 (Q2Qc (1 # 2)) ∧
    out3 (Q2Qc (1 # 2)) ≤ 1)).
Proof.
  assert (Hf : assoc "out3" easing = Some out3) by reflexivity.
  assert (H0 : 0 ≤ Q2Qc (1 # 4)) by (by vm_compute).
  assert (Hxy : Q2Qc (1 # 4) ≤ Q2Qc (1 # 2)) by (by vm_compute).
  assert (H1 : Q2Qc (1 # 2) ≤ 1) by (by vm_compute).
  split; [exact (conj Hf (conj H0 (conj Hxy H1)))|].
  exact (easing_curves_monotone "out3" out3 (Q2Qc (1 # 4)) (Q2Qc (1 # 2)) Hf H0 Hxy H1).
Defined.

(** The "out" curves are the "in" curves turned around. *)
Lemma out_is_in_reversed x :
  out2 x = 1 - in2 (1 - x) ∧ out3 x = 1 - in3 (1 - x) ∧ out4 x = 1 - in4 (1 - x) ∧
  out5 x = 1 - in5 (1 - x) ∧ out6 x = 1 - in6 (1 - x).
Proof. repeat split. Qed.

Local Close Scope Qc_scope.

(** ** [progress] and [normalizedTime] *)

Lemma Qc_div_le_1 t d : (0 < d)%Qc → (1 ≤ t / d)%Qc ↔ (d ≤ t)%Qc.
Proof.
  intros Hd. rewrite (Qcmult_le_mono_pos_r 1 (t / d) d Hd).
  rewrite Qcmult_1_l, test_field; [done|].
  intros ->. by apply Qclt_not_le in Hd.
Qed.

Lemma Qc_div_le_0 t d : (0 < d)%Qc → (t / d ≤ 0)%Qc ↔ (t ≤ 0)%Qc.
Proof.
  intros Hd. rewrite (Qcmult_le_mono_pos_r (t / d) 0 d Hd).
  rewrite Qcmult_0_l, test_field; [done|].
  intros ->. by apply Qclt_not_le in Hd.
Qed.

Lemma clamp_eq_hi x lo hi : (lo < hi)%Qc → clamp x lo hi = hi ↔ (hi ≤ x)%Qc.
Proof.
  intros Hb.
  destruct (clamp_cases x lo hi) as [[Hlt ->]|[(_ & Hgt & ->)|(_ & Hle & ->)]].
  - split.
    + intros Heq. rewrite Heq in Hb. by destruct (Qclt_not_le _ _ Hb (Qcle_refl hi)).
    + intros Hx. destruct (Qclt_not_le _ _ Hlt).
      apply (Qcle_trans _ hi); [by apply Qclt_le_weak|done].
  - split; [intros _; by apply Qclt_le_weak|done].
  - split; [intros ->; apply Qcle_refl|]. intros Hx. by apply Qcle_antisym.
Qed.

Lemma clamp_eq_lo x lo hi : (lo < hi)%Qc → clamp x lo hi = lo ↔ (x ≤ lo)%Qc.
Proof.
  intros Hb.
  destruct (clamp_cases x lo hi) as [[Hlt ->]|[(Hle & Hgt & ->)|(Hge & Hle & ->)]].
  - split; [intros _; by apply Qclt_le_weak|done].
  - split.
    + intros Heq. rewrite Heq in Hb. by destruct (Qclt_not_le _ _ Hb (Qcle_refl lo)).
    + intros Hx. destruct (Qclt_not_le _ _ Hgt).
      apply (Qcle_trans _ lo); [done|by apply Qclt_le_weak].
  - split; [intros ->; apply Qcle_refl|]. intros Hx. by apply Qcle_antisym.
Qed.

(** For an instance with a positive duration, [progress] is a number of
    [0, 1]: it is 1 exactly when the instance is complete and 0 exactly
    when its time is not positive.  [normalizedTime] lies in
    [0, duration], and is the time itself when the time does. *)
Theorem progress_within (i : AnimationInstance) (d : Qc) :
  duration i = Some d →
  (0 < d)%Qc →
  ∃ p, progress i = Some p ∧
       (0 ≤ p ∧ p ≤ 1)%Qc ∧
       (p = 1%Qc ↔ complete i = true) ∧
       (p = 0%Qc ↔ (time i ≤ 0)%Qc) ∧
       (0 ≤ normalizedTime i ∧ normalizedTime i ≤ d)%Qc ∧
       (normalizedTime i = time i ↔ (0 ≤ time i ∧ time i ≤ d)%Qc).
Proof.
  intros Hdur Hd.
  assert (H01 : (0 ≤ 1)%Qc) by (by vm_compute).
  assert (Hlt01 : (0 < 1)%Qc) by (by vm_compute).
  assert (H0d : (0 ≤ d)%Qc) by (by apply Qclt_le_weak).
  assert (Hne : d ≠ 0%Qc) by (intros ->; by apply Qclt_not_le in Hd).
  exists (clamp (time i / d) 0 1). unfold progress, normalizedTime, complete. rewrite Hdur.
  rewrite bool_decide_eq_false_2 by done.
  destruct (clamp_bounds (time i / d) 0 1 H01) as (Hp & _).
  destruct (clamp_bounds (time i) 0 d H0d) as (Hn & Hid).
  split; [done|]. split; [exact Hp|]. split; [|split; [|split; [exact Hn|exact Hid]]].
  - rewrite (clamp_eq_hi _ 0 1 Hlt01), (Qc_div_le_1 _ _ Hd).
    split; [apply bool_decide_eq_true_2|apply bool_decide_eq_true_1].
  - by rewrite (clamp_eq_lo _ 0 1 Hlt01), (Qc_div_le_0 _ _ Hd).
Qed.

Lemma progress_within_witness :
  let i := mkInstance 0 0%Qc 0 1%Qc false (Q2Qc 3) 0%Qc 0%Qc (Some (Q2Qc 2)) false 0 in
  (duration i = Some (Q2Qc 2) ∧ (0 < Q2Qc 2)%Qc) ∧
  ∃ p, progress i = Some p ∧
       (0 ≤ p ∧ p ≤ 1)%Qc ∧
       (p = 1%Qc ↔ complete i = true) ∧
       (p = 0%Qc ↔ (time i ≤ 0)%Qc) ∧
       (0 ≤ normalizedTime i ∧ normalizedTime i ≤ Q2Qc 2)%Qc ∧
       (normalizedTime i = time i ↔ (0 ≤ time i ∧ time i ≤ Q2Qc 2)%Qc).
Proof.
  intros i.
  assert (Hd : (0 < Q2Qc 2)%Qc) by (by vm_compute).
  split; [exact (conj eq_refl Hd)|].
  exact (progress_within i (Q2Qc 2) eq_refl Hd).
Defined.

(** ** [CallbackMap] *)

Lemma cbset_add_idem cb l : cbset_add cb (cbset_add cb l) = cbset_add cb l.
Proof.
  unfold cbset_add at 1. rewrite bool_decide_eq_true_2; [done|].
  apply elem_of_cbset_add_ids. by right.
Qed.

(** [add] followed by [getAndDelete]: the set that comes back holds the
    callback that was added and what the set held before, once each, and
    the key is gone from the map while every other key is as it was.
    Adding the same function again changes nothing, and [getAndDelete] of
    a key that is not there gives [undefined] and leaves the map alone. *)
Theorem CallbackMap_add_getAndDelete (a : nat) (cb : callback) (m : gmap nat (list callback)) :
  let m' := CallbackMap_add a cb m in
  (∃ l, (CallbackMap_getAndDelete a m').1 = Some l ∧
        (∀ c, c ∈ cb_id <$> l ↔ c ∈ cb_id <$> default [] (m !! a) ∨ c = cb_id cb) ∧
        (NoDup (cb_id <$> default [] (m !! a)) → NoDup (cb_id <$> l))) ∧
  (CallbackMap_getAndDelete a m').2 !! a = None ∧
  (∀ b, b ≠ a → (CallbackMap_getAndDelete a m').2 !! b = m !! b) ∧
  CallbackMap_add a cb m' = m' ∧
  (m !! a = None → CallbackMap_getAndDelete a m = (None, m)).
Proof.
  intros m'. unfold m', CallbackMap_add.
  split; [|split; [|split; [|split]]].
  - exists (cbset_add cb (default [] (m !! a))).
    rewrite getAndDelete_fst, lookup_insert_eq. split; [done|]. split.
    + intros c. apply elem_of_cbset_add_ids.
    + apply NoDup_cbset_add.
  - by rewrite getAndDelete_snd, lookup_delete_eq.
  - intros b Hb. by rewrite getAndDelete_snd, lookup_delete_ne, lookup_insert_ne.
  - rewrite lookup_insert_eq.
    change (default [] (Some ?x)) with x. rewrite cbset_add_idem.
    apply insert_insert_eq.
  - intros Hm. unfold CallbackMap_getAndDelete. by rewrite Hm.
Qed.

(** ** The clock of the module: [info] *)

(** The four values [info] gives access to. *)
Definition info_values (s : State) : Qc * Qc * Qc * nat :=
  (info_time s, info_timeOld s, info_deltaTime s, info_frame s).

Definition is_Frame (st : step) : bool :=
  match st with Frame _ => true | Call _ => false end.

Lemma info_values_eq s s' :
  info_values s' = info_values s →
  info_time s' = info_time s ∧ info_timeOld s' = info_timeOld s ∧
  info_deltaTime s' = info_deltaTime s ∧ info_frame s' = info_frame s.
Proof. unfold info_values. intros Hi. repeat split; congruence. Qed.

Lemma atomic_info l s s' : atomic l s s' → l ≠ LClock → info_values s' = info_values s.
Proof.
  destruct 1; try done; intros _.
  - unfold destroy. by repeat case_match.
  - unfold register. by repeat case_match.
  - unfold new_AnimationInstance, addAnimation, onFrame, register. cbn.
    by repeat case_match.
  - unfold during_setup, new_AnimationInstance, addAnimation, onFrame, register. cbn.
    by repeat case_match.
Qed.

Lemma steps_info L s s' : (∀ l, L l → l ≠ LClock) → steps L s s' → info_values s' = info_values s.
Proof.
  intros HL. induction 1 as [|s1 s2 s3 (l & Hl & Hat) _ IH]; [done|].
  rewrite IH. eapply atomic_info; [done|by apply HL].
Qed.

Lemma in_loops_no_clock s l : in_loops s l → l ≠ LClock.
Proof.
  intros Hl ->. by destruct Hl as [(a & _ & [Hl|Hl])|(a & [Hl|Hl])].
Qed.

Lemma _innerLoop_info ms s : WF s → info_values (_innerLoop ms s) = info_values (clock ms s).
Proof.
  intros Hwf. rewrite _innerLoop_loops.
  transitivity (info_values (loops ms s)); [done|].
  transitivity (info_values (with_updating true (clock ms s))); [|done].
  eapply steps_info; [|by apply loops_steps]. apply in_loops_no_clock.
Qed.

Lemma call_info sc s : info_values (do_step (Call sc) s) = info_values s.
Proof.
  eapply steps_info; [|apply exec_steps]. by intros [] Hl.
Qed.

(** The clock is moved by the browser's frames and by nothing else.  A
    frame at [ms] milliseconds sets [time] to [ms / 1000], [timeOld] to the
    time of the frame before, [deltaTime] to their difference and counts
    one more frame, whatever the callbacks it runs do; client code that
    runs between frames leaves the four values alone.  So at any moment
    [info.frame] is the number of frames there have been and
    [info.deltaTime = info.time - info.timeOld]. *)
Theorem info_follows_frames (sts : list step) :
  let s := run sts initial in
  info_frame s = length (filter is_Frame sts) ∧
  info_deltaTime s = (info_time s - info_timeOld s)%Qc ∧
  (∀ ms, info_values (do_step (Frame ms) s) =
         ((ms / Q2Qc 1000)%Qc, info_time s, (ms / Q2Qc 1000 - info_time s)%Qc,
          S (info_frame s))) ∧
  (∀ sc, info_values (do_step (Call sc) s) = info_values s).
Proof.
  intros s.
  assert (Hwf : WF s) by (apply reachable_WF; by exists sts).
  split; [|split; [|split]].
  - unfold s. clear. induction sts as [|st sts IH] using rev_ind; [done|].
    rewrite run_snoc, filter_app, length_app, <- IH.
    assert (Hw : WF (run sts initial)) by (apply reachable_WF; by eexists).
    destruct st as [ms|sc].
    + destruct (info_values_eq _ _ (_innerLoop_info ms _ Hw)) as (_ & _ & _ & Hi).
      cbn [do_step]. rewrite Hi.
      change (length (filter is_Frame [Frame ms])) with 1. cbn. lia.
    + destruct (info_values_eq _ _ (call_info sc (run sts initial))) as (_ & _ & _ & Hi).
      rewrite Hi. change (length (filter is_Frame [Call sc])) with 0. lia.
  - unfold s. clear. induction sts as [|st sts IH] using rev_ind; [by apply Qc_is_canon|].
    rewrite run_snoc.
    assert (Hw : WF (run sts initial)) by (apply reachable_WF; by eexists).
    destruct st as [ms|sc].
    + destruct (info_values_eq _ _ (_innerLoop_info ms _ Hw)) as (Ht & Ho & Hd & _).
      cbn [do_step]. etrans; [exact Hd|]. symmetry.
      etrans; [exact (f_equal2 Qcminus Ht Ho)|]. reflexivity.
    + destruct (info_values_eq _ _ (call_info sc (run sts initial))) as (Ht & Ho & Hd & _).
      etrans; [exact Hd|]. symmetry.
      etrans; [exact (f_equal2 Qcminus Ht Ho)|]. by symmetry.
  - intros ms. cbn [do_step]. by rewrite _innerLoop_info.
  - intros sc. apply call_info.
Qed.

(** ** [lerpObject] and the frame callback of [tween] *)


Lemma assoc_put_ne {A} key k' (v : A) l : k' ≠ key → assoc key (put k' v l) = assoc key l.
Proof.
  intros Hne. induction l as [|[k w] l IH]; simpl.
  - by apply String.eqb_neq in Hne as ->.
  - destruct (String.eqb k k') eqn:E; simpl; [|by rewrite IH].
    apply String.eqb_eq in E as ->. by apply String.eqb_neq in Hne as ->.
Qed.

Lemma put_keys {A} key (v : A) l : is_Some (assoc key l) → (put key v l).*1 = l.*1.
Proof.
  induction l as [|[k w] l IH]; cbn [put assoc]; [by intros [? ?]|].
  destruct (String.eqb k key) eqn:E; [done|]. intros Hs. rewrite !fmap_cons. by rewrite IH.
Qed.






Lemma tween_key_keys tw t target key : (tween_key tw t target key).*1 = target.*1.
Proof.
  unfold tween_key. destruct (assoc key target) as [v|] eqn:E; [|done].
  destruct v as [x| |fields|tag]; try done; try (apply put_keys; by rewrite E).
  destruct (mjoin (assoc key (_from tw))) as [[| |fa|]|]; try done.
  destruct (mjoin (assoc key (_to tw))) as [[| |fb|]|]; apply put_keys; by rewrite E.
Qed.

Lemma tween_key_other tw t target key key' :
  key' ≠ key → assoc key' (tween_key tw t target key) = assoc key' target.
Proof.
  intros Hne. unfold tween_key. destruct (assoc key target) as [v|] eqn:E; [|done].
  destruct v as [x| |fields|tag]; try done; try (by apply assoc_put_ne).
  destruct (mjoin (assoc key (_from tw))) as [[| |fa|]|]; try done.
  destruct (mjoin (assoc key (_to tw))) as [[| |fb|]|]; by apply assoc_put_ne.
Qed.

Lemma tween_key_untyped tw t target key key' v :
  assoc key' target = Some v →
  (∀ x, v ≠ VNum x) → v ≠ VNaN → (∀ fields, v ≠ VObj fields) →
  assoc key' (tween_key tw t target key) = Some v.
Proof.
  intros Hv H1 H2 H3. destruct (decide (key' = key)) as [->|Hne].
  - unfold tween_key. rewrite Hv. destruct v as [x| |fields|tag]; try done.
    + by destruct (H1 x).
    + by destruct (H3 fields).
  - by rewrite tween_key_other.
Qed.

(** The frame callback of a tween never adds a property to its target and
    never removes one; it leaves alone every property that is not a key
    of [from] or [to], and every property whose value is neither a number
    nor an object. *)
Theorem tween_frame_keeps_shape (tw : TweenBinding) (progress : option Qc)
    (target : object) :
  (tween_frame tw progress target).*1 = target.*1 ∧
  (∀ key, key ∉ keys tw →
          assoc key (tween_frame tw progress target) = assoc key target) ∧
  (∀ key tag, assoc key target = Some (VOther tag) →
              assoc key (tween_frame tw progress target) = Some (VOther tag)).
Proof.
  unfold tween_frame. generalize (apply_ease (_ease tw) progress) as t. intros t.
  revert target. induction (keys tw) as [|k ks IH]; intros target; [done|].
  cbn [foldl]. destruct (IH (tween_key tw t target k)) as (Hk & Ho & Hu).
  split; [|split].
  - by rewrite Hk, tween_key_keys.
  - intros key [Hne Hin]%not_elem_of_cons. rewrite Ho by done. by apply tween_key_other.
  - intros key tag Hv. apply Hu. by apply tween_key_untyped.
Qed.

(** ** Frame callbacks *)

(** With fuel for the whole set, the iteration calls every callback from
    position [i] on, the ones added while it runs included, once each. *)
Lemma iterate_all fuel k a : ∀ i brk s,
  a < count s → set_size (drop i (callbacks k a s)) ≤ fuel →
  let s' := (iterate fuel k a i brk s).1 in
  ∀ c, calls k a c s' = calls k a c s + occurrences c (cb_id <$> drop i (callbacks k a s')).
Proof.
  induction fuel as [|fuel IH]; intros i brk s Ha Hsz; cbn [iterate].
  - assert (Hnil : drop i (callbacks k a s) = []) by (apply set_size_0; lia).
    intros c. simpl. rewrite Hnil. simpl. rewrite occurrences_nil. lia.
  - destruct (callbacks k a s !! i) as [cb|] eqn:Hi.
    2:{ intros c. simpl. rewrite drop_ge by (by apply lookup_ge_None).
        simpl. rewrite occurrences_nil. lia. }
    pose proof (invoke_load k a k cb a s Ha) as Hload.
    pose proof (invoke_callbacks_prefix k cb a s k a Ha) as Hpre.
    pose proof (invoke_steps k cb a s Ha) as Hst.
    pose proof (invoke_calls k cb a s k a) as Hinv.
    destruct (invoke k cb a s) as [s1 r]. cbn [fst] in Hload, Hpre, Hst, Hinv.
    assert (Ha1 : a < count s1) by (apply steps_count in Hst; lia).
    assert (Hsz1 : set_size (drop (S i) (callbacks k a s1)) ≤ fuel).
    { destruct Hpre as [added Hadd]. unfold load in Hload.
      rewrite Hadd, set_size_app in Hload.
      rewrite Hadd, drop_app_le by (apply lookup_lt_Some in Hi; lia).
      rewrite set_size_app. rewrite (set_size_drop_lookup _ _ _ Hi) in Hsz. lia. }
    pose proof (IH (S i) (r || brk) s1 Ha1 Hsz1) as Hcalls.
    pose proof (iterate_calls fuel k a (S i) (r || brk) s1 Ha1) as [Hpre' _].
    set (s' := (iterate fuel k a (S i) (r || brk) s1).1) in *. cbn zeta in Hcalls.
    intros c. simpl. rewrite Hcalls, Hinv.
    assert (Hi' : callbacks k a s' !! i = Some cb).
    { eapply (prefix_lookup_Some (callbacks k a s)); [done|by etrans]. }
    rewrite (drop_S _ _ _ Hi'), fmap_cons, occurrences_cons.
    destruct (decide (cb_id cb = c)) as [->|Hne].
    + rewrite decide_True by done. lia.
    + rewrite decide_False by congruence. lia.
Qed.

Lemma in_invoke_other_call k a k' a' c l :
  in_invoke k a l → k ≠ k' → l ≠ LEmit (EvCall k' a' c).
Proof. intros [Hl|Hl] Hne ->; [done|]. destruct Hl. congruence. Qed.

Lemma nextFrame_phase_no_frame_call a a' c l :
  in_nextFrame_phase a l → l ≠ LEmit (EvCall KFrame a' c).
Proof.
  intros [Hl|Hl]; [by eapply in_invoke_other_call|by subst].
Qed.

Lemma in_invoke_not_incr k a a' l : in_invoke k a l → l ≠ LIncrFrame a'.
Proof. by intros [Hl|Hl] ->. Qed.

(** With a time that is not negative, [updateAnimation] calls every
    frame callback that is registered when it starts, once. *)
Lemma finish_frame_callback a s cb :
  WF s → a < count s → (0 ≤ time_of a s)%Qc → cb ∈ callbacks KFrame a s →
  calls KFrame a (cb_id cb) (finish a s) = calls KFrame a (cb_id cb) s + 1.
Proof.
  intros Hwf Ha Ht Hcb. rewrite finish_phases, bool_decide_eq_true_2 by done. cbn zeta.
  pose proof (frame_phase_steps a s Ha) as Hst1.
  assert (Hc1 : calls KFrame a (cb_id cb) (frame_phase a s).1 = calls KFrame a (cb_id cb) s + 1).
  { unfold frame_phase in *.
    set (s0 := modify a incr_frame (emit (EvFrame a) s)) in *.
    assert (Ha0 : a < count s0) by (unfold s0; by rewrite count_modify).
    assert (Hsz : set_size (drop 0 (callbacks KFrame a s0)) ≤ set_size (callbacks KFrame a s0))
      by (by rewrite drop_0).
    pose proof (iterate_all _ KFrame a 0 false s0 Ha0 Hsz (cb_id cb)) as Hall.
    pose proof (iterate_calls (set_size (callbacks KFrame a s0)) KFrame a 0 false s0 Ha0)
      as [Hpre _].
    set (s1 := (iterate (set_size (callbacks KFrame a s0)) KFrame a 0 false s0).1) in *.
    cbn zeta in Hall. rewrite drop_0 in Hall. rewrite Hall.
    assert (Hwf1 : WF s1) by (by eapply steps_WF).
    assert (Hcb1 : cb ∈ callbacks KFrame a s1).
    { destruct Hpre as [added ->]. apply elem_of_app. by left. }
    rewrite (occurrences_NoDup_in _ _ (wf_callbacks _ Hwf1 KFrame a))
      by (by apply list_elem_of_fmap_2).
    unfold s0. change (calls KFrame a (cb_id cb) (modify a incr_frame ?x))
      with (calls KFrame a (cb_id cb) x).
    rewrite calls_emit, decide_False by done. lia. }
  set (p1 := frame_phase a s) in *.
  assert (Ha1 : a < count p1.1) by (apply steps_count in Hst1; lia).
  pose proof (nextFrame_phase_steps a p1 Ha1) as Hst2.
  set (p2 := nextFrame_phase a p1) in *.
  assert (Ha2 : a < count p2.1) by (apply steps_count in Hst2; lia).
  assert (Hd : ∀ l, LDestroy a = l → l ≠ LEmit (EvCall KFrame a (cb_id cb))).
  { by intros l <-. }
  rewrite (steps_calls _ _ _ _ _ _ Hd (destroy_phase_steps a p2.2 (complete_phase a p2.1))).
  rewrite (steps_calls (in_invoke KComplete a) _ _ KFrame a (cb_id cb))
    with (2 := complete_phase_steps a p2.1 Ha2).
  2:{ intros l Hl. by eapply in_invoke_other_call. }
  rewrite (steps_calls _ _ _ _ _ _ (nextFrame_phase_no_frame_call a a (cb_id cb)) Hst2).
  exact Hc1.
Qed.

(** The frame counter of the instance after [updateAnimation]'s advance. *)
Lemma finish_frame_count a s i :
  heap s !! a = Some i →
  ∃ i', heap (finish a s) !! a = Some i' ∧
        frame i' = if bool_decide (0 ≤ time i)%Qc then S (frame i) else frame i.
Proof.
  intros Hi. assert (Ha : a < count s) by (by apply lookup_lt_Some in Hi).
  rewrite finish_phases, (time_of_heap _ _ _ Hi).
  case_bool_decide as Ht; [|by exists i]. cbn zeta.
  unfold frame_phase.
  set (s0 := modify a incr_frame (emit (EvFrame a) s)).
  assert (H0 : heap s0 !! a = Some (incr_frame i)).
  { unfold s0. rewrite heap_modify, decide_True by done. simpl. by rewrite Hi. }
  assert (Ha0 : a < count s0) by (by apply lookup_lt_Some in H0).
  pose proof (iterate_steps (set_size (callbacks KFrame a s0)) KFrame a 0 false s0 Ha0) as Hst1.
  set (p1 := iterate (set_size (callbacks KFrame a s0)) KFrame a 0 false s0) in *.
  assert (Ha1 : a < count p1.1) by (apply steps_count in Hst1; lia).
  pose proof (nextFrame_phase_steps a p1 Ha1) as Hst2.
  set (p2 := nextFrame_phase a p1) in *.
  assert (Ha2 : a < count p2.1) by (apply steps_count in Hst2; lia).
  pose proof (complete_phase_steps a p2.1 Ha2) as Hst3.
  pose proof (destroy_phase_steps a p2.2 (complete_phase a p2.1)) as Hst4.
  destruct (steps_same_frame _ a _ _ _ (λ l Hl, in_invoke_not_incr KFrame a a l Hl) Hst1 H0)
    as (i1 & Hi1 & Hf1).
  assert (Hn2 : ∀ l, in_nextFrame_phase a l → l ≠ LIncrFrame a).
  { intros l [Hl|Hl]; [by apply (in_invoke_not_incr KNextFrame a)|by subst]. }
  destruct (steps_same_frame _ a _ _ _ Hn2 Hst2 Hi1) as (i2 & Hi2 & Hf2).
  destruct (steps_same_frame _ a _ _ _ (λ l Hl, in_invoke_not_incr KComplete a a l Hl) Hst3 Hi2)
    as (i3 & Hi3 & Hf3).
  assert (Hn4 : ∀ l, LDestroy a = l → l ≠ LIncrFrame a) by (by intros l <-).
  destruct (steps_same_frame _ a _ _ _ Hn4 Hst4 Hi3) as (i4 & Hi4 & Hf4).
  exists i4. split; [done|]. rewrite Hf4, Hf3, Hf2, Hf1. done.
Qed.

(** One turn of the first loop, for the frame callbacks and the frame
    counter of the instance it reaches. *)
Lemma visit_frame a s i :
  WF s → heap s !! a = Some i →
  (advances (info_deltaTime s) i = true →
   ∀ cb, cb ∈ callbacks KFrame a s →
     calls KFrame a (cb_id cb) (visit a s) = calls KFrame a (cb_id cb) s + 1) ∧
  (advances (info_deltaTime s) i = false →
   ∀ c, calls KFrame a c (visit a s) = calls KFrame a c s) ∧
  ∃ i', heap (visit a s) !! a = Some i' ∧
        frame i' = if advances (info_deltaTime s) i then S (frame i) else frame i.
Proof.
  intros Hwf Hi. unfold advances, visit. rewrite Hi. fold (runs i).
  assert (Ha : a < count s) by (by apply lookup_lt_Some in Hi).
  destruct (runs i); cbn [andb]; [|split; [done|split; [done|by exists i]]].
  rewrite updateAnimation_finish.
  set (s1 := modify a _ _).
  assert (H1 : heap s1 !! a = Some (advance (info_deltaTime s) i)).
  { unfold s1. rewrite heap_modify, decide_True by done. simpl. by rewrite Hi. }
  assert (Ht1 : time_of a s1 = (time i + info_deltaTime s * timeScale i)%Qc).
  { by rewrite (time_of_heap _ _ _ H1). }
  assert (Hwf1 : WF s1).
  { eapply steps_WF; [|exact Hwf]. eapply steps_trans.
    - eapply (steps_one (λ _, True) (LEmit (EvUpdate a))); [done|by constructor].
    - eapply (steps_one (λ _, True) (LAdvance a)); [done|constructor]. }
  split; [|split].
  - intros Hadv%bool_decide_eq_true cb Hcb.
    rewrite (finish_frame_callback a s1 cb Hwf1);
      [done|by apply lookup_lt_Some in H1|by rewrite Ht1|done].
  - intros Hadv%bool_decide_eq_false c.
    unfold finish. rewrite bool_decide_eq_false_2 by (by rewrite Ht1). done.
  - destruct (finish_frame_count a s1 _ H1) as (i' & Hi' & Hf). exists i'. split; [done|].
    rewrite Hf. done.
Qed.

(** A frame callback of [a] stays registered as long as [a] is not
    destroyed. *)
Definition Held (a : nat) (cb : callback) (s : State) : Prop :=
  is_destroyed a s ∨ cb ∈ callbacks KFrame a s.

Lemma steps_Held L a cb s s' :
  (∀ l, L l → l ≠ LUnregister KFrame a) → steps L s s' → Held a cb s → Held a cb s'.
Proof.
  intros HL Hst [Hd|Hcb]; [left; by eapply steps_is_destroyed|right].
  destruct (steps_callbacks_prefix _ _ _ KFrame a HL Hst) as [k ->].
  apply elem_of_app. auto.
Qed.

Lemma in_update_holds a b l : in_update b l → l ≠ LUnregister KFrame a.
Proof. intros [Hl|Hl] ->; done. Qed.

Lemma destroyAnimation_Held a cb b s :
  WF s → is_destroyed b s → Held a cb s → Held a cb (destroyAnimation b s).
Proof.
  intros Hwf Hb HP. pose proof (destroyAnimation_steps b s Hb) as Hst.
  destruct (decide (b = a)) as [->|Hne].
  - left. by eapply steps_is_destroyed.
  - eapply steps_Held; [|exact Hst|done].
    intros l [Hl|Hl] ->; [done|]. simpl in Hl. congruence.
Qed.

Lemma after_loop_Held a cb s : WF s → Held a cb s → Held a cb (after_loop s).
Proof.
  intros Hwf HP. unfold after_loop.
  assert (HP' : Held a cb (destroyLoop (destroy_fuel s) 0 s)).
  { apply (destroyLoop_rule (λ _, Held a cb)); [|done|done|rewrite (destroy_fuel_pot s); lia|lia].
    intros p s0 b Hwf0 HP0 Hb. apply destroyAnimation_Held; [done| |done].
    apply (wf_queued s0 Hwf0). by eapply list_elem_of_lookup_2. }
  exact HP'.
Qed.

Lemma frame_Held ms s a cb : WF s → Held a cb s → Held a cb (_innerLoop ms s).
Proof.
  intros Hwf HP. rewrite _innerLoop_clock, updateAnimations_after_loop.
  assert (Hwf0 : WF (with_updating true (clock ms s))) by (by apply WF_start).
  apply after_loop_Held.
  - eapply steps_WF; [apply mainLoop_steps|done].
  - eapply steps_Held; [|apply mainLoop_steps|exact HP].
    intros l (b & Hl). by eapply in_update_holds.
Qed.

Lemma run_Held sts a cb : ∀ s, WF s → Held a cb s → Held a cb (run sts s).
Proof.
  induction sts as [|st sts IH]; intros s Hwf HP; [done|]. rewrite run_cons.
  apply IH; [eapply steps_WF; [by apply do_step_steps|done]|].
  destruct st as [ms|sc]; cbn [do_step]; [by apply frame_Held|].
  eapply steps_Held; [|apply exec_steps|done]. by intros l Hl ->.
Qed.

(** A frame, for a frame callback that is registered when it starts. *)
Lemma frame_frame_callback ms s a cb i :
  Settled s → cb ∈ callbacks KFrame a s → heap (turn a ms s) !! a = Some i →
  let s' := _innerLoop ms s in
  let n := if advances (info_deltaTime (clock ms s)) i then 1 else 0 in
  calls KFrame a (cb_id cb) s' = calls KFrame a (cb_id cb) s + n ∧
  ∃ i', heap s' !! a = Some i' ∧ frame i' = frame i + n.
Proof.
  intros HS Hcb Hi s' n. pose proof (st_WF _ HS) as Hwf.
  assert (Ha : a < count s) by (by eapply registered_allocated).
  assert (Hwf1 : WF (turn a ms s)) by (eapply steps_WF; [apply turn_steps|done]).
  destruct (decide (a ∈ animations s)) as [Hin|Hin].
  - destruct (frame_split a ms s (wf_animations s Hwf) Hin) as (post & Hpost & _ & Heq).
    destruct (frame_calls_member ms s a KFrame (cb_id cb) post Hwf ltac:(done) Hpost Heq)
      as [Hc1 Hc2].
    assert (Hdt : info_deltaTime (turn a ms s) = info_deltaTime (clock ms s)).
    { unfold turn.
      rewrite (steps_clock in_mainLoop _ _) with (2 := mainLoop_steps _ _); [done|].
      intros l (b & [?|?]) ->; done. }
    assert (Hcb1 : cb ∈ callbacks KFrame a (turn a ms s)).
    { assert (HP : Held a cb (turn a ms s)).
      { eapply steps_Held; [|apply turn_steps|by right].
        intros l [->|[->|(b & _ & Hl)]]; [done|done|by eapply in_update_holds]. }
      destruct HP as [Hd|?]; [|done].
      destruct (steps_callbacks_prefix (in_turn a) s (turn a ms s) KFrame a) as [k ->];
        [|apply turn_steps|apply elem_of_app; auto].
      intros l [->|[->|(b & _ & Hl)]]; [done|done|by eapply in_update_holds]. }
    destruct (visit_frame a (turn a ms s) i Hwf1 Hi) as (Hyes & Hno & i1 & Hi1 & Hf1).
    rewrite Hdt in Hyes, Hno, Hf1.
    assert (Hwf2 : WF (mainLoop post (visit a (turn a ms s)))).
    { eapply steps_WF; [apply mainLoop_steps|]. eapply steps_WF; [apply visit_steps|done]. }
    assert (Hrest : steps (λ l, (∃ b, b ≠ a ∧ in_update b l) ∨ in_after_loop l)
                      (visit a (turn a ms s)) s').
    { unfold s'. rewrite Heq. eapply steps_trans.
      - eapply steps_mono; [|apply (mainLoop_steps_others a post _ Hpost)]. by left.
      - eapply steps_mono; [|by apply after_loop_steps]. by right. }
    assert (Hni : ∀ l, (∃ b, b ≠ a ∧ in_update b l) ∨ in_after_loop l → l ≠ LIncrFrame a).
    { intros l [(b & Hb & [Hl|Hl])|[(b & [Hl|Hl])|Hl]] ->; try done. }
    destruct (steps_same_frame _ a _ _ _ Hni Hrest Hi1) as (i' & Hi' & Hf').
    split.
    + unfold s', n. rewrite Hc2.
      destruct (advances (info_deltaTime (clock ms s)) i).
      * by rewrite (Hyes eq_refl cb Hcb1), Hc1.
      * rewrite (Hno eq_refl), Hc1. lia.
    + exists i'. split; [done|]. rewrite Hf', Hf1. unfold n.
      destruct (advances (info_deltaTime (clock ms s)) i); lia.
  - assert (Hd : is_destroyed a s).
    { destruct (allocated_cases a s Ha) as [Hal|?]; [|done].
      destruct Hin. apply alive_in_animations; [done|apply HS|done]. }
    assert (Hd1 : is_destroyed a (turn a ms s)).
    { eapply steps_is_destroyed; [apply turn_steps|done]. }
    destruct Hd1 as (i1 & Hi1 & Hdi). rewrite Hi in Hi1. injection Hi1 as <-.
    unfold n, advances, runs. rewrite Hdi. cbn [negb andb]. split.
    + rewrite Nat.add_0_r. by apply frame_calls_not_member.
    + assert (Heq : s' = after_loop (turn a ms s)).
      { unfold s', turn. rewrite (before_all _ _ Hin).
        by rewrite _innerLoop_clock, updateAnimations_after_loop. }
      assert (Hni : ∀ l, in_after_loop l → l ≠ LIncrFrame a).
      { intros l [(b & [Hl|Hl])|Hl] ->; done. }
      destruct (steps_same_frame _ a _ _ _ Hni (after_loop_steps _ Hwf1) Hi) as (i' & Hi' & Hf').
      exists i'. rewrite Heq. split; [done|]. lia.
Qed.

(** A frame callback that is registered on an instance when a frame
    starts is called in that frame exactly once if the frame advances the
    instance (it reaches it live and not paused, and its new time is not
    negative), and not at all otherwise; the frame counter of the instance
    goes up by one in the first case and stays in the second.  Client code
    between frames never calls it, and it stays registered for as long as
    the instance is live. *)
Theorem frame_callback_every_frame (pre : list step) (a : nat) (cb : callback) (ms : Qc)
    (i : AnimationInstance) :
  let s := run pre initial in
  let s' := _innerLoop ms s in
  let n := if advances (info_deltaTime (clock ms s)) i then 1 else 0 in
  cb ∈ callbacks KFrame a s →
  heap (turn a ms s) !! a = Some i →
  calls KFrame a (cb_id cb) s' = calls KFrame a (cb_id cb) s + n ∧
  (∃ i0 i', heap s !! a = Some i0 ∧ frame i = frame i0 ∧
            heap s' !! a = Some i' ∧ frame i' = frame i0 + n) ∧
  (∀ sc, calls KFrame a (cb_id cb) (do_step (Call sc) s) = calls KFrame a (cb_id cb) s) ∧
  (∀ post, alive a (run post s) → cb ∈ callbacks KFrame a (run post s)).
Proof.
  intros s s' n Hcb Hi.
  assert (HS : Settled s) by (apply reachable_Settled; by exists pre).
  pose proof (st_WF _ HS) as Hwf.
  destruct (frame_frame_callback ms s a cb i HS Hcb Hi) as (Hc & i' & Hi' & Hf).
  split; [exact Hc|]. split; [|split].
  - assert (Ha : a < count s) by (by eapply registered_allocated).
    destruct (lookup_lt_is_Some_2 (heap s) a Ha) as [i0 Hi0].
    assert (Hni : ∀ l, in_turn a l → l ≠ LIncrFrame a).
    { intros l [Hl|[Hl|(b & Hb & [Hl|Hl])]] ->; try done. }
    destruct (steps_same_frame _ a _ _ _ Hni (turn_steps a ms s) Hi0) as (i1 & Hi1 & Hf1).
    rewrite Hi in Hi1. injection Hi1 as <-.
    exists i0, i'. fold n in Hf. rewrite <- Hf1. done.
  - intros sc. apply exec_calls.
  - intros post Hal.
    destruct (run_Held post a cb s Hwf (or_intror Hcb)) as [Hd|Hin]; [|done].
    by destruct (not_alive_destroyed a (run post s)).
Qed.

Lemma frame_callback_every_frame_witness :
  let pre := [Call (Loop 0 (Return false) (Return false))] in
  let cb := client 0 (Return false) in
  let ms := Q2Qc 16 in
  let s := run pre initial in
  let s' := _innerLoop ms s in
  let i := default (advance 0%Qc (set_destroyed true (advance 0%Qc (set_paused true
             (mkInstance 0 0%Qc 0 0%Qc true 0%Qc 0%Qc 0%Qc None true 0)))))
             (heap (turn 0 ms s) !! 0) in
  let n := if advances (info_deltaTime (clock ms s)) i then 1 else 0 in
  (cb ∈ callbacks KFrame 0 s ∧ heap (turn 0 ms s) !! 0 = Some i) ∧
  (calls KFrame 0 (cb_id cb) s' = calls KFrame 0 (cb_id cb) s + n ∧
   (∃ i0 i', heap s !! 0 = Some i0 ∧ frame i = frame i0 ∧
             heap s' !! 0 = Some i' ∧ frame i' = frame i0 + n) ∧
   (∀ sc, calls KFrame 0 (cb_id cb) (do_step (Call sc) s) = calls KFrame 0 (cb_id cb) s) ∧
   (∀ post, alive 0 (run post s) → cb ∈ callbacks KFrame 0 (run post s))).
Proof.
  intros pre cb ms s s' i n.
  assert (Hcb : cb ∈ callbacks KFrame 0 s) by (vm_compute; left).
  assert (Hi : heap (turn 0 ms s) !! 0 = Some i) by (vm_compute; reflexivity).
  split; [exact (conj Hcb Hi)|].
  exact (frame_callback_every_frame pre 0 cb ms i Hcb Hi).
Defined.

(** ** The end of an instance: completion and [BREAK] *)

(** Whether the client function [sc] returns [BREAK]. *)
Fixpoint returns_BREAK (sc : script) : bool :=
  match sc with
  | Return brk => brk
  | Destroy _ k | SetPaused _ _ k | SetTimeScale _ _ k
  | WaitDestroy _ k | WaitCompletion _ k | NextFrame _ k
  | LoopCancelTarget _ k | DuringNoCallback _ k | DuringWithTargetNoCallback _ _ k
  | DuringCancelTarget _ k | Wait _ k
  | OnFrame _ _ _ k | OnComplete _ _ _ k | OnDestroy _ _ _ k
  | Loop _ _ k | LoopWithTarget _ _ _ k | During _ _ _ k
  | DuringWithTarget _ _ _ _ k => returns_BREAK k
  end.

(** Whether a stored callback returns [BREAK]: a resolver of a promise
    and the closure of [AnimationMap.set] return [undefined]. *)
Definition breaks (cb : callback) : bool :=
  match cb_code cb with Run body => returns_BREAK body | _ => false end.

Lemma exec_result sc : ∀ self last s, (exec sc self last s).2 = returns_BREAK sc.
Proof.
  induction sc; intros self last s; unfold exec; fold exec; cbn [returns_BREAK];
    repeat match goal with |- context [let '(_, _) := ?x in _] => destruct x end;
    try done.
Qed.

Lemma invoke_result k cb a s : (invoke k cb a s).2 = breaks cb.
Proof.
  unfold invoke, breaks. destruct (cb_code cb) as [body| |w t b]; [|done..].
  apply exec_result.
Qed.

Lemma iterate_done fuel k a : ∀ i s, (iterate fuel k a i true s).2 = true.
Proof.
  induction fuel as [|fuel IH]; intros i s; cbn [iterate]; [done|].
  destruct (callbacks k a s !! i) as [cb|]; [|done].
  destruct (invoke k cb a s) as [s1 r]. rewrite orb_true_r. apply IH.
Qed.

Lemma iterate_detached_done k l a : ∀ s, (iterate_detached k l a true s).2 = true.
Proof.
  induction l as [|cb l IH]; intros s; cbn [iterate_detached]; [done|].
  destruct (invoke k cb a s) as [s1 r]. rewrite orb_true_r. apply IH.
Qed.

(** The loop remembers a [BREAK] of any callback it reaches. *)
Lemma iterate_break fuel k a cb : ∀ i j brk s,
  a < count s → set_size (drop i (callbacks k a s)) ≤ fuel →
  callbacks k a s !! j = Some cb → i ≤ j → breaks cb = true →
  (iterate fuel k a i brk s).2 = true.
Proof.
  induction fuel as [|fuel IH]; intros i j brk s Ha Hsz Hj Hij Hb.
  - assert (Hnil : drop i (callbacks k a s) = []) by (apply set_size_0; lia).
    apply (f_equal length) in Hnil. rewrite length_drop in Hnil. simpl in Hnil.
    apply lookup_lt_Some in Hj. lia.
  - cbn [iterate]. destruct (callbacks k a s !! i) as [cb'|] eqn:Hi.
    2:{ apply lookup_ge_None in Hi. apply lookup_lt_Some in Hj. lia. }
    pose proof (invoke_load k a k cb' a s Ha) as Hload.
    pose proof (invoke_callbacks_prefix k cb' a s k a Ha) as Hpre.
    pose proof (invoke_steps k cb' a s Ha) as Hst.
    pose proof (invoke_result k cb' a s) as Hr.
    destruct (invoke k cb' a s) as [s1 r]. cbn [fst snd] in Hload, Hpre, Hst, Hr.
    assert (Ha1 : a < count s1) by (apply steps_count in Hst; lia).
    destruct (decide (i = j)) as [->|Hne].
    + assert (cb' = cb) as -> by congruence. rewrite Hr, Hb. apply iterate_done.
    + apply (IH (S i) j); [done| |by eapply prefix_lookup_Some|lia|done].
      destruct Hpre as [added Hadd]. unfold load in Hload.
      rewrite Hadd, set_size_app in Hload.
      rewrite Hadd, drop_app_le by (apply lookup_lt_Some in Hi; lia).
      rewrite set_size_app. rewrite (set_size_drop_lookup _ _ _ Hi) in Hsz. lia.
Qed.

(** [updateAnimation] destroys the instance when one of its frame
    callbacks returns [BREAK]. *)
Lemma finish_break a s cb :
  a < count s → (0 ≤ time_of a s)%Qc → cb ∈ callbacks KFrame a s → breaks cb = true →
  is_destroyed a (finish a s).
Proof.
  intros Ha Ht Hcb Hb. rewrite finish_phases, bool_decide_eq_true_2 by done. cbn zeta.
  pose proof (frame_phase_steps a s Ha) as Hst1.
  assert (Hd1 : (frame_phase a s).2 = true).
  { unfold frame_phase.
    set (s0 := modify a incr_frame (emit (EvFrame a) s)).
    apply list_elem_of_lookup_1 in Hcb as [j Hj].
    apply (iterate_break _ KFrame a cb 0 j);
      [unfold s0; by rewrite count_modify|by rewrite drop_0|exact Hj|lia|done]. }
  set (p1 := frame_phase a s) in *.
  assert (Ha1 : a < count p1.1) by (apply steps_count in Hst1; lia).
  pose proof (nextFrame_phase_steps a p1 Ha1) as Hst2.
  assert (Hd2 : (nextFrame_phase a p1).2 = true).
  { unfold nextFrame_phase.
    destruct (CallbackMap_getAndDelete a (nextFrameCallbacks p1.1)) as [set m].
    rewrite Hd1. apply iterate_detached_done. }
  set (p2 := nextFrame_phase a p1) in *.
  assert (Ha2 : a < count p2.1) by (apply steps_count in Hst2; lia).
  pose proof (complete_phase_steps a p2.1 Ha2) as Hst3.
  unfold destroy_phase. rewrite Hd2. cbn [orb].
  apply is_destroyed_destroy. apply steps_count in Hst3. lia.
Qed.

Lemma frame_phase_keeps a k a' l : in_frame_phase a l → l ≠ LUnregister k a'.
Proof. intros [[Hl|Hl]|[Hl|Hl]] ->; done. Qed.

Lemma nextFrame_phase_keeps a k a' l :
  in_nextFrame_phase a l → k ≠ KNextFrame → l ≠ LUnregister k a'.
Proof. intros [[Hl|Hl]|Hl] Hk ->; try done. congruence. Qed.

(** When the instance is complete after its advance, [updateAnimation]
    calls every completion callback that is registered when it starts,
    once. *)
Lemma finish_complete_callback a s i cb :
  WF s → heap s !! a = Some i → (0 ≤ time i)%Qc → complete i = true →
  cb ∈ callbacks KComplete a s →
  calls KComplete a (cb_id cb) (finish a s) = calls KComplete a (cb_id cb) s + 1.
Proof.
  intros Hwf Hi Ht Hc Hcb.
  assert (Ha : a < count s) by (by apply lookup_lt_Some in Hi).
  rewrite finish_phases, (time_of_heap _ _ _ Hi), bool_decide_eq_true_2 by done. cbn zeta.
  pose proof (frame_phase_steps a s Ha) as Hst1.
  set (p1 := frame_phase a s) in *.
  assert (Ha1 : a < count p1.1) by (apply steps_count in Hst1; lia).
  pose proof (nextFrame_phase_steps a p1 Ha1) as Hst2.
  set (p2 := nextFrame_phase a p1) in *.
  assert (Ha2 : a < count p2.1) by (apply steps_count in Hst2; lia).
  assert (Hwf2 : WF p2.1) by (eapply steps_WF; [exact Hst2|]; by eapply steps_WF).
  destruct (steps_same_time _ a _ _ i (not_LAdvance_frame_phase a a) Hst1 Hi)
    as (i1 & Hi1 & Hs1).
  destruct (steps_same_time _ a _ _ i1 (not_LAdvance_nextFrame_phase a a) Hst2 Hi1)
    as (i2 & Hi2 & Hs2).
  assert (Hc2 : is_complete a p2.1 = true).
  { rewrite (is_complete_heap _ _ _ Hi2).
    by rewrite (same_time_complete _ _ Hs2), (same_time_complete _ _ Hs1). }
  assert (Hcalls2 : calls KComplete a (cb_id cb) p2.1 = calls KComplete a (cb_id cb) s).
  { rewrite (steps_calls _ _ _ _ _ _ (not_complete_call_nextFrame_phase a a (cb_id cb)) Hst2).
    apply (steps_calls _ _ _ _ _ _ (not_complete_call_frame_phase a a (cb_id cb)) Hst1). }
  assert (Hcb2 : cb ∈ callbacks KComplete a p2.1).
  { destruct (steps_callbacks_prefix _ _ _ KComplete a
                (frame_phase_keeps a KComplete a) Hst1) as [k1 Hk1].
    destruct (steps_callbacks_prefix _ _ _ KComplete a
                (λ l Hl, nextFrame_phase_keeps a KComplete a l Hl ltac:(done)) Hst2)
      as [k2 Hk2].
    rewrite Hk2, Hk1, !elem_of_app. auto. }
  assert (Hd : ∀ l, LDestroy a = l → l ≠ LEmit (EvCall KComplete a (cb_id cb))).
  { by intros l <-. }
  rewrite (steps_calls _ _ _ _ _ _ Hd (destroy_phase_steps a p2.2 (complete_phase a p2.1))).
  unfold complete_phase. rewrite Hc2.
  assert (Hsz : set_size (drop 0 (callbacks KComplete a p2.1))
                ≤ set_size (callbacks KComplete a p2.1)) by (by rewrite drop_0).
  pose proof (iterate_all _ KComplete a 0 false p2.1 Ha2 Hsz (cb_id cb)) as Hall.
  pose proof (iterate_calls (set_size (callbacks KComplete a p2.1)) KComplete a 0 false
                p2.1 Ha2) as [Hpre _].
  pose proof (iterate_steps (set_size (callbacks KComplete a p2.1)) KComplete a 0 false
                p2.1 Ha2) as Hst3.
  set (s3 := (iterate (set_size (callbacks KComplete a p2.1)) KComplete a 0 false p2.1).1) in *.
  cbn zeta in Hall. rewrite drop_0 in Hall. rewrite Hall, Hcalls2.
  assert (Hwf3 : WF s3) by (by eapply steps_WF).
  assert (Hcb3 : cb ∈ callbacks KComplete a s3).
  { destruct Hpre as [added ->]. apply elem_of_app. by left. }
  by rewrite (occurrences_NoDup_in _ _ (wf_callbacks _ Hwf3 KComplete a))
    by (by apply list_elem_of_fmap_2).
Qed.

(** One turn of the first loop that advances the instance: what ends
    it. *)
Lemma visit_ends a s i :
  WF s → heap s !! a = Some i → advances (info_deltaTime s) i = true →
  (complete (advance (info_deltaTime s) i) = true →
   is_destroyed a (visit a s) ∧
   ∀ cb, cb ∈ callbacks KComplete a s →
     calls KComplete a (cb_id cb) (visit a s) = calls KComplete a (cb_id cb) s + 1) ∧
  (∀ cb, cb ∈ callbacks KFrame a s → breaks cb = true → is_destroyed a (visit a s)).
Proof.
  intros Hwf Hi. unfold advances, visit. rewrite Hi. fold (runs i).
  assert (Ha : a < count s) by (by apply lookup_lt_Some in Hi).
  destruct (runs i); cbn [andb]; [|done]. intros Hadv%bool_decide_eq_true.
  rewrite updateAnimation_finish.
  set (s1 := modify a _ _).
  assert (H1 : heap s1 !! a = Some (advance (info_deltaTime s) i)).
  { unfold s1. rewrite heap_modify, decide_True by done. simpl. by rewrite Hi. }
  assert (Ht1 : time_of a s1 = (time i + info_deltaTime s * timeScale i)%Qc).
  { by rewrite (time_of_heap _ _ _ H1). }
  assert (Hwf1 : WF s1).
  { eapply steps_WF; [|exact Hwf]. eapply steps_trans.
    - eapply (steps_one (λ _, True) (LEmit (EvUpdate a))); [done|by constructor].
    - eapply (steps_one (λ _, True) (LAdvance a)); [done|constructor]. }
  assert (Ha1 : a < count s1) by (by apply lookup_lt_Some in H1).
  split.
  - intros Hc. split.
    + destruct (finish_complete a s1 _ Hwf1 H1) as (_ & _ & Hd & _). by apply Hd.
    + intros cb Hcb. by rewrite (finish_complete_callback a s1 _ cb Hwf1 H1).
  - intros cb Hcb Hb. apply (finish_break a s1 cb); [done|by rewrite Ht1|done|done].
Qed.

(** An instance that is destroyed when a frame ends has been through
    [destroyAnimation]: the "on destroy" callbacks it had when the frame
    started have been called, once each, and it has no entry left in the
    registries of the frame, next-frame and "on destroy" callbacks. *)
Lemma frame_destroyed_applied ms s a :
  Settled s → is_destroyed a (_innerLoop ms s) →
  (∀ k, k ≠ KComplete → registry (_innerLoop ms s) k !! a = None) ∧
  ∀ cb, cb ∈ callbacks KDestroy a s → calls KDestroy a (cb_id cb) (_innerLoop ms s) = 1.
Proof.
  intros HS Hd. pose proof (frame_Settled ms s HS) as HS'.
  assert (Hq : a ∉ drop 0 (destroyedAnimations (_innerLoop ms s))).
  { rewrite frame_empties_queue. by intros ?%elem_of_nil. }
  split.
  - intros k Hk. by apply (q_done 0 _ (st_Queue _ HS') a k Hd Hq Hk).
  - intros cb Hcb.
    assert (HT : Tracked a (cb_id cb) s) by (left; by apply list_elem_of_fmap_2).
    destruct (frame_Tracked ms s a (cb_id cb) HS HT) as [Hin|Hc]; [|done].
    unfold callbacks in Hin.
    rewrite (q_done 0 _ (st_Queue _ HS') a KDestroy Hd Hq) in Hin by done.
    by apply elem_of_nil in Hin.
Qed.

(** A frame that advances [a]. *)
Lemma frame_ends ms s a i :
  Settled s → a < count s → heap (turn a ms s) !! a = Some i →
  advances (info_deltaTime (clock ms s)) i = true →
  let s' := _innerLoop ms s in
  let i1 := advance (info_deltaTime (clock ms s)) i in
  alive a s ∧
  (complete i1 = true →
   is_destroyed a s' ∧
   ∀ cb, cb ∈ callbacks KComplete a s →
     calls KComplete a (cb_id cb) s' = calls KComplete a (cb_id cb) s + 1) ∧
  (∀ cb, cb ∈ callbacks KFrame a s → breaks cb = true → is_destroyed a s').
Proof.
  intros HS Ha Hi Hadv s' i1. pose proof (st_WF _ HS) as Hwf.
  assert (Hwf1 : WF (turn a ms s)) by (eapply steps_WF; [apply turn_steps|done]).
  assert (Hal : alive a s).
  { destruct (allocated_cases a s Ha) as [?|Hd]; [done|].
    pose proof (steps_is_destroyed _ a _ _ (turn_steps a ms s) Hd) as (j & Hj & Hdj).
    rewrite Hi in Hj. injection Hj as <-.
    unfold advances, runs in Hadv. rewrite Hdj in Hadv. done. }
  assert (Hin : a ∈ animations s) by (apply alive_in_animations; [done|apply HS|done]).
  destruct (frame_split a ms s (wf_animations s Hwf) Hin) as (post & Hpost & _ & Heq).
  assert (Hdt : info_deltaTime (turn a ms s) = info_deltaTime (clock ms s)).
  { unfold turn.
    rewrite (steps_clock in_mainLoop _ _) with (2 := mainLoop_steps _ _); [done|].
    intros l (b & [?|?]) ->; done. }
  assert (Hrest : steps (λ _, True) (visit a (turn a ms s)) s').
  { unfold s'. rewrite Heq. eapply steps_trans.
    - eapply steps_mono; [|apply mainLoop_steps]. done.
    - eapply steps_mono; [|apply after_loop_steps]; [done|].
      eapply steps_WF; [apply mainLoop_steps|]. eapply steps_WF; [apply visit_steps|done]. }
  destruct (visit_ends a (turn a ms s) i Hwf1 Hi) as [Hcomp Hbrk]; [by rewrite Hdt|].
  rewrite Hdt in Hcomp.
  assert (Hkeep : ∀ k cb, k ≠ KNextFrame → cb ∈ callbacks k a s →
                          cb ∈ callbacks k a (turn a ms s)).
  { intros k cb Hk Hcb.
    destruct (steps_callbacks_prefix (in_turn a) s (turn a ms s) k a) as [more ->];
      [|apply turn_steps|apply elem_of_app; auto].
    intros l Hl ->. destruct Hl as [Hl|[Hl|(b & Hb & [Hl|Hl])]]; try done.
    simpl in Hl. by destruct k. }
  split; [done|]. split.
  - intros Hc. destruct (Hcomp Hc) as [Hd Hcalls]. split.
    + by eapply steps_is_destroyed.
    + intros cb Hcb.
      destruct (frame_calls_member ms s a KComplete (cb_id cb) post Hwf ltac:(done) Hpost Heq)
        as [Hc1 Hc2].
      unfold s'. rewrite Hc2, Hcalls, Hc1; [done|]. by apply Hkeep.
  - intros cb Hcb Hb. eapply steps_is_destroyed; [exact Hrest|].
    apply (Hbrk cb); [|done]. by apply Hkeep.
Qed.

(** The frame that advances an instance to a time that is not negative
    and not less than its duration ends it: when the frame is over the
    instance is destroyed, every completion callback it had when the frame
    started has been called, for the first and only time, every "on
    destroy" callback it had then has been called once, and its entries in
    the registries of frame, next-frame and "on destroy" callbacks are
    gone. *)
Theorem completion_ends_instance (pre : list step) (a : nat) (ms : Qc)
    (i : AnimationInstance) :
  let s := run pre initial in
  let s' := _innerLoop ms s in
  a < count s →
  heap (turn a ms s) !! a = Some i →
  advances (info_deltaTime (clock ms s)) i = true →
  complete (advance (info_deltaTime (clock ms s)) i) = true →
  is_destroyed a s' ∧
  (∀ cb, cb ∈ callbacks KComplete a s →
         calls KComplete a (cb_id cb) s = 0 ∧ calls KComplete a (cb_id cb) s' = 1) ∧
  (∀ cb, cb ∈ callbacks KDestroy a s → calls KDestroy a (cb_id cb) s' = 1) ∧
  (∀ k, k ≠ KComplete → registry s' k !! a = None).
Proof.
  intros s s' Ha Hi Hadv Hc.
  assert (HS : Settled s) by (apply reachable_Settled; by exists pre).
  destruct (frame_ends ms s a i HS Ha Hi Hadv) as (Hal & Hcomp & _).
  destruct (Hcomp Hc) as [Hd Hcalls].
  destruct (frame_destroyed_applied ms s a HS Hd) as [Hreg Hfired].
  split; [done|]. split; [|by split].
  intros cb Hcb.
  assert (H0 : calls KComplete a (cb_id cb) s = 0).
  { destruct (reachable_Completed s (ex_intro _ pre eq_refl) a (cb_id cb)) as [?|[_ Hd0]];
      [done|]. by destruct (not_alive_destroyed a s). }
  split; [done|]. unfold s'. rewrite (Hcalls cb Hcb), H0. done.
Qed.

Lemma completion_ends_instance_witness :
  let pre := [Call (During (TimingNumber (Some (Q2Qc 1))) 0 (Return false)
                      (OnComplete Last 5 (Return false)
                         (OnDestroy Last 6 (Return false) (Return false))))] in
  let ms := Q2Qc 2000 in
  let s := run pre initial in
  let s' := _innerLoop ms s in
  let i := default (advance 0%Qc (set_destroyed true (advance 0%Qc (set_paused true
             (mkInstance 0 0%Qc 0 0%Qc true 0%Qc 0%Qc 0%Qc None true 0)))))
             (heap (turn 0 ms s) !! 0) in
  (0 < count s ∧ heap (turn 0 ms s) !! 0 = Some i ∧
   advances (info_deltaTime (clock ms s)) i = true ∧
   complete (advance (info_deltaTime (clock ms s)) i) = true) ∧
  (is_destroyed 0 s' ∧
   (∀ cb, cb ∈ callbacks KComplete 0 s →
          calls KComplete 0 (cb_id cb) s = 0 ∧ calls KComplete 0 (cb_id cb) s' = 1) ∧
   (∀ cb, cb ∈ callbacks KDestroy 0 s → calls KDestroy 0 (cb_id cb) s' = 1) ∧
   (∀ k, k ≠ KComplete → registry s' k !! 0 = None)).
Proof.
  intros pre ms s s' i.
  assert (Ha : 0 < count s) by (vm_compute; lia).
  assert (Hi : heap (turn 0 ms s) !! 0 = Some i) by (vm_compute; reflexivity).
  assert (Hadv : advances (info_deltaTime (clock ms s)) i = true) by (vm_compute; reflexivity).
  assert (Hc : complete (advance (info_deltaTime (clock ms s)) i) = true)
    by (vm_compute; reflexivity).
  split; [exact (conj Ha (conj Hi (conj Hadv Hc)))|].
  exact (completion_ends_instance pre 0 ms i Ha Hi Hadv Hc).
Defined.

(** A frame callback that returns [BREAK] ends its instance: when the
    frame that called it is over, the instance is destroyed, every "on
    destroy" callback it had when the frame started has been called once,
    its entries in the registries of frame, next-frame and "on destroy"
    callbacks are gone, and no frame callback of it is called again. *)
Theorem BREAK_ends_instance (pre : list step) (a : nat) (cb : callback) (ms : Qc)
    (i : AnimationInstance) :
  let s := run pre initial in
  let s' := _innerLoop ms s in
  cb ∈ callbacks KFrame a s →
  breaks cb = true →
  heap (turn a ms s) !! a = Some i →
  advances (info_deltaTime (clock ms s)) i = true →
  calls KFrame a (cb_id cb) s' = calls KFrame a (cb_id cb) s + 1 ∧
  is_destroyed a s' ∧
  (∀ d, d ∈ callbacks KDestroy a s → calls KDestroy a (cb_id d) s' = 1) ∧
  (∀ k, k ≠ KComplete → registry s' k !! a = None) ∧
  (∀ post c, calls KFrame a c (run post s') = calls KFrame a c s').
Proof.
  intros s s' Hcb Hb Hi Hadv.
  assert (HS : Settled s) by (apply reachable_Settled; by exists pre).
  pose proof (st_WF _ HS) as Hwf.
  assert (Ha : a < count s) by (by eapply registered_allocated).
  destruct (frame_ends ms s a i HS Ha Hi Hadv) as (Hal & _ & Hbrk).
  pose proof (Hbrk cb Hcb Hb) as Hd.
  destruct (frame_destroyed_applied ms s a HS Hd) as [Hreg Hfired].
  destruct (frame_frame_callback ms s a cb i HS Hcb Hi) as [Hc _].
  rewrite Hadv in Hc.
  split; [exact Hc|]. split; [done|]. split; [done|]. split; [done|].
  intros post c. apply run_calls_destroyed; [|done|done].
  eapply steps_WF; [by apply _innerLoop_steps|done].
Qed.

Lemma BREAK_ends_instance_witness :
  let pre := [Call (Loop 0 (Return true) (OnDestroy Last 6 (Return false) (Return false)))] in
  let cb := client 0 (Return true) in
  let ms := Q2Qc 16 in
  let s := run pre initial in
  let s' := _innerLoop ms s in
  let i := default (advance 0%Qc (set_destroyed true (advance 0%Qc (set_paused true
             (mkInstance 0 0%Qc 0 0%Qc true 0%Qc 0%Qc 0%Qc None true 0)))))
             (heap (turn 0 ms s) !! 0) in
  (cb ∈ callbacks KFrame 0 s ∧ breaks cb = true ∧ heap (turn 0 ms s) !! 0 = Some i ∧
   advances (info_deltaTime (clock ms s)) i = true) ∧
  (calls KFrame 0 (cb_id cb) s' = calls KFrame 0 (cb_id cb) s + 1 ∧
   is_destroyed 0 s' ∧
   (∀ d, d ∈ callbacks KDestroy 0 s → calls KDestroy 0 (cb_id d) s' = 1) ∧
   (∀ k, k ≠ KComplete → registry s' k !! 0 = None) ∧
   (∀ post c, calls KFrame 0 c (run post s') = calls KFrame 0 c s')).
Proof.
  intros pre cb ms s s' i.
  assert (Hcb : cb ∈ callbacks KFrame 0 s) by (vm_compute; left).
  assert (Hb : breaks cb = true) by reflexivity.
  assert (Hi : heap (turn 0 ms s) !! 0 = Some i) by (vm_compute; reflexivity).
  assert (Hadv : advances (info_deltaTime (clock ms s)) i = true) by (vm_compute; reflexivity).
  split; [exact (conj Hcb (conj Hb (conj Hi Hadv)))|].
  exact (BREAK_ends_instance pre 0 cb ms i Hcb Hb Hi Hadv).
Defined.

(** ** The life of an instance, between two steps of a run *)

(** Whatever the client and the frames have done so far: the scheduler is
    not in the middle of an update; an instance that is live is in the set
    the frames go through, is not queued for destruction, and none of its
    "on destroy" callbacks has been called; an instance in the queue is
    destroyed and its "on destroy" callbacks have not been called yet; an
    instance that is destroyed and not in the queue has no entry left in
    the registries of frame, next-frame and "on destroy" callbacks, and
    nothing can be registered on it any more.  A frame leaves the queue
    empty. *)
Theorem instance_life_cycle (sts : list step) (a : nat) :
  let s := run sts initial in
  updating s = false ∧
  NoDup (animations s) ∧
  (alive a s →
   a ∈ animations s ∧ (a ∉ destroyedAnimations s) ∧ ∀ c, calls KDestroy a c s = 0) ∧
  (a ∈ destroyedAnimations s → is_destroyed a s ∧ ∀ c, calls KDestroy a c s = 0) ∧
  (is_destroyed a s →
   (a ∉ destroyedAnimations s → ∀ k, k ≠ KComplete → registry s k !! a = None) ∧
   (∀ k cb, register k a cb s = s) ∧
   (∀ post, is_destroyed a (run post s))) ∧
  (∀ ms, destroyedAnimations (do_step (Frame ms) s) = []).
Proof.
  intros s.
  assert (HS : Settled s) by (apply reachable_Settled; by exists sts).
  destruct HS as [Hwf [Hu Hn] HQ HF].
  split; [done|]. split; [apply Hwf|]. split; [|split; [|split]].
  - intros Hal. split; [|split].
    + destruct (wf_alive s Hwf a Hal); auto.
    + intros Hq. apply (not_alive_destroyed a s Hal). by apply (wf_queued s Hwf).
    + intros c. by apply (q_alive 0 s HQ).
  - intros Hq. split; [by apply (wf_queued s Hwf)|].
    intros c. apply (q_waiting 0 s HQ). by rewrite drop_0.
  - intros Hd. split; [|split].
    + intros Hq k Hk. apply (q_done 0 s HQ); [done|by rewrite drop_0|done].
    + intros k cb. destruct Hd as (i & Hi & Hdi). unfold register. rewrite Hi.
      destruct cb; [by rewrite Hdi|done].
    + intros post. eapply steps_is_destroyed; [by apply run_steps|done].
  - intros ms. apply frame_empties_queue.
Qed.

(** ** Leaving the live set *)

(** [a] is out of the two sets the frames read, for good. *)
Definition Out (a : nat) (s : State) : Prop :=
  a < count s ∧ (a ∉ animations s) ∧ (a ∉ newAnimations s).

Lemma atomic_not_new l s s' a :
  atomic l s s' → a < count s → a ∉ newAnimations s → a ∉ newAnimations s'.
Proof.
  intros Hat Ha Hn. destruct (atomic_newAnimations _ _ _ Hat) as [->|(_ & _ & ->)]; [done|].
  rewrite elem_of_set_add. intros [?|?]; [done|lia].
Qed.

Lemma atomic_animations_sub l s s' a :
  atomic l s s' → a < count s → a ∉ newAnimations s → a ∈ animations s' → a ∈ animations s.
Proof.
  intros Hat Ha Hn.
  destruct (atomic_animations _ _ _ Hat) as [->|[(_ & _ & ->)|[(b & _ & ->)|(_ & ->)]]].
  - done.
  - rewrite elem_of_set_add. intros [?|?]; [done|lia].
  - rewrite elem_of_set_delete. tauto.
  - rewrite elem_of_merge. tauto.
Qed.

Lemma atomic_Out l s s' a : atomic l s s' → Out a s → Out a s'.
Proof.
  intros Hat (Ha & Hl & Hn). split; [|split].
  - apply atomic_count in Hat. lia.
  - intros Hin. apply Hl. by eapply atomic_animations_sub.
  - by eapply atomic_not_new.
Qed.

Lemma steps_Out L s s' a : steps L s s' → Out a s → Out a s'.
Proof.
  induction 1 as [|s1 s2 s3 (l & _ & Hat) _ IH]; [done|].
  intros HO. by eapply IH, atomic_Out.
Qed.

(** [a] was not created during an update, and if it is in the live set
    then it is live, or waits in the queue at position [p] or later. *)
Definition Leaving (p a : nat) (s : State) : Prop :=
  a < count s ∧ (a ∉ newAnimations s) ∧ p ≤ length (destroyedAnimations s) ∧
  (a ∈ animations s → alive a s ∨ a ∈ drop p (destroyedAnimations s)).

Lemma elem_of_drop_prefix {A} (x : A) p l l' : l `prefix_of` l' → x ∈ drop p l → x ∈ drop p l'.
Proof.
  intros [k ->]. destruct (decide (p ≤ length l)) as [Hp|Hp].
  - rewrite drop_app_le by done. rewrite elem_of_app. auto.
  - rewrite drop_ge by lia. by intros ?%elem_of_nil.
Qed.

(** The step that destroys a live instance puts it at the end of the
    queue. *)
Lemma atomic_destroyed_queued l s s' a :
  atomic l s s' → WF s → alive a s → is_destroyed a s' →
  destroyedAnimations s' = destroyedAnimations s ++ [a].
Proof.
  intros Hat Hwf Hal Hd. pose proof Hal as (i & Hi & Hdi).
  destruct (atomic_heap _ _ _ _ _ Hat Hi) as (i' & Hi' & Heff).
  destruct Hd as (j & Hj & Hdj). rewrite Hi' in Hj. injection Hj as <-.
  destruct Heff as [|Hl _|b Hl|x Hl|dt Hl|Hl]; try (simpl in Hdj; congruence).
  subst l. inversion Hat; subst. rewrite (destroy_alive a s Hal). simpl.
  assert (Hnq : a ∉ destroyedAnimations s).
  { intros Hq. apply (not_alive_destroyed a s Hal). by apply (wf_queued s Hwf). }
  unfold set_add. by rewrite bool_decide_eq_false_2.
Qed.

Lemma atomic_Leaving p l s s' a :
  atomic l s s' → WF s → l ≠ LClear → Leaving p a s → Leaving p a s'.
Proof.
  intros Hat Hwf Hc (Ha & Hn & Hp & Hin).
  assert (Hpre : destroyedAnimations s `prefix_of` destroyedAnimations s').
  { destruct (atomic_destroyedAnimations _ _ _ Hat) as [->|[(b & _ & _ & ->)|[? _]]];
      [done|apply set_add_prefix|done]. }
  split; [apply atomic_count in Hat; lia|]. split; [by eapply atomic_not_new|]. split.
  { apply prefix_length in Hpre. lia. }
  intros Hin'. pose proof (atomic_animations_sub _ _ _ _ Hat Ha Hn Hin') as Hin0.
  destruct (Hin Hin0) as [Hal|Hq]; [|right; by eapply elem_of_drop_prefix].
  destruct (allocated_cases a s') as [?|Hd]; [apply atomic_count in Hat; lia|by left|].
  right. rewrite (atomic_destroyed_queued _ _ _ _ Hat Hwf Hal Hd).
  rewrite drop_app_le by done. apply elem_of_app. right. by apply list_elem_of_singleton.
Qed.

Lemma steps_Leaving L p s s' a :
  (∀ l, L l → l ≠ LClear) → steps L s s' → WF s → Leaving p a s → Leaving p a s'.
Proof.
  intros HL. apply (steps_invariant L (Leaving p a)).
  intros l s1 s2 Hl Hat Hwf. apply (atomic_Leaving p l); [done|done|by apply HL].
Qed.

Lemma in_destroy_not_clear b l : in_destroy b l → l ≠ LClear.
Proof. by intros [Hl|Hl] ->. Qed.

Lemma destroyAnimation_Leaving p a b s :
  WF s → Leaving p a s → destroyedAnimations s !! p = Some b →
  Leaving (S p) a (destroyAnimation b s).
Proof.
  intros Hwf HL Hb.
  assert (Hd : is_destroyed b s).
  { apply (wf_queued s Hwf). by eapply list_elem_of_lookup_2. }
  pose proof (destroyAnimation_steps b s Hd) as Hst.
  assert (Hpre : destroyedAnimations s `prefix_of` destroyedAnimations (destroyAnimation b s)).
  { clear -Hst. induction Hst as [|s1 s2 s3 (l & Hl & Hat) _ IH]; [done|].
    etrans; [|exact IH].
    destruct (atomic_destroyedAnimations _ _ _ Hat) as [->|[(c & _ & _ & ->)|[-> _]]];
      [done|apply set_add_prefix|]. by destruct (in_destroy_not_clear _ _ Hl). }
  assert (Hb' : destroyedAnimations (destroyAnimation b s) !! p = Some b).
  { by eapply prefix_lookup_Some. }
  destruct (decide (b = a)) as [->|Hne].
  - assert (HO : Out a (destroyAnimation a s)).
    { rewrite destroyAnimation_cleared.
      assert (HO : Out a (cleared a s)).
      { destruct HL as (Ha & Hn & _). split; [done|]. split; [|done].
        unfold cleared. simpl. rewrite elem_of_set_delete. tauto. }
      eapply steps_Out; [|exact HO].
      apply (iterate_detached_steps KDestroy). apply HO. }
    destruct HO as (Ha & Hl & Hn). split; [done|]. split; [done|]. split; [|done].
    apply lookup_lt_Some in Hb'. lia.
  - destruct (steps_Leaving _ p _ _ a (in_destroy_not_clear b) Hst Hwf HL)
      as (Ha & Hn & Hp & Hin).
    split; [done|]. split; [done|]. split; [apply lookup_lt_Some in Hb'; lia|].
    intros Hin'. destruct (Hin Hin') as [?|Hq]; [by left|right].
    rewrite (drop_S _ _ _ Hb') in Hq. apply elem_of_cons in Hq as [?|?]; [congruence|done].
Qed.

Lemma frame_Leaving ms s a : WF s → Leaving 0 a s → Leaving 0 a (_innerLoop ms s).
Proof.
  intros Hwf HL. rewrite _innerLoop_loops.
  assert (Hwf0 : WF (with_updating true (clock ms s))) by (by apply WF_start).
  set (s1 := mainLoop (animations s) (with_updating true (clock ms s))).
  assert (Hst1 : steps in_mainLoop (with_updating true (clock ms s)) s1)
    by apply mainLoop_steps.
  assert (Hwf1 : WF s1) by (by eapply steps_WF).
  assert (HL1 : Leaving 0 a s1).
  { eapply steps_Leaving; [|exact Hst1|done|exact HL].
    intros l (b & [Hl|Hl]) ->; done. }
  assert (HL2 : Leaving (length (destroyedAnimations (loops ms s))) a (loops ms s)).
  { unfold loops. fold s1.
    apply (destroyLoop_rule (λ p, Leaving p a));
      [|done|done|rewrite (destroy_fuel_pot s1); lia|lia].
    intros p s0 b Hwf0' HL0 Hb. by apply destroyAnimation_Leaving. }
  destruct HL2 as (Ha & Hn & _ & Hin).
  split; [done|]. split; [done|]. split; [simpl; lia|].
  cbn [animations with_updating with_animations]. rewrite elem_of_merge.
  intros [Hin'|Hin']; [|done].
  destruct (Hin Hin') as [Hal|Hq]; [by left|].
  rewrite drop_all in Hq. by apply elem_of_nil in Hq.
Qed.

Lemma run_Leaving sts a : ∀ s, WF s → Leaving 0 a s → Leaving 0 a (run sts s).
Proof.
  induction sts as [|st sts IH]; intros s Hwf HL; [done|]. rewrite run_cons.
  apply IH; [eapply steps_WF; [by apply do_step_steps|done]|].
  destruct st as [ms|sc]; cbn [do_step]; [by apply frame_Leaving|].
  eapply steps_Leaving; [|apply exec_steps|done|done]. by intros l Hl ->.
Qed.

(** An instance that client code creates between two frames. *)
Definition Outside (a : nat) (s : State) : Prop :=
  updating s = false ∧ (a ∉ newAnimations s) ∧
  (a < count s → alive a s ∨ a ∈ destroyedAnimations s).

Lemma atomic_Outside l s s' a :
  atomic l s s' → WF s → from_client l → Outside a s → Outside a s'.
Proof.
  intros Hat Hwf Hl (Hu & Hn & Hin).
  assert (Hu' : updating s' = false).
  { rewrite (atomic_updating _ _ _ Hat); [done|]. by intros ->. }
  destruct (decide (a < count s)) as [Ha|Ha].
  - destruct (atomic_Leaving 0 l s s' a Hat Hwf) as (_ & Hn' & _ & Hin').
    + by intros ->.
    + split; [done|]. split; [done|]. split; [lia|]. intros _.
      rewrite drop_0. by apply Hin.
    + split; [done|]. split; [done|]. intros Ha'.
      destruct (allocated_cases a s' Ha') as [?|Hd]; [by left|right].
      destruct (Hin Ha) as [Hal|Hq].
      * rewrite (atomic_destroyed_queued _ _ _ _ Hat Hwf Hal Hd).
        apply elem_of_app. right. by apply list_elem_of_singleton.
      * destruct (atomic_destroyedAnimations _ _ _ Hat) as [->|[(b & _ & _ & ->)|[-> _]]];
          [done|apply elem_of_set_add; by left|done].
  - split; [done|]. split.
    + destruct (atomic_newAnimations _ _ _ Hat) as [->|(_ & ? & _)]; [done|congruence].
    + intros Ha'. left.
      assert (Hnone : heap s !! a = None) by (apply lookup_ge_None; unfold count in Ha; lia).
      destruct (lookup_lt_is_Some_2 (heap s') a Ha') as [i' Hi'].
      destruct (atomic_created _ _ _ _ _ Hat Hnone Hi') as (_ & _ & _ & Hd).
      by exists i'.
Qed.

Lemma call_Leaving sc s a :
  WF s → Boundary s → count s ≤ a < count (do_step (Call sc) s) →
  Leaving 0 a (do_step (Call sc) s).
Proof.
  intros Hwf [Hu Hnew] [Ha Ha'].
  assert (HO : Outside a s).
  { split; [done|]. split; [|lia]. intros Hin.
    pose proof (wf_members s Hwf a (or_intror Hin)). lia. }
  assert (HO' : Outside a (do_step (Call sc) s)).
  { revert HO. apply (steps_invariant from_client (Outside a)); [|apply exec_steps|done].
    intros l s1 s2 Hl Hat Hwf1. by apply (atomic_Outside l). }
  destruct HO' as (_ & Hn & Hin).
  split; [done|]. split; [done|]. split; [lia|]. intros _. rewrite drop_0. by apply Hin.
Qed.

(** An instance that client code creates between two frames is never put
    into [newAnimations]; once it is destroyed, the next frame takes it
    out of [animations], and it does not come back. *)
Theorem destroyed_leaves_live_set (pre mid post : list step) (sc : script) (ms : Qc)
    (a : nat) :
  let s := run pre initial in
  let s1 := do_step (Call sc) s in
  let s2 := run mid s1 in
  let s3 := run (Frame ms :: post) s2 in
  count s ≤ a < count s1 →
  is_destroyed a s2 →
  (a ∉ newAnimations s2) ∧ (a ∉ animations s3) ∧ (a ∉ newAnimations s3) ∧
  is_destroyed a s3.
Proof.
  intros s s1 s2 s3 Ha Hd.
  assert (Hwf : WF s) by (apply reachable_WF; by exists pre).
  assert (HB : Boundary s) by (apply reachable_Boundary; by exists pre).
  assert (Hwf1 : WF s1) by (eapply steps_WF; [by apply do_step_steps|done]).
  assert (Hwf2 : WF s2) by (eapply steps_WF; [by apply run_steps|done]).
  pose proof (call_Leaving sc s a Hwf HB Ha) as HL1.
  pose proof (run_Leaving mid a s1 Hwf1 HL1) as HL2.
  pose proof (frame_Leaving ms s2 a Hwf2 HL2) as (Ha3 & Hn3 & _ & Hin3).
  assert (Hwf3 : WF (_innerLoop ms s2)) by (eapply steps_WF; [by apply _innerLoop_steps|done]).
  assert (Hd3 : is_destroyed a (_innerLoop ms s2)).
  { eapply steps_is_destroyed; [by apply _innerLoop_steps|done]. }
  assert (HO : Out a (_innerLoop ms s2)).
  { split; [done|]. split; [|done]. intros Hin. destruct (Hin3 Hin) as [Hal|Hq].
    - by apply (not_alive_destroyed a (_innerLoop ms s2)).
    - rewrite frame_empties_queue in Hq. by apply elem_of_nil in Hq. }
  destruct (steps_Out _ _ _ a (run_steps post _ Hwf3) HO) as (_ & Hl & Hn).
  split; [apply HL2|]. split; [exact Hl|]. split; [exact Hn|].
  eapply steps_is_destroyed; [apply (run_steps post _ Hwf3)|done].
Qed.

Lemma destroyed_leaves_live_set_witness :
  let pre := [] in
  let sc := Loop 0 (Return false) (Return false) in
  let mid := [Call (Destroy (Inst 0) (Return false))] in
  let ms := Q2Qc 16 in
  let s := run pre initial in
  let s1 := do_step (Call sc) s in
  let s2 := run mid s1 in
  let s3 := run [Frame ms] s2 in
  (count s ≤ 0 < count s1 ∧ is_destroyed 0 s2) ∧
  ((0 ∉ newAnimations s2) ∧ (0 ∉ animations s3) ∧ (0 ∉ newAnimations s3) ∧
   is_destroyed 0 s3).
Proof.
  intros pre sc mid ms s s1 s2 s3.
  assert (Ha : count s ≤ 0 < count s1) by (vm_compute; lia).
  assert (Hd : is_destroyed 0 s2).
  { eexists. split; [vm_compute; reflexivity|reflexivity]. }
  split; [exact (conj Ha Hd)|].
  exact (destroyed_leaves_live_set pre mid [] sc ms 0 Ha Hd).
Defined.

(** ** The targets of [loopWithTarget] *)

(** The set [l] holds a closure that [AnimationMap.set] made for the entry
    [T ↦ B] of the map [w]. *)
Definition has_cleanup (w : which) (T B : nat) (l : list callback) : Prop :=
  ∃ cb, cb ∈ l ∧ cb_code cb = MapCleanup w T B.

(** Every entry [T ↦ B] of [loopMap] is covered by a cleanup closure:
    one that is registered as an "on destroy" callback of [B], or one that
    is still to come in the set [l] that [destroyAnimation(B)] is going
    through ([x = Some (B, l)]). *)
Definition Covered (x : option (nat * list callback)) (s : State) : Prop :=
  ∀ T B, targets s LoopMap !! T = Some B →
    B < count s ∧
    (has_cleanup LoopMap T B (callbacks KDestroy B s) ∨
     ∃ l, x = Some (B, l) ∧ has_cleanup LoopMap T B l).

Lemma Covered_initial : Covered None initial.
Proof. intros T B. cbn. by rewrite lookup_empty. Qed.

Lemma has_cleanup_mono w T B l l' :
  (∀ cb, cb ∈ l → cb ∈ l') → has_cleanup w T B l → has_cleanup w T B l'.
Proof. intros Hl (cb & Hin & Hcode). exists cb. auto. Qed.

(** A step that keeps [loopMap] and removes no "on destroy" callback. *)
Lemma Covered_ext x s s' :
  targets s' LoopMap = targets s LoopMap → count s ≤ count s' →
  (∀ B cb, cb ∈ callbacks KDestroy B s → cb ∈ callbacks KDestroy B s') →
  Covered x s → Covered x s'.
Proof.
  intros Ht Hc Hcb HC T B. rewrite Ht. intros HT.
  destruct (HC T B HT) as [Hlt [Hreg|Hx]].
  - split; [lia|]. left. eapply has_cleanup_mono; [apply Hcb|done].
  - split; [lia|]. by right.
Qed.

Lemma Covered_same x s s' :
  targets s' = targets s → heap s' = heap s → registry s' = registry s →
  Covered x s → Covered x s'.
Proof.
  intros Ht Hh Hr. apply Covered_ext; [by rewrite Ht|unfold count; rewrite Hh; lia|].
  intros B cb. by rewrite (callbacks_ext KDestroy B s s' Hr).
Qed.

Lemma Covered_destroy x a s : Covered x s → Covered x (destroy a s).
Proof.
  destruct (destroy_others a s) as (Hr & _ & _ & _ & _ & _ & Ht & _).
  apply Covered_ext; [by rewrite Ht|apply (steps_count _ _ _ (destroy_steps a s))|].
  intros B cb. by rewrite (callbacks_ext KDestroy B s (destroy a s) Hr).
Qed.

Lemma Covered_modify x a f s : Covered x s → Covered x (modify a f s).
Proof. apply Covered_ext; [done|rewrite count_modify; lia|auto]. Qed.

Lemma cbset_add_keeps cb cb' l : cb' ∈ l → cb' ∈ cbset_add cb l.
Proof.
  intros Hin. destruct (cbset_add_prefix cb l) as [k ->]. apply elem_of_app. by left.
Qed.

Lemma Covered_add x k a cb s :
  Covered x s → Covered x (with_registry k (CallbackMap_add a cb (registry s k)) s).
Proof.
  apply Covered_ext; [done|reflexivity|].
  intros B cb' Hin. rewrite callbacks_add. case_decide as Hk; [|done].
  destruct Hk as [<- ->]. by apply cbset_add_keeps.
Qed.

Lemma Covered_register x k a cb s : Covered x s → Covered x (register k a cb s).
Proof.
  intros HC. destruct cb as [cb|]; [|by rewrite register_None].
  destruct (alive_dec a s) as [Hal|Hal].
  - rewrite register_alive by done. by apply Covered_add.
  - by rewrite register_not_alive.
Qed.

Lemma Covered_promise x k a s : Covered x s → Covered x (promise k a s).1.
Proof.
  intros HC. unfold promise. cbn [fst].
  apply (Covered_add x k a _ (with_closures (S (closures s)) s)).
  by apply (Covered_same x s).
Qed.

Lemma Covered_wait x (f : nat → State → State * option nat) a s :
  f = waitDestroy ∨ f = waitCompletion ∨ f = nextFrame → Covered x s → Covered x (f a s).1.
Proof.
  intros [-> | [-> | ->]] HC; unfold waitDestroy, waitCompletion, nextFrame;
    destruct (heap s !! a) as [i|]; try done;
    repeat case_match; try done; by apply Covered_promise.
Qed.

Lemma Covered_allocate x s : Covered x s → Covered x (allocate s).
Proof. apply Covered_ext; [done|rewrite count_allocate; lia|auto]. Qed.

Lemma Covered_addAnimation x a s : Covered x s → Covered x (addAnimation a s).
Proof.
  destruct (addAnimation_others a s) as (Hh & Hr & _ & _ & _ & _ & Ht & _).
  by apply Covered_same.
Qed.

Lemma Covered_new x cb s : Covered x s → Covered x (new_AnimationInstance cb s).1.
Proof.
  intros HC. rewrite new_AnimationInstance_fst. apply Covered_addAnimation.
  destruct cb as [c|]; [|by apply Covered_allocate].
  apply Covered_add. by apply Covered_allocate.
Qed.

Lemma Covered_during_setup x tp cb s : Covered x s → Covered x (during_setup tp cb s).1.
Proof. intros HC. rewrite during_setup_fst. apply Covered_modify. by apply Covered_new. Qed.

Lemma Covered_emit x e s : Covered x s → Covered x (emit e s).
Proof. by apply Covered_same. Qed.

Lemma Covered_closure x s : Covered x s → Covered x (with_closures (S (closures s)) s).
Proof. by apply Covered_same. Qed.

Lemma Covered_cancelTarget x w t s : Covered x s → Covered x (cancelTarget w t s).
Proof.
  intros HC. unfold cancelTarget. destruct (AnimationMap_get w t s); [|done].
  by apply Covered_destroy.
Qed.

Lemma Covered_on x r (f : nat → State → State) s :
  (∀ a s, Covered x s → Covered x (f a s)) → Covered x s → Covered x (on r f s).
Proof. intros Hf HC. destruct r; simpl; [by apply Hf|done]. Qed.

(** The closure that [AnimationMap.set] registers is a new function. *)
Lemma cbset_add_fresh c code l :
  Anon c ∉ cb_id <$> l → mkCallback (Anon c) code ∈ cbset_add (mkCallback (Anon c) code) l.
Proof.
  intros Hc. unfold cbset_add. rewrite bool_decide_eq_false_2 by done.
  apply elem_of_app. right. by apply list_elem_of_singleton.
Qed.

(** [AnimationMap.set(t, a)] on a map other than [loopMap], or with an
    animation that is live and not yet in the map. *)
Lemma Covered_AnimationMap_set x w t a s :
  WF s →
  (w = LoopMap → alive a s ∧ ∀ T, targets s LoopMap !! T ≠ Some a) →
  Covered x s → Covered x (AnimationMap_set w t a s).
Proof.
  intros Hwf Ha HC. unfold AnimationMap_set, onDestroy.
  set (s1 := match AnimationMap_get w t s with Some old => destroy old s | None => s end).
  assert (HC1 : Covered x s1).
  { unfold s1. destruct (AnimationMap_get w t s); [by apply Covered_destroy|done]. }
  assert (Ht1 : targets s1 = targets s).
  { unfold s1. destruct (AnimationMap_get w t s) as [old|]; [|done].
    by destruct (destroy_others old s) as (_ & _ & _ & _ & _ & _ & Ht & _). }
  assert (Hst1 : steps from_client s s1).
  { unfold s1. destruct (AnimationMap_get w t s); [apply destroy_steps|apply steps_refl]. }
  assert (Hwf1 : WF s1) by (by eapply steps_WF).
  set (s2 := with_targets w (<[t := a]> (targets s1 w)) s1).
  set (c := closures s2).
  set (cb := mkCallback (Anon c) (MapCleanup w t a)).
  set (s3 := with_closures (S c) s2).
  destruct (decide (w = LoopMap)) as [->|Hw].
  - destruct (Ha eq_refl) as [Hal Hnot].
    assert (Hal1 : alive a s1).
    { unfold s1, AnimationMap_get. destruct (targets s LoopMap !! t) as [old|] eqn:Hold; [|done].
      assert (old ≠ a) by (intros ->; by destruct (Hnot t)).
      eapply (steps_alive (eq (LDestroy old))); [|
        eapply (steps_one _ (LDestroy old)); [done|constructor]|done].
      intros l <- [=]. done. }
    assert (Hal3 : alive a s3) by (by apply (alive_ext a s1 s3)).
    rewrite (register_alive KDestroy a cb s3 Hal3).
    intros T B. rewrite callbacks_add.
    change (targets (with_registry KDestroy _ s3) LoopMap !! T)
      with (targets s2 LoopMap !! T).
    unfold s2. rewrite targets_set. case_decide as HT.
    + destruct HT as [_ ->]. intros [= <-]. split; [by apply alive_lt in Hal1|].
      left. rewrite decide_True by done.
      exists cb. split; [|done]. apply cbset_add_fresh.
      intros Hin. pose proof (wf_closures s1 Hwf1 KDestroy a c Hin) as Hlt.
      unfold c in Hlt. simpl in Hlt. lia.
    + intros HT'. destruct (HC1 T B HT') as [Hlt [Hreg|Hx]]; (split; [done|]); [left|by right].
      case_decide as Hk; [|done]. destruct Hk as [_ ->].
      eapply has_cleanup_mono; [|exact Hreg]. intros cb'. apply cbset_add_keeps.
  - apply Covered_register, Covered_closure.
    revert HC1. apply Covered_ext; [|reflexivity|auto].
    unfold s2. destruct w; [done|reflexivity].
Qed.

Lemma alive_new cb s : alive (count s) (new_AnimationInstance cb s).1.
Proof.
  destruct (new_others cb s) as (Hh & _). unfold alive. rewrite Hh. apply alive_allocate.
Qed.

Lemma targets_new cb s : targets (new_AnimationInstance cb s).1 = targets s.
Proof. by destruct (new_others cb s) as (_ & _ & _ & _ & _ & Ht & _). Qed.

(** Client code keeps every entry of [loopMap] covered. *)
Lemma exec_Covered x sc : ∀ self last s,
  WF s → Covered x s → Covered x (exec sc self last s).1.
Proof.
  induction sc as [brk|r sc IH|r b sc IH|r x0 sc IH|r n body IHb sc IH|r n body IHb sc IH
                  |r n body IHb sc IH|r sc IH|r sc IH|r sc IH|n body IHb sc IH
                  |target n body IHb sc IH|target sc IH|tp n body IHb sc IH|tp sc IH
                  |target tp n body IHb sc IH|target tp sc IH|target sc IH|d sc IH];
    intros self last s Hwf HC; unfold exec; fold exec.
  - done.
  - apply IH; [eapply steps_WF; [apply on_steps, destroy_steps|done]|].
    apply Covered_on; [|done]. intros a s0. apply Covered_destroy.
  - apply IH; [eapply steps_WF; [|done]|].
    + apply on_steps. intros a s'. eapply (steps_one _ (LControl a)); [done|constructor].
    + apply Covered_on; [|done]. intros a s0. by apply Covered_modify.
  - apply IH; [eapply steps_WF; [|done]|].
    + apply on_steps. intros a s'. eapply (steps_one _ (LControl a)); [done|constructor].
    + apply Covered_on; [|done]. intros a s0. by apply Covered_modify.
  - apply IH; [eapply steps_WF; [apply on_steps; intros; apply register_steps|done]|].
    apply Covered_on; [|done]. intros a s0. apply Covered_register.
  - apply IH; [eapply steps_WF; [apply on_steps; intros; apply register_steps|done]|].
    apply Covered_on; [|done]. intros a s0. apply Covered_register.
  - apply IH; [eapply steps_WF; [apply on_steps; intros; apply register_steps|done]|].
    apply Covered_on; [|done]. intros a s0. apply Covered_register.
  - apply IH; [eapply steps_WF; [apply on_steps; intros; apply wait_steps; auto|done]|].
    apply Covered_on; [|done]. intros a s0. apply Covered_wait. auto.
  - apply IH; [eapply steps_WF; [apply on_steps; intros; apply wait_steps; auto|done]|].
    apply Covered_on; [|done]. intros a s0. apply Covered_wait. auto.
  - apply IH; [eapply steps_WF; [apply on_steps; intros; apply wait_steps; auto|done]|].
    apply Covered_on; [|done]. intros a s0. apply Covered_wait. auto.
  - unfold loop.
    pose proof (Covered_new x (Some (client n body)) s HC) as HC'.
    pose proof (new_steps (Some (client n body)) s (allocated_client n body s)) as Hst.
    destruct (new_AnimationInstance (Some (client n body)) s) as [s' a].
    apply IH; [by eapply steps_WF|done].
  - unfold loopWithTarget, loop.
    pose proof (Covered_new x (Some (client n body)) s HC) as HC'.
    pose proof (new_steps (Some (client n body)) s (allocated_client n body s)) as Hst.
    pose proof (alive_new (Some (client n body)) s) as Hal.
    pose proof (targets_new (Some (client n body)) s) as Ht.
    pose proof (new_AnimationInstance_snd (Some (client n body)) s) as Ha.
    destruct (new_AnimationInstance (Some (client n body)) s) as [s' a].
    cbn [fst snd] in HC', Hst, Hal, Ht, Ha. subst a.
    assert (Hwf' : WF s') by (by eapply steps_WF).
    apply IH; [eapply steps_WF; [apply AnimationMap_set_steps|done]|].
    apply Covered_AnimationMap_set; [done| |done].
    intros _. split; [done|]. intros T HT. rewrite Ht in HT.
    destruct (HC T (count s) HT) as [Hlt _]. lia.
  - apply IH; [eapply steps_WF; [apply cancelTarget_steps|done]|].
    by apply Covered_cancelTarget.
  - pose proof (Covered_during_setup x tp (Some (client n body)) s HC) as HC'.
    pose proof (during_setup_steps tp (Some (client n body)) s (allocated_client n body s))
      as Hst.
    pose proof (count_during_setup tp (Some (client n body)) s) as Hcnt.
    pose proof (during_setup_snd tp (Some (client n body)) s) as Ha.
    destruct (during_setup tp (Some (client n body)) s) as [s' a].
    cbn [fst snd] in HC', Hst, Hcnt, Ha. subst a.
    assert (Hwf' : WF s') by (by eapply steps_WF).
    destruct (immediate_of tp); [|by apply IH].
    assert (Hwfe : WF (emit (EvImmediate (count s) (Named n)) s')).
    { eapply steps_WF; [apply immediate_steps; lia|done]. }
    apply IH; [eapply steps_WF; [apply exec_steps|done]|].
    by apply IHb, Covered_emit.
  - pose proof (Covered_during_setup x tp None s HC) as HC'.
    pose proof (during_setup_steps tp None s ltac:(done)) as Hst.
    destruct (during_setup tp None s) as [s' a]. apply IH; [by eapply steps_WF|done].
  - pose proof (Covered_during_setup x tp (Some (client n body)) s HC) as HC'.
    pose proof (during_setup_steps tp (Some (client n body)) s (allocated_client n body s))
      as Hst.
    pose proof (count_during_setup tp (Some (client n body)) s) as Hcnt.
    pose proof (during_setup_snd tp (Some (client n body)) s) as Ha.
    destruct (during_setup tp (Some (client n body)) s) as [s' a].
    cbn [fst snd] in HC', Hst, Hcnt, Ha. subst a.
    assert (Hwf' : WF s') by (by eapply steps_WF).
    set (s2 := if immediate_of tp
               then (exec body (Some (count s)) None
                       (emit (EvImmediate (count s) (Named n)) s')).1
               else s').
    assert (H2 : WF s2 ∧ Covered x s2).
    { unfold s2. destruct (immediate_of tp); [|done].
      assert (Hwfe : WF (emit (EvImmediate (count s) (Named n)) s')).
      { eapply steps_WF; [apply immediate_steps; lia|done]. }
      split; [eapply steps_WF; [apply exec_steps|done]|].
      by apply IHb, Covered_emit. }
    destruct H2 as [Hwf2 HC2].
    apply IH; [eapply steps_WF; [apply AnimationMap_set_steps|done]|].
    by apply Covered_AnimationMap_set.
  - set (s0 := with_closures (S (closures s)) s).
    set (cb0 := mkCallback (Anon (closures s)) (Run (Return false))).
    assert (Hwf0 : WF s0).
    { eapply steps_WF; [eapply (steps_one from_client LClosure); [done|constructor]|done]. }
    assert (Hall : ∀ c, Some cb0 = Some c → allocated c s0).
    { intros c [= <-]. unfold allocated. simpl. lia. }
    pose proof (Covered_during_setup x tp (Some cb0) s0 (Covered_closure x s HC)) as HC'.
    pose proof (during_setup_steps tp (Some cb0) s0 Hall) as Hst.
    pose proof (count_during_setup tp (Some cb0) s0) as Hcnt.
    pose proof (during_setup_snd tp (Some cb0) s0) as Ha.
    destruct (during_setup tp (Some cb0) s0) as [s' a].
    cbn [fst snd] in HC', Hst, Hcnt, Ha. subst a.
    assert (Hwf' : WF s') by (by eapply steps_WF).
    set (s2 := if immediate_of tp then emit (EvImmediate (count s0) (Anon (closures s))) s'
               else s').
    assert (H2 : WF s2 ∧ Covered x s2).
    { unfold s2. destruct (immediate_of tp); [|done].
      split; [eapply steps_WF; [apply immediate_steps; lia|done]|by apply Covered_emit]. }
    destruct H2 as [Hwf2 HC2].
    apply IH; [eapply steps_WF; [apply AnimationMap_set_steps|done]|].
    by apply Covered_AnimationMap_set.
  - apply IH; [eapply steps_WF; [apply cancelTarget_steps|done]|].
    by apply Covered_cancelTarget.
  - pose proof (Covered_during_setup x (TimingNumber d) None s HC) as HC'.
    pose proof (during_setup_steps (TimingNumber d) None s ltac:(done)) as Hst.
    destruct (during_setup (TimingNumber d) None s) as [s' a]. cbn [fst] in HC', Hst.
    assert (Hwf' : WF s') by (by eapply steps_WF).
    apply IH; [eapply steps_WF; [apply wait_steps; auto|done]|].
    apply Covered_wait; auto.
Qed.

(** The scheduler calling a stored callback: a cleanup closure only
    deletes an entry. *)
Lemma invoke_Covered x k cb a s :
  WF s → a < count s → Covered x s → Covered x (invoke k cb a s).1.
Proof.
  intros Hwf Ha HC. unfold invoke.
  assert (Hwfe : WF (emit (EvCall k a (cb_id cb)) s)).
  { eapply steps_WF; [|exact Hwf]. eapply (steps_one (λ _, True) (LEmit _)); [done|].
    by constructor. }
  destruct (cb_code cb) as [body| |w t b] eqn:Hcode; cbn [fst].
  - by apply exec_Covered, Covered_emit.
  - by apply Covered_emit.
  - case_bool_decide as Hget; [|by apply Covered_emit].
    intros T B. destruct w.
    + rewrite targets_delete. case_decide as HT; [done|].
      apply (Covered_emit x (EvCall k a (cb_id cb)) s HC).
    + apply (Covered_emit x (EvCall k a (cb_id cb)) s HC).
Qed.

(** The cleanup closure of an entry, when [destroyAnimation] calls it,
    deletes the entry. *)
Lemma invoke_Covered_next B cb l s :
  WF s → B < count s →
  Covered (Some (B, cb :: l)) s → Covered (Some (B, l)) (invoke KDestroy cb B s).1.
Proof.
  intros Hwf HB HC.
  pose proof (invoke_Covered _ KDestroy cb B s Hwf HB HC) as HC'.
  intros T B' HT. destruct (HC' T B' HT) as [Hlt [Hreg|(l' & [= <- <-] & cb' & Hin & Hcode)]].
  - split; [done|]. by left.
  - split; [done|]. apply elem_of_cons in Hin as [->|Hin]; [|right; exists l; split; [done|by exists cb']].
    exfalso. revert HT. unfold invoke. rewrite Hcode. cbn [fst].
    case_bool_decide as Hget.
    + rewrite targets_delete, decide_True by done. done.
    + intros HT. apply Hget. exact HT.
Qed.

Lemma iterate_Covered x fuel k a : ∀ i brk s,
  WF s → a < count s → Covered x s → Covered x (iterate fuel k a i brk s).1.
Proof.
  induction fuel as [|fuel IH]; intros i brk s Hwf Ha HC; cbn [iterate]; [done|].
  destruct (callbacks k a s !! i) as [cb|] eqn:Hcb; [|done].
  pose proof (invoke_Covered x k cb a s Hwf Ha HC) as HC'.
  pose proof (invoke_steps k cb a s Ha) as Hst.
  destruct (invoke k cb a s) as [s' r]. cbn [fst] in HC', Hst.
  apply IH; [by eapply steps_WF|apply steps_count in Hst; lia|done].
Qed.

Lemma iterate_detached_Covered x k l a : ∀ brk s,
  WF s → a < count s → Covered x s → Covered x (iterate_detached k l a brk s).1.
Proof.
  induction l as [|cb l IH]; intros brk s Hwf Ha HC; cbn [iterate_detached]; [done|].
  pose proof (invoke_Covered x k cb a s Hwf Ha HC) as HC'.
  pose proof (invoke_steps k cb a s Ha) as Hst.
  destruct (invoke k cb a s) as [s' r]. cbn [fst] in HC', Hst.
  apply IH; [by eapply steps_WF|apply steps_count in Hst; lia|done].
Qed.

(** The loop of [destroyAnimation(B)] over the "on destroy" callbacks it
    took out of the registry. *)
Lemma iterate_detached_Covered_all B l : ∀ brk s,
  WF s → B < count s →
  Covered (Some (B, l)) s → Covered None (iterate_detached KDestroy l B brk s).1.
Proof.
  induction l as [|cb l IH]; intros brk s Hwf HB HC; cbn [iterate_detached].
  - intros T B' HT. destruct (HC T B' HT) as [Hlt [Hreg|(l' & [= <- <-] & cb' & Hin & _)]].
    + split; [done|]. by left.
    + by apply elem_of_nil in Hin.
  - pose proof (invoke_Covered_next B cb l s Hwf HB HC) as HC'.
    pose proof (invoke_steps KDestroy cb B s HB) as Hst.
    destruct (invoke KDestroy cb B s) as [s' r]. cbn [fst] in HC', Hst.
    apply IH; [by eapply steps_WF|apply steps_count in Hst; lia|done].
Qed.

Lemma Covered_unregister x k a s :
  k ≠ KDestroy → Covered x s → Covered x (with_registry k (delete a (registry s k)) s).
Proof.
  intros Hk. apply Covered_ext; [done|reflexivity|].
  intros B cb. rewrite callbacks_unregister. by rewrite decide_False by (intros [? _]; done).
Qed.

Lemma finish_Covered x a s : WF s → a < count s → Covered x s → Covered x (finish a s).
Proof.
  intros Hwf Ha HC. rewrite finish_phases. case_bool_decide; [|done]. cbn zeta.
  pose proof (frame_phase_steps a s Ha) as Hst1.
  assert (HC1 : Covered x (frame_phase a s).1).
  { unfold frame_phase. apply iterate_Covered.
    - eapply steps_WF; [|exact Hwf]. eapply steps_trans.
      + eapply (steps_one (λ _, True) (LEmit (EvFrame a))); [done|by constructor].
      + eapply (steps_one (λ _, True) (LIncrFrame a)); [done|constructor].
    - by rewrite count_modify.
    - apply Covered_modify. by apply Covered_emit. }
  set (p1 := frame_phase a s) in *.
  assert (Hwf1 : WF p1.1) by (by eapply steps_WF).
  assert (Ha1 : a < count p1.1) by (apply steps_count in Hst1; lia).
  pose proof (nextFrame_phase_steps a p1 Ha1) as Hst2.
  assert (HC2 : Covered x (nextFrame_phase a p1).1).
  { unfold nextFrame_phase.
    pose proof (getAndDelete_fst a (nextFrameCallbacks p1.1)) as Hf.
    pose proof (getAndDelete_snd a (nextFrameCallbacks p1.1)) as Hs.
    destruct (CallbackMap_getAndDelete a (nextFrameCallbacks p1.1)) as [set m].
    cbn [fst snd] in Hf, Hs. subst set m.
    apply iterate_detached_Covered; [|done|by apply Covered_unregister].
    eapply steps_WF; [|exact Hwf1].
    eapply (steps_one (λ _, True) (LUnregister KNextFrame a)); [done|constructor]. }
  set (p2 := nextFrame_phase a p1) in *.
  assert (Hwf2 : WF p2.1) by (by eapply steps_WF).
  assert (Ha2 : a < count p2.1) by (apply steps_count in Hst2; lia).
  unfold destroy_phase, complete_phase.
  assert (HC3 : Covered x (if is_complete a p2.1
                           then (iterate (set_size (callbacks KComplete a p2.1))
                                   KComplete a 0 false p2.1).1
                           else p2.1)).
  { destruct (is_complete a p2.1); [by apply iterate_Covered|done]. }
  destruct (p2.2 || _); [by apply Covered_destroy|done].
Qed.

Lemma visit_Covered x a s : WF s → Covered x s → Covered x (visit a s).
Proof.
  intros Hwf HC. unfold visit. destruct (heap s !! a) as [i|] eqn:Hi; [|done].
  destruct (negb (destroyed i) && negb (paused i)); [|done].
  rewrite updateAnimation_finish. apply finish_Covered.
  - eapply steps_WF; [|exact Hwf]. eapply steps_trans.
    + eapply (steps_one (λ _, True) (LEmit (EvUpdate a))); [done|].
      constructor. by apply lookup_lt_Some in Hi.
    + eapply (steps_one (λ _, True) (LAdvance a)); [done|constructor].
  - rewrite count_modify. by apply lookup_lt_Some in Hi.
  - apply Covered_modify. by apply Covered_emit.
Qed.

Lemma mainLoop_Covered x l : ∀ s, WF s → Covered x s → Covered x (mainLoop l s).
Proof.
  induction l as [|a l IH]; intros s Hwf HC; cbn [mainLoop]; [done|].
  apply IH; [eapply steps_WF; [apply visit_steps|done]|by apply visit_Covered].
Qed.

Lemma destroyAnimation_Covered a s :
  WF s → is_destroyed a s → Covered None s → Covered None (destroyAnimation a s).
Proof.
  intros Hwf Hd HC. rewrite destroyAnimation_cleared.
  assert (Hwfc : WF (cleared a s)) by (eapply steps_WF; [by apply cleared_steps|done]).
  apply iterate_detached_Covered_all; [done|by apply is_destroyed_lt in Hd|].
  intros T B HT. change (targets (cleared a s) LoopMap !! T) with (targets s LoopMap !! T) in HT.
  destruct (HC T B HT) as [Hlt [Hreg|(l & [=] & _)]]. split; [done|].
  destruct (decide (B = a)) as [->|Hne].
  - right. by exists (callbacks KDestroy a s).
  - left. unfold cleared. rewrite callbacks_unregister.
    rewrite decide_False by (intros [_ ?]; done).
    change (callbacks KDestroy B (with_registry KNextFrame _ _))
      with (callbacks KDestroy B s). done.
Qed.

Lemma frame_Covered ms s : WF s → Covered None s → Covered None (_innerLoop ms s).
Proof.
  intros Hwf HC. rewrite _innerLoop_loops.
  assert (HCl : Covered None (loops ms s)).
  { unfold loops. cbn zeta.
    set (s1 := with_updating true (clock ms s)).
    assert (HC1 : Covered None s1) by (by apply (Covered_same None s)).
    assert (Hwf1 : WF s1) by (by apply WF_start).
    set (s2 := mainLoop (animations s) s1).
    assert (HC2 : Covered None s2) by (by apply mainLoop_Covered).
    assert (Hwf2 : WF s2) by (eapply steps_WF; [apply mainLoop_steps|done]).
    apply (destroyLoop_rule (λ _, Covered None));
      [|done|done|rewrite (destroy_fuel_pot s2); lia|lia].
    intros p s0 a Hwf0 HC0 Ha. apply destroyAnimation_Covered; [done| |done].
    apply (wf_queued s0 Hwf0). by eapply list_elem_of_lookup_2. }
  by apply (Covered_same None (loops ms s)).
Qed.

Lemma run_Covered sts : ∀ s, WF s → Covered None s → Covered None (run sts s).
Proof.
  induction sts as [|st sts IH]; intros s Hwf HC; [done|]. rewrite run_cons.
  apply IH; [eapply steps_WF; [by apply do_step_steps|done]|].
  destruct st as [ms|sc]; cbn [do_step]; [by apply frame_Covered|by apply exec_Covered].
Qed.

(** An entry of [loopMap] never outlives its animation: at any moment of
    a run, the instance that [loopMap] holds for a target is live, or it
    is destroyed and waits in the queue for the next frame to remove it,
    and in both cases the closure that will delete the entry is among its
    "on destroy" callbacks.  After a frame, every instance in [loopMap] is
    live. *)
Theorem loopMap_entries_live (sts : list step) (T B : nat) :
  let s := run sts initial in
  targets s LoopMap !! T = Some B →
  (alive B s ∨ B ∈ destroyedAnimations s) ∧
  has_cleanup LoopMap T B (callbacks KDestroy B s) ∧
  (∀ pre ms, sts = pre ++ [Frame ms] → alive B s).
Proof.
  intros s HT.
  assert (HS : Settled s) by (apply reachable_Settled; by exists sts).
  assert (HC : Covered None s) by apply (run_Covered sts initial WF_initial Covered_initial).
  destruct (HC T B HT) as [Hlt [Hreg|(l & [=] & _)]].
  assert (Hq : alive B s ∨ B ∈ destroyedAnimations s).
  { destruct (allocated_cases B s Hlt) as [?|Hd]; [by left|right].
    destruct (decide (B ∈ destroyedAnimations s)) as [?|Hn]; [done|exfalso].
    destruct Hreg as (cb & Hin & _).
    rewrite (applied_no_callbacks s B KDestroy HS Hd Hn) in Hin by done.
    by apply elem_of_nil in Hin. }
  split; [done|]. split; [done|].
  intros pre ms ->. destruct Hq as [?|Hq]; [done|].
  unfold s in Hq. rewrite run_snoc in Hq. cbn [do_step] in Hq.
  rewrite frame_empties_queue in Hq. by apply elem_of_nil in Hq.
Qed.

Lemma loopMap_entries_live_witness :
  let sts := [Call (LoopWithTarget 5 0 (Return false) (Return false)); Frame (Q2Qc 16)] in
  let s := run sts initial in
  targets s LoopMap !! 5 = Some 0 ∧
  ((alive 0 s ∨ 0 ∈ destroyedAnimations s) ∧
   has_cleanup LoopMap 5 0 (callbacks KDestroy 0 s) ∧
   (∀ pre ms, sts = pre ++ [Frame ms] → alive 0 s)).
Proof.
  intros sts s.
  assert (HT : targets s LoopMap !! 5 = Some 0) by (vm_compute; reflexivity).
  split; [exact HT|].
  exact (loopMap_entries_live sts 5 0 HT).
Defined.
